(** * ecosim: a shallow embedding of [lifegen.py]

    The simulation engine of the repository is embedded function by function:
    the entity model ([Animal], [Herbivore], [Predator], [Plant], [Season],
    [Terrain]) and the orchestrator ([Ecosystem]) with its tick pipeline.

    Conventions of the embedding.
    - Python integers are [Z]; Python floats are rationals ([Q]).  The
      arithmetic on them is exact, except in
      [Predator._calculate_hunting_success_rate], where the sign of a sum
      close to 0 decides what a predator can do: there every operation is
      followed by the rounding of binary64 ([round64]).
    - The module-level generator [random] is an explicit source of raw draws
      ([Rng]); every library call that consumes randomness is a computation in
      the state monad [Rand].
    - [math.sin] has no rational counterpart: the temperature curve takes the
      function [sin_deg] (sine of an angle given in degrees) as a parameter.
    - Objects that the source mutates in place live in the rosters of the
      ecosystem and are addressed by their position in the roster; object
      identity ([is], the default [==]) is identity of the [id] field, which
      the global counter [animal_id_counter] makes unique.
    - The grid is a list of rows.  The source tests [0 <= r < rows] before
      every scan access, and the constructor builds exactly [rows] rows of
      [cols] cells; reads by coordinates of an animal go through the Python
      indexing rule [py_index] (negative indices wrap, others raise). *)

From Stdlib Require Import ZArith QArith Qminmax Qabs Qround Qpower Lqa Lia.
From stdpp Require Import base option list gmap.

Local Open Scope Z_scope.

(** ** The random source *)

Module Random.

(** The raw draws of the generator: [rng_draws] is the whole sequence,
    [rng_pos] the number of draws already consumed. *)
Record Rng := mkRng { rng_draws : nat -> N; rng_pos : nat }.

Definition Rand (A : Type) : Type := Rng -> A * Rng.

Definition ret {A} (a : A) : Rand A := fun g => (a, g).

Definition bind {A B} (c : Rand A) (k : A -> Rand B) : Rand B :=
  fun g => let (a, g') := c g in k a g'.

Definition draw : Rand N :=
  fun g => (rng_draws g (rng_pos g), mkRng (rng_draws g) (S (rng_pos g))).

End Random.
Export Random.

Notation "'let*' x ':=' c 'in' k" := (bind c (fun x => k))
  (at level 10, x pattern, c at level 100, k at level 200).

(** [random._randbelow(n)]: a value in [0, n). *)
Definition randbelow (n : Z) : Rand Z :=
  let* k := draw in ret (Z.of_N k mod n).

(** [random.random()]: a multiple of [2^-53] in [0, 1). *)
Definition random_random : Rand Q :=
  let* k := draw in ret (Qmake (Z.of_N k mod 2 ^ 53) (2 ^ 53)).

(** [random.uniform(a, b)] is [a + (b - a) * random()]. *)
Definition random_uniform (a b : Q) : Rand Q :=
  let* u := random_random in ret (a + (b - a) * u)%Q.

(** [random.randint(a, b)] is [a + _randbelow(b - a + 1)]. *)
Definition random_randint (a b : Z) : Rand Z :=
  let* k := randbelow (b - a + 1) in ret (a + k).

(** [random.choice(seq)] is [seq[_randbelow(len(seq))]]; every call site
    tests that the sequence is not empty, [d] stands for the [IndexError]. *)
Definition random_choice {A} (d : A) (l : list A) : Rand A :=
  let* k := randbelow (Z.of_nat (length l)) in ret (nth (Z.to_nat k) l d).

Definition swap {A} (l : list A) (i j : nat) : list A :=
  match l !! i, l !! j with
  | Some x, Some y => <[j := x]> (<[i := y]> l)
  | _, _ => l
  end.

(** [random.shuffle(x)]: for [i] from [len(x) - 1] down to [1], swap [x[i]]
    with [x[_randbelow(i + 1)]].  [shuffle_from i] runs the loop from [i]. *)
Fixpoint shuffle_from {A} (i : nat) (l : list A) : Rand (list A) :=
  match i with
  | O => ret l
  | S i' => let* j := randbelow (Z.of_nat (S (S i'))) in
            shuffle_from i' (swap l (S i') (Z.to_nat j))
  end.

Definition random_shuffle {A} (l : list A) : Rand (list A) :=
  shuffle_from (pred (length l)) l.

(** A loop over a list whose body draws from the generator. *)
Fixpoint foldM {S A} (f : S -> A -> Rand S) (s : S) (l : list A) : Rand S :=
  match l with
  | [] => ret s
  | x :: l' => let* s' := f s x in foldM f s' l'
  end.

(** The truth value of a list: it is not empty. *)
Definition truthy {A} (l : list A) : bool :=
  match l with [] => false | _ :: _ => true end.

(** [range(n)] as a list of integers. *)
Definition range (n : Z) : list Z := seqZ 0 n.

(** Python indexing [l[i]]: a negative index counts from the end, an index
    outside [-len, len) raises [IndexError] ([None]). *)
Definition py_index {A} (l : list A) (i : Z) : option A :=
  if 0 <=? i then l !! Z.to_nat i
  else if 0 <=? Z.of_nat (length l) + i
       then l !! Z.to_nat (Z.of_nat (length l) + i)
       else None.

Definition py_index_set {A} (l : list A) (i : Z) (x : A) : list A :=
  if 0 <=? i then <[Z.to_nat i := x]> l
  else if 0 <=? Z.of_nat (length l) + i
       then <[Z.to_nat (Z.of_nat (length l) + i) := x]> l
       else l.

(** ** Terrain *)

Inductive TerrainType := water | land | vegetation | sand.

Definition TerrainType_eqb (a b : TerrainType) : bool :=
  match a, b with
  | water, water | land, land | vegetation, vegetation | sand, sand => true
  | _, _ => false
  end.

(** [metadata] is a dictionary that only ever receives the keys ['feces'] and
    ['urine'], both with the value [True]. *)
Record Terrain := mkTerrain {
  terrain_type : TerrainType;
  elevation : Q;
  water_volume : Q;
  feces : bool;
  urine : bool
}.

(** [Terrain(terrain_type, elevation, water_volume=0)] *)
Definition Terrain_new (t : TerrainType) (elev vol : Q) : Terrain :=
  mkTerrain t elev vol false false.

Definition Terrain_new2 (t : TerrainType) (elev : Q) : Terrain :=
  Terrain_new t elev 0.

Definition is_water (t : Terrain) : bool := TerrainType_eqb (terrain_type t) water.

Definition add_water (dv : Q) (t : Terrain) : Terrain :=
  mkTerrain (terrain_type t) (elevation t) (water_volume t + dv)%Q (feces t) (urine t).

Definition mark_feces (t : Terrain) : Terrain :=
  mkTerrain (terrain_type t) (elevation t) (water_volume t) true (urine t).

Definition mark_urine (t : Terrain) : Terrain :=
  mkTerrain (terrain_type t) (elevation t) (water_volume t) (feces t) true.

Abbreviation Grid := (list (list Terrain)).

(** [grid[r][c]] at coordinates that passed the bounds test. *)
Definition cell (g : Grid) (r c : Z) : Terrain :=
  default (Terrain_new2 land 0) (row ← g !! Z.to_nat r; row !! Z.to_nat c).

(** [grid[r][c] = t] at coordinates that passed the bounds test. *)
Definition set_cell (g : Grid) (r c : Z) (t : Terrain) : Grid :=
  alter (fun row => <[Z.to_nat c := t]> row) (Z.to_nat r) g.

Definition upd_cell (g : Grid) (r c : Z) (f : Terrain -> Terrain) : Grid :=
  set_cell g r c (f (cell g r c)).

(** [grid[row][col]] at the coordinates of an animal, which no test guards. *)
Definition py_cell (g : Grid) (r c : Z) : option Terrain :=
  row ← py_index g r; py_index row c.

Definition py_set_cell (g : Grid) (r c : Z) (t : Terrain) : Grid :=
  match py_index g r with
  | Some row => py_index_set g r (py_index_set row c t)
  | None => g
  end.

(** ** Plants and seasons *)

Record Plant := mkPlant {
  p_nutrition : Q;
  p_is_dead : bool;
  p_ambient_temperature : Q
}.

(** [Plant()] starts with the integer nutrition 30. *)
Definition Plant_initial_nutrition : Z := 30.

Definition Plant_new : Plant := mkPlant (inject_Z Plant_initial_nutrition) false 20.

Definition Plant_handle_vital_stats (p : Plant) : Plant :=
  if Qle_bool 35 (p_ambient_temperature p)
  then mkPlant (p_nutrition p) true (p_ambient_temperature p)
  else p.

Record Season := mkSeason {
  temperature_modifier : Q;
  food_growth_rate : Q;
  predator_efficiency : Q
}.

(** Spring, Summer, Autumn, Winter. *)
Definition seasons : list Season :=
  [ mkSeason 5 (12 # 10) 1; mkSeason 10 1 (12 # 10);
    mkSeason 0 (8 # 10) 1; mkSeason (-5) (5 # 10) (11 # 10) ].

(** ** Animals *)

Inductive Species := Herbivore | Predator.
Inductive Sex := M | F.
Inductive Cause :=
  OldAge | Starvation | Dehydration | Hyperthermia | Exhaustion | Predation.

Definition Species_eqb (a b : Species) : bool :=
  match a, b with
  | Herbivore, Herbivore | Predator, Predator => true
  | _, _ => false
  end.

Definition Sex_eqb (a b : Sex) : bool :=
  match a, b with
  | M, M | F, F => true
  | _, _ => false
  end.

(** The randomised traits that the tick pipeline never writes.
    [reproduction_count] exists on herbivores only. *)
Record Traits := mkTraits {
  strength : Q;
  agility : Q;
  wisdom : Q;
  intelligence : Q;
  immune_system : Q;
  sensory_perception : Q;
  social_hierarchy_rank : Z;
  territory_size : Q;
  migratory_pattern : nat;
  aggressive : Q;
  curious : Q;
  social : Q;
  reproduction_count : option Z
}.

(** The attributes of an animal that the simulation reads or writes.
    [hunting_success_rate] exists on predators only; on a herbivore the field
    is never read. *)
Record Animal := mkAnimal {
  id : Z;
  species : Species;
  sex : Sex;
  speed : Q;
  traits : Traits;
  row : Z;
  col : Z;
  hunger : Z;
  thirst : Z;
  energy : Z;
  age : Z;
  max_age : Z;
  is_adult : bool;
  is_dead : bool;
  cause_of_death : option Cause;
  decay : Z;
  body_temperature : Q;
  fertility : Q;
  gestation_period : Z;
  reproduction_cooldown : Z;
  is_pregnant : bool;
  colon : Z;
  bladder : Z;
  hunting_success_rate : Q
}.

Definition set_position (r c : Z) (a : Animal) : Animal :=
  mkAnimal (id a) (species a) (sex a) (speed a) (traits a) r c
    (hunger a) (thirst a) (energy a) (age a) (max_age a) (is_adult a)
    (is_dead a) (cause_of_death a) (decay a) (body_temperature a)
    (fertility a) (gestation_period a) (reproduction_cooldown a)
    (is_pregnant a) (colon a) (bladder a) (hunting_success_rate a).

Definition set_hunger (v : Z) (a : Animal) : Animal :=
  mkAnimal (id a) (species a) (sex a) (speed a) (traits a) (row a) (col a)
    v (thirst a) (energy a) (age a) (max_age a) (is_adult a)
    (is_dead a) (cause_of_death a) (decay a) (body_temperature a)
    (fertility a) (gestation_period a) (reproduction_cooldown a)
    (is_pregnant a) (colon a) (bladder a) (hunting_success_rate a).

Definition set_thirst (v : Z) (a : Animal) : Animal :=
  mkAnimal (id a) (species a) (sex a) (speed a) (traits a) (row a) (col a)
    (hunger a) v (energy a) (age a) (max_age a) (is_adult a)
    (is_dead a) (cause_of_death a) (decay a) (body_temperature a)
    (fertility a) (gestation_period a) (reproduction_cooldown a)
    (is_pregnant a) (colon a) (bladder a) (hunting_success_rate a).

Definition set_energy (v : Z) (a : Animal) : Animal :=
  mkAnimal (id a) (species a) (sex a) (speed a) (traits a) (row a) (col a)
    (hunger a) (thirst a) v (age a) (max_age a) (is_adult a)
    (is_dead a) (cause_of_death a) (decay a) (body_temperature a)
    (fertility a) (gestation_period a) (reproduction_cooldown a)
    (is_pregnant a) (colon a) (bladder a) (hunting_success_rate a).

Definition set_age (v : Z) (a : Animal) : Animal :=
  mkAnimal (id a) (species a) (sex a) (speed a) (traits a) (row a) (col a)
    (hunger a) (thirst a) (energy a) v (max_age a) (is_adult a)
    (is_dead a) (cause_of_death a) (decay a) (body_temperature a)
    (fertility a) (gestation_period a) (reproduction_cooldown a)
    (is_pregnant a) (colon a) (bladder a) (hunting_success_rate a).

Definition set_is_adult (v : bool) (a : Animal) : Animal :=
  mkAnimal (id a) (species a) (sex a) (speed a) (traits a) (row a) (col a)
    (hunger a) (thirst a) (energy a) (age a) (max_age a) v
    (is_dead a) (cause_of_death a) (decay a) (body_temperature a)
    (fertility a) (gestation_period a) (reproduction_cooldown a)
    (is_pregnant a) (colon a) (bladder a) (hunting_success_rate a).

Definition set_dead (c : Cause) (a : Animal) : Animal :=
  mkAnimal (id a) (species a) (sex a) (speed a) (traits a) (row a) (col a)
    (hunger a) (thirst a) (energy a) (age a) (max_age a) (is_adult a)
    true (Some c) (decay a) (body_temperature a)
    (fertility a) (gestation_period a) (reproduction_cooldown a)
    (is_pregnant a) (colon a) (bladder a) (hunting_success_rate a).

Definition set_decay (v : Z) (a : Animal) : Animal :=
  mkAnimal (id a) (species a) (sex a) (speed a) (traits a) (row a) (col a)
    (hunger a) (thirst a) (energy a) (age a) (max_age a) (is_adult a)
    (is_dead a) (cause_of_death a) v (body_temperature a)
    (fertility a) (gestation_period a) (reproduction_cooldown a)
    (is_pregnant a) (colon a) (bladder a) (hunting_success_rate a).

Definition set_body_temperature (v : Q) (a : Animal) : Animal :=
  mkAnimal (id a) (species a) (sex a) (speed a) (traits a) (row a) (col a)
    (hunger a) (thirst a) (energy a) (age a) (max_age a) (is_adult a)
    (is_dead a) (cause_of_death a) (decay a) v
    (fertility a) (gestation_period a) (reproduction_cooldown a)
    (is_pregnant a) (colon a) (bladder a) (hunting_success_rate a).

Definition set_fertility (v : Q) (a : Animal) : Animal :=
  mkAnimal (id a) (species a) (sex a) (speed a) (traits a) (row a) (col a)
    (hunger a) (thirst a) (energy a) (age a) (max_age a) (is_adult a)
    (is_dead a) (cause_of_death a) (decay a) (body_temperature a)
    v (gestation_period a) (reproduction_cooldown a)
    (is_pregnant a) (colon a) (bladder a) (hunting_success_rate a).

Definition set_pregnant (gestation : Z) (a : Animal) : Animal :=
  mkAnimal (id a) (species a) (sex a) (speed a) (traits a) (row a) (col a)
    (hunger a) (thirst a) (energy a) (age a) (max_age a) (is_adult a)
    (is_dead a) (cause_of_death a) (decay a) (body_temperature a)
    (fertility a) gestation (reproduction_cooldown a)
    true (colon a) (bladder a) (hunting_success_rate a).

Definition set_colon (v : Z) (a : Animal) : Animal :=
  mkAnimal (id a) (species a) (sex a) (speed a) (traits a) (row a) (col a)
    (hunger a) (thirst a) (energy a) (age a) (max_age a) (is_adult a)
    (is_dead a) (cause_of_death a) (decay a) (body_temperature a)
    (fertility a) (gestation_period a) (reproduction_cooldown a)
    (is_pregnant a) v (bladder a) (hunting_success_rate a).

Definition set_bladder (v : Z) (a : Animal) : Animal :=
  mkAnimal (id a) (species a) (sex a) (speed a) (traits a) (row a) (col a)
    (hunger a) (thirst a) (energy a) (age a) (max_age a) (is_adult a)
    (is_dead a) (cause_of_death a) (decay a) (body_temperature a)
    (fertility a) (gestation_period a) (reproduction_cooldown a)
    (is_pregnant a) (colon a) v (hunting_success_rate a).

Definition set_hunting_success_rate (v : Q) (a : Animal) : Animal :=
  mkAnimal (id a) (species a) (sex a) (speed a) (traits a) (row a) (col a)
    (hunger a) (thirst a) (energy a) (age a) (max_age a) (is_adult a)
    (is_dead a) (cause_of_death a) (decay a) (body_temperature a)
    (fertility a) (gestation_period a) (reproduction_cooldown a)
    (is_pregnant a) (colon a) (bladder a) v.

(** [a is b] *)
Definition same_animal (a b : Animal) : bool := id a =? id b.

(** *** Methods of [Animal] *)

(** [Animal.undergo_decay] *)
Definition undergo_decay (a : Animal) : Animal :=
  if is_dead a then set_decay (Z.max (decay a - 5) 0) a else a.

(** [Animal._increase_colon_fill] *)
Definition _increase_colon_fill (a : Animal) : Animal :=
  set_colon (Z.min (colon a + 20) 100) a.

(** [Animal.feed], for a food source of the given nutrition. *)
Definition Animal_feed (nutrition : Z) (a : Animal) : Animal :=
  let a1 := set_hunger (Z.max (hunger a - nutrition) 0) a in
  let a2 := set_energy (Z.max (energy a1 + nutrition) 0) a1 in
  _increase_colon_fill a2.

(** [Animal._increase_bladder_fill] *)
Definition _increase_bladder_fill (a : Animal) : Animal :=
  set_bladder (Z.min (bladder a + 30) 100) a.

(** [Animal.drink] *)
Definition drink (a : Animal) : Animal :=
  _increase_bladder_fill (set_thirst (Z.max (thirst a - 50) 0) a).

(** [Animal.can_reproduce] *)
Definition Animal_can_reproduce (a : Animal) : bool :=
  Sex_eqb (sex a) F && negb (is_pregnant a) && (reproduction_cooldown a <=? 0)
  && (20 <? age a) && (age a <? 50) && (hunger a <? 20) && (thirst a <? 20)
  && Qle_bool 8 (fertility a).

(** [Animal._meets_reproduction_conditions] *)
Definition _meets_reproduction_conditions (a other : Animal) : bool :=
  is_adult a && is_adult other && Species_eqb (species a) (species other)
  && Sex_eqb (sex a) F && negb (Sex_eqb (sex other) F)
  && negb (is_dead a) && negb (is_dead other).

(** [Animal._initiate_pregnancy] *)
Definition _initiate_pregnancy (a : Animal) : Animal := set_pregnant 100 a.

(** [Animal.reproduce]: the pregnancy is a side effect on [self]; the value
    returned, the child, is [None] on both paths. *)
Definition Animal_reproduce (a other : Animal) : Animal * option Animal :=
  if _meets_reproduction_conditions a other
  then (_initiate_pregnancy a, None)
  else (a, None).

(** [Animal._age_animal] *)
Definition _age_animal (a : Animal) : Animal :=
  let a1 := set_age (age a + 1) a in
  if (20 <=? age a1) && negb (is_adult a1) then set_is_adult true a1 else a1.

(** [Animal._increase_hunger] *)
Definition _increase_hunger (a : Animal) : Animal :=
  set_hunger (Z.min (hunger a + 10) 100) a.

(** [Animal._increase_thirst] *)
Definition _increase_thirst (a : Animal) : Animal :=
  set_thirst (Z.min (thirst a + 10) 100) a.

(** [Animal._regenerate_energy] *)
Definition _regenerate_energy (a : Animal) : Animal :=
  if hunger a <? 100 then set_energy (Z.min (energy a + 5) 100) a else a.

(** [Animal.die] *)
Definition die (c : Cause) (a : Animal) : Animal :=
  if negb (is_dead a) then set_dead c a else a.

(** [Animal._check_death_conditions] *)
Definition _check_death_conditions (a : Animal) : Animal :=
  if max_age a <=? age a then die OldAge a
  else if 100 <=? hunger a then die Starvation a
  else if 100 <=? thirst a then die Dehydration a
  else if Qle_bool 42 (body_temperature a) then die Hyperthermia a
  else if energy a <=? 0 then die Exhaustion a
  else a.

(** [Animal.handle_vital_stats] *)
Definition handle_vital_stats (a : Animal) : Animal :=
  _regenerate_energy
    (_check_death_conditions
       (_increase_thirst (_increase_hunger (_age_animal a)))).

(** *** Methods of [Herbivore] *)

(** [Herbivore.feed]: the food source handed over by [_feed_herbivore] is a
    fresh [Plant()]. *)
Definition Herbivore_feed (a : Animal) : Animal :=
  Animal_feed Plant_initial_nutrition a.

(** [Herbivore.can_reproduce] *)
Definition Herbivore_can_reproduce (a : Animal) : bool :=
  Animal_can_reproduce a && is_adult a.

(** [Herbivore.reproduce] *)
Definition Herbivore_reproduce (a other : Animal) : Animal * option Animal :=
  if Herbivore_can_reproduce a && is_adult other
     && Species_eqb (species a) (species other)
     && negb (Sex_eqb (sex a) (sex other))
  then (set_pregnant 20 a, None)
  else (a, None).

(** Method dispatch on the class of [self]. *)
Definition reproduce (a other : Animal) : Animal * option Animal :=
  match species a with
  | Herbivore => Herbivore_reproduce a other
  | Predator => Animal_reproduce a other
  end.

(** *** Methods of [Predator] *)

(** Binary64 arithmetic.  A Python float is a binary64 number, and every
    operation on floats returns the binary64 number nearest to the exact
    result, of two nearest the one whose last bit is 0.  [round64] is that
    rounding on rationals: 53 significant bits, the exponent taken from the
    number itself.  The range of the exponent is not modelled: a sum or a
    difference of binary64 numbers that is too small for a normal number is
    exact, and what is computed from a finite speed stays far from the
    largest binary64 number. *)

(** [floor(log2 x)] for a positive rational [x]. *)
Definition ilog2 (x : Q) : Z :=
  let k := Z.log2 (Qnum x) - Z.log2 (Zpos (Qden x)) in
  if Qle_bool (2 ^ k)%Q x then k else k - 1.

(** The integer nearest to [t], of two nearest the even one. *)
Definition round_half_even (t : Q) : Z :=
  let f := Qfloor t in
  match (t - inject_Z f ?= 1 # 2)%Q with
  | Lt => f
  | Gt => f + 1
  | Eq => if Z.even f then f else f + 1
  end.

(** The number of 53 significant bits nearest to a positive [x]. *)
Definition round53 (x : Q) : Q :=
  let e := ilog2 x - 52 in
  (inject_Z (round_half_even (x / 2 ^ e)) * 2 ^ e)%Q.

Definition round64 (x : Q) : Q :=
  match (x ?= 0)%Q with
  | Eq => 0%Q
  | Gt => round53 x
  | Lt => (- round53 (- x))%Q
  end.

(** [Predator._calculate_hunting_success_rate]: the argument is a float,
    the binary64 number that [speed] denotes ([round64] leaves a binary64
    number as it is); the literals [0.2], [3.5] and [1.0] are the binary64
    numbers nearest to them ([3.5] and [1.0] are exact), the division by
    [1.0] returns its operand, and [min] compares exactly. *)
Definition _calculate_hunting_success_rate (speed : Q) : Q :=
  let speed := round64 speed in
  let base_rate := round64 (2 # 10) in
  let speed_factor := (round64 (speed - (35 # 10)) / 1)%Q in
  Qmin (round64 (base_rate + speed_factor)) 1.

Definition hunger_decrease_on_feed : Z := 80.

(** [Predator._is_near] and [Ecosystem._is_adjacent] *)
Definition _is_adjacent (row1 col1 row2 col2 : Z) : bool :=
  (Z.abs (row1 - row2) <=? 1) && (Z.abs (col1 - col2) <=? 1).

Definition _is_near (p h : Animal) : bool :=
  _is_adjacent (row p) (col p) (row h) (col h).

(** The predator's share of [Predator._consume_prey]. *)
Definition _consume_prey_self (p : Animal) : Animal :=
  let p1 := set_hunger (Z.max (hunger p - hunger_decrease_on_feed) 0) p in
  set_thirst (Z.max (thirst p1 - 50) 0) p1.

(** [Predator.move] *)
Definition Predator_move (valid_moves : list (Z * Z)) (p : Animal) : Rand Animal :=
  if truthy valid_moves && (0 <? energy p) && negb (is_dead p)
  then let* m := random_choice (0, 0) valid_moves in
       let p1 := set_position (fst m) (snd m) p in
       ret (set_energy (energy p1 - 1) p1)
  else ret p.

(** ** The ecosystem *)

Definition Qltb (x y : Q) : bool := negb (Qle_bool y x).

(** [animals_on_tile] is a [defaultdict(list)] from tiles to the animals that
    moved there; of an entry only its identity and its species are read.
    [animal_id_counter] is the global variable of the module.
    [current_season] is the position of the season in [seasons]. *)
Record Ecosystem := mkEcosystem {
  rows : Z;
  cols : Z;
  grid : Grid;
  manual_temperature_control : bool;
  herbivores : list Animal;
  predators : list Animal;
  plants : list Plant;
  cycle : Z;
  ambient_temperature : Q;
  precipitation_level : Z;
  current_season : nat;
  season_cycle : Z;
  season_duration : Z;
  herbivore_population_data : list Z;
  predator_population_data : list Z;
  plant_population_data : list Z;
  animals_on_tile : gmap (Z * Z) (list (Z * Species));
  animal_id_counter : Z
}.

Definition set_grid (g : Grid) (e : Ecosystem) : Ecosystem :=
  mkEcosystem (rows e) (cols e) g (manual_temperature_control e)
    (herbivores e) (predators e) (plants e) (cycle e) (ambient_temperature e)
    (precipitation_level e) (current_season e) (season_cycle e)
    (season_duration e) (herbivore_population_data e)
    (predator_population_data e) (plant_population_data e)
    (animals_on_tile e) (animal_id_counter e).

Definition set_herbivores (l : list Animal) (e : Ecosystem) : Ecosystem :=
  mkEcosystem (rows e) (cols e) (grid e) (manual_temperature_control e)
    l (predators e) (plants e) (cycle e) (ambient_temperature e)
    (precipitation_level e) (current_season e) (season_cycle e)
    (season_duration e) (herbivore_population_data e)
    (predator_population_data e) (plant_population_data e)
    (animals_on_tile e) (animal_id_counter e).

Definition set_predators (l : list Animal) (e : Ecosystem) : Ecosystem :=
  mkEcosystem (rows e) (cols e) (grid e) (manual_temperature_control e)
    (herbivores e) l (plants e) (cycle e) (ambient_temperature e)
    (precipitation_level e) (current_season e) (season_cycle e)
    (season_duration e) (herbivore_population_data e)
    (predator_population_data e) (plant_population_data e)
    (animals_on_tile e) (animal_id_counter e).

Definition set_plants (l : list Plant) (e : Ecosystem) : Ecosystem :=
  mkEcosystem (rows e) (cols e) (grid e) (manual_temperature_control e)
    (herbivores e) (predators e) l (cycle e) (ambient_temperature e)
    (precipitation_level e) (current_season e) (season_cycle e)
    (season_duration e) (herbivore_population_data e)
    (predator_population_data e) (plant_population_data e)
    (animals_on_tile e) (animal_id_counter e).

Definition set_cycle (v : Z) (e : Ecosystem) : Ecosystem :=
  mkEcosystem (rows e) (cols e) (grid e) (manual_temperature_control e)
    (herbivores e) (predators e) (plants e) v (ambient_temperature e)
    (precipitation_level e) (current_season e) (season_cycle e)
    (season_duration e) (herbivore_population_data e)
    (predator_population_data e) (plant_population_data e)
    (animals_on_tile e) (animal_id_counter e).

Definition set_ambient_temperature (v : Q) (e : Ecosystem) : Ecosystem :=
  mkEcosystem (rows e) (cols e) (grid e) (manual_temperature_control e)
    (herbivores e) (predators e) (plants e) (cycle e) v
    (precipitation_level e) (current_season e) (season_cycle e)
    (season_duration e) (herbivore_population_data e)
    (predator_population_data e) (plant_population_data e)
    (animals_on_tile e) (animal_id_counter e).

Definition set_season (s : nat) (c : Z) (e : Ecosystem) : Ecosystem :=
  mkEcosystem (rows e) (cols e) (grid e) (manual_temperature_control e)
    (herbivores e) (predators e) (plants e) (cycle e) (ambient_temperature e)
    (precipitation_level e) s c
    (season_duration e) (herbivore_population_data e)
    (predator_population_data e) (plant_population_data e)
    (animals_on_tile e) (animal_id_counter e).

Definition set_population_data (h p pl : list Z) (e : Ecosystem) : Ecosystem :=
  mkEcosystem (rows e) (cols e) (grid e) (manual_temperature_control e)
    (herbivores e) (predators e) (plants e) (cycle e) (ambient_temperature e)
    (precipitation_level e) (current_season e) (season_cycle e)
    (season_duration e) h p pl
    (animals_on_tile e) (animal_id_counter e).

Definition set_animals_on_tile (m : gmap (Z * Z) (list (Z * Species)))
    (e : Ecosystem) : Ecosystem :=
  mkEcosystem (rows e) (cols e) (grid e) (manual_temperature_control e)
    (herbivores e) (predators e) (plants e) (cycle e) (ambient_temperature e)
    (precipitation_level e) (current_season e) (season_cycle e)
    (season_duration e) (herbivore_population_data e)
    (predator_population_data e) (plant_population_data e)
    m (animal_id_counter e).

Definition set_precipitation_level (v : Z) (e : Ecosystem) : Ecosystem :=
  mkEcosystem (rows e) (cols e) (grid e) (manual_temperature_control e)
    (herbivores e) (predators e) (plants e) (cycle e) (ambient_temperature e)
    v (current_season e) (season_cycle e)
    (season_duration e) (herbivore_population_data e)
    (predator_population_data e) (plant_population_data e)
    (animals_on_tile e) (animal_id_counter e).

Definition set_animal_id_counter (v : Z) (e : Ecosystem) : Ecosystem :=
  mkEcosystem (rows e) (cols e) (grid e) (manual_temperature_control e)
    (herbivores e) (predators e) (plants e) (cycle e) (ambient_temperature e)
    (precipitation_level e) (current_season e) (season_cycle e)
    (season_duration e) (herbivore_population_data e)
    (predator_population_data e) (plant_population_data e)
    (animals_on_tile e) v.

(** *** Neighbourhoods *)

(** [0 <= r < self.rows and 0 <= c < self.cols] *)
Definition in_bounds (nrows ncols : Z) (p : Z * Z) : bool :=
  (0 <=? fst p) && (fst p <? nrows) && (0 <=? snd p) && (snd p <? ncols).

(** [[(row + i, col + j) for i in [-1, 0, 1] for j in [-1, 0, 1]]] *)
Definition block3 (r c : Z) : list (Z * Z) :=
  flat_map (fun i => map (fun j => (r + i, c + j)) [-1; 0; 1]) [-1; 0; 1].

(** The same without the offset [(0, 0)]. *)
Definition ring8 (r c : Z) : list (Z * Z) :=
  flat_map (fun i => flat_map (fun j =>
      if (i =? 0) && (j =? 0) then [] else [(r + i, c + j)]) [-1; 0; 1])
    [-1; 0; 1].

(** [[(-1, 0), (1, 0), (0, -1), (0, 1)]] applied to [(row, col)]. *)
Definition cross4 (r c : Z) : list (Z * Z) :=
  map (fun d => (r + fst d, c + snd d)) [(-1, 0); (1, 0); (0, -1); (0, 1)].

Definition is_water_at (g : Grid) (p : Z * Z) : bool :=
  is_water (cell g (fst p) (snd p)).

(** [Ecosystem._get_neighbors]: the cell itself is one of them. *)
Definition _get_neighbors (nrows ncols r c : Z) : list (Z * Z) :=
  List.filter (in_bounds nrows ncols) (block3 r c).

(** [Ecosystem.count_water_neighbors] *)
Definition count_water_neighbors (nrows ncols : Z) (g : Grid) (r c : Z) : Z :=
  Z.of_nat (length (List.filter (fun p => in_bounds nrows ncols p && is_water_at g p)
                      (ring8 r c))).

(** [Ecosystem._is_adjacent_to_water]: the four orthogonal neighbours. *)
Definition _is_adjacent_to_water (nrows ncols : Z) (g : Grid) (r c : Z) : bool :=
  existsb (fun p => in_bounds nrows ncols p && is_water_at g p) (cross4 r c).

(** [Ecosystem.is_adjacent_to_water]: the eight neighbours. *)
Definition is_adjacent_to_water (nrows ncols : Z) (g : Grid) (r c : Z) : bool :=
  existsb (is_water_at g) (List.filter (in_bounds nrows ncols) (ring8 r c)).

(** [Ecosystem.is_land_and_surrounded_by_water] *)
Definition is_land_and_surrounded_by_water (nrows ncols : Z) (g : Grid)
    (r c threshold : Z) : bool :=
  let water_count :=
    Z.of_nat (length (List.filter (is_water_at g) (_get_neighbors nrows ncols r c))) in
  negb (is_water (cell g r c)) && (threshold <=? water_count).

(** The coordinates of the scan [for row in range(rows): for col in range(cols)]. *)
Definition scan (nrows ncols : Z) : list (Z * Z) :=
  flat_map (fun r => map (fun c => (r, c)) (range ncols)) (range nrows).

(** *** Hydrology *)

(** One neighbour of the flood fill: a dry cell of elevation below 0.2 turns
    into water (of volume 0, the default of [Terrain]) and is pushed. *)
Definition flood_visit (nrows ncols : Z) (st : Grid * list (Z * Z)) (p : Z * Z)
    : Grid * list (Z * Z) :=
  let (g, stack) := st in
  if in_bounds nrows ncols p then
    let neighbor := cell g (fst p) (snd p) in
    if negb (is_water neighbor) && Qltb (elevation neighbor) (2 # 10)
    then (set_cell g (fst p) (snd p) (Terrain_new2 water (elevation neighbor)),
          p :: stack)
    else (g, stack)
  else (g, stack).

(** The [while stack:] loop of [Ecosystem._flood_fill]; the head of the list
    is the top of the stack.  [fuel] bounds the number of iterations. *)
Fixpoint flood_loop (fuel : nat) (nrows ncols : Z) (water_amount : Q)
    (g : Grid) (stack : list (Z * Z)) : Grid * list (Z * Z) :=
  match fuel, stack with
  | S fuel', p :: rest =>
      let g1 := upd_cell g (fst p) (snd p) (add_water (water_amount / 4)) in
      let (g2, stack2) :=
        fold_left (flood_visit nrows ncols) (cross4 (fst p) (snd p)) (g1, rest) in
      flood_loop fuel' nrows ncols water_amount g2 stack2
  | _, _ => (g, stack)
  end.

(** Every iteration pops one cell and every push turns a dry cell into
    water, so one more iteration than there are cells empties the stack. *)
Definition flood_fuel (nrows ncols : Z) : nat := S (Z.to_nat (nrows * ncols)).

(** [Ecosystem._flood_fill] *)
Definition _flood_fill (nrows ncols : Z) (g : Grid) (r c : Z) (water_amount : Q)
    : Grid :=
  fst (flood_loop (flood_fuel nrows ncols) nrows ncols water_amount g [(r, c)]).

(** The body of the neighbour loop of [Ecosystem.adjust_water_volume] for the
    source [(row, col)] and the neighbour [n]. *)
Definition adjust_flow (row col : Z) (g : Grid) (n : Z * Z) : Grid :=
  let (r, c) := n in
  if Qltb (elevation (cell g r c)) (elevation (cell g row col)) then
    let water_movement :=
      Qmin (water_volume (cell g row col) * (5 # 100))%Q
           (water_volume (cell g row col)) in
    let g1 := upd_cell g r c (add_water water_movement) in
    let g2 := upd_cell g1 row col (add_water (- water_movement)) in
    let g3 :=
      if Qltb (water_volume (cell g2 row col)) 10
      then set_cell g2 row col (Terrain_new2 land (elevation (cell g2 row col)))
      else g2 in
    if Qltb 10 (water_volume (cell g3 r c)) && negb (is_water (cell g3 r c))
    then set_cell g3 r c
           (Terrain_new water (elevation (cell g3 r c)) (water_volume (cell g3 r c)))
    else g3
  else g.

(** [Ecosystem.adjust_water_volume] *)
Definition adjust_water_volume (nrows ncols : Z) (g : Grid) : Grid :=
  fold_left
    (fun g p =>
       if is_water (cell g (fst p) (snd p))
       then fold_left (adjust_flow (fst p) (snd p))
              (_get_neighbors nrows ncols (fst p) (snd p)) g
       else g)
    (scan nrows ncols) g.

(** [Ecosystem._precipitate] *)
Definition _precipitate (e : Ecosystem) : Rand Ecosystem :=
  let* k := random_randint 0 100 in
  if k <? precipitation_level e then
    let g1 :=
      fold_left
        (fun g p =>
           if is_water (cell g (fst p) (snd p))
           then _flood_fill (rows e) (cols e) g (fst p) (snd p) 200
           else g)
        (scan (rows e) (cols e)) (grid e) in
    ret (set_grid (adjust_water_volume (rows e) (cols e) g1) e)
  else ret e.

(** [Ecosystem._handle_extreme_heat] *)
Definition _handle_extreme_heat (e : Ecosystem) : Ecosystem :=
  if Qle_bool 100 (ambient_temperature e) then
    set_grid
      (fold_left
         (fun g p =>
            if is_water (cell g (fst p) (snd p))
            then set_cell g (fst p) (snd p)
                   (Terrain_new2 land (elevation (cell g (fst p) (snd p))))
            else g)
         (scan (rows e) (cols e)) (grid e))
      e
  else e.

(** *** Temperature and seasons *)

(** [Ecosystem._adjust_temperature]; [sin_deg c] is
    [math.sin(math.pi * c / 180)]. *)
Definition _adjust_temperature (sin_deg : Z -> Q) (e : Ecosystem) : Ecosystem :=
  if negb (manual_temperature_control e)
  then set_ambient_temperature (10 * sin_deg (cycle e) + 20)%Q e
  else e.

Definition scale_nutrition (k : Q) (p : Plant) : Plant :=
  mkPlant (p_nutrition p * k)%Q (p_is_dead p) (p_ambient_temperature p).

(** [Season.apply_seasonal_effects] *)
Definition apply_seasonal_effects (s : Season) (e : Ecosystem) : Ecosystem :=
  let e1 := set_ambient_temperature
              (ambient_temperature e + temperature_modifier s)%Q e in
  let e2 := set_plants (map (scale_nutrition (food_growth_rate s / 2)%Q) (plants e1)) e1 in
  set_predators
    (map (fun p => set_hunting_success_rate
                     (hunting_success_rate p * predator_efficiency s)%Q p)
         (predators e2))
    e2.

(** [Ecosystem._change_season] *)
Definition _change_season (e : Ecosystem) : Ecosystem :=
  let next_season_index := ((current_season e + 1) mod length seasons)%nat in
  let e1 := set_season next_season_index 0 e in
  match seasons !! next_season_index with
  | Some s => apply_seasonal_effects s e1
  | None => e1
  end.

(** [Ecosystem._update_season_cycle] *)
Definition _update_season_cycle (e : Ecosystem) : Ecosystem :=
  let e1 := set_season (current_season e) (season_cycle e + 1) e in
  if season_duration e1 <=? season_cycle e1 then _change_season e1 else e1.

(** [Ecosystem.update_environment]; the call of [_evaporate_water] is
    commented out in the source. *)
Definition update_environment (sin_deg : Z -> Q) (e : Ecosystem) : Rand Ecosystem :=
  let e1 := _adjust_temperature sin_deg e in
  let* e2 := _precipitate e1 in
  let e3 := _handle_extreme_heat e2 in
  ret (_update_season_cycle e3).

(** *** Occupancy and movement *)

Definition tile_animals (m : gmap (Z * Z) (list (Z * Species))) (tile : Z * Z)
    : list (Z * Species) :=
  default [] (m !! tile).

(** [Ecosystem.is_tile_occupied_by_same_species] *)
Definition is_tile_occupied_by_same_species (e : Ecosystem) (tile : Z * Z)
    (sp : Species) : bool :=
  existsb (fun x => Species_eqb (snd x) sp) (tile_animals (animals_on_tile e) tile).

(** [Ecosystem.is_tile_occupied] *)
Definition is_tile_occupied (e : Ecosystem) (r c : Z) : bool :=
  existsb (fun a => (row a =? r) && (col a =? c)) (herbivores e ++ predators e).

Definition passable (g : Grid) (p : Z * Z) : bool :=
  match terrain_type (cell g (fst p) (snd p)) with
  | land | vegetation => true
  | _ => false
  end.

(** [Ecosystem._get_valid_moves]: the offset [(0, 0)] is one of the moves. *)
Definition _get_valid_moves (e : Ecosystem) (r c : Z) : Rand (list (Z * Z)) :=
  let moves := block3 r c in
  let valid_moves := List.filter (in_bounds (rows e) (cols e)) moves in
  let valid_moves := List.filter (passable (grid e)) valid_moves in
  random_shuffle valid_moves.

(** [Ecosystem._is_within_radius]: [sqrt(dr^2 + dc^2) <= radius] on integers. *)
Definition _is_within_radius (a1 a2 : Animal) (radius : Z) : bool :=
  (row a1 - row a2) ^ 2 + (col a1 - col a2) ^ 2 <=? radius ^ 2.

(** [Ecosystem.get_nearby_animals] *)
Definition get_nearby_animals (e : Ecosystem) (a : Animal) (radius : Z)
    : list Animal :=
  List.filter
    (fun b => negb (same_animal b a) && is_adult b && _is_within_radius a b radius)
    (herbivores e ++ predators e).

(** [min(l, key=key)] on a list that starts with [best]: the first element of
    least key. *)
Fixpoint min_by {A} (key : A -> Q) (best : A) (l : list A) : A :=
  match l with
  | [] => best
  | x :: l' => min_by key (if Qltb (key x) (key best) then x else best) l'
  end.

Definition sum_Z (l : list Z) : Z := fold_right Z.add 0 l.

(** [Animal._choose_new_location] *)
Definition _choose_new_location (a : Animal) (valid_moves : list (Z * Z))
    (nearby_adults : list Animal) : Rand (Z * Z) :=
  if truthy nearby_adults && negb (is_adult a) then
    let n := inject_Z (Z.of_nat (length nearby_adults)) in
    let center_row := (inject_Z (sum_Z (map row nearby_adults)) / n)%Q in
    let center_col := (inject_Z (sum_Z (map col nearby_adults)) / n)%Q in
    let key := fun pos : Z * Z =>
      (Qabs (inject_Z (fst pos) - center_row)
       + Qabs (inject_Z (snd pos) - center_col))%Q in
    ret (match valid_moves with
         | [] => (row a, col a)
         | m :: rest => min_by key m rest
         end)
  else random_choice (row a, col a) valid_moves.

(** [l.remove(x)] for an [x] that is in [l]: the first occurrence goes. *)
Fixpoint remove_first {A} (p : A -> bool) (l : list A) : list A :=
  match l with
  | [] => []
  | x :: l' => if p x then l' else x :: remove_first p l'
  end.

(** [Animal.move]: the effect on the animal and on [animals_on_tile]. *)
Definition Animal_move (e : Ecosystem) (valid_moves : list (Z * Z))
    (nearby_adults : list Animal) (a : Animal) : Rand (Animal * Ecosystem) :=
  if truthy valid_moves && (0 <? energy a) && negb (is_dead a) then
    let valid_moves :=
      List.filter
        (fun mv => negb (is_tile_occupied_by_same_species e mv (species a)))
        valid_moves in
    if truthy valid_moves then
      let* new := _choose_new_location a valid_moves nearby_adults in
      let here := (row a, col a) in
      let m := animals_on_tile e in
      let m1 :=
        if existsb (fun x => fst x =? id a) (tile_animals m here)
        then <[here := remove_first (fun x => fst x =? id a) (tile_animals m here)]> m
        else m in
      let a1 := set_position (fst new) (snd new) a in
      let m2 := <[new := tile_animals m1 new ++ [(id a, species a)]]> m1 in
      ret (a1, set_animals_on_tile m2 e)
    else ret (a, e)
  else ret (a, e).

(** [Ecosystem.handle_movement]; it is called for herbivores, whose [move] is
    [Animal.move]. *)
Definition handle_movement (e : Ecosystem) (a : Animal) : Rand (Animal * Ecosystem) :=
  if negb (is_dead a) then
    let* valid_moves := _get_valid_moves e (row a) (col a) in
    let nearby_adults := get_nearby_animals e a 5 in
    Animal_move e valid_moves nearby_adults a
  else ret (a, e).

(** *** Drinking, feeding, waste *)

(** [Ecosystem.handle_drinking] *)
Definition handle_drinking (e : Ecosystem) (a : Animal) : Animal :=
  if negb (is_dead a)
     && _is_adjacent_to_water (rows e) (cols e) (grid e) (row a) (col a)
  then set_thirst (Z.max (thirst a - 50) 0) a
  else a.

(** [Ecosystem._feed_herbivore]; an [IndexError] of [grid[row][col]] ends the
    call (it is caught in [handle_feeding]). *)
Definition _feed_herbivore (e : Ecosystem) (h : Animal) : Animal * Ecosystem :=
  match py_cell (grid e) (row h) (col h) with
  | Some t =>
      match terrain_type t with
      | vegetation =>
          (Herbivore_feed h,
           set_grid (py_set_cell (grid e) (row h) (col h)
                       (Terrain_new2 land (elevation t))) e)
      | _ => (h, e)
      end
  | None => (h, e)
  end.

(** [Predator.hunt]: the prey dies and leaves the roster in the same call. *)
Definition hunt (e : Ecosystem) (p prey : Animal) : Rand (Animal * Ecosystem) :=
  let p1 := set_energy (energy p - 20) p in
  let* u := random_random in
  if Qltb u (hunting_success_rate p1) then
    let p2 := _consume_prey_self p1 in
    ret (p2, set_herbivores (remove_first (same_animal prey) (herbivores e)) e)
  else ret (p1, e).

(** [Predator.feed] *)
Definition Predator_feed (e : Ecosystem) (p : Animal) : Rand (Animal * Ecosystem) :=
  let potential_prey := List.filter (_is_near p) (herbivores e) in
  if truthy potential_prey then
    let* prey := random_choice p potential_prey in
    hunt e p prey
  else ret (p, e).

(** [Ecosystem._feed_predator]: the loop calls [feed] at the first living
    herbivore next to the predator and stops. *)
Definition _feed_predator (e : Ecosystem) (p : Animal) : Rand (Animal * Ecosystem) :=
  if existsb
       (fun h => _is_adjacent (row p) (col p) (row h) (col h) && negb (is_dead h))
       (herbivores e)
  then Predator_feed e p
  else ret (p, e).

(** [Ecosystem.handle_feeding] *)
Definition handle_feeding (e : Ecosystem) (a : Animal) : Rand (Animal * Ecosystem) :=
  if negb (is_dead a) then
    match species a with
    | Herbivore => ret (_feed_herbivore e a)
    | Predator => _feed_predator e a
    end
  else ret (a, e).

(** [Animal.defecate]: the colon is emptied before the grid is indexed. *)
Definition defecate (e : Ecosystem) (a : Animal) : Animal * Ecosystem :=
  (set_colon 0 a,
   match py_cell (grid e) (row a) (col a) with
   | Some t => set_grid (py_set_cell (grid e) (row a) (col a) (mark_feces t)) e
   | None => e
   end).

(** [Animal.urinate] *)
Definition urinate (e : Ecosystem) (a : Animal) : Animal * Ecosystem :=
  (set_bladder 0 a,
   match py_cell (grid e) (row a) (col a) with
   | Some t => set_grid (py_set_cell (grid e) (row a) (col a) (mark_urine t)) e
   | None => e
   end).

(** *** Reproduction *)

(** [Ecosystem._get_same_species] *)
Definition _get_same_species (e : Ecosystem) (a : Animal) : list Animal :=
  List.filter (fun other => negb (same_animal other a))
    (match species a with
     | Herbivore => herbivores e
     | Predator => predators e
     end).

(** [Ecosystem._can_reproduce_together] *)
Definition _can_reproduce_together (a1 a2 : Animal) : bool :=
  Species_eqb (species a1) (species a2) && negb (Sex_eqb (sex a1) (sex a2))
  && (Z.abs (row a1 - row a2) <=? 1) && (Z.abs (col a1 - col a2) <=? 1).

(** The loop of [Ecosystem.handle_reproduction] over the other animals. *)
Fixpoint reproduction_loop (others : list Animal) (a : Animal)
    (new_animals : list Animal) : Animal * list Animal :=
  match others with
  | [] => (a, new_animals)
  | other :: rest =>
      if _can_reproduce_together a other then
        let (a', child) := reproduce a other in
        match child with
        | Some c => (a', new_animals ++ [c])
        | None => reproduction_loop rest a' new_animals
        end
      else reproduction_loop rest a new_animals
  end.

(** [Ecosystem.handle_reproduction] *)
Definition handle_reproduction (e : Ecosystem) (a : Animal)
    (new_animals : list Animal) : Animal * list Animal :=
  reproduction_loop (_get_same_species e a) a new_animals.

(** *** The animal passes

    Both passes run [for animal in roster]: the roster keeps its objects and
    the body mutates the object at hand, so the loop runs over positions,
    reads the animal at position [i] and writes it back.  [remaining] holds
    references: it is a list of positions, resolved when the pass ends. *)

(** [Ecosystem.handle_decay] for the animal at position [i]. *)
Definition handle_decay (a : Animal) (i : nat) (remaining : list nat)
    : Animal * list nat :=
  if is_dead a then
    let a1 := undergo_decay a in
    (a1, if 0 <? decay a1 then remaining ++ [i] else remaining)
  else (a, remaining).

(** The body of the loop of [Ecosystem.update_herbivores]. *)
Definition herbivore_body (st : Ecosystem * list nat * list Animal) (i : nat)
    : Rand (Ecosystem * list nat * list Animal) :=
  let '(e, remaining, new_herbivores) := st in
  match herbivores e !! i with
  | None => ret st
  | Some h =>
      let (h, remaining) := handle_decay h i remaining in
      let h := handle_vital_stats h in
      if negb (is_dead h) then
        let* (h, e) := handle_feeding e h in
        let h := handle_drinking e h in
        let* (h, e) := handle_movement e h in
        let (h, new_herbivores) := handle_reproduction e h new_herbivores in
        let (h, e) := defecate e h in
        let (h, e) := urinate e h in
        ret (set_herbivores (<[i := h]> (herbivores e)) e,
             remaining ++ [i], new_herbivores)
      else
        ret (set_herbivores (<[i := h]> (herbivores e)) e,
             remaining, new_herbivores)
  end.

(** The animals that the positions of [remaining] refer to. *)
Definition resolve (roster : list Animal) (remaining : list nat) : list Animal :=
  omap (fun i => roster !! i) remaining.

(** [Ecosystem.update_herbivores] *)
Definition update_herbivores (e : Ecosystem) : Rand Ecosystem :=
  let* (e1, remaining_herbivores, new_herbivores) :=
    foldM herbivore_body (e, [], []) (seq 0 (length (herbivores e))) in
  ret (set_herbivores
         (resolve (herbivores e1) remaining_herbivores ++ new_herbivores) e1).

(** The body of the loop of [Ecosystem.update_predators]. *)
Definition predator_body (st : Ecosystem * list nat) (i : nat)
    : Rand (Ecosystem * list nat) :=
  let '(e, remaining) := st in
  match predators e !! i with
  | None => ret st
  | Some p =>
      let p := handle_vital_stats p in
      if negb (is_dead p) then
        let* valid_moves := _get_valid_moves e (row p) (col p) in
        let* p := Predator_move valid_moves p in
        let p := handle_drinking e p in
        let* (p, e) := handle_feeding e p in
        ret (set_predators (<[i := p]> (predators e)) e, remaining ++ [i])
      else
        ret (set_predators (<[i := p]> (predators e)) e, remaining)
  end.

(** [Ecosystem.update_predators] *)
Definition update_predators (e : Ecosystem) : Rand Ecosystem :=
  let* (e1, remaining_predators) :=
    foldM predator_body (e, []) (seq 0 (length (predators e))) in
  ret (set_predators (resolve (predators e1) remaining_predators) e1).

(** *** Plants, body temperature, statistics *)

(** The body of the scan of [Ecosystem.grow_plants]; [random()] is drawn on
    land cells only. *)
Definition grow_plants_body (st : Grid * list Plant) (p : Z * Z)
    : Rand (Grid * list Plant) :=
  let (g, pl) := st in
  match terrain_type (cell g (fst p) (snd p)) with
  | land =>
      let* u := random_random in
      if Qltb u (1 # 100)
      then ret (set_cell g (fst p) (snd p)
                  (Terrain_new2 vegetation (elevation (cell g (fst p) (snd p)))),
                pl ++ [Plant_new])
      else ret (g, pl)
  | _ => ret (g, pl)
  end.

(** [Ecosystem.grow_plants] *)
Definition grow_plants (e : Ecosystem) : Rand Ecosystem :=
  let* (g, pl) :=
    foldM grow_plants_body (grid e, plants e) (scan (rows e) (cols e)) in
  ret (set_plants pl (set_grid g e)).

(** [Ecosystem.update_plants] *)
Definition update_plants (e : Ecosystem) : Ecosystem :=
  let updated :=
    map (fun p => Plant_handle_vital_stats
                    (mkPlant (p_nutrition p) (p_is_dead p) (ambient_temperature e)))
        (plants e) in
  set_plants (List.filter (fun p => negb (p_is_dead p)) updated) e.

(** [Ecosystem._update_animal_body_temperature_and_plant_nutrition] *)
Definition _update_animal_body_temperature_and_plant_nutrition (e : Ecosystem)
    : Ecosystem :=
  let warm := fun a =>
    set_body_temperature
      (body_temperature a
       + (ambient_temperature e - body_temperature a) * (1 # 100))%Q a in
  let feed := fun p =>
    mkPlant (p_nutrition p + (ambient_temperature e - 20) * (1 # 10))%Q
            (p_is_dead p) (p_ambient_temperature p) in
  set_plants (map feed (plants e))
    (set_predators (map warm (predators e))
       (set_herbivores (map warm (herbivores e)) e)).

Definition living (l : list Animal) : Z :=
  Z.of_nat (length (List.filter (fun a => negb (is_dead a)) l)).

(** [Ecosystem.update_population_data] *)
Definition update_population_data (e : Ecosystem) : Ecosystem :=
  set_population_data
    (herbivore_population_data e ++ [living (herbivores e)])
    (predator_population_data e ++ [living (predators e)])
    (plant_population_data e ++ [Z.of_nat (length (plants e))])
    e.

(** [Ecosystem.update]: one tick. *)
Definition update (sin_deg : Z -> Q) (e : Ecosystem) : Rand Ecosystem :=
  let* e1 := update_environment sin_deg e in
  let* e2 := update_herbivores e1 in
  let* e3 := update_predators e2 in
  let* e4 := grow_plants e3 in
  let e5 := update_plants e4 in
  let e6 := _update_animal_body_temperature_and_plant_nutrition e5 in
  let e7 := update_population_data e6 in
  ret (set_cycle (cycle e7 + 1) e7).

(** ** Construction *)

Fixpoint mapM {A B} (f : A -> Rand B) (l : list A) : Rand (list B) :=
  match l with
  | [] => ret []
  | x :: l' => let* y := f x in let* ys := mapM f l' in ret (y :: ys)
  end.

(** [Animal.__init__] with [_initialize_basic_attributes] and
    [_initialize_biological_attributes]; the draws are made in the order of
    the source.  [next_id] is the value of [animal_id_counter]. *)
Definition Animal_init (next_id r c : Z) (spd : Q) (sx : Sex) (sp : Species)
    : Rand Animal :=
  let* adult_start := random_choice true [true; false] in
  let* age0 := (if adult_start : bool then random_randint 20 40 else ret 0) in
  let* max_age0 := random_randint 50 100 in
  let* strength0 := random_uniform (5 # 10) (15 # 10) in
  let* agility0 := random_uniform (5 # 10) (15 # 10) in
  let* wisdom0 := random_uniform (5 # 10) (15 # 10) in
  let* intelligence0 := random_uniform (5 # 10) (15 # 10) in
  let* fertility0 := random_uniform (5 # 10) (15 # 10) in
  let* sensory0 := random_uniform (5 # 10) (15 # 10) in
  let* rank0 := random_randint 1 10 in
  let* territory0 := random_uniform 1 10 in
  let* migratory0 := random_choice 0%nat [0; 1; 2]%nat in
  let* aggressive0 := random_random in
  let* curious0 := random_random in
  let* social0 := random_random in
  ret (mkAnimal next_id sp sx spd
         (mkTraits strength0 agility0 wisdom0 intelligence0 fertility0 sensory0
            rank0 territory0 migratory0 aggressive0 curious0 social0 None)
         r c 0 0 100 age0 max_age0 false false None 100 37 fertility0
         0 0 false 0 0 0).

Definition set_reproduction_count (v : Z) (t : Traits) : Traits :=
  mkTraits (strength t) (agility t) (wisdom t) (intelligence t)
    (immune_system t) (sensory_perception t) (social_hierarchy_rank t)
    (territory_size t) (migratory_pattern t) (aggressive t) (curious t)
    (social t) (Some v).

Definition set_immune_system (v : Q) (t : Traits) : Traits :=
  mkTraits (strength t) (agility t) (wisdom t) (intelligence t)
    v (sensory_perception t) (social_hierarchy_rank t)
    (territory_size t) (migratory_pattern t) (aggressive t) (curious t)
    (social t) (reproduction_count t).

(** [Herbivore.__init__] *)
Definition Herbivore_init (next_id r c : Z) (spd : Q) (sx : Sex) : Rand Animal :=
  let* a := Animal_init next_id r c spd sx Herbivore in
  let* count := random_randint 1 5 in
  ret (mkAnimal (id a) (species a) (sex a) (speed a)
         (set_reproduction_count count (traits a)) (row a) (col a)
         (hunger a) (thirst a) (energy a) (age a) (max_age a) (is_adult a)
         (is_dead a) (cause_of_death a) (decay a) (body_temperature a)
         (fertility a) 40 0 false (colon a) (bladder a)
         (hunting_success_rate a)).

(** [Predator.__init__] *)
Definition Predator_init (next_id r c : Z) (spd : Q) (sx : Sex) : Rand Animal :=
  let* a := Animal_init next_id r c spd sx Predator in
  let rate := _calculate_hunting_success_rate spd in
  let* immune := random_uniform 1 2 in
  ret (mkAnimal (id a) (species a) (sex a) (speed a)
         (set_immune_system immune (traits a)) (row a) (col a)
         (hunger a) (thirst a) (energy a) (age a) (max_age a) (is_adult a)
         (is_dead a) (cause_of_death a) (decay a) (body_temperature a)
         (fertility a) (gestation_period a) (reproduction_cooldown a)
         (is_pregnant a) (colon a) (bladder a) rate).

(** [Ecosystem._choose_terrain_type] *)
Definition _choose_terrain_type (elev : Q) : Rand TerrainType :=
  if Qltb elev 30 then
    let* u := random_random in
    ret (if Qltb u (4 # 10) then water else land)
  else random_choice land [vegetation; land].

(** [Ecosystem._convert_to_water] *)
Definition _convert_to_water (g : Grid) (new_water_tiles : list (Z * Z)) : Grid :=
  fold_left
    (fun g p => set_cell g (fst p) (snd p)
                  (Terrain_new water (elevation (cell g (fst p) (snd p))) 100))
    new_water_tiles g.

(** [Ecosystem._identify_new_water_tiles] *)
Definition _identify_new_water_tiles (nrows ncols : Z) (g : Grid) : list (Z * Z) :=
  List.filter
    (fun p => negb (is_water_at g p)
              && is_land_and_surrounded_by_water nrows ncols g (fst p) (snd p) 3)
    (scan nrows ncols).

(** [Ecosystem.expand_water_bodies] *)
Fixpoint expand_water_bodies (nrows ncols : Z) (expansion_cycles : nat) (g : Grid)
    : Grid :=
  match expansion_cycles with
  | O => g
  | S n =>
      expand_water_bodies nrows ncols n
        (_convert_to_water g (_identify_new_water_tiles nrows ncols g))
  end.

(** [Ecosystem._generate_terrain] *)
Definition _generate_terrain (nrows ncols : Z) : Rand Grid :=
  let* g :=
    mapM (fun _ : Z =>
            mapM (fun _ : Z =>
                    let* elev := random_uniform 0 100 in
                    let* terrain := _choose_terrain_type elev in
                    let water_volume := if TerrainType_eqb terrain water then 100%Q else 0%Q in
                    ret (Terrain_new terrain elev water_volume))
                 (range ncols))
         (range nrows) in
  ret (expand_water_bodies nrows ncols 3 g).

(** [Ecosystem._calculate_smoothed_terrain] *)
Definition _calculate_smoothed_terrain (nrows ncols : Z) (g : Grid) (r c : Z)
    : Terrain :=
  let neighbors := _get_neighbors nrows ncols r c in
  let water_count := Z.of_nat (length (List.filter (is_water_at g) neighbors)) in
  if 10 <? water_count
  then Terrain_new2 water (elevation (cell g r c))
  else cell g r c.

(** [Ecosystem._generate_shorelines] *)
Definition _generate_shorelines (nrows ncols : Z) (g : Grid) : Grid :=
  fold_left
    (fun g p =>
       if passable g p && is_adjacent_to_water nrows ncols g (fst p) (snd p)
       then set_cell g (fst p) (snd p)
              (Terrain_new2 sand (elevation (cell g (fst p) (snd p))))
       else g)
    (scan nrows ncols) g.

(** [Ecosystem.refine_water_bodies_and_create_shorelines] *)
Definition refine_water_bodies_and_create_shorelines (nrows ncols : Z) (g : Grid)
    : Rand Grid :=
  let* g1 :=
    foldM
      (fun g p =>
         if is_water_at g p && (count_water_neighbors nrows ncols g (fst p) (snd p) <? 2)
         then
           let* u := random_random in
           let new_type := if Qltb u (5 # 10) then land else sand in
           ret (set_cell g (fst p) (snd p)
                  (Terrain_new2 new_type (elevation (cell g (fst p) (snd p)))))
         else ret g)
      g (scan nrows ncols) in
  ret (_generate_shorelines nrows ncols g1).

(** [Ecosystem._smooth_terrain] *)
Definition _smooth_terrain (nrows ncols : Z) (g : Grid) : Rand Grid :=
  let smooth := fun g =>
    map (fun r => map (fun c => _calculate_smoothed_terrain nrows ncols g r c)
                    (range ncols))
        (range nrows) in
  refine_water_bodies_and_create_shorelines nrows ncols (smooth (smooth (smooth g))).

(** [Ecosystem._generate_valid_location]: the [while True] loop ends when the
    drawn tile is neither water nor occupied; [None] when [fuel] rounds did
    not find one. *)
Fixpoint _generate_valid_location (fuel : nat) (e : Ecosystem)
    : Rand (option (Z * Z)) :=
  match fuel with
  | O => ret None
  | S fuel' =>
      let* r := random_randint 0 (rows e - 1) in
      let* c := random_randint 0 (cols e - 1) in
      if negb (is_water (cell (grid e) r c)) && negb (is_tile_occupied e r c)
      then ret (Some (r, c))
      else _generate_valid_location fuel' e
  end.

(** One element of the rosters: a location, a speed, a sex, then the
    constructor of the class. *)
Definition spawn (init : Z -> Z -> Z -> Q -> Sex -> Rand Animal) (fuel : nat)
    (e : Ecosystem) (next_id : Z) : Rand (option Animal) :=
  let* location := _generate_valid_location fuel e in
  match location with
  | None => ret None
  | Some (r, c) =>
      let* spd := random_uniform (5 # 10) (15 # 10) in
      let* sx := random_choice M [M; F] in
      let* a := init next_id r c spd sx in
      ret (Some a)
  end.

(** A list comprehension of [count] spawns: the roster of [e] is not
    assigned before the comprehension ends, the counter of identities
    advances with every animal. *)
Fixpoint spawn_list (init : Z -> Z -> Z -> Q -> Sex -> Rand Animal) (fuel : nat)
    (e : Ecosystem) (count : nat) (next_id : Z) : Rand (option (list Animal)) :=
  match count with
  | O => ret (Some [])
  | S n =>
      let* first := spawn init fuel e next_id in
      match first with
      | None => ret None
      | Some a =>
          let* others := spawn_list init fuel e n (next_id + 1) in
          ret (option_map (cons a) others)
      end
  end.

(** [Ecosystem._initialize_animals] *)
Definition _initialize_animals (fuel : nat) (herbivore_count predator_count : nat)
    (e : Ecosystem) : Rand (option Ecosystem) :=
  let* hs := spawn_list Herbivore_init fuel e herbivore_count (animal_id_counter e) in
  match hs with
  | None => ret None
  | Some hs =>
      let e1 := set_animal_id_counter (animal_id_counter e + Z.of_nat (length hs))
                  (set_herbivores hs e) in
      let* ps := spawn_list Predator_init fuel e1 predator_count (animal_id_counter e1) in
      match ps with
      | None => ret None
      | Some ps =>
          ret (Some (set_animal_id_counter
                       (animal_id_counter e1 + Z.of_nat (length ps))
                       (set_predators ps e1)))
      end
  end.

(** [Ecosystem.__init__], started with the counter of identities at
    [next_id]; the attributes are those of
    [_initialize_environment_attributes]. *)
Definition Ecosystem_init (fuel : nat) (next_id : Z) (nrows ncols : Z)
    (initial_herbivore_count initial_predator_count : nat)
    : Rand (option Ecosystem) :=
  let* g := _generate_terrain nrows ncols in
  let* g := _smooth_terrain nrows ncols g in
  let e := mkEcosystem nrows ncols g false [] [] [] 0 20 0 0%nat 0 50
             [] [] [] ∅ next_id in
  _initialize_animals fuel initial_herbivore_count initial_predator_count e.

(** The loops of [Ecosystem.initialize_ecosystem] append to the rosters one
    animal at a time. *)
Fixpoint spawn_append (init : Z -> Z -> Z -> Q -> Sex -> Rand Animal)
    (add : Animal -> Ecosystem -> Ecosystem) (fuel : nat) (count : nat)
    (e : Ecosystem) : Rand (option Ecosystem) :=
  match count with
  | O => ret (Some e)
  | S n =>
      let* first := spawn init fuel e (animal_id_counter e) in
      match first with
      | None => ret None
      | Some a =>
          spawn_append init add fuel n
            (set_animal_id_counter (animal_id_counter e + 1) (add a e))
      end
  end.

(** [Ecosystem._find_valid_plant_location] *)
Fixpoint _find_valid_plant_location (fuel : nat) (e : Ecosystem)
    : Rand (option (Z * Z)) :=
  match fuel with
  | O => ret None
  | S fuel' =>
      let* r := random_randint 0 (rows e - 1) in
      let* c := random_randint 0 (cols e - 1) in
      if negb (is_water (cell (grid e) r c))
      then ret (Some (r, c))
      else _find_valid_plant_location fuel' e
  end.

Fixpoint plant_append (fuel : nat) (count : nat) (e : Ecosystem)
    : Rand (option Ecosystem) :=
  match count with
  | O => ret (Some e)
  | S n =>
      let* location := _find_valid_plant_location fuel e in
      match location with
      | None => ret None
      | Some (r, c) =>
          plant_append fuel n
            (set_plants (plants e ++ [Plant_new])
               (set_grid (set_cell (grid e) r c
                            (Terrain_new2 vegetation (elevation (cell (grid e) r c))))
                  e))
      end
  end.

Definition INITIAL_HERBIVORE_COUNT : nat := 150.
Definition INITIAL_PREDATOR_COUNT : nat := 75.
Definition INITIAL_PLANT_COUNT : nat := 200.

(** [Ecosystem.initialize_ecosystem] *)
Definition initialize_ecosystem (fuel : nat) (e : Ecosystem) : Rand (option Ecosystem) :=
  let* e1 := spawn_append Herbivore_init
               (fun a e => set_herbivores (herbivores e ++ [a]) e)
               fuel INITIAL_HERBIVORE_COUNT e in
  match e1 with
  | None => ret None
  | Some e1 =>
      let* e2 := spawn_append Predator_init
                   (fun a e => set_predators (predators e ++ [a]) e)
                   fuel INITIAL_PREDATOR_COUNT e1 in
      match e2 with
      | None => ret None
      | Some e2 => plant_append fuel INITIAL_PLANT_COUNT e2
      end
  end.

(** [n] ticks in a row, as the main loop runs them. *)
Fixpoint run (sin_deg : Z -> Q) (n : nat) (e : Ecosystem) : Rand Ecosystem :=
  match n with
  | O => ret e
  | S n' => let* e1 := update sin_deg e in run sin_deg n' e1
  end.

(** * Specification vocabulary *)

(** [post c P]: the value of [c] satisfies [P] whatever the generator yields. *)
Definition post {A} (c : Rand A) (P : A -> Prop) : Prop :=
  forall g, P (fst (c g)).

(** The first condition that holds, in the order of the source. *)
Definition first_cause (a : Animal) : option Cause :=
  if max_age a <=? age a then Some OldAge
  else if 100 <=? hunger a then Some Starvation
  else if 100 <=? thirst a then Some Dehydration
  else if Qle_bool 42 (body_temperature a) then Some Hyperthermia
  else if energy a <=? 0 then Some Exhaustion
  else None.


(** [clamp(x, lo, hi)] as the specification writes it. *)
Definition clamp (x lo hi : Q) : Q := Qmax lo (Qmin x hi).

(** The sum [0.2 + (s - 3.5)] as binary64 arithmetic computes it for the
    binary64 number that [s] denotes. *)
Definition float_sum (s : Q) : Q :=
  round64 (round64 (2 # 10) + round64 (round64 s - (35 # 10))).

(** Some water among the eight neighbours of [(r, c)] that lie in the grid. *)
Definition water_in_ring8 (e : Ecosystem) (r c : Z) : bool :=
  existsb (fun p => in_bounds (rows e) (cols e) p && is_water_at (grid e) p)
    (ring8 r c).

(** Some water among the four orthogonal neighbours that lie in the grid. *)
Definition water_in_cross4 (e : Ecosystem) (r c : Z) : bool :=
  existsb (fun p => in_bounds (rows e) (cols e) p && is_water_at (grid e) p)
    (cross4 r c).

(** ** Sample data *)

Definition sample_traits : Traits :=
  mkTraits 1 1 1 1 1 1 1 1 0 0 0 0 (Some 1).

(** A herbivore as [Herbivore.__init__] leaves it, at [(r, c)]. *)
Definition sample_herbivore (i r c : Z) : Animal :=
  mkAnimal i Herbivore F 1 sample_traits r c 0 0 100 0 60 false false None
    100 37 1 40 0 false 0 0 0.

(** A predator of speed 1 as [Predator.__init__] leaves it, at [(r, c)]. *)
Definition sample_predator (i r c : Z) : Animal :=
  mkAnimal i Predator M 1 sample_traits r c 0 0 100 0 60 false false None
    100 37 1 0 0 false 0 0 (_calculate_hunting_success_rate 1).

Definition all_land (nrows ncols : nat) : Grid :=
  replicate nrows (replicate ncols (Terrain_new2 land 50)).

(** An ecosystem on the grid [g] as [Ecosystem.__init__] leaves its other
    attributes. *)
Definition sample_ecosystem (nrows ncols : Z) (g : Grid)
    (hs ps : list Animal) : Ecosystem :=
  mkEcosystem nrows ncols g false hs ps [] 0 20 0 0%nat 0 50 [] [] [] ∅
    (Z.of_nat (length hs + length ps)).

(** The generator whose first draws are [l], followed by zeros. *)
Definition scripted (l : list N) : Rng := mkRng (fun n => nth n l 0%N) 0.

(** A 3 by 3 grid whose only water is the corner [(0, 0)]. *)
Definition corner_pond : Grid :=
  set_cell (all_land 3 3) 0 0 (Terrain_new water 10 100).

(** ** What a tick can do to an animal *)

(** Every assignment to an attribute of a rostered animal that one call of
    [update] performs is one of these steps. *)
Inductive tick_step : Animal -> Animal -> Prop :=
  | step_decay a : tick_step a (undergo_decay a)
  | step_vital a : tick_step a (handle_vital_stats a)
  | step_feed a : tick_step a (Herbivore_feed a)
  | step_drink a : tick_step a (set_thirst (Z.max (thirst a - 50) 0) a)
  | step_position a r c : tick_step a (set_position r c a)
  | step_reproduce a other : tick_step a (fst (reproduce a other))
  | step_colon a : tick_step a (set_colon 0 a)
  | step_bladder a : tick_step a (set_bladder 0 a)
  | step_move_cost a : 0 < energy a -> tick_step a (set_energy (energy a - 1) a)
  | step_hunt_cost a : tick_step a (set_energy (energy a - 20) a)
  | step_consume a : tick_step a (_consume_prey_self a)
  | step_rate a q : tick_step a (set_hunting_success_rate q a)
  | step_warm a q : tick_step a (set_body_temperature q a).

(** A property of animals that no step of a tick destroys. *)
Definition stable (P : Animal -> Prop) : Prop :=
  forall a a', tick_step a a' -> P a -> P a'.

Definition rosters (Ph Pp : Animal -> Prop) (e : Ecosystem) : Prop :=
  Forall Ph (herbivores e) /\ Forall Pp (predators e).

(** Hunger and thirst within [0, 100]. *)
Definition needs_in_range (a : Animal) : Prop :=
  0 <= hunger a <= 100 /\ 0 <= thirst a <= 100.

(** Hunger, thirst and energy within [0, 100], as C2 states it. *)
Definition vitals_in_range (a : Animal) : Prop :=
  needs_in_range a /\ 0 <= energy a <= 100.

(** The sine of the first tick: [cycle] is 0 and [sin(0) = 0]. *)
Definition sin_deg_0 : Z -> Q := fun _ => 0%Q.

(** A 2 by 2 grid of land with vegetation at [(0, 0)]. *)
Definition meadow : Grid :=
  set_cell (all_land 2 2) 0 0 (Terrain_new2 vegetation 50).

(** A herbivore on the vegetation and, next to it, a predator that is down
    to 10 units of energy. *)
Definition meadow_ecosystem : Ecosystem :=
  sample_ecosystem 2 2 meadow
    [sample_herbivore 0 0 0] [set_energy 10 (sample_predator 1 0 1)].

Definition alive (a : Animal) : Prop := is_dead a = false.

(** The animal [a'] is an animal of the roster [l], by identity. *)
Definition from_roster (l : list Animal) (a' : Animal) : Prop :=
  exists a, a ∈ l /\ id a = id a'.

(** ** States that a run reaches *)

(** A run constructs the ecosystem, may populate it as [main] does with
    [initialize_ecosystem], and ticks.  [precipitation_level] is an attribute
    that the constructor sets to 0 and that the file never assigns again; the
    rule [reach_precipitation] lets the caller of the engine assign it, so
    that rain is among the states covered. *)
Inductive reachable (sin_deg : Z -> Q) : Ecosystem -> Prop :=
  | reach_init fuel next_id nrows ncols hc pc g e :
      fst (Ecosystem_init fuel next_id nrows ncols hc pc g) = Some e ->
      reachable sin_deg e
  | reach_populate fuel e g e' :
      reachable sin_deg e ->
      fst (initialize_ecosystem fuel e g) = Some e' ->
      reachable sin_deg e'
  | reach_precipitation e level :
      reachable sin_deg e ->
      reachable sin_deg (set_precipitation_level level e)
  | reach_update e g :
      reachable sin_deg e ->
      reachable sin_deg (fst (update sin_deg e g)).

(** The value of a computation that may run out of fuel satisfies [P] when
    there is one. *)
Definition when_some {A} (P : A -> Prop) (o : option A) : Prop :=
  forall a, o = Some a -> P a.

(** An animal as its constructor leaves it. *)
Definition fresh (sp : Species) (a : Animal) : Prop :=
  species a = sp /\ hunger a = 0 /\ thirst a = 0 /\ energy a = 100 /\
  is_dead a = false /\ decay a = 100 /\ is_pregnant a = false /\
  (5 # 10 <= fertility a <= 15 # 10)%Q.

(** Fertility as the constructor draws it, on an animal that cannot pass
    the fertility test of [can_reproduce]. *)
Definition infertile (a : Animal) : Prop :=
  (5 # 10 <= fertility a <= 15 # 10)%Q /\ Animal_can_reproduce a = false.

(** A herbivore of constructor fertility that is not pregnant. *)
Definition barren_herbivore (a : Animal) : Prop :=
  species a = Herbivore /\ infertile a /\ is_pregnant a = false.

(** The animal [a'] is an animal of the roster [l] with its fertility. *)
Definition same_fertility (l : list Animal) (a' : Animal) : Prop :=
  exists a, a ∈ l /\ id a = id a' /\ fertility a = fertility a'.

(** A world of one land cell with one herbivore, as the constructor builds
    it from a generator whose second draw makes the cell land. *)
Definition tiny_world_run : option Ecosystem :=
  fst (Ecosystem_init 1 0 1 1 1 0 (scripted [0; 4503599627370496]%N)).

Definition tiny_world : Ecosystem :=
  default (sample_ecosystem 1 1 (all_land 1 1) [] []) tiny_world_run.

(** A living herbivore and a living predator one tick away from
    starvation, on a 2 by 2 grid of land. *)
Definition dying_herbivore : Animal := set_hunger 90 (sample_herbivore 0 0 0).
Definition dying_predator : Animal := set_hunger 90 (sample_predator 1 1 1).
Definition dying_world : Ecosystem :=
  sample_ecosystem 2 2 (all_land 2 2) [dying_herbivore] [dying_predator].

(** The scenario of C6: a 10 by 10 grid of land, one herbivore at [(0, 0)],
    no predator, the occupancy index as the constructor leaves it. *)
Definition pasture : Ecosystem :=
  sample_ecosystem 10 10 (all_land 10 10) [sample_herbivore 0 0 0] [].

(** The cells an animal at [(r, c)] can move to: the passable cells of the
    grid in the 3 by 3 block around [(r, c)]. *)
Definition candidates (e : Ecosystem) (r c : Z) : list (Z * Z) :=
  List.filter (passable (grid e)) (List.filter (in_bounds (rows e) (cols e)) (block3 r c)).

Definition position (a : Animal) : Z * Z := (row a, col a).


(** ** Water *)

(** The water volume of a cell is not negative, and it is positive on a
    cell classified as water. *)
Definition cell_ok (t : Terrain) : Prop :=
  (0 <= water_volume t)%Q /\ (is_water t = true -> (0 < water_volume t)%Q).

Definition grid_ok (g : Grid) : Prop := Forall (Forall cell_ok) g.

(** The grid has [nrows] rows of [ncols] cells. *)
Definition shaped (nrows ncols : Z) (g : Grid) : Prop :=
  length g = Z.to_nat nrows /\
  Forall (fun row => length row = Z.to_nat ncols) g.

Definition hydro_ok (e : Ecosystem) : Prop :=
  shaped (rows e) (cols e) (grid e) /\ grid_ok (grid e).

(** The cell in row [i] and column [j] of the grid, when there is one. *)
Definition lookup2 (g : Grid) (i j : nat) : option Terrain :=
  row ← g !! i; row !! j.

(** The cell [(i, j)] is still on the stack of the flood fill. *)
Definition pending (stack : list (Z * Z)) (i j : nat) : Prop :=
  exists p, In p stack /\ Z.to_nat (fst p) = i /\ Z.to_nat (snd p) = j.

(** During a flood fill the cells on the stack are water of a volume that
    may still be 0. *)
Definition flooding (g : Grid) (stack : list (Z * Z)) : Prop :=
  forall i j t, lookup2 g i j = Some t ->
    cell_ok t \/ ((0 <= water_volume t)%Q /\ pending stack i j).

(** The number of cells of the grid that are not water. *)
Definition dry_row (row : list Terrain) : nat :=
  length (List.filter (fun t => negb (is_water t)) row).

Definition dry (g : Grid) : nat := sum_list (map dry_row g).

(** A grid of the dimensions of the ecosystem whose cells are [cell_ok]. *)
Definition wet (nrows ncols : Z) (g : Grid) : Prop :=
  shaped nrows ncols g /\ grid_ok g.

(** 1 for a cell that is not water, 0 for water. *)
Definition dryness (t : Terrain) : nat := if is_water t then 0%nat else 1%nat.

(** A pond next to a strip of land that lies below elevation 0.2, under a
    precipitation level that makes every tick rain. *)
Definition lowland : Grid :=
  [[Terrain_new water 10 100; Terrain_new2 land (1 # 10); Terrain_new2 land (1 # 10)]].

Definition rainy_world : Ecosystem :=
  set_precipitation_level 101 (sample_ecosystem 1 3 lowland [] []).

(** ** Two runs *)

(** A run: the constructor, then [n] ticks, all drawing from the generator
    that the run starts with.  [next_id] is the value that the global
    counter of identities has when the run starts. *)
Definition simulate (sin_deg : Z -> Q) (fuel : nat) (next_id : Z)
    (nrows ncols : Z) (hc pc : nat) (n : nat) : Rand (option Ecosystem) :=
  let* built := Ecosystem_init fuel next_id nrows ncols hc pc in
  match built with
  | None => ret None
  | Some e => let* e' := run sin_deg n e in ret (Some e')
  end.

(** What C8 compares: the living populations and the classification of
    every cell. *)
Definition outcome (e : Ecosystem) : Z * Z * list (list TerrainType) :=
  (living (herbivores e), living (predators e), map (map terrain_type) (grid e)).

(** The same animal under identities moved by [k]. *)
Definition shift_animal (k : Z) (a : Animal) : Animal :=
  mkAnimal (id a + k) (species a) (sex a) (speed a) (traits a) (row a) (col a)
    (hunger a) (thirst a) (energy a) (age a) (max_age a) (is_adult a)
    (is_dead a) (cause_of_death a) (decay a) (body_temperature a)
    (fertility a) (gestation_period a) (reproduction_cooldown a)
    (is_pregnant a) (colon a) (bladder a) (hunting_success_rate a).

Definition shift_entry (k : Z) (x : Z * Species) : Z * Species :=
  (fst x + k, snd x).

(** The same ecosystem under identities moved by [k]. *)
Definition shift (k : Z) (e : Ecosystem) : Ecosystem :=
  mkEcosystem (rows e) (cols e) (grid e) (manual_temperature_control e)
    (map (shift_animal k) (herbivores e)) (map (shift_animal k) (predators e))
    (plants e) (cycle e) (ambient_temperature e)
    (precipitation_level e) (current_season e) (season_cycle e)
    (season_duration e) (herbivore_population_data e)
    (predator_population_data e) (plant_population_data e)
    (map (shift_entry k) <$> animals_on_tile e) (animal_id_counter e + k).

(** The computation [c'] draws what [c] draws and yields the image of its
    value under [f]. *)
Definition lifts {A B} (f : A -> B) (c' : Rand B) (c : Rand A) : Prop :=
  forall g, c' g = (f (fst (c g)), snd (c g)).

Definition both {A B C D} (f : A -> B) (h : C -> D) (x : A * C) : B * D :=
  (f (fst x), h (snd x)).

(** The states of the two passes over the rosters, under identities moved
    by [k]. *)
Definition shift_herbivore_pass (k : Z) (st : Ecosystem * list nat * list Animal)
    : Ecosystem * list nat * list Animal :=
  (shift k (fst (fst st)), snd (fst st), map (shift_animal k) (snd st)).

Definition shift_predator_pass (k : Z) (st : Ecosystem * list nat)
    : Ecosystem * list nat :=
  (shift k (fst st), snd st).

(** ** What the passes over the animals leave alone *)

(** The ecosystem without its grid, its rosters and its index of tiles. *)
Definition surroundings (e : Ecosystem) : Ecosystem :=
  set_animals_on_tile ∅ (set_predators [] (set_herbivores [] (set_grid [] e))).

(** One pass of the smoothing of [_smooth_terrain]. *)
Definition smooth_pass (nrows ncols : Z) (g : Grid) : Grid :=
  map (fun r => map (fun c => _calculate_smoothed_terrain nrows ncols g r c)
                  (range ncols))
      (range nrows).

(** The same without the plants: what is left is written by
    [update_environment], [update_population_data] and the counter of ticks
    only. *)
Definition climate (e : Ecosystem) : Ecosystem :=
  set_plants [] (surroundings e).

(** The season and the tick of the season after one more tick. *)
Definition next_clock (duration : Z) (clock : nat * Z) : nat * Z :=
  if duration <=? snd clock + 1
  then (((fst clock + 1) mod length seasons)%nat, 0)
  else (fst clock, snd clock + 1).

Definition clock (e : Ecosystem) : nat * Z := (current_season e, season_cycle e).

(** The three series of [update_population_data] and the counter of ticks. *)
Definition statistics (e : Ecosystem) : list Z * list Z * list Z * Z :=
  (herbivore_population_data e, predator_population_data e,
   plant_population_data e, cycle e).

(** What [update_population_data] counts. *)
Definition census (e : Ecosystem) : Z * Z * Z :=
  (living (herbivores e), living (predators e), Z.of_nat (length (plants e))).

(** The series with one more entry each, and one more tick. *)
Definition record_census (c : Z * Z * Z) (s : list Z * list Z * list Z * Z)
    : list Z * list Z * list Z * Z :=
  (fst (fst (fst s)) ++ [fst (fst c)], snd (fst (fst s)) ++ [snd (fst c)],
   snd (fst s) ++ [snd c], snd s + 1).

(** A plant that [handle_vital_stats] has not marked. *)
Definition healthy (p : Plant) : Prop := p_is_dead p = false.

Definition planted_pasture : Ecosystem := set_plants [Plant_new] pasture.

(** ** The turn of one animal *)

(** What the body of the pass over the predators does with a predator that
    is alive after [handle_vital_stats], before it is written back. *)
Definition predator_turn (e : Ecosystem) (p : Animal) : Rand (Animal * Ecosystem) :=
  let* valid_moves := _get_valid_moves e (row p) (col p) in
  let* p := Predator_move valid_moves p in
  let p := handle_drinking e p in
  handle_feeding e p.

(** The same for the pass over the herbivores. *)
Definition herbivore_turn (e : Ecosystem) (h : Animal)
    (new_herbivores : list Animal) : Rand (Animal * Ecosystem * list Animal) :=
  let* (h, e) := handle_feeding e h in
  let h := handle_drinking e h in
  let* (h, e) := handle_movement e h in
  let (h, new_herbivores) := handle_reproduction e h new_herbivores in
  let (h, e) := defecate e h in
  let (h, e) := urinate e h in
  ret (h, e, new_herbivores).

(** ** Predators *)

(** A predator whose hunts cannot succeed: [random()] is never below a
    negative rate. *)
Definition harmless (p : Animal) : Prop :=
  species p = Predator /\ (hunting_success_rate p < 0)%Q.

(** A harmless predator that has been without food for at least [j] ticks. *)
Definition starving (j : Z) (p : Animal) : Prop :=
  harmless p /\ 10 * j <= hunger p.

(** The ecosystem without its roster of predators. *)
Definition without_predators (e : Ecosystem) : Ecosystem := set_predators [] e.

(** The constructor on a grid of one cell of land with one predator and no
    herbivore. *)
Definition lone_predator_run : option Ecosystem :=
  fst (Ecosystem_init 1 0 1 1 0 1 (scripted [0; 4503599627370496]%N)).

Definition lone_predator_world : Ecosystem :=
  default (sample_ecosystem 1 1 (all_land 1 1) [] []) lone_predator_run.

(** ** What the turn of an animal leaves alone *)

(** The attributes that only [handle_vital_stats], [undergo_decay], the
    seasons and the warming of the bodies write. *)
Definition core (a : Animal) : Z * Species * Sex * bool * Z * Q * Z * Z * Q :=
  (id a, species a, sex a, is_dead a, decay a, body_temperature a, age a,
   max_age a, hunting_success_rate a).

(** A living animal of the class of its roster that has not decayed. *)
Definition sound (sp : Species) (a : Animal) : Prop :=
  is_dead a = false /\ species a = sp /\ decay a = 100.

(** ** Where the animals stand *)

(** The animal stands on a cell of a grid of [nrows] rows and [ncols]
    columns. *)
Definition on_grid (nrows ncols : Z) (a : Animal) : Prop :=
  in_bounds nrows ncols (position a) = true.

(** A living animal of the class of its roster on a cell of the grid. *)
Definition settled (nrows ncols : Z) (sp : Species) (a : Animal) : Prop :=
  sound sp a /\ on_grid nrows ncols a.

(** The tile that [_generate_valid_location] accepts in the ecosystem [e]. *)
Definition vacant (e : Ecosystem) (p : Z * Z) : Prop :=
  in_bounds (rows e) (cols e) p = true /\
  is_water_at (grid e) p = false /\
  is_tile_occupied e (fst p) (snd p) = false.

(** What the constructor establishes about the places of the animals: all
    stand on cells of the grid that are not water, and no predator stands on
    the cell of a herbivore. *)
Definition placed (e : Ecosystem) : Prop :=
  Forall (fun a => settled (rows e) (cols e) Herbivore a /\
                   is_water_at (grid e) (position a) = false)
         (herbivores e) /\
  Forall (fun p => settled (rows e) (cols e) Predator p /\
                   is_water_at (grid e) (position p) = false /\
                   Forall (fun h => position h <> position p) (herbivores e))
         (predators e).

(** ** The shore *)

(** One cell of the scan of [_generate_shorelines]. *)
Definition shoreline_step (nrows ncols : Z) (g : Grid) (p : Z * Z) : Grid :=
  if passable g p && is_adjacent_to_water nrows ncols g (fst p) (snd p)
  then set_cell g (fst p) (snd p)
         (Terrain_new2 sand (elevation (cell g (fst p) (snd p))))
  else g.

(** The cell [p], if it is land or vegetation, has no water among its eight
    neighbours. *)
Definition inland (nrows ncols : Z) (g : Grid) (p : Z * Z) : Prop :=
  passable g p = true ->
  is_adjacent_to_water nrows ncols g (fst p) (snd p) = false.

(** No cell of land or vegetation has water among its eight neighbours. *)
Definition shore_ok (nrows ncols : Z) (g : Grid) : Prop :=
  forall p, in_bounds nrows ncols p = true -> inland nrows ncols g p.

(** ** Temperature *)

(** [math.sin] stays within [-1, 1]. *)
Definition bounded_sine (sin_deg : Z -> Q) : Prop :=
  forall c, (-1 <= sin_deg c <= 1)%Q.

(** The ambient temperature without manual control: [10 sin + 20], plus the
    modifier of the season in the tick in which the season changes. *)
Definition mild (e : Ecosystem) : Prop :=
  manual_temperature_control e = false /\
  (5 <= ambient_temperature e <= 40)%Q.

Definition cool (a : Animal) : Prop := (body_temperature a <= 40)%Q.

Definition weather (e : Ecosystem) : bool * Q * Z :=
  (manual_temperature_control e, ambient_temperature e, precipitation_level e).

(** ** Animals without food or water *)

(** The kind of a cell when vegetation counts as land: eating and
    [grow_plants] turn the one into the other. *)
Definition ground (t : Terrain) : TerrainType :=
  match terrain_type t with
  | vegetation => land
  | ty => ty
  end.

(** The grids have the same water, the same sand and the same cells of land
    or vegetation. *)
Definition same_terrain (g g' : Grid) : Prop :=
  forall r c, ground (cell g' r c) = ground (cell g r c).

(** How far an animal has gone without what its cell does not offer: on land
    or vegetation that is water, on any other cell it is food. *)
Definition privation (g : Grid) (a : Animal) : Z :=
  if passable g (position a) then 100 + thirst a else hunger a.

(** Hunger and thirst of an animal that a pass has kept. *)
Definition in_need (a : Animal) : Prop :=
  0 <= hunger a < 100 /\ 0 <= thirst a < 100.

(** A herbivore on the grid [g] that has been without food or without water
    for [j] ticks. *)
Definition deprived (nrows ncols : Z) (g : Grid) (j : Z) (a : Animal) : Prop :=
  settled nrows ncols Herbivore a /\ in_need a /\ 10 * j <= privation g a.

(** A harmless predator that has been without food for [j] ticks. *)
Definition famished (j : Z) (p : Animal) : Prop :=
  starving j p /\ hunger p < 100.

(** An ecosystem without rain in which no land lies beside water, [j] ticks
    after its construction. *)
Definition doomed (j : Z) (e : Ecosystem) : Prop :=
  manual_temperature_control e = false /\ precipitation_level e <= 0 /\
  0 < rows e /\ 0 < cols e /\ hydro_ok e /\
  shore_ok (rows e) (cols e) (grid e) /\
  Forall (deprived (rows e) (cols e) (grid e) j) (herbivores e) /\
  Forall (famished j) (predators e).

(** What no tick writes. *)
Definition setting (e : Ecosystem) : bool * Z * Z * Z :=
  (manual_temperature_control e, precipitation_level e, rows e, cols e).

(** Twenty ticks of the world of one cell of land and one herbivore. *)
Definition tiny_world_after_20 : option Ecosystem :=
  fst (simulate sin_deg_0 1 0 1 1 1 0 (20 + 0)
         (scripted [0; 4503599627370496]%N)).

Definition tiny_world_end : Ecosystem :=
  default (sample_ecosystem 1 1 (all_land 1 1) [] []) tiny_world_after_20.

(** ** Elevation *)

(** Every cell has in [g'] the elevation that it has in [g]. *)
Definition same_elevation (g g' : Grid) : Prop :=
  forall r c, elevation (cell g' r c) = elevation (cell g r c).

(** ** Identities *)

(** The identities of the animals of the rosters, herbivores first. *)
Definition identities (e : Ecosystem) : list Z :=
  map id (herbivores e) ++ map id (predators e).

(** No two animals of the rosters share an identity, and the counter of
    identities lies above all of them. *)
Definition distinct (e : Ecosystem) : Prop :=
  NoDup (identities e) /\
  Forall (fun i => i < animal_id_counter e) (identities e).

(** ** The index of occupancy *)

(** Every tile of [animals_on_tile] lists at most one animal, and that is a
    herbivore. *)
Definition tidy (m : gmap (Z * Z) (list (Z * Species))) : Prop :=
  forall tile, (length (tile_animals m tile) <= 1)%nat /\
               Forall (fun x => snd x = Herbivore) (tile_animals m tile).

(** ** Animals and water *)

(** The animal does not stand on a cell of water of the grid [g]. *)
Definition ashore (g : Grid) (a : Animal) : Prop :=
  is_water_at g (position a) = false.

(** A world of 2 rows and 5 columns as the constructor builds it from a
    generator that makes the first two columns water and the others land:
    the third column is the shore, of sand; a herbivore stands on the land
    at [(0, 3)] and a predator at [(1, 4)]. *)
Definition pond_world_run : option Ecosystem :=
  fst (Ecosystem_init 5 0 2 5 1 1
         (scripted [0; 0; 0; 0; 0; 4503599627370496; 0; 4503599627370496;
                    0; 4503599627370496;
                    0; 0; 0; 0; 0; 4503599627370496; 0; 4503599627370496;
                    0; 4503599627370496;
                    0; 3; 0; 0; 0; 0; 0; 0; 0; 0; 0; 0; 0; 0; 0; 0; 0; 0; 0; 0;
                    1; 4]%N)).

Definition pond_world : Ecosystem :=
  default (sample_ecosystem 2 5 (all_land 2 5) [] []) pond_world_run.
(** * Properties *)

(** ** Comparisons on rationals *)

Lemma Qltb_lt (x y : Q) : Qltb x y = true <-> (x < y)%Q.
Proof.
  unfold Qltb. rewrite negb_true_iff. split.
  - intros H. apply Qnot_le_lt. intros Hle.
    apply Qle_bool_iff in Hle. congruence.
  - intros H. destruct (Qle_bool y x) eqn:E; [|reflexivity].
    apply Qle_bool_iff in E. exfalso. apply (Qlt_not_le _ _ H E).
Qed.

Lemma Qltb_ge (x y : Q) : Qltb x y = false <-> (y <= x)%Q.
Proof.
  unfold Qltb. rewrite negb_false_iff. apply Qle_bool_iff.
Qed.

Lemma Qle_bool_false (x y : Q) : Qle_bool x y = false <-> (y < x)%Q.
Proof.
  rewrite <- (Qltb_lt y x). unfold Qltb. symmetry. apply negb_true_iff.
Qed.

(** ** A Hoare rule for computations that draw from the generator *)

Lemma post_ret {A} (a : A) (P : A -> Prop) : P a -> post (ret a) P.
Proof. intros H g. exact H. Qed.

Lemma post_bind {A B} (c : Rand A) (k : A -> Rand B) (P : A -> Prop)
    (Q : B -> Prop) :
  post c P -> (forall a, P a -> post (k a) Q) -> post (bind c k) Q.
Proof.
  intros Hc Hk g. unfold bind. specialize (Hc g).
  destruct (c g) as [a g']. apply Hk. exact Hc.
Qed.

Lemma post_weaken {A} (c : Rand A) (P Q : A -> Prop) :
  post c P -> (forall a, P a -> Q a) -> post c Q.
Proof. intros Hc HPQ g. apply HPQ, Hc. Qed.

Lemma post_any {A} (c : Rand A) : post c (fun _ => True).
Proof. intros g. exact I. Qed.

Lemma post_foldM {S A} (f : S -> A -> Rand S) (I : S -> Prop) (l : list A) :
  (forall s x, I s -> post (f s x) I) ->
  forall s, I s -> post (foldM f s l) I.
Proof.
  intros Hf. induction l as [|x l IH]; intros s Hs; simpl.
  - apply post_ret. exact Hs.
  - eapply post_bind; [apply Hf; exact Hs|]. intros s' Hs'. apply IH. exact Hs'.
Qed.

Lemma post_mapM {A B} (f : A -> Rand B) (P : B -> Prop) (l : list A) :
  (forall x, post (f x) P) -> post (mapM f l) (Forall P).
Proof.
  intros Hf. induction l as [|x l IH]; simpl.
  - apply post_ret. constructor.
  - eapply post_bind; [apply Hf|]. intros y Hy.
    eapply post_bind; [apply IH|]. intros ys Hys.
    apply post_ret. constructor; assumption.
Qed.

(** ** Death *)

Lemma die_dead (c : Cause) (a : Animal) : is_dead a = true -> die c a = a.
Proof. intros H. unfold die. rewrite H. reflexivity. Qed.

Lemma die_alive (c : Cause) (a : Animal) :
  is_dead a = false ->
  is_dead (die c a) = true /\ cause_of_death (die c a) = Some c.
Proof. intros H. unfold die. rewrite H. simpl. split; reflexivity. Qed.

Lemma check_death_dead (a : Animal) :
  is_dead a = true -> _check_death_conditions a = a.
Proof.
  intros H. unfold _check_death_conditions.
  repeat match goal with |- context [if ?b then _ else _] => destruct b end;
    auto using die_dead.
Qed.

Lemma check_death_alive (a : Animal) :
  is_dead a = false ->
  match first_cause a with
  | Some c => _check_death_conditions a = set_dead c a
  | None => _check_death_conditions a = a
  end.
Proof.
  intros H. unfold first_cause, _check_death_conditions, die. rewrite H. simpl.
  repeat match goal with |- context [if ?b then _ else _] => destruct b end;
    reflexivity.
Qed.

(** C5. The death check tests old age, starvation, dehydration,
    hyperthermia and exhaustion in this order and records the cause of the
    first condition that holds, leaving the animal as it is when none holds;
    death is terminal ([die] and the check leave a dead animal unchanged);
    and a living animal that enters [handle_vital_stats] with hunger 100,
    and that the call does not age to [max_age], leaves it dead of
    starvation. *)
Theorem death_check_priority (a : Animal) :
  (is_dead a = false ->
     (max_age a <= age a ->
        is_dead (_check_death_conditions a) = true /\
        cause_of_death (_check_death_conditions a) = Some OldAge) /\
     (age a < max_age a -> 100 <= hunger a ->
        is_dead (_check_death_conditions a) = true /\
        cause_of_death (_check_death_conditions a) = Some Starvation) /\
     (age a < max_age a -> hunger a < 100 -> 100 <= thirst a ->
        is_dead (_check_death_conditions a) = true /\
        cause_of_death (_check_death_conditions a) = Some Dehydration) /\
     (age a < max_age a -> hunger a < 100 -> thirst a < 100 ->
      (42 <= body_temperature a)%Q ->
        is_dead (_check_death_conditions a) = true /\
        cause_of_death (_check_death_conditions a) = Some Hyperthermia) /\
     (age a < max_age a -> hunger a < 100 -> thirst a < 100 ->
      (body_temperature a < 42)%Q -> energy a <= 0 ->
        is_dead (_check_death_conditions a) = true /\
        cause_of_death (_check_death_conditions a) = Some Exhaustion) /\
     (age a < max_age a -> hunger a < 100 -> thirst a < 100 ->
      (body_temperature a < 42)%Q -> 0 < energy a ->
        _check_death_conditions a = a)) /\
  (is_dead a = true ->
     _check_death_conditions a = a /\ forall c, die c a = a) /\
  (is_dead a = false -> hunger a = 100 -> age a + 1 < max_age a ->
     is_dead (handle_vital_stats a) = true /\
     cause_of_death (handle_vital_stats a) = Some Starvation).
Proof.
  split; [|split].
  - intros Halive. pose proof (check_death_alive a Halive) as Hc.
    unfold first_cause in Hc.
    repeat split; intros;
      repeat match type of Hc with
        | context [?x <=? ?y] =>
            destruct (Z.leb_spec x y); try lia
        | context [Qle_bool ?x ?y] =>
            let E := fresh "E" in
            destruct (Qle_bool x y) eqn:E;
            [apply Qle_bool_iff in E | apply Qle_bool_false in E];
            try (exfalso; lra)
        end;
      rewrite Hc; reflexivity.
  - intros Hdead. split; [apply check_death_dead; exact Hdead|].
    intros c. apply die_dead. exact Hdead.
  - intros Halive Hh Hage. unfold handle_vital_stats.
    set (b := _increase_thirst (_increase_hunger (_age_animal a))).
    assert (Hb : is_dead b = false /\ age b = age a + 1 /\ max_age b = max_age a
                 /\ hunger b = 100).
    { subst b. unfold _increase_thirst, _increase_hunger, _age_animal. simpl.
      destruct (_ && _); simpl; rewrite Hh; repeat split; auto. }
    destruct Hb as (Hd & Ha & Hm & Hhb). clearbody b.
    pose proof (check_death_alive b Hd) as Hc. unfold first_cause in Hc.
    rewrite Ha, Hm, Hhb in Hc.
    destruct (Z.leb_spec (max_age a) (age a + 1)); [lia|]. simpl in Hc.
    unfold _regenerate_energy. rewrite Hc. simpl. rewrite Hhb. simpl.
    split; reflexivity.
Qed.

Lemma death_check_priority_witness :
  is_dead (handle_vital_stats (set_hunger 100 (sample_herbivore 0 0 0))) = true /\
  cause_of_death (handle_vital_stats (set_hunger 100 (sample_herbivore 0 0 0)))
  = Some Starvation.
Proof.
  apply (proj2 (proj2 (death_check_priority
                         (set_hunger 100 (sample_herbivore 0 0 0)))));
    [reflexivity | reflexivity | simpl; lia].
Defined.

(** ** Hunting success rate *)

(** *** Rounding *)

Section Rounding.
Local Open Scope Q_scope.

Lemma pow2_pos (e : Z) : 0 < 2 ^ e.
Proof. apply Qpower_0_lt. reflexivity. Qed.

Lemma pow2_plus (a b : Z) : 2 ^ (a + b) == 2 ^ a * 2 ^ b.
Proof. apply Qpower_plus. discriminate. Qed.

Lemma pow2_Z (n : Z) : (0 <= n)%Z -> inject_Z (2 ^ n) == 2 ^ n.
Proof. intros H. apply (Zpower_Qpower 2 n H). Qed.

Lemma ilog2_spec (x : Q) : 0 < x -> 2 ^ ilog2 x <= x /\ x < 2 ^ (ilog2 x + 1).
Proof.
  intros Hx. unfold ilog2.
  destruct x as [n d]. cbn [Qnum Qden].
  assert (Hn : (0 < n)%Z).
  { unfold Qlt in Hx. cbn in Hx. lia. }
  set (a := Z.log2 n). set (b := Z.log2 (Zpos d)).
  assert (Ha : (0 <= a)%Z) by apply Z.log2_nonneg.
  assert (Hb : (0 <= b)%Z) by apply Z.log2_nonneg.
  destruct (Z.log2_spec n Hn) as [A1 A2]. fold a in A1, A2.
  destruct (Z.log2_spec (Zpos d) eq_refl) as [B1 B2]. fold b in B1, B2.
  assert (QA1 : 2 ^ a <= inject_Z n).
  { rewrite <- pow2_Z by exact Ha. rewrite <- Zle_Qle. exact A1. }
  assert (QA2 : inject_Z n < 2 ^ (a + 1)).
  { rewrite <- pow2_Z by lia. rewrite <- Zlt_Qlt. exact A2. }
  assert (QB1 : 2 ^ b <= inject_Z (Zpos d)).
  { rewrite <- pow2_Z by exact Hb. rewrite <- Zle_Qle. exact B1. }
  assert (QB2 : inject_Z (Zpos d) < 2 ^ (b + 1)).
  { rewrite <- pow2_Z by lia. rewrite <- Zlt_Qlt. exact B2. }
  assert (Hd : 0 < inject_Z (Zpos d)) by reflexivity.
  assert (Ex : n # d == inject_Z n / inject_Z (Zpos d)) by apply Qmake_Qdiv.
  set (k := (a - b)%Z).
  assert (U : n # d < 2 ^ (k + 1)).
  { rewrite Ex. apply Qlt_shift_div_r; [exact Hd|].
    assert (E : 2 ^ (a + 1) == 2 ^ (k + 1) * 2 ^ b).
    { rewrite <- pow2_plus. replace (k + 1 + b)%Z with (a + 1)%Z by (unfold k; lia).
      reflexivity. }
    pose proof (pow2_pos (k + 1)) as P.
    rewrite E in QA2.
    apply (Qlt_le_trans _ _ _ QA2).
    apply Qmult_le_l; assumption. }
  assert (Lw : 2 ^ (k - 1) < n # d).
  { rewrite Ex. apply Qlt_shift_div_l; [exact Hd|].
    assert (E : 2 ^ a == 2 ^ (k - 1) * 2 ^ (b + 1)).
    { rewrite <- pow2_plus. replace (k - 1 + (b + 1))%Z with a by (unfold k; lia).
      reflexivity. }
    pose proof (pow2_pos (k - 1)) as P.
    rewrite E in QA1.
    apply (Qlt_le_trans _ (2 ^ (k - 1) * 2 ^ (b + 1))); [|exact QA1].
    apply Qmult_lt_l; assumption. }
  destruct (Qle_bool (2 ^ k) (n # d)) eqn:Eb.
  - apply Qle_bool_iff in Eb. split; assumption.
  - assert (Hlt : n # d < 2 ^ k).
    { apply Qnot_le_lt. intros H. apply Qle_bool_iff in H. congruence. }
    replace (k - 1 + 1)%Z with k by lia.
    split; [apply Qlt_le_weak; exact Lw | exact Hlt].
Qed.

Lemma ilog2_le (x y : Q) : 0 < x -> x <= y -> (ilog2 x <= ilog2 y)%Z.
Proof.
  intros Hx Hxy.
  destruct (ilog2_spec x Hx) as [X1 _].
  destruct (ilog2_spec y (Qlt_le_trans _ _ _ Hx Hxy)) as [_ Y2].
  assert (H : 2 ^ ilog2 x < 2 ^ (ilog2 y + 1)).
  { eapply Qle_lt_trans; [exact X1|]. eapply Qle_lt_trans; eassumption. }
  apply Qpower_lt_compat_l_inv in H; [lia | reflexivity].
Qed.

Lemma rhe_floor (t : Q) :
  (Qfloor t <= round_half_even t <= Qfloor t + 1)%Z.
Proof.
  unfold round_half_even. destruct (_ ?= _); [destruct (Z.even _)| |]; lia.
Qed.

Lemma rhe_le_int (t : Q) (m : Z) : t <= inject_Z m -> (round_half_even t <= m)%Z.
Proof.
  intros H. pose proof (Qfloor_le t) as F1.
  assert (Hf : (Qfloor t <= m)%Z).
  { rewrite <- (Qfloor_Z m). apply Qfloor_resp_le. exact H. }
  destruct (Z.eq_dec (Qfloor t) m) as [E|E].
  - unfold round_half_even.
    assert (Ht : t - inject_Z (Qfloor t) == 0).
    { rewrite E in *. lra. }
    destruct (Qcompare_spec (t - inject_Z (Qfloor t)) (1 # 2)) as [C|C|C];
      [lra | lia | lra].
  - pose proof (rhe_floor t). lia.
Qed.

Lemma rhe_ge_int (t : Q) (m : Z) : inject_Z m <= t -> (m <= round_half_even t)%Z.
Proof.
  intros H. pose proof (rhe_floor t).
  assert (Hf : (m <= Qfloor t)%Z).
  { rewrite <- (Qfloor_Z m). apply Qfloor_resp_le. exact H. }
  lia.
Qed.

Lemma rhe_mono (t u : Q) : t <= u -> (round_half_even t <= round_half_even u)%Z.
Proof.
  intros H. pose proof (Qfloor_resp_le t u H) as Hf.
  pose proof (rhe_floor t). pose proof (rhe_floor u).
  destruct (Z.eq_dec (Qfloor t) (Qfloor u)) as [E|E]; [|lia].
  unfold round_half_even. rewrite <- E.
  destruct (Qcompare_spec (t - inject_Z (Qfloor t)) (1 # 2)) as [C|C|C];
    destruct (Qcompare_spec (u - inject_Z (Qfloor t)) (1 # 2)) as [D|D|D];
    try destruct (Z.even (Qfloor t)); try lia; exfalso; lra.
Qed.

Lemma round53_bounds (x : Q) :
  0 < x -> 2 ^ ilog2 x <= round53 x /\ round53 x <= 2 ^ (ilog2 x + 1).
Proof.
  intros Hx. destruct (ilog2_spec x Hx) as [X1 X2]. unfold round53.
  set (e := (ilog2 x - 52)%Z).
  pose proof (pow2_pos e) as Pe.
  assert (E1 : 2 ^ ilog2 x == inject_Z (2 ^ 52) * 2 ^ e).
  { rewrite (pow2_Z 52) by lia. rewrite <- pow2_plus.
    replace (52 + e)%Z with (ilog2 x) by (unfold e; lia). reflexivity. }
  assert (E2 : 2 ^ (ilog2 x + 1) == inject_Z (2 ^ 53) * 2 ^ e).
  { rewrite (pow2_Z 53) by lia. rewrite <- pow2_plus.
    replace (53 + e)%Z with (ilog2 x + 1)%Z by (unfold e; lia). reflexivity. }
  split.
  - rewrite E1. apply Qmult_le_r; [exact Pe|]. rewrite <- Zle_Qle.
    apply rhe_ge_int. apply Qle_shift_div_l; [exact Pe|].
    rewrite <- E1. exact X1.
  - rewrite E2. apply Qmult_le_r; [exact Pe|]. rewrite <- Zle_Qle.
    apply rhe_le_int. apply Qle_shift_div_r; [exact Pe|].
    rewrite <- E2. apply Qlt_le_weak. exact X2.
Qed.

Lemma round53_pos (x : Q) : 0 < x -> 0 < round53 x.
Proof.
  intros Hx. destruct (round53_bounds x Hx) as [H _].
  eapply Qlt_le_trans; [apply (pow2_pos (ilog2 x)) | exact H].
Qed.

Lemma round53_mono (x y : Q) : 0 < x -> x <= y -> round53 x <= round53 y.
Proof.
  intros Hx Hxy.
  assert (Hy : 0 < y) by (eapply Qlt_le_trans; eassumption).
  pose proof (ilog2_le x y Hx Hxy) as HL.
  destruct (Z.eq_dec (ilog2 x) (ilog2 y)) as [E|E].
  - unfold round53. rewrite E.
    pose proof (pow2_pos (ilog2 y - 52)) as Pe.
    apply Qmult_le_r; [exact Pe|]. rewrite <- Zle_Qle. apply rhe_mono.
    apply Qmult_le_r; [apply Qinv_lt_0_compat; exact Pe | exact Hxy].
  - destruct (round53_bounds x Hx) as [_ X2].
    destruct (round53_bounds y Hy) as [Y1 _].
    eapply Qle_trans; [exact X2|]. eapply Qle_trans; [|exact Y1].
    apply Qpower_le_compat_l; [lia | discriminate].
Qed.

Lemma round64_mono (x y : Q) : x <= y -> round64 x <= round64 y.
Proof.
  intros Hxy. unfold round64.
  destruct (Qcompare_spec x 0) as [X|X|X];
    destruct (Qcompare_spec y 0) as [Y|Y|Y]; try (exfalso; lra).
  - lra.
  - apply Qlt_le_weak, round53_pos. exact Y.
  - pose proof (round53_pos (- x) ltac:(lra)). lra.
  - pose proof (round53_mono (- y) (- x) ltac:(lra) ltac:(lra)). lra.
  - pose proof (round53_pos (- x) ltac:(lra)).
    pose proof (round53_pos y Y). lra.
  - apply round53_mono; assumption.
Qed.

Lemma round64_eq (x y : Q) : x == y -> round64 x == round64 y.
Proof.
  intros H. apply Qle_antisym; apply round64_mono; rewrite H; apply Qle_refl.
Qed.

Lemma hunting_rate_unfold (s : Q) :
  _calculate_hunting_success_rate s == Qmin (float_sum s) 1.
Proof.
  unfold _calculate_hunting_success_rate, float_sum. cbv zeta.
  assert (E : round64 (round64 (2 # 10) + round64 (round64 s - (35 # 10)) / 1)
              == round64 (round64 (2 # 10) + round64 (round64 s - (35 # 10)))).
  { apply round64_eq. field. }
  rewrite E. reflexivity.
Qed.

Lemma float_sum_mono (s s' : Q) : s <= s' -> float_sum s <= float_sum s'.
Proof.
  intros H. unfold float_sum. apply round64_mono.
  pose proof (round64_mono s s' H) as H1.
  pose proof (round64_mono (round64 s - (35 # 10)) (round64 s' - (35 # 10))
                ltac:(lra)).
  lra.
Qed.

Lemma hunting_rate_negative (s : Q) :
  s <= 33 # 10 -> _calculate_hunting_success_rate s < 0.
Proof.
  intros H. rewrite hunting_rate_unfold.
  pose proof (float_sum_mono s _ H) as Hm.
  assert (E : float_sum (33 # 10) == - (3 # 18014398509481984))
    by (vm_compute; reflexivity).
  pose proof (Q.le_min_l (float_sum s) 1). lra.
Qed.

Lemma hunting_rate_positive (s : Q) :
  round64 (33 # 10) + (1 # 2251799813685248) <= s -> 0 < _calculate_hunting_success_rate s.
Proof.
  intros H. rewrite hunting_rate_unfold.
  pose proof (float_sum_mono _ s H) as Hm.
  assert (E : float_sum (round64 (33 # 10) + (1 # 2251799813685248))
              == 5 # 18014398509481984)
    by (vm_compute; reflexivity).
  destruct (Q.min_spec (float_sum s) 1) as [[_ M]|[_ M]]; rewrite M; lra.
Qed.

End Rounding.

(** C3, as the code has it.  The rate of a predator of speed [s] is
    [min(0.2 + (s - 3.5), 1)] in binary64 arithmetic.  It never exceeds 1.
    The code has no lower bound: the rate is negative for every speed up to
    and including 3.3, and from the binary64 number that follows the one
    that [3.3] denotes it is positive; whenever the sum is not negative the
    rate is the clamp of that sum to [0, 1]. *)
Theorem hunting_success_rate_upper_bound_only (s : Q) :
  (_calculate_hunting_success_rate s == Qmin (float_sum s) 1)%Q /\
  (_calculate_hunting_success_rate s <= 1)%Q /\
  ((0 <= float_sum s)%Q ->
     (_calculate_hunting_success_rate s == clamp (float_sum s) 0 1)%Q) /\
  ((s <= 33 # 10)%Q -> (_calculate_hunting_success_rate s < 0)%Q) /\
  ((round64 (33 # 10) + (1 # 2251799813685248) <= s)%Q ->
     (0 < _calculate_hunting_success_rate s)%Q).
Proof.
  pose proof (hunting_rate_unfold s) as Hu.
  split; [exact Hu|]. split; [|split; [|split]].
  - rewrite Hu. apply Q.le_min_r.
  - intros H0. rewrite Hu. unfold clamp.
    destruct (Q.min_spec (float_sum s) 1) as [[H E]|[H E]]; rewrite E;
      rewrite Q.max_r by lra; reflexivity.
  - apply hunting_rate_negative.
  - apply hunting_rate_positive.
Qed.

Lemma hunting_success_rate_upper_bound_only_witness :
  (_calculate_hunting_success_rate (33 # 10) < 0)%Q.
Proof.
  apply (proj1 (proj2 (proj2 (proj2
           (hunting_success_rate_upper_bound_only (33 # 10)))))).
  apply Qle_refl.
Defined.

(** C3 as stated fails: a predator of speed 1, a speed that the constructor
    draws, has the rate [-2.3], below 0 and different from the clamp; and at
    speed 3.3, where the clamp of the exact sum is 0, the rate is
    [-3 / 2^54]. *)
Lemma hunting_success_rate_not_clamped :
  (_calculate_hunting_success_rate 1 < 0)%Q /\
  ~ (_calculate_hunting_success_rate 1
     == clamp ((2 # 10) + (1 - (35 # 10))) 0 1)%Q /\
  (_calculate_hunting_success_rate (33 # 10)
   == - (3 # 18014398509481984))%Q /\
  (clamp ((2 # 10) + ((33 # 10) - (35 # 10))) 0 1 == 0)%Q.
Proof.
  split; [|split; [|split]].
  - vm_compute. reflexivity.
  - vm_compute. discriminate.
  - vm_compute. reflexivity.
  - vm_compute. reflexivity.
Qed.

(** ** Drinking *)

(** C4, as the code has it.  For a living animal the drinking step reduces
    thirst by 50, floored at 0, when one of the four orthogonal neighbours
    inside the grid is water, and leaves the animal unchanged otherwise; in
    particular thirst is unchanged when none of the eight neighbours is
    water.  A dead animal is left unchanged. *)
Theorem handle_drinking_orthogonal (e : Ecosystem) (a : Animal) :
  (is_dead a = false -> water_in_cross4 e (row a) (col a) = true ->
     handle_drinking e a = set_thirst (Z.max (thirst a - 50) 0) a) /\
  (is_dead a = false -> water_in_cross4 e (row a) (col a) = false ->
     handle_drinking e a = a) /\
  (water_in_ring8 e (row a) (col a) = false -> handle_drinking e a = a) /\
  (is_dead a = true -> handle_drinking e a = a).
Proof.
  unfold handle_drinking, water_in_cross4, water_in_ring8, _is_adjacent_to_water.
  repeat split.
  - intros Ha Hw. rewrite Ha, Hw. reflexivity.
  - intros Ha Hw. rewrite Ha, Hw. reflexivity.
  - intros Hw.
    set (w := fun p => in_bounds (rows e) (cols e) p && is_water_at (grid e) p) in *.
    assert (Hc : existsb w (cross4 (row a) (col a)) = false).
    { unfold ring8, cross4 in *. simpl in *.
      repeat rewrite orb_false_r in *.
      repeat match goal with
        | H : _ || _ = false |- _ => apply orb_false_iff in H; destruct H
        end.
      repeat match goal with H : w _ = false |- _ => rewrite H; clear H end.
      reflexivity. }
    rewrite Hc, andb_false_r. reflexivity.
  - intros Ha. rewrite Ha. reflexivity.
Qed.

Lemma handle_drinking_orthogonal_witness :
  handle_drinking
    (sample_ecosystem 3 3 corner_pond [set_thirst 60 (sample_herbivore 0 0 1)] [])
    (set_thirst 60 (sample_herbivore 0 0 1))
  = set_thirst 10 (set_thirst 60 (sample_herbivore 0 0 1)).
Proof.
  apply (proj1 (handle_drinking_orthogonal
                  (sample_ecosystem 3 3 corner_pond
                     [set_thirst 60 (sample_herbivore 0 0 1)] [])
                  (set_thirst 60 (sample_herbivore 0 0 1))));
    reflexivity.
Defined.

(** C4 as stated fails: a living herbivore at [(1, 1)] whose only water
    neighbour is the diagonal cell [(0, 0)] keeps its thirst of 60. *)
Lemma handle_drinking_ignores_diagonal :
  let e := sample_ecosystem 3 3 corner_pond
             [set_thirst 60 (sample_herbivore 0 1 1)] [] in
  let a := set_thirst 60 (sample_herbivore 0 1 1) in
  is_dead a = false /\
  water_in_ring8 e (row a) (col a) = true /\
  thirst (handle_drinking e a) = 60 /\
  thirst (handle_drinking e a) <> Z.max (thirst a - 50) 0.
Proof. vm_compute. repeat split; discriminate. Qed.

(** ** Roster invariants of a tick *)

Section RosterInvariant.
Variables Ph Pp : Animal -> Prop.
Hypothesis Ph_stable : stable Ph.
Hypothesis Pp_stable : stable Pp.

Lemma rosters_set_grid g e : rosters Ph Pp e -> rosters Ph Pp (set_grid g e).
Proof. intros H. exact H. Qed.

Lemma rosters_remove (p : Animal -> bool) (l : list Animal) (P : Animal -> Prop) :
  Forall P l -> Forall P (remove_first p l).
Proof.
  induction 1 as [|x l Hx Hl IH]; simpl; [constructor|].
  destruct (p x); [exact Hl | constructor; assumption].
Qed.

Lemma stable_handle_decay (P : Animal -> Prop) a i r :
  stable P -> P a -> P (fst (handle_decay a i r)).
Proof.
  intros HP Ha. unfold handle_decay. destruct (is_dead a); simpl; [|exact Ha].
  eapply HP; [apply step_decay | exact Ha].
Qed.

Lemma stable_handle_drinking (P : Animal -> Prop) e a :
  stable P -> P a -> P (handle_drinking e a).
Proof.
  intros HP Ha. unfold handle_drinking. destruct (_ && _); [|exact Ha].
  eapply HP; [apply step_drink | exact Ha].
Qed.

Lemma stable_feed_herbivore (P : Animal -> Prop) e a :
  stable P -> P a -> rosters Ph Pp e ->
  P (fst (_feed_herbivore e a)) /\ rosters Ph Pp (snd (_feed_herbivore e a)).
Proof.
  intros HP Ha He. unfold _feed_herbivore.
  destruct (py_cell _ _ _) as [t|]; [|split; assumption].
  destruct (terrain_type t); simpl; try (split; assumption).
  split; [eapply HP; [apply step_feed | exact Ha] | exact He].
Qed.

Lemma stable_hunt (P : Animal -> Prop) e a prey :
  stable P -> P a -> rosters Ph Pp e ->
  post (hunt e a prey) (fun r => P (fst r) /\ rosters Ph Pp (snd r)).
Proof.
  intros HP Ha He. unfold hunt.
  assert (H1 : P (set_energy (energy a - 20) a))
    by (eapply HP; [apply step_hunt_cost | exact Ha]).
  eapply post_bind; [apply post_any|]. intros u _.
  destruct (Qltb _ _); apply post_ret; simpl.
  - split; [eapply HP; [apply step_consume | exact H1]|].
    destruct He as [Hh Hp]. split; [apply rosters_remove; exact Hh | exact Hp].
  - split; assumption.
Qed.

Lemma stable_feed_predator (P : Animal -> Prop) e a :
  stable P -> P a -> rosters Ph Pp e ->
  post (_feed_predator e a) (fun r => P (fst r) /\ rosters Ph Pp (snd r)).
Proof.
  intros HP Ha He. unfold _feed_predator, Predator_feed.
  destruct (existsb _ _); [|apply post_ret; split; assumption].
  destruct (truthy _); [|apply post_ret; split; assumption].
  eapply post_bind; [apply post_any|]. intros prey _.
  apply stable_hunt; assumption.
Qed.

Lemma stable_handle_feeding (P : Animal -> Prop) e a :
  stable P -> P a -> rosters Ph Pp e ->
  post (handle_feeding e a) (fun r => P (fst r) /\ rosters Ph Pp (snd r)).
Proof.
  intros HP Ha He. unfold handle_feeding.
  destruct (negb _); [|apply post_ret; split; assumption].
  destruct (species a).
  - apply post_ret. apply stable_feed_herbivore; assumption.
  - apply stable_feed_predator; assumption.
Qed.

Lemma stable_Animal_move (P : Animal -> Prop) e moves nearby a :
  stable P -> P a -> rosters Ph Pp e ->
  post (Animal_move e moves nearby a)
    (fun r => P (fst r) /\ rosters Ph Pp (snd r)).
Proof.
  intros HP Ha He. unfold Animal_move.
  destruct (_ && _); [|apply post_ret; split; assumption].
  destruct (truthy _); [|apply post_ret; split; assumption].
  eapply post_bind; [apply post_any|]. intros new _.
  apply post_ret. simpl. split; [|exact He].
  eapply HP; [apply step_position | exact Ha].
Qed.

Lemma stable_handle_movement (P : Animal -> Prop) e a :
  stable P -> P a -> rosters Ph Pp e ->
  post (handle_movement e a) (fun r => P (fst r) /\ rosters Ph Pp (snd r)).
Proof.
  intros HP Ha He. unfold handle_movement.
  destruct (negb _); [|apply post_ret; split; assumption].
  eapply post_bind; [apply post_any|]. intros moves _.
  apply stable_Animal_move; assumption.
Qed.

Lemma reproduce_no_child a other : snd (reproduce a other) = None.
Proof.
  unfold reproduce, Herbivore_reproduce, Animal_reproduce.
  destruct (species a);
    match goal with |- context [if ?b then _ else _] => destruct b end;
    reflexivity.
Qed.

Lemma reproduction_loop_spec (P : Animal -> Prop) others a new :
  stable P -> P a ->
  P (fst (reproduction_loop others a new)) /\
  snd (reproduction_loop others a new) = new.
Proof.
  intros HP. revert a. induction others as [|o others IH]; intros a Ha; simpl.
  - split; [exact Ha | reflexivity].
  - destruct (_can_reproduce_together a o); [|apply IH; exact Ha].
    pose proof (reproduce_no_child a o) as Hn.
    pose proof (HP _ _ (step_reproduce a o) Ha) as Hs.
    destruct (reproduce a o) as [a' child]. simpl in *. subst child.
    apply IH. exact Hs.
Qed.

Lemma stable_defecate (P : Animal -> Prop) e a :
  stable P -> P a -> rosters Ph Pp e ->
  P (fst (defecate e a)) /\ rosters Ph Pp (snd (defecate e a)).
Proof.
  intros HP Ha He. unfold defecate. simpl.
  split; [eapply HP; [apply step_colon | exact Ha]|].
  destruct (py_cell _ _ _); exact He.
Qed.

Lemma stable_urinate (P : Animal -> Prop) e a :
  stable P -> P a -> rosters Ph Pp e ->
  P (fst (urinate e a)) /\ rosters Ph Pp (snd (urinate e a)).
Proof.
  intros HP Ha He. unfold urinate. simpl.
  split; [eapply HP; [apply step_bladder | exact Ha]|].
  destruct (py_cell _ _ _); exact He.
Qed.

Lemma stable_Predator_move (P : Animal -> Prop) moves a :
  stable P -> P a -> post (Predator_move moves a) P.
Proof.
  intros HP Ha. unfold Predator_move.
  destruct (truthy moves); simpl; [|apply post_ret; exact Ha].
  destruct (Z.ltb_spec 0 (energy a)); simpl; [|apply post_ret; exact Ha].
  destruct (is_dead a); simpl; [apply post_ret; exact Ha|].
  eapply post_bind; [apply post_any|]. intros m _. apply post_ret.
  pose proof (HP _ _ (step_position a (fst m) (snd m)) Ha) as H1.
  refine (HP _ _ (step_move_cost (set_position (fst m) (snd m) a) _) H1).
  simpl. lia.
Qed.

Lemma rosters_write_herbivore e i h :
  rosters Ph Pp e -> Ph h ->
  rosters Ph Pp (set_herbivores (<[i := h]> (herbivores e)) e).
Proof.
  intros [Hh Hp] Hx. split; simpl; [|exact Hp].
  apply Forall_insert; assumption.
Qed.

Lemma rosters_write_predator e i p :
  rosters Ph Pp e -> Pp p ->
  rosters Ph Pp (set_predators (<[i := p]> (predators e)) e).
Proof.
  intros [Hh Hp] Hx. split; simpl; [exact Hh|].
  apply Forall_insert; assumption.
Qed.

Lemma Forall_resolve (P : Animal -> Prop) roster remaining :
  Forall P roster -> Forall P (resolve roster remaining).
Proof.
  intros H. unfold resolve. rewrite Forall_forall. intros a Ha.
  apply list_elem_of_omap in Ha. destruct Ha as (i & _ & Hi).
  rewrite Forall_forall in H. apply H.
  eapply list_elem_of_lookup_2. exact Hi.
Qed.
End RosterInvariant.

Section TickInvariant.
Variables Ph Pp : Animal -> Prop.
Hypothesis Ph_stable : stable Ph.
Hypothesis Pp_stable : stable Pp.

Lemma herbivore_body_rosters st i :
  rosters Ph Pp (fst (fst st)) -> Forall Ph (snd st) ->
  post (herbivore_body st i)
    (fun st' => rosters Ph Pp (fst (fst st')) /\ Forall Ph (snd st')).
Proof.
  destruct st as [[e remaining] new]. simpl. intros He Hnew.
  unfold herbivore_body.
  destruct (herbivores e !! i) as [h0|] eqn:Hi;
    [|apply post_ret; split; assumption].
  assert (Hh0 : Ph h0).
  { destruct He as [Hh _]. rewrite Forall_forall in Hh. apply Hh.
    eapply list_elem_of_lookup_2. exact Hi. }
  pose proof (stable_handle_decay Ph h0 i remaining Ph_stable Hh0) as H1.
  destruct (handle_decay h0 i remaining) as [h1 r1]. simpl in H1.
  cbv beta iota.
  pose proof (Ph_stable _ _ (step_vital h1) H1) as H2.
  destruct (negb (is_dead (handle_vital_stats h1))).
  - eapply post_bind;
      [apply (stable_handle_feeding Ph Pp Ph e _ Ph_stable H2 He)|].
    intros [h3 e3] [H3 He3]. simpl in H3, He3.
    pose proof (stable_handle_drinking Ph e3 h3 Ph_stable H3) as H4.
    eapply post_bind;
      [apply (stable_handle_movement Ph Pp Ph e3 _ Ph_stable H4 He3)|].
    intros [h5 e5] [H5 He5]. simpl in H5, He5.
    pose proof (reproduction_loop_spec Ph (_get_same_species e5 h5) h5 new
                  Ph_stable H5) as [H6 Hn].
    unfold handle_reproduction.
    destruct (reproduction_loop (_get_same_species e5 h5) h5 new) as [h6 new6].
    simpl in H6, Hn. subst new6.
    pose proof (stable_defecate Ph Pp Ph e5 h6 Ph_stable H6 He5) as [H7 He7].
    pose proof (stable_urinate Ph Pp Ph _ _ Ph_stable H7 He7) as [H8 He8].
    apply post_ret. simpl. split; [|exact Hnew].
    apply rosters_write_herbivore; assumption.
  - apply post_ret. simpl. split; [|exact Hnew].
    apply rosters_write_herbivore; assumption.
Qed.

Lemma update_herbivores_rosters e :
  rosters Ph Pp e -> post (update_herbivores e) (rosters Ph Pp).
Proof.
  intros He. unfold update_herbivores.
  eapply post_bind.
  - apply (post_foldM herbivore_body
             (fun st => rosters Ph Pp (fst (fst st)) /\ Forall Ph (snd st))).
    + intros st i [H1 H2]. apply herbivore_body_rosters; assumption.
    + simpl. split; [exact He | constructor].
  - intros [[e1 remaining] new] [[Hh Hp] Hnew]. simpl in *.
    apply post_ret. split; simpl; [|exact Hp].
    apply Forall_app. split; [apply Forall_resolve; exact Hh | exact Hnew].
Qed.

Lemma predator_body_rosters st i :
  rosters Ph Pp (fst st) ->
  post (predator_body st i) (fun st' => rosters Ph Pp (fst st')).
Proof.
  destruct st as [e remaining]. simpl. intros He. unfold predator_body.
  destruct (predators e !! i) as [p0|] eqn:Hi; [|apply post_ret; exact He].
  assert (Hp0 : Pp p0).
  { destruct He as [_ Hp]. rewrite Forall_forall in Hp. apply Hp.
    eapply list_elem_of_lookup_2. exact Hi. }
  pose proof (Pp_stable _ _ (step_vital p0) Hp0) as H1.
  destruct (negb (is_dead (handle_vital_stats p0))).
  - eapply post_bind; [apply post_any|]. intros moves _.
    eapply post_bind; [apply (stable_Predator_move Pp moves _ Pp_stable H1)|].
    intros p2 H2.
    pose proof (stable_handle_drinking Pp e p2 Pp_stable H2) as H3.
    eapply post_bind;
      [apply (stable_handle_feeding Ph Pp Pp e _ Pp_stable H3 He)|].
    intros [p4 e4] [H4 He4]. simpl in H4, He4.
    apply post_ret. simpl. apply rosters_write_predator; assumption.
  - apply post_ret. simpl. apply rosters_write_predator; assumption.
Qed.

Lemma update_predators_rosters e :
  rosters Ph Pp e -> post (update_predators e) (rosters Ph Pp).
Proof.
  intros He. unfold update_predators.
  eapply post_bind.
  - apply (post_foldM predator_body (fun st => rosters Ph Pp (fst st))).
    + intros st i H1. apply predator_body_rosters; assumption.
    + exact He.
  - intros [e1 remaining] [Hh Hp]. simpl in *.
    apply post_ret. split; simpl; [exact Hh|].
    apply Forall_resolve; exact Hp.
Qed.

Lemma apply_seasonal_effects_rosters s e :
  rosters Ph Pp e -> rosters Ph Pp (apply_seasonal_effects s e).
Proof.
  intros [Hh Hp]. unfold apply_seasonal_effects. split; simpl; [exact Hh|].
  apply Forall_fmap. eapply Forall_impl; [exact Hp|].
  intros p H. simpl. eapply Pp_stable; [apply step_rate | exact H].
Qed.

Lemma update_environment_rosters sin_deg e :
  rosters Ph Pp e -> post (update_environment sin_deg e) (rosters Ph Pp).
Proof.
  intros He. unfold update_environment.
  assert (H1 : rosters Ph Pp (_adjust_temperature sin_deg e)).
  { unfold _adjust_temperature. destruct (negb _); exact He. }
  eapply post_bind with (P := rosters Ph Pp).
  - unfold _precipitate. eapply post_bind; [apply post_any|]. intros k _.
    destruct (k <? _); apply post_ret; exact H1.
  - intros e2 H2. apply post_ret.
    assert (H3 : rosters Ph Pp (_handle_extreme_heat e2)).
    { unfold _handle_extreme_heat. destruct (Qle_bool _ _); exact H2. }
    unfold _update_season_cycle.
    match goal with |- context [if ?b then _ else _] => destruct b end;
      [|exact H3].
    unfold _change_season.
    match goal with |- context [_ !! ?i] => destruct (seasons !! i) end;
      [apply apply_seasonal_effects_rosters|]; exact H3.
Qed.

Lemma body_temperature_rosters e :
  rosters Ph Pp e ->
  rosters Ph Pp (_update_animal_body_temperature_and_plant_nutrition e).
Proof.
  intros [Hh Hp]. unfold _update_animal_body_temperature_and_plant_nutrition.
  split; simpl; apply Forall_fmap;
    (eapply Forall_impl; [eassumption|]); intros a H; simpl.
  - eapply Ph_stable; [apply step_warm | exact H].
  - eapply Pp_stable; [apply step_warm | exact H].
Qed.

Lemma grow_plants_rosters e :
  rosters Ph Pp e -> post (grow_plants e) (rosters Ph Pp).
Proof.
  intros He. unfold grow_plants. eapply post_bind; [apply post_any|].
  intros [g pl] _. apply post_ret. exact He.
Qed.

(** Properties that no step destroys are invariants of the tick. *)
Lemma update_rosters sin_deg e :
  rosters Ph Pp e -> post (update sin_deg e) (rosters Ph Pp).
Proof.
  intros He. unfold update.
  eapply post_bind; [apply update_environment_rosters; exact He|].
  intros e1 H1.
  eapply post_bind; [apply update_herbivores_rosters; exact H1|].
  intros e2 H2.
  eapply post_bind; [apply update_predators_rosters; exact H2|].
  intros e3 H3.
  eapply post_bind; [apply grow_plants_rosters; exact H3|].
  intros e4 H4. apply post_ret.
  apply (body_temperature_rosters (update_plants e4)). exact H4.
Qed.
End TickInvariant.

(** ** Hunger, thirst and energy *)

Lemma needs_in_range_stable : stable needs_in_range.
Proof.
  intros a a' Hs [Hh Ht]. unfold needs_in_range.
  destruct Hs; simpl;
    unfold undergo_decay, handle_vital_stats, _regenerate_energy,
      _check_death_conditions, die, _increase_thirst, _increase_hunger,
      _age_animal, Herbivore_feed, Animal_feed, _increase_colon_fill,
      reproduce, Herbivore_reproduce, Animal_reproduce, _initiate_pregnancy,
      _consume_prey_self, hunger_decrease_on_feed, Plant_initial_nutrition;
    simpl;
    repeat match goal with
      | |- context [if ?b then _ else _] => destruct b; simpl
      | |- context [match species ?x with _ => _ end] => destruct (species x); simpl
      end;
    lia.
Qed.

Lemma randbelow_range (n : Z) (g : Rng) : 0 < n -> 0 <= fst (randbelow n g) < n.
Proof. intros Hn. unfold randbelow, bind, draw, ret. simpl. apply Z.mod_pos_bound. exact Hn. Qed.

Lemma Predator_move_energy moves p g :
  0 <= energy p -> 0 <= energy (fst (Predator_move moves p g)).
Proof.
  intros H. unfold Predator_move.
  destruct (truthy moves); simpl; [|exact H].
  destruct (Z.ltb_spec 0 (energy p)); simpl; [|exact H].
  destruct (is_dead p); simpl; [exact H|].
  unfold bind, random_choice, randbelow, bind, draw, ret. simpl. lia.
Qed.

Lemma hunt_energy e p prey g :
  energy (fst (fst (hunt e p prey g))) = energy p - 20.
Proof.
  unfold hunt, bind, random_random, bind, draw, ret. simpl.
  destruct (Qltb _ _); reflexivity.
Qed.

(** X21.  Hunger and thirst of every rostered animal stay within [0, 100]
    through every step of a tick and so from tick to tick.  Of the steps
    that write the energy, a move of a predator keeps it non-negative and
    regeneration keeps it at most 100, while a hunt takes 20 units whatever
    is left and feeding adds the nutrition of the plant, 30, to an energy
    that is not negative. *)
Theorem needs_stay_in_range (sin_deg : Z -> Q) (e : Ecosystem) (g : Rng) :
  (rosters needs_in_range needs_in_range e ->
     rosters needs_in_range needs_in_range (fst (update sin_deg e g))) /\
  (forall a a', tick_step a a' -> needs_in_range a -> needs_in_range a') /\
  (forall moves p, 0 <= energy p -> 0 <= energy (fst (Predator_move moves p g))) /\
  (forall a, energy a <= 100 -> energy (_regenerate_energy a) <= 100) /\
  (forall p prey, energy (fst (fst (hunt e p prey g))) = energy p - 20) /\
  (forall a, 0 <= energy a -> energy (Herbivore_feed a) = energy a + 30).
Proof.
  split; [|split; [|split; [|split; [|split]]]].
  - intros H. apply (update_rosters needs_in_range needs_in_range
                       needs_in_range_stable needs_in_range_stable sin_deg e H).
  - exact needs_in_range_stable.
  - intros moves p. apply Predator_move_energy.
  - intros a H. unfold _regenerate_energy. destruct (hunger a <? 100); simpl; lia.
  - intros p prey. apply hunt_energy.
  - intros a H. unfold Herbivore_feed, Animal_feed, Plant_initial_nutrition.
    simpl. lia.
Qed.

Lemma needs_stay_in_range_witness :
  rosters needs_in_range needs_in_range
    (fst (update sin_deg_0 meadow_ecosystem (scripted []))).
Proof.
  apply (proj1 (needs_stay_in_range sin_deg_0 meadow_ecosystem (scripted []))).
  split; repeat constructor; simpl; lia.
Defined.

Lemma energy_above_range (hs ps : list Animal) :
  map energy hs = [130] -> ~ Forall vitals_in_range (hs ++ ps).
Proof.
  intros Hh HF. apply Forall_app in HF. destruct HF as [HF _].
  destruct hs as [|h [|h' l]]; try discriminate.
  injection Hh as Hh. apply Forall_inv in HF.
  destruct HF as [_ [_ Hup]]. lia.
Qed.

Lemma meadow_tick_energy :
  map energy (herbivores (fst (update sin_deg_0 meadow_ecosystem (scripted []))))
  = [130] /\
  map energy (predators (fst (update sin_deg_0 meadow_ecosystem (scripted []))))
  = [-6].
Proof. vm_compute. split; reflexivity. Qed.

(** C2.  The energy of an animal leaves [0, 100].  [Animal.feed] bounds
    the energy with [max(energy + nutrition, 0)], on the side on which the
    sum cannot fall, where [_regenerate_energy] caps its sum with
    [min(energy + 5, 100)], and [Predator.hunt] subtracts 20 without a
    floor.  In [meadow_ecosystem] every animal has hunger, thirst and energy
    within [0, 100]; after one tick the herbivore, which fed on the
    vegetation under it, has energy 130, and the predator, which moved and
    hunted, has energy -6. *)
Lemma energy_leaves_range :
  Forall vitals_in_range
    (herbivores meadow_ecosystem ++ predators meadow_ecosystem) /\
  map energy (herbivores (fst (update sin_deg_0 meadow_ecosystem (scripted []))))
  = [130] /\
  map energy (predators (fst (update sin_deg_0 meadow_ecosystem (scripted []))))
  = [-6] /\
  ~ Forall vitals_in_range
      (herbivores (fst (update sin_deg_0 meadow_ecosystem (scripted [])))
       ++ predators (fst (update sin_deg_0 meadow_ecosystem (scripted [])))).
Proof.
  destruct meadow_tick_energy as [Hh Hp].
  split; [|split; [exact Hh | split; [exact Hp|]]].
  - repeat constructor; simpl; lia.
  - apply energy_above_range. exact Hh.
Qed.

(** ** The predator roster *)

Lemma post_foldM_seq {S} (f : S -> nat -> Rand S) (I : nat -> S -> Prop)
    (n : nat) :
  (forall k s, (k < n)%nat -> I k s -> post (f s k) (I (Datatypes.S k))) ->
  forall s, I 0%nat s -> post (foldM f s (seq 0 n)) (I n).
Proof.
  intros Hf.
  assert (H : forall m a s, (a + m = n)%nat -> I a s ->
                            post (foldM f s (seq a m)) (I n)).
  { induction m as [|m IH]; intros a s Ham Hs; simpl.
    - apply post_ret. replace n with a by lia. exact Hs.
    - eapply post_bind; [apply Hf; [lia | exact Hs]|].
      intros s' Hs'. apply IH; [lia | exact Hs']. }
  intros s Hs. apply H; [lia | exact Hs].
Qed.

Lemma Predator_move_is_dead moves p :
  post (Predator_move moves p) (fun p' => is_dead p' = is_dead p).
Proof.
  unfold Predator_move. destruct (_ && _); [|apply post_ret; reflexivity].
  eapply post_bind; [apply post_any|]. intros m _. apply post_ret. reflexivity.
Qed.

Lemma handle_drinking_is_dead e a : is_dead (handle_drinking e a) = is_dead a.
Proof. unfold handle_drinking. destruct (_ && _); reflexivity. Qed.

Lemma handle_feeding_keeps e a :
  post (handle_feeding e a)
    (fun r => is_dead (fst r) = is_dead a /\ predators (snd r) = predators e).
Proof.
  unfold handle_feeding. destruct (negb _); [|apply post_ret; split; reflexivity].
  destruct (species a).
  - apply post_ret. unfold _feed_herbivore.
    destruct (py_cell _ _ _) as [t|]; [|split; reflexivity].
    destruct (terrain_type t); split; reflexivity.
  - unfold _feed_predator, Predator_feed.
    destruct (existsb _ _); [|apply post_ret; split; reflexivity].
    destruct (truthy _); [|apply post_ret; split; reflexivity].
    eapply post_bind; [apply post_any|]. intros prey _. unfold hunt.
    eapply post_bind; [apply post_any|]. intros u _.
    destruct (Qltb _ _); apply post_ret; split; reflexivity.
Qed.

Lemma resolve_length roster remaining :
  (length (resolve roster remaining) <= length remaining)%nat.
Proof.
  unfold resolve, omap. induction remaining as [|i l IH]; simpl; [lia|].
  destruct (roster !! i); simpl; lia.
Qed.

Lemma resolve_alive roster remaining :
  (forall i, i ∈ remaining -> exists a, roster !! i = Some a /\ alive a) ->
  Forall alive (resolve roster remaining).
Proof.
  intros H. unfold resolve. rewrite Forall_forall. intros a Ha.
  apply list_elem_of_omap in Ha. destruct Ha as (i & Hi & Hl).
  destruct (H i Hi) as (b & Hb & Hd). congruence.
Qed.

Lemma predator_body_spec n k e remaining :
  length (predators e) = n -> (length remaining <= k)%nat ->
  (forall i, i ∈ remaining ->
     (i < k)%nat /\ exists a, predators e !! i = Some a /\ alive a) ->
  post (predator_body (e, remaining) k)
    (fun st =>
       length (predators (fst st)) = n /\
       (length (snd st) <= Datatypes.S k)%nat /\
       forall i, i ∈ snd st ->
         (i < Datatypes.S k)%nat /\
         exists a, predators (fst st) !! i = Some a /\ alive a).
Proof.
  intros Hn Hlen Hrem. unfold predator_body.
  assert (Hkeep : forall (l : list Animal) p i, i ∈ remaining ->
            l = predators e ->
            (i < Datatypes.S k)%nat /\
            exists a, <[k := p]> l !! i = Some a /\ alive a).
  { intros l p i Hi ->. destruct (Hrem i Hi) as [Hik (a & Ha & Hd)].
    split; [lia|]. exists a. split; [|exact Hd].
    rewrite list_lookup_insert_ne by lia. exact Ha. }
  destruct (predators e !! k) as [p0|] eqn:Hk.
  - destruct (is_dead (handle_vital_stats p0)) eqn:Hd; simpl.
    + apply post_ret. simpl. rewrite length_insert.
      split; [exact Hn|]. split; [lia|]. intros i Hi. apply Hkeep; auto.
    + eapply post_bind; [apply post_any|]. intros moves _.
      eapply post_bind; [apply Predator_move_is_dead|]. intros p2 H2.
      eapply post_bind; [apply handle_feeding_keeps|].
      intros [p4 e4] [H4 He4]. simpl in H4, He4. apply post_ret. simpl.
      rewrite length_insert, He4. split; [exact Hn|].
      split; [rewrite length_app; simpl; lia|].
      intros i Hi. apply elem_of_app in Hi. destruct Hi as [Hi|Hi].
      * apply Hkeep; auto.
      * apply list_elem_of_singleton in Hi. subst i. split; [lia|].
        exists p4. split.
        -- apply list_lookup_insert_eq. apply lookup_lt_Some in Hk. lia.
        -- unfold alive. rewrite H4, handle_drinking_is_dead, H2. exact Hd.
  - apply post_ret. simpl. split; [exact Hn|]. split; [lia|].
    intros i Hi. destruct (Hrem i Hi) as [Hik Ha]. split; [lia | exact Ha].
Qed.

Lemma update_predators_spec e :
  post (update_predators e)
    (fun e' => (length (predators e') <= length (predators e))%nat /\
               Forall alive (predators e')).
Proof.
  unfold update_predators. eapply post_bind.
  - apply (post_foldM_seq predator_body
             (fun k st =>
                length (predators (fst st)) = length (predators e) /\
                (length (snd st) <= k)%nat /\
                forall i, i ∈ snd st ->
                  (i < k)%nat /\
                  exists a, predators (fst st) !! i = Some a /\ alive a)).
    + intros k [e1 r1] Hk (H1 & H2 & H3). simpl in *.
      apply predator_body_spec; assumption.
    + simpl. split; [reflexivity|]. split; [lia|].
      intros i Hi. apply elem_of_nil in Hi. destruct Hi.
  - intros [e1 r1] (H1 & H2 & H3). simpl in *. apply post_ret. simpl. split.
    + pose proof (resolve_length (predators e1) r1). lia.
    + apply resolve_alive. intros i Hi. apply (H3 i Hi).
Qed.

Lemma tick_step_fixed (a a' : Animal) :
  tick_step a a' ->
  id a' = id a /\ species a' = species a /\ sex a' = sex a /\
  fertility a' = fertility a /\ max_age a' = max_age a.
Proof.
  intros Hs. destruct Hs; simpl;
    unfold undergo_decay, handle_vital_stats, _regenerate_energy,
      _check_death_conditions, die, _increase_thirst, _increase_hunger,
      _age_animal, Herbivore_feed, Animal_feed, _increase_colon_fill,
      reproduce, Herbivore_reproduce, Animal_reproduce, _initiate_pregnancy,
      _consume_prey_self;
    simpl;
    try (destruct (species a) eqn:Esp);
    repeat match goal with
      | |- context [if ?b then _ else _] => destruct b; simpl
      end;
    rewrite ?Esp; repeat split; reflexivity.
Qed.

Lemma from_roster_stable (l : list Animal) : stable (from_roster l).
Proof.
  intros a a' Hs (b & Hb & Hid). exists b. split; [exact Hb|].
  destruct (tick_step_fixed a a' Hs) as [H _]. congruence.
Qed.

Lemma from_roster_self (l : list Animal) : Forall (from_roster l) l.
Proof.
  rewrite Forall_forall. intros a Ha. exists a. split; [exact Ha | reflexivity].
Qed.

Lemma handle_movement_predators e a :
  post (handle_movement e a) (fun r => predators (snd r) = predators e).
Proof.
  unfold handle_movement. destruct (negb _); [|apply post_ret; reflexivity].
  eapply post_bind; [apply post_any|]. intros moves _. unfold Animal_move.
  destruct (_ && _); [|apply post_ret; reflexivity].
  destruct (truthy _); [|apply post_ret; reflexivity].
  eapply post_bind; [apply post_any|]. intros new _. apply post_ret. reflexivity.
Qed.

Lemma defecate_predators e a : predators (snd (defecate e a)) = predators e.
Proof. unfold defecate. simpl. destruct (py_cell _ _ _); reflexivity. Qed.

Lemma urinate_predators e a : predators (snd (urinate e a)) = predators e.
Proof. unfold urinate. simpl. destruct (py_cell _ _ _); reflexivity. Qed.

Lemma herbivore_body_predators st i :
  post (herbivore_body st i)
    (fun st' => predators (fst (fst st')) = predators (fst (fst st))).
Proof.
  destruct st as [[e remaining] new]. simpl. unfold herbivore_body.
  destruct (herbivores e !! i) as [h0|]; [|apply post_ret; reflexivity].
  destruct (handle_decay h0 i remaining) as [h1 r1].
  destruct (negb _); [|apply post_ret; reflexivity].
  eapply post_bind; [apply handle_feeding_keeps|].
  intros [h3 e3] [_ He3]. simpl in He3.
  eapply post_bind; [apply handle_movement_predators|].
  intros [h5 e5] He5. simpl in He5.
  destruct (handle_reproduction e5 h5 new) as [h6 new6].
  apply post_ret. simpl.
  repeat match goal with
    | |- context [py_cell ?g ?r ?c] => destruct (py_cell g r c); simpl
    end;
    congruence.
Qed.

Lemma update_herbivores_predators e :
  post (update_herbivores e) (fun e' => predators e' = predators e).
Proof.
  unfold update_herbivores. eapply post_bind.
  - apply (post_foldM herbivore_body
             (fun st => predators (fst (fst st)) = predators e)).
    + intros st i H. eapply post_weaken; [apply herbivore_body_predators|].
      intros st' H'. simpl in H'. congruence.
    + reflexivity.
  - intros [[e1 r] n] H. simpl in H. apply post_ret. exact H.
Qed.

Lemma update_environment_predators_length sin_deg e :
  post (update_environment sin_deg e)
    (fun e' => length (predators e') = length (predators e)).
Proof.
  unfold update_environment.
  eapply post_bind with
    (P := fun e2 => length (predators e2) = length (predators e)).
  - unfold _precipitate. eapply post_bind; [apply post_any|]. intros k _.
    unfold _adjust_temperature.
    destruct (k <? _); destruct (negb _); apply post_ret; reflexivity.
  - intros e2 H2. apply post_ret.
    unfold _update_season_cycle, _change_season, _handle_extreme_heat.
    destruct (Qle_bool _ _); simpl;
      repeat match goal with
        | |- context [if ?b then _ else _] => destruct b; simpl
        | |- context [match ?o with Some _ => _ | None => _ end] =>
            destruct o; simpl
        end;
      rewrite ?length_map; exact H2.
Qed.

(** C10. Across a tick the predator roster does not grow, every predator
    of the new roster is a predator of the old one, and the new roster holds
    living predators only: the predator pass keeps the predators that are
    not dead and nothing in the tick adds a predator. *)
Theorem predator_roster_non_increasing (sin_deg : Z -> Q) (e : Ecosystem)
    (g : Rng) :
  (length (predators (fst (update sin_deg e g))) <= length (predators e))%nat /\
  Forall (from_roster (predators e)) (predators (fst (update sin_deg e g))) /\
  Forall alive (predators (fst (update sin_deg e g))).
Proof.
  split; [|split].
  - revert g. change (post (update sin_deg e)
      (fun e' => (length (predators e') <= length (predators e))%nat)).
    unfold update.
    eapply post_bind; [apply update_environment_predators_length|].
    intros e1 H1.
    eapply post_bind; [apply update_herbivores_predators|]. intros e2 H2.
    eapply post_bind; [apply update_predators_spec|]. intros e3 [H3 _].
    unfold grow_plants.
    eapply post_bind; [eapply post_bind; [apply post_any|]|].
    + intros [gr pl] _. apply post_ret.
      instantiate (1 := fun e4 => predators e4 = predators e3). reflexivity.
    + intros e4 H4. apply post_ret. simpl. rewrite length_map, H4.
      rewrite H2 in H3. cbv beta in H1. lia.
  - apply (update_rosters (fun _ => True) (from_roster (predators e))
             (fun _ _ _ _ => I) (from_roster_stable _) sin_deg e).
    split; [apply Forall_true; auto | apply from_roster_self].
  - revert g. change (post (update sin_deg e)
      (fun e' => Forall alive (predators e'))).
    unfold update.
    eapply post_bind; [apply post_any|]. intros e1 _.
    eapply post_bind; [apply post_any|]. intros e2 _.
    eapply post_bind; [apply update_predators_spec|]. intros e3 [_ H3].
    unfold grow_plants.
    eapply post_bind; [eapply post_bind; [apply post_any|]|].
    + intros [gr pl] _. apply post_ret.
      instantiate (1 := fun e4 => predators e4 = predators e3). reflexivity.
    + intros e4 H4. apply post_ret. simpl. rewrite H4.
      apply Forall_fmap. eapply Forall_impl; [exact H3|].
      intros p Hp. exact Hp.
Qed.

(** ** Construction *)

Lemma random_random_range : post random_random (fun u => 0 <= u < 1)%Q.
Proof.
  intros g. unfold random_random, bind, draw, ret. simpl.
  pose proof (Z.mod_pos_bound (Z.of_N (rng_draws g (rng_pos g))) (2 ^ 53)
                ltac:(reflexivity)) as [H0 H1].
  split.
  - unfold Qle. simpl. lia.
  - unfold Qlt. simpl. rewrite Z.mul_1_r.
    change (Z.pos (2 ^ 53)) with (2 ^ 53). lia.
Qed.

Lemma random_uniform_range (a b : Q) :
  (a <= b)%Q -> post (random_uniform a b) (fun x => a <= x <= b)%Q.
Proof.
  intros Hab. unfold random_uniform.
  eapply post_bind; [apply random_random_range|].
  intros u [H0 H1]. apply post_ret.
  assert (H2 : (0 <= (b - a) * u)%Q) by (apply Qmult_le_0_compat; lra).
  assert (H3 : ((b - a) * u <= (b - a) * 1)%Q).
  { rewrite (Qmult_comm (b - a) u), (Qmult_comm (b - a) 1).
    apply Qmult_le_compat_r; lra. }
  lra.
Qed.

Lemma Animal_init_fresh next_id r c spd sx sp :
  post (Animal_init next_id r c spd sx sp) (fresh sp).
Proof.
  unfold Animal_init.
  repeat (eapply post_bind;
          [first [apply (random_uniform_range (5 # 10) (15 # 10)); lra
                 | apply post_any]
          | intros ? ?]).
  apply post_ret. unfold fresh. simpl. cbv beta in *. repeat split; tauto.
Qed.

Lemma Herbivore_init_fresh next_id r c spd sx :
  post (Herbivore_init next_id r c spd sx) (fresh Herbivore).
Proof.
  unfold Herbivore_init.
  eapply post_bind; [apply Animal_init_fresh|]. intros a Ha.
  eapply post_bind; [apply post_any|]. intros n _. apply post_ret.
  unfold fresh in *. simpl. tauto.
Qed.

Lemma Predator_init_fresh next_id r c spd sx :
  post (Predator_init next_id r c spd sx) (fresh Predator).
Proof.
  unfold Predator_init.
  eapply post_bind; [apply Animal_init_fresh|]. intros a Ha.
  eapply post_bind; [apply post_any|]. intros n _. apply post_ret.
  unfold fresh in *. simpl. tauto.
Qed.

Section Spawn.
Variable init : Z -> Z -> Z -> Q -> Sex -> Rand Animal.
Variable P : Animal -> Prop.
Hypothesis init_P : forall i r c spd sx, post (init i r c spd sx) P.

Lemma spawn_post fuel e next_id :
  post (spawn init fuel e next_id) (when_some P).
Proof.
  unfold spawn. eapply post_bind; [apply post_any|]. intros [[r c]|] _.
  - eapply post_bind; [apply post_any|]. intros spd _.
    eapply post_bind; [apply post_any|]. intros sx _.
    eapply post_bind; [apply init_P|]. intros a Ha. apply post_ret.
    intros a' [= <-]. exact Ha.
  - apply post_ret. intros a' [=].
Qed.

Lemma spawn_list_post fuel e count next_id :
  post (spawn_list init fuel e count next_id) (when_some (Forall P)).
Proof.
  revert next_id. induction count as [|n IH]; intros next_id; simpl.
  - apply post_ret. intros l [= <-]. constructor.
  - eapply post_bind; [apply spawn_post|]. intros [a|] Ha.
    + eapply post_bind; [apply IH|]. intros [l|] Hl; apply post_ret.
      * intros l' [= <-]. constructor; [apply Ha | apply Hl]; reflexivity.
      * intros l' [=].
    + apply post_ret. intros l' [=].
Qed.

Lemma spawn_append_post (add : Animal -> Ecosystem -> Ecosystem)
    (I : Ecosystem -> Prop) fuel count e :
  (forall a e v, P a -> I e -> I (set_animal_id_counter v (add a e))) ->
  I e -> post (spawn_append init add fuel count e) (when_some I).
Proof.
  intros Hadd. revert e. induction count as [|n IH]; intros e He; simpl.
  - apply post_ret. intros e' [= <-]. exact He.
  - eapply post_bind; [apply spawn_post|]. intros [a|] Ha.
    + apply IH. apply Hadd; [apply Ha; reflexivity | exact He].
    + apply post_ret. intros e' [=].
Qed.
End Spawn.

Lemma plant_append_post (I : Ecosystem -> Prop) fuel count e :
  (forall e r c,
     I e ->
     I (set_plants (plants e ++ [Plant_new])
          (set_grid (set_cell (grid e) r c
                       (Terrain_new2 vegetation (elevation (cell (grid e) r c))))
             e))) ->
  I e -> post (plant_append fuel count e) (when_some I).
Proof.
  intros Hadd. revert e. induction count as [|n IH]; intros e He; simpl.
  - apply post_ret. intros e' [= <-]. exact He.
  - eapply post_bind; [apply post_any|]. intros [[r c]|] _.
    + apply IH. apply Hadd. exact He.
    + apply post_ret. intros e' [=].
Qed.

Lemma Ecosystem_init_rosters (Ph Pp : Animal -> Prop) fuel next_id nrows ncols hc pc :
  (forall a, fresh Herbivore a -> Ph a) ->
  (forall a, fresh Predator a -> Pp a) ->
  post (Ecosystem_init fuel next_id nrows ncols hc pc) (when_some (rosters Ph Pp)).
Proof.
  intros HPh HPp. unfold Ecosystem_init.
  eapply post_bind; [apply post_any|]. intros g1 _.
  eapply post_bind; [apply post_any|]. intros g2 _.
  unfold _initialize_animals.
  eapply post_bind; [apply (spawn_list_post Herbivore_init (fresh Herbivore)
                              Herbivore_init_fresh)|].
  intros [hs|] Hhs; [|apply post_ret; intros e' [=]].
  eapply post_bind; [apply (spawn_list_post Predator_init (fresh Predator)
                              Predator_init_fresh)|].
  intros [ps|] Hps; apply post_ret; [|intros e' [=]].
  intros e' [= <-]. split; simpl.
  - eapply Forall_impl; [apply Hhs; reflexivity | exact HPh].
  - eapply Forall_impl; [apply Hps; reflexivity | exact HPp].
Qed.

Lemma initialize_ecosystem_rosters (Ph Pp : Animal -> Prop) fuel e :
  (forall a, fresh Herbivore a -> Ph a) ->
  (forall a, fresh Predator a -> Pp a) ->
  rosters Ph Pp e ->
  post (initialize_ecosystem fuel e) (when_some (rosters Ph Pp)).
Proof.
  intros HPh HPp He. unfold initialize_ecosystem.
  eapply post_bind.
  - apply (spawn_append_post Herbivore_init (fresh Herbivore)
             Herbivore_init_fresh _ (rosters Ph Pp)); [|exact He].
    intros a e0 v Ha [Hh Hp]. split; simpl; [|exact Hp].
    apply Forall_app. split; [exact Hh|]. constructor; [auto | constructor].
  - intros [e1|] H1; [|apply post_ret; intros e' [=]].
    eapply post_bind.
    + apply (spawn_append_post Predator_init (fresh Predator)
               Predator_init_fresh _ (rosters Ph Pp)); [|apply H1; reflexivity].
      intros a e0 v Ha [Hh Hp]. split; simpl; [exact Hh|].
      apply Forall_app. split; [exact Hp|]. constructor; [auto | constructor].
    + intros [e2|] H2; [|apply post_ret; intros e' [=]].
      apply plant_append_post; [|apply H2; reflexivity].
      intros e0 r c H0. exact H0.
Qed.

(** Properties of fresh animals that no step destroys hold in every state
    that a run reaches. *)
Lemma reachable_rosters (Ph Pp : Animal -> Prop) sin_deg e :
  stable Ph -> stable Pp ->
  (forall a, fresh Herbivore a -> Ph a) ->
  (forall a, fresh Predator a -> Pp a) ->
  reachable sin_deg e -> rosters Ph Pp e.
Proof.
  intros SPh SPp HPh HPp Hr. induction Hr as
    [fuel next_id nrows ncols hc pc g e Hi
    |fuel e g e' Hr IH Hi | e level Hr IH | e g Hr IH].
  - apply (Ecosystem_init_rosters Ph Pp fuel next_id nrows ncols hc pc HPh HPp g).
    exact Hi.
  - apply (initialize_ecosystem_rosters Ph Pp fuel e HPh HPp IH g). exact Hi.
  - exact IH.
  - apply (update_rosters Ph Pp SPh SPp sin_deg e IH g).
Qed.

(** ** Fertility *)

Lemma can_reproduce_false (a : Animal) :
  (fertility a <= 15 # 10)%Q -> Animal_can_reproduce a = false.
Proof.
  intros H. unfold Animal_can_reproduce.
  assert (E : Qle_bool 8 (fertility a) = false) by (apply Qle_bool_false; lra).
  rewrite E. apply andb_false_r.
Qed.

Lemma fresh_infertile sp a : fresh sp a -> infertile a.
Proof.
  intros (_ & _ & _ & _ & _ & _ & _ & Hf). split; [exact Hf|].
  apply can_reproduce_false. tauto.
Qed.

Lemma fresh_barren a : fresh Herbivore a -> barren_herbivore a.
Proof.
  intros H. pose proof (fresh_infertile _ _ H) as Hi.
  destruct H as (Hs & _ & _ & _ & _ & _ & Hp & _).
  split; [exact Hs | split; [exact Hi | exact Hp]].
Qed.

Lemma infertile_stable : stable infertile.
Proof.
  intros a a' Hs [Hf _].
  destruct (tick_step_fixed a a' Hs) as (_ & _ & _ & Hf' & _).
  split; [rewrite Hf'; exact Hf|].
  apply can_reproduce_false. rewrite Hf'. tauto.
Qed.

Lemma barren_herbivore_stable : stable barren_herbivore.
Proof.
  intros a a' Hs (Hsp & Hi & Hp).
  pose proof (infertile_stable a a' Hs Hi) as Hi'.
  destruct (tick_step_fixed a a' Hs) as (_ & Hsp' & _).
  split; [congruence|]. split; [exact Hi'|].
  destruct Hi as [_ Hc].
  destruct Hs; simpl;
    unfold undergo_decay, handle_vital_stats, _regenerate_energy,
      _check_death_conditions, die, _increase_thirst, _increase_hunger,
      _age_animal, Herbivore_feed, Animal_feed, _increase_colon_fill,
      _consume_prey_self;
    simpl;
    try (repeat match goal with
           | |- context [if ?b then _ else _] => destruct b; simpl
           end; exact Hp).
  unfold reproduce. rewrite Hsp.
  unfold Herbivore_reproduce, Herbivore_can_reproduce. rewrite Hc. simpl.
  exact Hp.
Qed.

Lemma same_fertility_stable (l : list Animal) : stable (same_fertility l).
Proof.
  intros a a' Hs (b & Hb & Hid & Hf). exists b. split; [exact Hb|].
  destruct (tick_step_fixed a a' Hs) as (H1 & _ & _ & H2 & _).
  split; congruence.
Qed.

Lemma same_fertility_self (l : list Animal) : Forall (same_fertility l) l.
Proof.
  rewrite Forall_forall. intros a Ha. exists a. repeat split. exact Ha.
Qed.

(** C9. No step of a tick writes the fertility of an animal
    ([update_fertility] is reached from [Animal.update] only, which the tick
    does not call): across a tick every rostered animal is an animal of the
    roster before the tick with the same fertility.  So in every state that
    a run reaches the fertility of every animal is within [0.5, 1.5], as the
    constructor drew it, [can_reproduce] is false for every animal, and no
    herbivore is pregnant. *)
Theorem fertility_is_frozen (sin_deg : Z -> Q) (e : Ecosystem) (g : Rng) :
  (reachable sin_deg e -> rosters barren_herbivore infertile e) /\
  rosters (same_fertility (herbivores e)) (same_fertility (predators e))
    (fst (update sin_deg e g)).
Proof.
  split.
  - apply reachable_rosters.
    + exact barren_herbivore_stable.
    + exact infertile_stable.
    + exact fresh_barren.
    + apply fresh_infertile.
  - apply (update_rosters _ _ (same_fertility_stable _)
             (same_fertility_stable _) sin_deg e).
    split; apply same_fertility_self.
Qed.

Lemma tiny_world_built :
  fst (Ecosystem_init 1 0 1 1 1 0 (scripted [0; 4503599627370496]%N))
  = Some tiny_world.
Proof. vm_compute. reflexivity. Qed.

Lemma fertility_is_frozen_witness :
  rosters barren_herbivore infertile tiny_world.
Proof.
  apply (proj1 (fertility_is_frozen sin_deg_0 tiny_world (scripted []))).
  apply (reach_init sin_deg_0 1 0 1 1 1 0 (scripted [0; 4503599627370496]%N)).
  exact tiny_world_built.
Defined.

(** ** Decay and removal *)

Lemma undergo_decay_le (a : Animal) :
  decay (undergo_decay a) <= decay a \/ decay (undergo_decay a) = 0.
Proof. unfold undergo_decay. destruct (is_dead a); simpl; lia. Qed.

(** C1 fails on the code.  A living herbivore and a living predator that
    reach hunger 100 in [handle_vital_stats] die in that call with decay
    100, and the pass that killed them drops them from the roster at once:
    the herbivore pass has run [handle_decay] before the death and appends
    living herbivores only, the predator pass never calls [handle_decay].
    After the tick both rosters are empty and no decay has taken place. *)
Theorem dying_animal_is_dropped (g : Rng) :
  alive dying_herbivore /\ alive dying_predator /\
  is_dead (handle_vital_stats dying_herbivore) = true /\
  decay (handle_vital_stats dying_herbivore) = 100 /\
  is_dead (handle_vital_stats dying_predator) = true /\
  decay (handle_vital_stats dying_predator) = 100 /\
  herbivores (fst (update_herbivores dying_world g)) = [] /\
  predators (fst (update_predators dying_world g)) = [] /\
  herbivores (fst (update sin_deg_0 dying_world (scripted []))) = [] /\
  predators (fst (update sin_deg_0 dying_world (scripted []))) = [].
Proof.
  repeat split; vm_compute; reflexivity.
Qed.

(** ** Movement *)

Lemma swap_In {A} (l : list A) (i j : nat) (z : A) :
  In z (swap l i j) -> In z l.
Proof.
  unfold swap. destruct (l !! i) as [x|] eqn:Hi; [|auto].
  destruct (l !! j) as [y|] eqn:Hj; [|auto].
  rewrite <- !list_elem_of_In. intros Hz.
  apply list_elem_of_lookup in Hz. destruct Hz as [k Hk].
  apply list_lookup_insert_Some in Hk. destruct Hk as [(_ & <- & _)|[_ Hk]].
  - eapply list_elem_of_lookup_2. exact Hi.
  - apply list_lookup_insert_Some in Hk. destruct Hk as [(_ & <- & _)|[_ Hk]].
    + eapply list_elem_of_lookup_2. exact Hj.
    + eapply list_elem_of_lookup_2. exact Hk.
Qed.

Lemma shuffle_from_In {A} (i : nat) (l : list A) :
  post (shuffle_from i l) (fun l' => forall z, In z l' -> In z l).
Proof.
  revert l. induction i as [|i IH]; intros l; simpl.
  - apply post_ret. auto.
  - eapply post_bind; [apply post_any|]. intros j _.
    eapply post_weaken; [apply IH|]. intros l' Hl' z Hz.
    eapply swap_In. apply Hl'. exact Hz.
Qed.

Lemma random_choice_In {A} (d : A) (l : list A) :
  truthy l = true -> post (random_choice d l) (fun x => In x l).
Proof.
  intros Hl g. unfold random_choice, bind, ret.
  pose proof (randbelow_range (Z.of_nat (length l)) g) as Hr.
  destruct (randbelow (Z.of_nat (length l)) g) as [k g']. simpl in *.
  apply nth_In. destruct l; [discriminate|]. simpl in *. lia.
Qed.

Lemma min_by_In {A} (key : A -> Q) (best : A) (l : list A) :
  In (min_by key best l) (best :: l).
Proof.
  revert best. induction l as [|x l IH]; intros best; simpl; [auto|].
  specialize (IH (if Qltb (key x) (key best) then x else best)).
  simpl in IH. destruct (Qltb _ _); destruct IH as [<-|IH]; auto.
Qed.

Lemma choose_new_location_In a moves nearby :
  truthy moves = true ->
  post (_choose_new_location a moves nearby) (fun p => In p moves).
Proof.
  intros Hm. unfold _choose_new_location. destruct (_ && _).
  - apply post_ret. destruct moves as [|m rest]; [discriminate|].
    apply min_by_In.
  - apply random_choice_In. exact Hm.
Qed.

Lemma Animal_move_position e moves nearby a :
  post (Animal_move e moves nearby a)
    (fun r => position (fst r) = position a \/
              (In (position (fst r)) moves /\
               is_tile_occupied_by_same_species e (position (fst r)) (species a)
               = false)).
Proof.
  unfold Animal_move. destruct (_ && _); [|apply post_ret; left; reflexivity].
  destruct (truthy (List.filter _ moves)) eqn:Ht;
    [|apply post_ret; left; reflexivity].
  eapply post_bind; [apply choose_new_location_In; exact Ht|].
  intros new Hnew. apply post_ret. right. simpl.
  apply List.filter_In in Hnew. destruct Hnew as [Hin Hocc].
  unfold position. simpl. rewrite <- surjective_pairing.
  split; [exact Hin|]. apply negb_true_iff. exact Hocc.
Qed.












(** ** Cells of the grid *)

Lemma lookup2_cell (g : Grid) (r c : Z) :
  cell g r c = default (Terrain_new2 land 0) (lookup2 g (Z.to_nat r) (Z.to_nat c)).
Proof. reflexivity. Qed.

Lemma lookup2_set_cell (g : Grid) (r c : Z) (t : Terrain) (i j : nat) :
  lookup2 (set_cell g r c t) i j =
  if decide (i = Z.to_nat r /\ j = Z.to_nat c)
  then (lookup2 g i j ≫= fun _ => Some t)
  else lookup2 g i j.
Proof.
  unfold lookup2, set_cell.
  destruct (decide (Z.to_nat r = i)) as [<-|Hi].
  - rewrite list_lookup_alter_eq. destruct (g !! Z.to_nat r) as [row|]; simpl.
    + destruct (decide (Z.to_nat c = j)) as [<-|Hj].
      * rewrite decide_True by auto.
        destruct (row !! Z.to_nat c) eqn:E; simpl.
        -- apply list_lookup_insert_eq. eapply lookup_lt_Some. exact E.
        -- apply lookup_ge_None. rewrite length_insert.
           apply lookup_ge_None. exact E.
      * rewrite decide_False by (intros [_ ->]; auto).
        apply list_lookup_insert_ne. exact Hj.
    + destruct (decide _); reflexivity.
  - rewrite list_lookup_alter_ne by exact Hi.
    rewrite decide_False by (intros [-> _]; auto). reflexivity.
Qed.

Lemma grid_ok_lookup2 (g : Grid) :
  grid_ok g <-> forall i j t, lookup2 g i j = Some t -> cell_ok t.
Proof.
  unfold grid_ok, lookup2. split.
  - intros H i j t Ht. destruct (g !! i) as [row|] eqn:Hi; [|discriminate].
    simpl in Ht. eapply Forall_lookup_1; [|exact Ht].
    eapply Forall_lookup_1; [exact H | exact Hi].
  - intros H. apply Forall_lookup_2. intros i row Hi.
    apply Forall_lookup_2. intros j t Hj. apply (H i j t).
    rewrite Hi. exact Hj.
Qed.

Lemma cell_ok_default : cell_ok (Terrain_new2 land 0).
Proof. split; [apply Qle_refl | discriminate]. Qed.

Lemma grid_ok_cell (g : Grid) (r c : Z) : grid_ok g -> cell_ok (cell g r c).
Proof.
  intros H. rewrite lookup2_cell.
  destruct (lookup2 g _ _) as [t|] eqn:E; simpl.
  - eapply grid_ok_lookup2; eassumption.
  - apply cell_ok_default.
Qed.

Lemma grid_ok_set_cell (g : Grid) (r c : Z) (t : Terrain) :
  grid_ok g -> cell_ok t -> grid_ok (set_cell g r c t).
Proof.
  intros Hg Ht. apply grid_ok_lookup2. intros i j t' H.
  rewrite lookup2_set_cell in H. destruct (decide _).
  - destruct (lookup2 g i j); simpl in H; [|discriminate].
    injection H as <-. exact Ht.
  - eapply grid_ok_lookup2; eassumption.
Qed.

Lemma shaped_set_cell nrows ncols (g : Grid) (r c : Z) (t : Terrain) :
  shaped nrows ncols g -> shaped nrows ncols (set_cell g r c t).
Proof.
  intros [Hl Hr]. unfold set_cell. split.
  - rewrite length_alter. exact Hl.
  - apply Forall_alter; [exact Hr|]. intros row _ Hrow.
    rewrite length_insert. exact Hrow.
Qed.

Lemma py_index_lookup {A} (l : list A) (i : Z) (x : A) :
  py_index l i = Some x -> exists k, l !! k = Some x /\
                                     forall y, py_index_set l i y = <[k := y]> l.
Proof.
  unfold py_index, py_index_set. destruct (0 <=? i).
  - intros H. eexists. split; [exact H | reflexivity].
  - destruct (0 <=? _); [|discriminate].
    intros H. eexists. split; [exact H | reflexivity].
Qed.

Lemma grid_ok_py_cell (g : Grid) (r c : Z) (t : Terrain) :
  grid_ok g -> py_cell g r c = Some t -> cell_ok t.
Proof.
  intros Hg H. unfold py_cell in H.
  destruct (py_index g r) as [row|] eqn:Hr; [|discriminate]. simpl in H.
  apply py_index_lookup in Hr. destruct Hr as (k & Hk & _).
  apply py_index_lookup in H. destruct H as (k' & Hk' & _).
  eapply Forall_lookup_1; [|exact Hk'].
  eapply Forall_lookup_1; [exact Hg | exact Hk].
Qed.

Lemma grid_ok_py_set_cell (g : Grid) (r c : Z) (t : Terrain) :
  grid_ok g -> cell_ok t -> grid_ok (py_set_cell g r c t).
Proof.
  intros Hg Ht. unfold py_set_cell.
  destruct (py_index g r) as [row|] eqn:Hr; [|exact Hg].
  apply py_index_lookup in Hr. destruct Hr as (k & Hk & Hset).
  rewrite Hset. apply Forall_insert; [exact Hg|].
  assert (Hrow : Forall cell_ok row) by (eapply Forall_lookup_1; eassumption).
  unfold py_index_set.
  repeat match goal with |- context [if ?b then _ else _] => destruct b end;
    try apply Forall_insert; assumption.
Qed.

Lemma shaped_py_set_cell nrows ncols (g : Grid) (r c : Z) (t : Terrain) :
  shaped nrows ncols g -> shaped nrows ncols (py_set_cell g r c t).
Proof.
  intros [Hl Hrows]. unfold py_set_cell.
  destruct (py_index g r) as [row|] eqn:Hr; [|split; assumption].
  apply py_index_lookup in Hr. destruct Hr as (k & Hk & Hset).
  rewrite Hset. split; [rewrite length_insert; exact Hl|].
  apply Forall_insert; [exact Hrows|].
  assert (Hrow : length row = Z.to_nat ncols)
    by (eapply (Forall_lookup_1 _ _ _ _ Hrows); eassumption).
  unfold py_index_set.
  repeat match goal with |- context [if ?b then _ else _] => destruct b end;
    rewrite ?length_insert; assumption.
Qed.

Lemma fold_left_inv {A B} (f : A -> B -> A) (I : A -> Prop) (l : list B) :
  (forall a b, I a -> I (f a b)) -> forall a, I a -> I (fold_left f l a).
Proof.
  intros Hf. induction l as [|b l IH]; intros a Ha; simpl; [exact Ha|].
  apply IH. apply Hf. exact Ha.
Qed.

Lemma cell_set_cell_cases (g : Grid) (r c r' c' : Z) (t : Terrain) :
  (cell (set_cell g r c t) r' c' = t /\ cell g r' c' = cell g r c) \/
  cell (set_cell g r c t) r' c' = cell g r' c'.
Proof.
  rewrite !lookup2_cell, lookup2_set_cell.
  destruct (decide _) as [[E1 E2]|_]; [|right; reflexivity].
  rewrite E1, E2. destruct (lookup2 g (Z.to_nat r) (Z.to_nat c)); simpl.
  - left. split; reflexivity.
  - right. reflexivity.
Qed.

Lemma wet_set_cell nrows ncols g r c t :
  wet nrows ncols g -> cell_ok t -> wet nrows ncols (set_cell g r c t).
Proof.
  intros [Hs Hg] Ht. split;
    [apply shaped_set_cell | apply grid_ok_set_cell]; assumption.
Qed.

Lemma cell_ok_dry (ty : TerrainType) (elev : Q) :
  ty <> water -> cell_ok (Terrain_new2 ty elev).
Proof.
  intros H. split; [apply Qle_refl|]. unfold is_water. simpl.
  destruct ty; try discriminate. contradiction.
Qed.

Lemma cell_ok_volume (ty : TerrainType) (elev vol : Q) :
  (0 < vol)%Q -> cell_ok (Terrain_new ty elev vol).
Proof. intros H. split; simpl; [lra | intros _; exact H]. Qed.

Lemma cell_ok_add_water (d : Q) (t : Terrain) :
  cell_ok t -> (0 <= d)%Q -> cell_ok (add_water d t).
Proof.
  intros [H0 Hw] Hd. split; simpl; [lra|].
  intros Hi. specialize (Hw Hi). lra.
Qed.

Lemma handle_extreme_heat_wet e :
  wet (rows e) (cols e) (grid e) ->
  wet (rows (_handle_extreme_heat e)) (cols (_handle_extreme_heat e))
      (grid (_handle_extreme_heat e)).
Proof.
  intros H. unfold _handle_extreme_heat. destruct (Qle_bool _ _); [|exact H].
  simpl. apply fold_left_inv; [|exact H].
  intros g p Hg. destruct (is_water _); [|exact Hg].
  apply wet_set_cell; [exact Hg | apply cell_ok_dry; discriminate].
Qed.

Lemma flow_bounds (v : Q) :
  (0 <= v)%Q ->
  (0 <= Qmin (v * (5 # 100)) v)%Q /\ (Qmin (v * (5 # 100)) v <= v)%Q /\
  ((0 < v)%Q -> (Qmin (v * (5 # 100)) v < v)%Q).
Proof.
  intros Hv.
  destruct (Q.min_spec (v * (5 # 100)) v) as [[H E]|[H E]]; rewrite E;
    repeat split; intros; lra.
Qed.

Lemma adjust_flow_wet nrows ncols row col g n :
  wet nrows ncols g -> wet nrows ncols (adjust_flow row col g n).
Proof.
  intros Hg. unfold adjust_flow. destruct n as [r c].
  destruct (Qltb _ _); [|exact Hg].
  set (s := cell g row col).
  set (m := Qmin (water_volume s * (5 # 100)) (water_volume s)).
  assert (Hs : cell_ok s) by (apply grid_ok_cell, Hg).
  destruct (flow_bounds (water_volume s) (proj1 Hs)) as (Hm0 & Hmv & Hmlt).
  fold m in Hm0, Hmv, Hmlt.
  assert (H1 : wet nrows ncols (upd_cell g r c (add_water m))).
  { apply wet_set_cell; [exact Hg|].
    apply cell_ok_add_water; [apply grid_ok_cell, Hg | exact Hm0]. }
  set (g1 := upd_cell g r c (add_water m)) in *.
  assert (H2 : wet nrows ncols (upd_cell g1 row col (add_water (- m)))).
  { apply wet_set_cell; [exact H1|].
    unfold g1, upd_cell.
    destruct (cell_set_cell_cases g r c row col (add_water m (cell g r c)))
      as [[E1 E2]|E]; [rewrite E1 | rewrite E].
    - fold s in E2. rewrite <- E2. destruct Hs as [Hs0 Hsw].
      split; simpl; [lra|]. intros Hw. specialize (Hsw Hw). lra.
    - fold s. destruct Hs as [Hs0 Hsw].
      split; simpl; [lra|]. intros Hw. specialize (Hsw Hw).
      specialize (Hmlt Hsw). lra. }
  set (g2 := upd_cell g1 row col (add_water (- m))) in *.
  assert (H3 : wet nrows ncols
                 (if Qltb (water_volume (cell g2 row col)) 10
                  then set_cell g2 row col
                         (Terrain_new2 land (elevation (cell g2 row col)))
                  else g2)).
  { destruct (Qltb _ _); [|exact H2].
    apply wet_set_cell; [exact H2 | apply cell_ok_dry; discriminate]. }
  match type of H3 with wet _ _ ?x => set (g3 := x) in * end.
  destruct (Qltb 10 _) eqn:E10; simpl; [|exact H3].
  destruct (negb _); simpl; [|exact H3].
  apply wet_set_cell; [exact H3|]. apply cell_ok_volume.
  apply Qltb_lt in E10. lra.
Qed.

Lemma adjust_water_volume_wet nrows ncols g :
  wet nrows ncols g -> wet nrows ncols (adjust_water_volume nrows ncols g).
Proof.
  intros H. unfold adjust_water_volume. apply fold_left_inv; [|exact H].
  intros g' p Hg'. destruct (is_water _); [|exact Hg'].
  apply fold_left_inv; [|exact Hg']. intros g'' n. apply adjust_flow_wet.
Qed.

(** ** The flood fill *)

Lemma dry_row_insert (row : list Terrain) (j : nat) (t0 t : Terrain) :
  row !! j = Some t0 ->
  (dry_row (<[j := t]> row) + dryness t0 = dry_row row + dryness t)%nat.
Proof.
  unfold dry_row, dryness. revert j.
  induction row as [|x row IH]; intros j Hj; [discriminate|].
  destruct j as [|j]; simpl in *.
  - injection Hj as ->. destruct (is_water t0), (is_water t); simpl; lia.
  - specialize (IH j Hj). destruct (is_water x); simpl; lia.
Qed.

Lemma dry_alter (g : Grid) (i : nat) (row : list Terrain)
    (f : list Terrain -> list Terrain) :
  g !! i = Some row ->
  (dry (alter f i g) + dry_row row = dry g + dry_row (f row))%nat.
Proof.
  unfold dry. revert i. induction g as [|x g IH]; intros i Hi; [discriminate|].
  destruct i as [|i]; simpl in *.
  - injection Hi as ->. lia.
  - specialize (IH i Hi). change (list_alter f i g) with (alter f i g). lia.
Qed.

Lemma dry_set_cell (g : Grid) (r c : Z) (t0 t : Terrain) :
  lookup2 g (Z.to_nat r) (Z.to_nat c) = Some t0 ->
  (dry (set_cell g r c t) + dryness t0 = dry g + dryness t)%nat.
Proof.
  unfold lookup2, set_cell. intros H.
  destruct (g !! Z.to_nat r) as [row|] eqn:Hr; [|discriminate]. simpl in H.
  pose proof (dry_alter g (Z.to_nat r) row
                (fun row => <[Z.to_nat c := t]> row) Hr) as H1.
  pose proof (dry_row_insert row (Z.to_nat c) t0 t H) as H2.
  simpl in H1. lia.
Qed.

Lemma lookup2_in_bounds nrows ncols (g : Grid) (p : Z * Z) :
  shaped nrows ncols g -> in_bounds nrows ncols p = true ->
  exists t, lookup2 g (Z.to_nat (fst p)) (Z.to_nat (snd p)) = Some t.
Proof.
  intros [Hl Hrows] Hb. unfold in_bounds in Hb.
  apply andb_prop in Hb. destruct Hb as [Hb H4].
  apply andb_prop in Hb. destruct Hb as [Hb H3].
  apply andb_prop in Hb. destruct Hb as [H1 H2].
  apply Z.leb_le in H1, H3. apply Z.ltb_lt in H2, H4.
  unfold lookup2.
  destruct (lookup_lt_is_Some_2 g (Z.to_nat (fst p)) ltac:(lia)) as [row Hrow].
  rewrite Hrow. simpl.
  assert (Hlen : length row = Z.to_nat ncols)
    by (eapply (Forall_lookup_1 _ _ _ _ Hrows); exact Hrow).
  destruct (lookup_lt_is_Some_2 row (Z.to_nat (snd p)) ltac:(lia)) as [t Ht].
  exists t. exact Ht.
Qed.

Lemma cell_lookup2 (g : Grid) (r c : Z) (t : Terrain) :
  lookup2 g (Z.to_nat r) (Z.to_nat c) = Some t -> cell g r c = t.
Proof. intros H. rewrite lookup2_cell, H. reflexivity. Qed.

Lemma pending_cons (p : Z * Z) (stack : list (Z * Z)) (i j : nat) :
  pending stack i j -> pending (p :: stack) i j.
Proof. intros (q & Hq & H). exists q. split; [right; exact Hq | exact H]. Qed.

(** The state of the fill between two neighbours. *)
Lemma flood_visit_spec nrows ncols (g : Grid) (stack : list (Z * Z)) (q : Z * Z) :
  shaped nrows ncols g -> flooding g stack ->
  Forall (fun p => in_bounds nrows ncols p = true) stack ->
  shaped nrows ncols (fst (flood_visit nrows ncols (g, stack) q)) /\
  flooding (fst (flood_visit nrows ncols (g, stack) q))
           (snd (flood_visit nrows ncols (g, stack) q)) /\
  Forall (fun p => in_bounds nrows ncols p = true)
         (snd (flood_visit nrows ncols (g, stack) q)) /\
  (length (snd (flood_visit nrows ncols (g, stack) q))
   + dry (fst (flood_visit nrows ncols (g, stack) q))
   = length stack + dry g)%nat.
Proof.
  intros Hs Hf Hb. unfold flood_visit.
  destruct (in_bounds nrows ncols q) eqn:Hq; [|simpl; auto].
  destruct (negb (is_water (cell g (fst q) (snd q)))) eqn:Hw; simpl;
    [|auto].
  destruct (Qltb _ _); simpl; [|auto].
  destruct (lookup2_in_bounds nrows ncols g q Hs Hq) as [t0 Ht0].
  pose proof (cell_lookup2 g _ _ _ Ht0) as Hc. rewrite Hc in Hw.
  split; [apply shaped_set_cell; exact Hs|]. split; [|split].
  - intros i j t Ht. rewrite lookup2_set_cell in Ht.
    destruct (decide _) as [[-> ->]|_].
    + rewrite Ht0 in Ht. simpl in Ht. injection Ht as <-.
      right. split; [simpl; apply Qle_refl|].
      exists q. split; [left; reflexivity | split; reflexivity].
    + destruct (Hf i j t Ht) as [H|[H1 H2]]; [left; exact H|].
      right. split; [exact H1 | apply pending_cons; exact H2].
  - constructor; assumption.
  - pose proof (dry_set_cell g (fst q) (snd q) t0
                  (Terrain_new2 water (elevation t0)) Ht0) as Hd.
    unfold dryness in Hd. simpl in Hd.
    apply negb_true_iff in Hw. rewrite Hw in Hd. rewrite Hc. lia.
Qed.

Lemma flood_visits_spec nrows ncols (l : list (Z * Z)) :
  forall (g : Grid) (stack : list (Z * Z)),
  shaped nrows ncols g -> flooding g stack ->
  Forall (fun p => in_bounds nrows ncols p = true) stack ->
  shaped nrows ncols (fst (fold_left (flood_visit nrows ncols) l (g, stack))) /\
  flooding (fst (fold_left (flood_visit nrows ncols) l (g, stack)))
           (snd (fold_left (flood_visit nrows ncols) l (g, stack))) /\
  Forall (fun p => in_bounds nrows ncols p = true)
         (snd (fold_left (flood_visit nrows ncols) l (g, stack))) /\
  (length (snd (fold_left (flood_visit nrows ncols) l (g, stack)))
   + dry (fst (fold_left (flood_visit nrows ncols) l (g, stack)))
   = length stack + dry g)%nat.
Proof.
  induction l as [|q l IH]; intros g stack Hs Hf Hb; [simpl; auto|].
  cbn [fold_left].
  destruct (flood_visit_spec nrows ncols g stack q Hs Hf Hb)
    as (H1 & H2 & H3 & H4).
  destruct (flood_visit nrows ncols (g, stack) q) as [g' stack'].
  cbn [fst snd] in *. destruct (IH g' stack' H1 H2 H3) as (K1 & K2 & K3 & K4).
  split; [exact K1 | split; [exact K2 | split; [exact K3 | lia]]].
Qed.

Lemma flooding_pop (g : Grid) (p : Z * Z) (rest : list (Z * Z)) (d : Q)
    (t0 : Terrain) :
  (0 < d)%Q -> flooding g (p :: rest) ->
  lookup2 g (Z.to_nat (fst p)) (Z.to_nat (snd p)) = Some t0 ->
  flooding (upd_cell g (fst p) (snd p) (add_water d)) rest.
Proof.
  intros Hd Hf Ht0 i j t Ht. unfold upd_cell in Ht.
  rewrite lookup2_set_cell in Ht.
  destruct (decide _) as [[-> ->]|Hne].
  - rewrite Ht0 in Ht. simpl in Ht. injection Ht as <-.
    rewrite (cell_lookup2 g _ _ _ Ht0). left.
    assert (H0 : (0 <= water_volume t0)%Q).
    { destruct (Hf _ _ _ Ht0) as [[H _]|[H _]]; exact H. }
    split; simpl; [lra | intros _; lra].
  - destruct (Hf i j t Ht) as [H|[H1 (q & Hq & Hi & Hj)]]; [left; exact H|].
    destruct Hq as [<-|Hq].
    + exfalso. apply Hne. split; congruence.
    + right. split; [exact H1|]. exists q. repeat split; assumption.
Qed.

Lemma flood_loop_spec nrows ncols (d4 : Q) (fuel : nat) :
  (0 < d4 / 4)%Q ->
  forall (g : Grid) (stack : list (Z * Z)),
  shaped nrows ncols g -> flooding g stack ->
  Forall (fun p => in_bounds nrows ncols p = true) stack ->
  (length stack + dry g <= fuel)%nat ->
  wet nrows ncols (fst (flood_loop fuel nrows ncols d4 g stack)) /\
  snd (flood_loop fuel nrows ncols d4 g stack) = [].
Proof.
  intros Hd.
  assert (Hend : forall g, shaped nrows ncols g -> flooding g [] ->
                           wet nrows ncols g).
  { intros g Hs Hf. split; [exact Hs|]. apply grid_ok_lookup2.
    intros i j t Ht. destruct (Hf i j t Ht) as [H|[_ (q & [] & _)]]. exact H. }
  induction fuel as [|fuel IH]; intros g stack Hs Hf Hb Hm.
  - destruct stack; [|simpl in Hm; lia]. simpl. split; [auto | reflexivity].
  - destruct stack as [|p rest]; [simpl; split; [auto | reflexivity]|].
    cbn [flood_loop]. apply Forall_cons in Hb. destruct Hb as [Hp Hrest].
    destruct (lookup2_in_bounds nrows ncols g p Hs Hp) as [t0 Ht0].
    pose proof (flooding_pop g p rest (d4 / 4) t0 Hd Hf Ht0) as Hf1.
    assert (Hs1 : shaped nrows ncols (upd_cell g (fst p) (snd p)
                                        (add_water (d4 / 4))))
      by (apply shaped_set_cell; exact Hs).
    assert (Hdry : dry (upd_cell g (fst p) (snd p) (add_water (d4 / 4)))
                   = dry g).
    { pose proof (dry_set_cell g (fst p) (snd p) t0
                    (add_water (d4 / 4) (cell g (fst p) (snd p))) Ht0) as H.
      rewrite (cell_lookup2 g _ _ _ Ht0) in H. unfold dryness in H.
      simpl in H. unfold upd_cell. rewrite (cell_lookup2 g _ _ _ Ht0).
      unfold is_water in *. simpl in H. lia. }
    destruct (flood_visits_spec nrows ncols (cross4 (fst p) (snd p)) _ rest
                Hs1 Hf1 Hrest) as (K1 & K2 & K3 & K4).
    destruct (fold_left _ _ _) as [g2 stack2]. cbn [fst snd] in *.
    apply IH; try assumption. simpl in Hm. lia.
Qed.

Lemma dry_bound nrows ncols (g : Grid) :
  shaped nrows ncols g -> (dry g <= Z.to_nat nrows * Z.to_nat ncols)%nat.
Proof.
  intros [Hl Hrows]. rewrite <- Hl. clear Hl. unfold dry.
  induction Hrows as [|row g Hrow Hg IH]; simpl; [lia|].
  assert (dry_row row <= length row)%nat.
  { unfold dry_row. clear. induction row as [|x row IH]; simpl; [lia|].
    destruct (negb _); simpl; lia. }
  lia.
Qed.

Lemma flood_fill_wet nrows ncols (g : Grid) (r c : Z) (amount : Q) :
  (0 < amount / 4)%Q -> wet nrows ncols g ->
  in_bounds nrows ncols (r, c) = true ->
  wet nrows ncols (_flood_fill nrows ncols g r c amount).
Proof.
  intros Hd [Hs Hg] Hb. unfold _flood_fill.
  apply (flood_loop_spec nrows ncols amount (flood_fuel nrows ncols) Hd g
           [(r, c)] Hs).
  - intros i j t Ht. left. eapply grid_ok_lookup2; eassumption.
  - constructor; [exact Hb | constructor].
  - pose proof (dry_bound nrows ncols g Hs) as Hdry.
    unfold flood_fuel. simpl.
    unfold in_bounds in Hb. simpl in Hb.
    apply andb_prop in Hb. destruct Hb as [Hb H4].
    apply andb_prop in Hb. destruct Hb as [Hb H3].
    apply andb_prop in Hb. destruct Hb as [H1 H2].
    apply Z.leb_le in H1, H3. apply Z.ltb_lt in H2, H4.
    rewrite Z2Nat.inj_mul by lia. lia.
Qed.

(** ** Water through a tick *)

Lemma scan_in_bounds nrows ncols (p : Z * Z) :
  In p (scan nrows ncols) -> in_bounds nrows ncols p = true.
Proof.
  unfold scan, range. intros H. apply in_flat_map in H.
  destruct H as (r & Hr & H). apply in_map_iff in H.
  destruct H as (c & <- & Hc).
  apply list_elem_of_In, elem_of_seqZ in Hr, Hc.
  unfold in_bounds. simpl.
  repeat (apply andb_true_intro; split);
    first [apply Z.leb_le | apply Z.ltb_lt]; lia.
Qed.

Lemma fold_left_inv_In {A B} (f : A -> B -> A) (I : A -> Prop) (l : list B) :
  (forall a b, In b l -> I a -> I (f a b)) ->
  forall a, I a -> I (fold_left f l a).
Proof.
  induction l as [|b l IH]; intros Hf a Ha; simpl; [exact Ha|].
  apply IH; [intros a' b' Hb'; apply Hf; right; exact Hb'|].
  apply Hf; [left; reflexivity | exact Ha].
Qed.

Lemma precipitate_hydro e :
  hydro_ok e -> post (_precipitate e) hydro_ok.
Proof.
  intros He. unfold _precipitate. eapply post_bind; [apply post_any|].
  intros k _. destruct (k <? _); apply post_ret; [|exact He].
  unfold hydro_ok. simpl. apply adjust_water_volume_wet.
  apply fold_left_inv_In; [|exact He].
  intros g p Hp Hg. destruct (is_water _); [|exact Hg].
  apply flood_fill_wet; [reflexivity | exact Hg|].
  pose proof (scan_in_bounds _ _ _ Hp) as Hb. destruct p. exact Hb.
Qed.

Lemma update_environment_hydro sin_deg e :
  hydro_ok e -> post (update_environment sin_deg e) hydro_ok.
Proof.
  intros He. unfold update_environment.
  eapply post_bind with (P := hydro_ok).
  - apply precipitate_hydro. unfold _adjust_temperature.
    destruct (negb _); exact He.
  - intros e2 H2. apply post_ret.
    pose proof (handle_extreme_heat_wet e2 H2) as H3.
    unfold _update_season_cycle, _change_season.
    repeat match goal with
      | |- context [if ?b then _ else _] => destruct b
      | |- context [match ?o with Some _ => _ | None => _ end] => destruct o
      end; exact H3.
Qed.

Lemma cell_ok_mark_feces t : cell_ok t -> cell_ok (mark_feces t).
Proof. intros H. exact H. Qed.

Lemma cell_ok_mark_urine t : cell_ok t -> cell_ok (mark_urine t).
Proof. intros H. exact H. Qed.

Lemma hydro_py_set_cell e r c t :
  hydro_ok e -> cell_ok t -> hydro_ok (set_grid (py_set_cell (grid e) r c t) e).
Proof.
  intros [Hs Hg] Ht. split; simpl;
    [apply shaped_py_set_cell | apply grid_ok_py_set_cell]; assumption.
Qed.

Lemma handle_feeding_hydro e a :
  hydro_ok e -> post (handle_feeding e a) (fun r => hydro_ok (snd r)).
Proof.
  intros He. unfold handle_feeding.
  destruct (negb _); [|apply post_ret; exact He].
  destruct (species a).
  - apply post_ret. unfold _feed_herbivore.
    destruct (py_cell _ _ _) as [t|]; [|exact He].
    destruct (terrain_type t); try exact He. simpl.
    apply hydro_py_set_cell; [exact He | apply cell_ok_dry; discriminate].
  - unfold _feed_predator, Predator_feed.
    destruct (existsb _ _); [|apply post_ret; exact He].
    destruct (truthy _); [|apply post_ret; exact He].
    eapply post_bind; [apply post_any|]. intros prey _. unfold hunt.
    eapply post_bind; [apply post_any|]. intros u _.
    destruct (Qltb _ _); apply post_ret; exact He.
Qed.

Lemma handle_movement_hydro e a :
  hydro_ok e -> post (handle_movement e a) (fun r => hydro_ok (snd r)).
Proof.
  intros He. unfold handle_movement.
  destruct (negb _); [|apply post_ret; exact He].
  eapply post_bind; [apply post_any|]. intros moves _. unfold Animal_move.
  destruct (_ && _); [|apply post_ret; exact He].
  destruct (truthy _); [|apply post_ret; exact He].
  eapply post_bind; [apply post_any|]. intros new _. apply post_ret. exact He.
Qed.

Lemma defecate_hydro e a : hydro_ok e -> hydro_ok (snd (defecate e a)).
Proof.
  intros He. unfold defecate. simpl.
  destruct (py_cell _ _ _) as [t|] eqn:E; [|exact He].
  apply hydro_py_set_cell; [exact He|].
  apply cell_ok_mark_feces. eapply grid_ok_py_cell; [apply He | exact E].
Qed.

Lemma urinate_hydro e a : hydro_ok e -> hydro_ok (snd (urinate e a)).
Proof.
  intros He. unfold urinate. simpl.
  destruct (py_cell _ _ _) as [t|] eqn:E; [|exact He].
  apply hydro_py_set_cell; [exact He|].
  apply cell_ok_mark_urine. eapply grid_ok_py_cell; [apply He | exact E].
Qed.

Lemma herbivore_body_hydro st i :
  hydro_ok (fst (fst st)) ->
  post (herbivore_body st i) (fun st' => hydro_ok (fst (fst st'))).
Proof.
  destruct st as [[e remaining] new]. cbn [fst snd]. intros He.
  unfold herbivore_body.
  destruct (herbivores e !! i) as [h0|]; [|apply post_ret; exact He].
  destruct (handle_decay h0 i remaining) as [h1 r1]. cbv beta iota.
  destruct (negb _); [|apply post_ret; exact He].
  eapply post_bind; [apply handle_feeding_hydro; exact He|].
  intros [h3 e3] He3. cbn [fst snd] in He3. cbv beta iota.
  eapply post_bind; [apply handle_movement_hydro; exact He3|].
  intros [h5 e5] He5. cbn [fst snd] in He5. cbv beta iota.
  destruct (handle_reproduction e5 h5 new) as [h6 new6]. cbv beta iota.
  pose proof (defecate_hydro e5 h6 He5) as H7.
  destruct (defecate e5 h6) as [h7 e7]. cbn [fst snd] in H7. cbv beta iota.
  pose proof (urinate_hydro e7 h7 H7) as H8.
  destruct (urinate e7 h7) as [h8 e8]. cbn [fst snd] in H8. cbv beta iota.
  apply post_ret. exact H8.
Qed.

Lemma update_herbivores_hydro e :
  hydro_ok e -> post (update_herbivores e) hydro_ok.
Proof.
  intros He. unfold update_herbivores. eapply post_bind.
  - apply (post_foldM herbivore_body (fun st => hydro_ok (fst (fst st)))).
    + intros st i H. apply herbivore_body_hydro. exact H.
    + exact He.
  - intros [[e1 r] n] H. apply post_ret. exact H.
Qed.

Lemma predator_body_hydro st i :
  hydro_ok (fst st) ->
  post (predator_body st i) (fun st' => hydro_ok (fst st')).
Proof.
  destruct st as [e remaining]. cbn [fst snd]. intros He.
  unfold predator_body.
  destruct (predators e !! i) as [p0|]; [|apply post_ret; exact He].
  destruct (negb _); [|apply post_ret; exact He].
  eapply post_bind; [apply post_any|]. intros moves _.
  eapply post_bind; [apply post_any|]. intros p2 _.
  eapply post_bind; [apply handle_feeding_hydro; exact He|].
  intros [p4 e4] He4. apply post_ret. exact He4.
Qed.

Lemma update_predators_hydro e :
  hydro_ok e -> post (update_predators e) hydro_ok.
Proof.
  intros He. unfold update_predators. eapply post_bind.
  - apply (post_foldM predator_body (fun st => hydro_ok (fst st))).
    + intros st i H. apply predator_body_hydro. exact H.
    + exact He.
  - intros [e1 r] H. apply post_ret. exact H.
Qed.

Lemma grow_plants_hydro e : hydro_ok e -> post (grow_plants e) hydro_ok.
Proof.
  intros He. unfold grow_plants. eapply post_bind.
  - apply (post_foldM grow_plants_body
             (fun st => wet (rows e) (cols e) (fst st))); [|exact He].
    intros [g pl] p Hg. cbn [fst] in Hg. unfold grow_plants_body.
    destruct (terrain_type _); try (apply post_ret; exact Hg).
    eapply post_bind; [apply post_any|]. intros u _.
    destruct (Qltb _ _); apply post_ret; [|exact Hg]. cbn [fst].
    apply wet_set_cell; [exact Hg | apply cell_ok_dry; discriminate].
  - intros [g pl] Hg. apply post_ret. exact Hg.
Qed.

(** A tick keeps the grid in shape and its water volumes in order, whatever
    the level of precipitation. *)
Lemma update_hydro sin_deg e :
  hydro_ok e -> post (update sin_deg e) hydro_ok.
Proof.
  intros He. unfold update.
  eapply post_bind; [apply update_environment_hydro; exact He|]. intros e1 H1.
  eapply post_bind; [apply update_herbivores_hydro; exact H1|]. intros e2 H2.
  eapply post_bind; [apply update_predators_hydro; exact H2|]. intros e3 H3.
  eapply post_bind; [apply grow_plants_hydro; exact H3|]. intros e4 H4.
  apply post_ret. exact H4.
Qed.

(** ** Water at construction *)

Lemma post_mapM_length {A B} (f : A -> Rand B) (P : B -> Prop) (l : list A) :
  (forall x, post (f x) P) ->
  post (mapM f l) (fun l' => length l' = length l /\ Forall P l').
Proof.
  intros Hf. induction l as [|x l IH]; simpl.
  - apply post_ret. split; [reflexivity | constructor].
  - eapply post_bind; [apply Hf|]. intros y Hy.
    eapply post_bind; [apply IH|]. intros ys [Hl Hys].
    apply post_ret. simpl. split; [congruence | constructor; assumption].
Qed.

Lemma convert_to_water_wet nrows ncols g tiles :
  wet nrows ncols g -> wet nrows ncols (_convert_to_water g tiles).
Proof.
  intros H. unfold _convert_to_water. apply fold_left_inv; [|exact H].
  intros g' p Hg'. apply wet_set_cell; [exact Hg'|].
  apply cell_ok_volume. reflexivity.
Qed.

Lemma expand_water_bodies_wet nrows ncols n g :
  wet nrows ncols g -> wet nrows ncols (expand_water_bodies nrows ncols n g).
Proof.
  revert g. induction n as [|n IH]; intros g H; simpl; [exact H|].
  apply IH. apply convert_to_water_wet. exact H.
Qed.

Lemma generate_terrain_wet nrows ncols :
  post (_generate_terrain nrows ncols) (wet nrows ncols).
Proof.
  unfold _generate_terrain. eapply post_bind.
  - apply (post_mapM_length _
             (fun row => length row = Z.to_nat ncols /\ Forall cell_ok row)).
    intros r. eapply post_weaken.
    + apply (post_mapM_length _ cell_ok). intros c.
      eapply post_bind; [apply post_any|]. intros elev _.
      eapply post_bind; [apply post_any|]. intros terrain _.
      apply post_ret. destruct terrain; simpl;
        first [apply cell_ok_volume; reflexivity
              | apply cell_ok_dry; discriminate].
    + intros row [Hl Hrow]. split; [|exact Hrow].
      rewrite Hl. unfold range. apply length_seqZ.
  - intros g [Hl Hrows]. apply post_ret. apply expand_water_bodies_wet.
    split; [split|].
    + rewrite Hl. unfold range. apply length_seqZ.
    + eapply Forall_impl; [exact Hrows|]. intros row [H _]. exact H.
    + eapply Forall_impl; [exact Hrows|]. intros row [_ H]. exact H.
Qed.

Lemma neighbors_at_most_9 nrows ncols r c (f : Z * Z -> bool) :
  (length (List.filter f (_get_neighbors nrows ncols r c)) <= 9)%nat.
Proof.
  unfold _get_neighbors.
  etransitivity; [apply List.filter_length_le|].
  etransitivity; [apply List.filter_length_le|]. reflexivity.
Qed.

(** The water branch of the smoothing needs more than 10 water cells among
    at most 9 neighbours: the cell is kept as it is. *)
Lemma calculate_smoothed_terrain_keeps nrows ncols g r c :
  _calculate_smoothed_terrain nrows ncols g r c = cell g r c.
Proof.
  unfold _calculate_smoothed_terrain.
  pose proof (neighbors_at_most_9 nrows ncols r c (is_water_at g)) as H.
  destruct (Z.ltb_spec 10
              (Z.of_nat (length (List.filter (is_water_at g)
                                   (_get_neighbors nrows ncols r c)))));
    [lia | reflexivity].
Qed.

Lemma smooth_wet nrows ncols g :
  wet nrows ncols g ->
  wet nrows ncols
    (map (fun r => map (fun c => _calculate_smoothed_terrain nrows ncols g r c)
                    (range ncols))
         (range nrows)).
Proof.
  intros [Hs Hg]. split; [split|].
  - rewrite length_map. unfold range. apply length_seqZ.
  - apply Forall_forall. intros row Hrow. apply list_elem_of_In in Hrow.
    apply in_map_iff in Hrow. destruct Hrow as (r & <- & _).
    rewrite length_map. unfold range. apply length_seqZ.
  - apply Forall_forall. intros row Hrow. apply list_elem_of_In in Hrow.
    apply in_map_iff in Hrow. destruct Hrow as (r & <- & _).
    apply Forall_forall. intros t Ht. apply list_elem_of_In in Ht.
    apply in_map_iff in Ht. destruct Ht as (c & <- & _).
    rewrite calculate_smoothed_terrain_keeps. apply grid_ok_cell. exact Hg.
Qed.

Lemma generate_shorelines_wet nrows ncols g :
  wet nrows ncols g -> wet nrows ncols (_generate_shorelines nrows ncols g).
Proof.
  intros H. unfold _generate_shorelines. apply fold_left_inv; [|exact H].
  intros g' p Hg'. destruct (_ && _); [|exact Hg'].
  apply wet_set_cell; [exact Hg' | apply cell_ok_dry; discriminate].
Qed.

Lemma refine_wet nrows ncols g :
  wet nrows ncols g ->
  post (refine_water_bodies_and_create_shorelines nrows ncols g) (wet nrows ncols).
Proof.
  intros H. unfold refine_water_bodies_and_create_shorelines.
  eapply post_bind.
  - apply (post_foldM _ (wet nrows ncols)); [|exact H].
    intros g' p Hg'. destruct (_ && _); [|apply post_ret; exact Hg'].
    eapply post_bind; [apply post_any|]. intros u _. apply post_ret.
    apply wet_set_cell; [exact Hg'|].
    destruct (Qltb _ _); apply cell_ok_dry; discriminate.
  - intros g1 H1. apply post_ret. apply generate_shorelines_wet. exact H1.
Qed.

Lemma smooth_terrain_wet nrows ncols g :
  wet nrows ncols g -> post (_smooth_terrain nrows ncols g) (wet nrows ncols).
Proof.
  intros H. unfold _smooth_terrain. apply refine_wet.
  repeat apply smooth_wet. exact H.
Qed.

Lemma Ecosystem_init_hydro fuel next_id nrows ncols hc pc :
  post (Ecosystem_init fuel next_id nrows ncols hc pc) (when_some hydro_ok).
Proof.
  unfold Ecosystem_init.
  eapply post_bind; [apply generate_terrain_wet|]. intros g1 H1.
  eapply post_bind; [apply smooth_terrain_wet; exact H1|]. intros g2 H2.
  unfold _initialize_animals.
  eapply post_bind; [apply post_any|].
  intros [hs|] _; [|apply post_ret; intros e' [=]].
  eapply post_bind; [apply post_any|].
  intros [ps|] _; apply post_ret; [|intros e' [=]].
  intros e' [= <-]. exact H2.
Qed.

Lemma initialize_ecosystem_hydro fuel e :
  hydro_ok e -> post (initialize_ecosystem fuel e) (when_some hydro_ok).
Proof.
  intros He. unfold initialize_ecosystem.
  eapply post_bind.
  - apply (spawn_append_post Herbivore_init (fun _ => True)
             (fun _ _ _ _ _ => post_any _) _ hydro_ok); [|exact He].
    intros a e0 v _ H0. exact H0.
  - intros [e1|] H1; [|apply post_ret; intros e' [=]].
    eapply post_bind.
    + apply (spawn_append_post Predator_init (fun _ => True)
               (fun _ _ _ _ _ => post_any _) _ hydro_ok);
        [|apply H1; reflexivity].
      intros a e0 v _ H0. exact H0.
    + intros [e2|] H2; [|apply post_ret; intros e' [=]].
      apply plant_append_post; [|apply H2; reflexivity].
      intros e0 r c H0. unfold hydro_ok. simpl.
      apply wet_set_cell; [exact H0 | apply cell_ok_dry; discriminate].
Qed.

Lemma reachable_hydro sin_deg e : reachable sin_deg e -> hydro_ok e.
Proof.
  intros Hr. induction Hr as
    [fuel next_id nrows ncols hc pc g e Hi
    |fuel e g e' Hr IH Hi | e level Hr IH | e g Hr IH].
  - apply (Ecosystem_init_hydro fuel next_id nrows ncols hc pc g). exact Hi.
  - apply (initialize_ecosystem_hydro fuel e IH g). exact Hi.
  - exact IH.
  - apply (update_hydro sin_deg e IH g).
Qed.

Lemma cell_ok_spelled (t : Terrain) :
  cell_ok t ->
  (0 <= water_volume t)%Q /\
  ((water_volume t == 0)%Q -> terrain_type t <> water).
Proof.
  intros [H0 Hw]. split; [exact H0|]. intros Hz Ht.
  assert (Hi : is_water t = true) by (unfold is_water; rewrite Ht; reflexivity).
  specialize (Hw Hi). lra.
Qed.

(** C7. In every state that a run reaches, every cell of the grid has a
    water volume of at least 0 and no cell of volume 0 is classified as
    water.  The property is an invariant of the tick at every precipitation
    level, and the two operations that build a water cell of volume 0 keep
    it: the smoothing never takes its water branch (it needs more than 10
    water cells among at most 9 neighbours), and the flood fill adds a
    quarter of the water amount to every cell that it turned into water
    before it returns. *)
Theorem water_volume_invariant (sin_deg : Z -> Q) (e : Ecosystem) :
  (reachable sin_deg e ->
     hydro_ok e /\
     forall i j t, lookup2 (grid e) i j = Some t ->
       (0 <= water_volume t)%Q /\
       ((water_volume t == 0)%Q -> terrain_type t <> water)) /\
  (hydro_ok e -> forall gen, hydro_ok (fst (update sin_deg e gen))) /\
  (forall g gen, wet (rows e) (cols e) g ->
     wet (rows e) (cols e) (fst (_smooth_terrain (rows e) (cols e) g gen))) /\
  (forall g r c, wet (rows e) (cols e) g ->
     in_bounds (rows e) (cols e) (r, c) = true ->
     wet (rows e) (cols e) (_flood_fill (rows e) (cols e) g r c 200)).
Proof.
  split; [|split; [|split]].
  - intros Hr. pose proof (reachable_hydro sin_deg e Hr) as H.
    split; [exact H|]. intros i j t Ht. apply cell_ok_spelled.
    destruct H as [_ Hg]. eapply grid_ok_lookup2; eassumption.
  - intros H gen. apply (update_hydro sin_deg e H gen).
  - intros g gen H. apply (smooth_terrain_wet _ _ g H gen).
  - intros g r c H Hb. apply flood_fill_wet; [reflexivity | exact H | exact Hb].
Qed.

Lemma water_volume_invariant_witness : hydro_ok tiny_world.
Proof.
  apply (proj1 (water_volume_invariant sin_deg_0 tiny_world)).
  apply (reach_init sin_deg_0 1 0 1 1 1 0 (scripted [0; 4503599627370496]%N)).
  exact tiny_world_built.
Defined.

(** Rain at work: the fill turns the two low cells into water of volume 50
    and more, and the grid stays in order. *)
Example rain_floods_lowland :
  map (map (fun t => (terrain_type t, Qle_bool 50 (water_volume t))))
      (grid (fst (update sin_deg_0 rainy_world (scripted []))))
  = [[(water, true); (water, true); (water, true)]].
Proof. vm_compute. reflexivity. Qed.

(** ** Runs that differ in the counter of identities *)

Lemma lifts_ret {A B} (f : A -> B) (a : A) : lifts f (ret (f a)) (ret a).
Proof. intros g. reflexivity. Qed.

Lemma lifts_ret_eq {A B} (f : A -> B) (a : A) (b : B) :
  b = f a -> lifts f (ret b) (ret a).
Proof. intros ->. apply lifts_ret. Qed.

Lemma lifts_bind {A A' B B'} (fa : A -> A') (fb : B -> B')
    (c' : Rand A') (c : Rand A) (k' : A' -> Rand B') (k : A -> Rand B) :
  lifts fa c' c -> (forall a, lifts fb (k' (fa a)) (k a)) ->
  lifts fb (bind c' k') (bind c k).
Proof.
  intros Hc Hk g. unfold bind. rewrite (Hc g).
  destruct (c g) as [a g1]. simpl. apply Hk.
Qed.

Lemma lifts_same {A} (c : Rand A) : lifts (fun x => x) c c.
Proof. intros g. destruct (c g). reflexivity. Qed.

Lemma lifts_bind_same {A B B'} (fb : B -> B')
    (c : Rand A) (k' : A -> Rand B') (k : A -> Rand B) :
  (forall a, lifts fb (k' a) (k a)) -> lifts fb (bind c k') (bind c k).
Proof.
  intros Hk. apply (lifts_bind (fun x => x) fb c c k' k (lifts_same c) Hk).
Qed.

Lemma lifts_foldM {S S' A} (f : S -> S') (b' : S' -> A -> Rand S')
    (b : S -> A -> Rand S) (l : list A) :
  (forall s x, lifts f (b' (f s) x) (b s x)) ->
  forall s, lifts f (foldM b' (f s) l) (foldM b s l).
Proof.
  intros Hb. induction l as [|x l IH]; intros s; simpl.
  - apply lifts_ret.
  - eapply lifts_bind; [apply Hb | apply IH].
Qed.

Lemma shift_animal_fields k a :
  species (shift_animal k a) = species a /\ row (shift_animal k a) = row a /\
  col (shift_animal k a) = col a /\ is_dead (shift_animal k a) = is_dead a /\
  is_adult (shift_animal k a) = is_adult a.
Proof. repeat split. Qed.

Lemma same_animal_shift k a b :
  same_animal (shift_animal k a) (shift_animal k b) = same_animal a b.
Proof.
  unfold same_animal. simpl.
  destruct (Z.eqb_spec (id a) (id b)), (Z.eqb_spec (id a + k) (id b + k));
    try reflexivity; lia.
Qed.

Lemma filter_map_commute {A B} (f : A -> B) (p : A -> bool) (q : B -> bool)
    (l : list A) :
  (forall x, q (f x) = p x) ->
  List.filter q (map f l) = map f (List.filter p l).
Proof.
  intros H. induction l as [|x l IH]; simpl; [reflexivity|].
  rewrite H. destruct (p x); simpl; rewrite IH; reflexivity.
Qed.

Lemma existsb_map_commute {A B} (f : A -> B) (p : A -> bool) (q : B -> bool)
    (l : list A) :
  (forall x, q (f x) = p x) -> existsb q (map f l) = existsb p l.
Proof.
  intros H. induction l as [|x l IH]; simpl; [reflexivity|].
  rewrite H, IH. reflexivity.
Qed.

Lemma remove_first_map_commute {A B} (f : A -> B) (p : A -> bool)
    (q : B -> bool) (l : list A) :
  (forall x, q (f x) = p x) ->
  remove_first q (map f l) = map f (remove_first p l).
Proof.
  intros H. induction l as [|x l IH]; simpl; [reflexivity|].
  rewrite H. destruct (p x); simpl; [|rewrite IH]; reflexivity.
Qed.

Lemma truthy_map {A B} (f : A -> B) (l : list A) : truthy (map f l) = truthy l.
Proof. destruct l; reflexivity. Qed.

Lemma age_animal_shift k a :
  _age_animal (shift_animal k a) = shift_animal k (_age_animal a).
Proof.
  unfold _age_animal. simpl. destruct (_ && _); reflexivity.
Qed.

Lemma check_death_conditions_shift k a :
  _check_death_conditions (shift_animal k a)
  = shift_animal k (_check_death_conditions a).
Proof.
  unfold _check_death_conditions, die. simpl.
  destruct (max_age a <=? age a); [destruct (negb _); reflexivity|].
  destruct (100 <=? hunger a); [destruct (negb _); reflexivity|].
  destruct (100 <=? thirst a); [destruct (negb _); reflexivity|].
  destruct (Qle_bool 42 (body_temperature a)); [destruct (negb _); reflexivity|].
  destruct (energy a <=? 0); [destruct (negb _); reflexivity|].
  reflexivity.
Qed.

Lemma regenerate_energy_shift k a :
  _regenerate_energy (shift_animal k a) = shift_animal k (_regenerate_energy a).
Proof. unfold _regenerate_energy. simpl. destruct (_ <? _); reflexivity. Qed.

Lemma handle_vital_stats_shift k a :
  handle_vital_stats (shift_animal k a) = shift_animal k (handle_vital_stats a).
Proof.
  unfold handle_vital_stats. rewrite age_animal_shift.
  change (_increase_hunger (shift_animal k (_age_animal a)))
    with (shift_animal k (_increase_hunger (_age_animal a))).
  change (_increase_thirst (shift_animal k (_increase_hunger (_age_animal a))))
    with (shift_animal k (_increase_thirst (_increase_hunger (_age_animal a)))).
  rewrite check_death_conditions_shift. apply regenerate_energy_shift.
Qed.

Lemma undergo_decay_shift k a :
  undergo_decay (shift_animal k a) = shift_animal k (undergo_decay a).
Proof. unfold undergo_decay. simpl. destruct (is_dead a); reflexivity. Qed.

Lemma handle_decay_shift k a i r :
  handle_decay (shift_animal k a) i r
  = (shift_animal k (fst (handle_decay a i r)), snd (handle_decay a i r)).
Proof.
  unfold handle_decay. simpl. destruct (is_dead a); [|reflexivity].
  rewrite undergo_decay_shift. simpl. reflexivity.
Qed.

Lemma reproduce_shift k a o :
  reproduce (shift_animal k a) (shift_animal k o)
  = (shift_animal k (fst (reproduce a o)), None).
Proof.
  unfold reproduce. simpl. destruct (species a).
  - unfold Herbivore_reproduce.
    change (Herbivore_can_reproduce (shift_animal k a))
      with (Herbivore_can_reproduce a). simpl.
    destruct (_ && _); reflexivity.
  - unfold Animal_reproduce.
    change (_meets_reproduction_conditions (shift_animal k a) (shift_animal k o))
      with (_meets_reproduction_conditions a o).
    destruct (_meets_reproduction_conditions a o); reflexivity.
Qed.

Lemma can_reproduce_together_shift k a o :
  _can_reproduce_together (shift_animal k a) (shift_animal k o)
  = _can_reproduce_together a o.
Proof. reflexivity. Qed.

Lemma reproduction_loop_shift k others a new :
  reproduction_loop (map (shift_animal k) others) (shift_animal k a)
    (map (shift_animal k) new)
  = (shift_animal k (fst (reproduction_loop others a new)),
     map (shift_animal k) (snd (reproduction_loop others a new))).
Proof.
  revert a. induction others as [|o others IH]; intros a; simpl; [reflexivity|].
  rewrite can_reproduce_together_shift.
  destruct (_can_reproduce_together a o); [|apply IH].
  rewrite reproduce_shift. pose proof (reproduce_no_child a o) as Hn.
  destruct (reproduce a o) as [a' child]. simpl in *. subst child. apply IH.
Qed.

Lemma lookup_map {A B} (f : A -> B) (l : list A) (i : nat) :
  map f l !! i = option_map f (l !! i).
Proof.
  revert i. induction l as [|x l IH]; intros [|i]; simpl; try reflexivity.
  apply IH.
Qed.

Lemma insert_map {A B} (f : A -> B) (l : list A) (i : nat) (x : A) :
  <[i := f x]> (map f l) = map f (<[i := x]> l).
Proof.
  revert i. induction l as [|y l IH]; intros [|i]; simpl; try reflexivity.
  f_equal. apply IH.
Qed.

Lemma resolve_map (f : Animal -> Animal) (roster : list Animal)
    (remaining : list nat) :
  resolve (map f roster) remaining = map f (resolve roster remaining).
Proof.
  unfold resolve, omap. induction remaining as [|i l IH]; simpl; [reflexivity|].
  rewrite lookup_map. destruct (roster !! i); simpl; rewrite IH; reflexivity.
Qed.

Lemma living_shift k l : living (map (shift_animal k) l) = living l.
Proof.
  unfold living.
  rewrite (filter_map_commute (shift_animal k)
             (fun a => negb (is_dead a)) (fun a => negb (is_dead a)))
    by reflexivity.
  rewrite length_map. reflexivity.
Qed.

Lemma outcome_shift k e : outcome (shift k e) = outcome e.
Proof. unfold outcome. simpl. rewrite !living_shift. reflexivity. Qed.

Lemma apply_seasonal_effects_shift k s e :
  apply_seasonal_effects s (shift k e) = shift k (apply_seasonal_effects s e).
Proof.
  unfold apply_seasonal_effects, shift. simpl. rewrite !map_map. reflexivity.
Qed.

Lemma update_season_cycle_shift k e :
  _update_season_cycle (shift k e) = shift k (_update_season_cycle e).
Proof.
  unfold _update_season_cycle. simpl.
  destruct (season_duration e <=? season_cycle e + 1); [|reflexivity].
  unfold _change_season. simpl.
  destruct (seasons !! _); [|reflexivity].
  apply (apply_seasonal_effects_shift k s
           (set_season ((current_season e + 1) mod length seasons) 0
              (set_season (current_season e) (season_cycle e + 1) e))).
Qed.

Lemma update_environment_shift k sin_deg e :
  lifts (shift k) (update_environment sin_deg (shift k e))
        (update_environment sin_deg e).
Proof.
  unfold update_environment.
  eapply (lifts_bind (shift k)).
  - unfold _precipitate, _adjust_temperature. simpl.
    apply lifts_bind_same. intros d.
    destruct (negb (manual_temperature_control e)); simpl;
      destruct (d <? precipitation_level e);
      apply lifts_ret_eq; reflexivity.
  - intros e2. apply lifts_ret_eq.
    rewrite <- update_season_cycle_shift. f_equal.
    unfold _handle_extreme_heat. simpl.
    destruct (Qle_bool 100 (ambient_temperature e2)); reflexivity.
Qed.

Lemma handle_drinking_shift k e a :
  handle_drinking (shift k e) (shift_animal k a)
  = shift_animal k (handle_drinking e a).
Proof. unfold handle_drinking. simpl. destruct (_ && _); reflexivity. Qed.

Lemma defecate_shift k e a :
  defecate (shift k e) (shift_animal k a)
  = both (shift_animal k) (shift k) (defecate e a).
Proof.
  unfold defecate, both. simpl. destruct (py_cell _ _ _); reflexivity.
Qed.

Lemma urinate_shift k e a :
  urinate (shift k e) (shift_animal k a)
  = both (shift_animal k) (shift k) (urinate e a).
Proof.
  unfold urinate, both. simpl. destruct (py_cell _ _ _); reflexivity.
Qed.

Lemma random_choice_shift {A B} (f : A -> B) (d : A) (l : list A) :
  lifts f (random_choice (f d) (map f l)) (random_choice d l).
Proof.
  unfold random_choice. rewrite length_map.
  apply lifts_bind_same. intros j. apply lifts_ret_eq. apply map_nth.
Qed.

Lemma hunt_shift k e p prey :
  lifts (both (shift_animal k) (shift k))
    (hunt (shift k e) (shift_animal k p) (shift_animal k prey))
    (hunt e p prey).
Proof.
  unfold hunt. simpl. apply lifts_bind_same. intros u.
  destruct (Qltb u (hunting_success_rate p)); apply lifts_ret_eq;
    [|reflexivity].
  unfold both. simpl.
  rewrite (remove_first_map_commute (shift_animal k) (same_animal prey))
    by (intros x; apply same_animal_shift).
  reflexivity.
Qed.

Lemma handle_feeding_shift k e a :
  lifts (both (shift_animal k) (shift k))
    (handle_feeding (shift k e) (shift_animal k a)) (handle_feeding e a).
Proof.
  unfold handle_feeding. simpl.
  destruct (negb (is_dead a)); [|apply lifts_ret_eq; reflexivity].
  destruct (species a).
  - apply lifts_ret_eq. unfold _feed_herbivore, both. simpl.
    destruct (py_cell _ _ _) as [t|]; [|reflexivity].
    destruct (terrain_type t); reflexivity.
  - unfold _feed_predator. simpl.
    rewrite (existsb_map_commute (shift_animal k)
               (fun h => _is_adjacent (row a) (col a) (row h) (col h)
                         && negb (is_dead h))) by reflexivity.
    destruct (existsb _ _); [|apply lifts_ret_eq; reflexivity].
    unfold Predator_feed. simpl.
    rewrite (filter_map_commute (shift_animal k) (_is_near a)) by reflexivity.
    rewrite truthy_map.
    destruct (truthy _); [|apply lifts_ret_eq; reflexivity].
    eapply lifts_bind; [apply random_choice_shift|].
    intros prey. apply hunt_shift.
Qed.

Lemma tile_animals_shift (k : Z) (m : gmap (Z * Z) (list (Z * Species)))
    (tile : Z * Z) :
  tile_animals (map (shift_entry k) <$> m) tile
  = map (shift_entry k) (tile_animals m tile).
Proof.
  unfold tile_animals. rewrite lookup_fmap. destruct (m !! tile); reflexivity.
Qed.

Lemma occupied_shift k e tile sp :
  is_tile_occupied_by_same_species (shift k e) tile sp
  = is_tile_occupied_by_same_species e tile sp.
Proof.
  unfold is_tile_occupied_by_same_species. simpl. rewrite tile_animals_shift.
  apply existsb_map_commute. reflexivity.
Qed.

Lemma entry_eqb_shift (k i : Z) (x : Z * Species) :
  (fst (shift_entry k x) =? i + k) = (fst x =? i).
Proof.
  unfold shift_entry. simpl.
  destruct (Z.eqb_spec (fst x) i), (Z.eqb_spec (fst x + k) (i + k));
    try reflexivity; lia.
Qed.

Lemma get_nearby_animals_shift k e a radius :
  get_nearby_animals (shift k e) (shift_animal k a) radius
  = map (shift_animal k) (get_nearby_animals e a radius).
Proof.
  unfold get_nearby_animals. simpl. rewrite <- map_app.
  apply filter_map_commute. intros b.
  rewrite same_animal_shift. reflexivity.
Qed.

Lemma choose_new_location_shift k a moves nearby :
  _choose_new_location (shift_animal k a) moves (map (shift_animal k) nearby)
  = _choose_new_location a moves nearby.
Proof.
  unfold _choose_new_location. simpl.
  rewrite truthy_map, length_map, !map_map. reflexivity.
Qed.

Lemma tiles_after_move_shift (k : Z) (m : gmap (Z * Z) (list (Z * Species)))
    (here new : Z * Z) (i : Z) (sp : Species) :
  <[new := tile_animals
             (if existsb (fun x => fst x =? i + k)
                   (tile_animals (map (shift_entry k) <$> m) here)
              then <[here := remove_first (fun x => fst x =? i + k)
                               (tile_animals (map (shift_entry k) <$> m) here)]>
                     (map (shift_entry k) <$> m)
              else map (shift_entry k) <$> m) new
           ++ [(i + k, sp)]]>
    (if existsb (fun x => fst x =? i + k)
          (tile_animals (map (shift_entry k) <$> m) here)
     then <[here := remove_first (fun x => fst x =? i + k)
                      (tile_animals (map (shift_entry k) <$> m) here)]>
            (map (shift_entry k) <$> m)
     else map (shift_entry k) <$> m)
  = map (shift_entry k)
    <$> (<[new := tile_animals
                    (if existsb (fun x => fst x =? i) (tile_animals m here)
                     then <[here := remove_first (fun x => fst x =? i)
                                      (tile_animals m here)]> m
                     else m) new
                  ++ [(i, sp)]]>
           (if existsb (fun x => fst x =? i) (tile_animals m here)
            then <[here := remove_first (fun x => fst x =? i)
                             (tile_animals m here)]> m
            else m)).
Proof.
  rewrite !tile_animals_shift.
  rewrite (existsb_map_commute (shift_entry k) (fun x => fst x =? i))
    by (intros x; apply entry_eqb_shift).
  rewrite (remove_first_map_commute (shift_entry k) (fun x => fst x =? i))
    by (intros x; apply entry_eqb_shift).
  destruct (existsb _ _).
  - rewrite <- (fmap_insert (map (shift_entry k)) m here).
    rewrite tile_animals_shift.
    rewrite (fmap_insert (map (shift_entry k)) _ new).
    rewrite map_app. reflexivity.
  - rewrite tile_animals_shift.
    rewrite (fmap_insert (map (shift_entry k)) _ new).
    rewrite map_app. reflexivity.
Qed.

Lemma Animal_move_shift k e moves nearby a :
  lifts (both (shift_animal k) (shift k))
    (Animal_move (shift k e) moves (map (shift_animal k) nearby)
       (shift_animal k a))
    (Animal_move e moves nearby a).
Proof.
  unfold Animal_move. simpl.
  destruct (truthy moves && (0 <? energy a) && negb (is_dead a));
    [|apply lifts_ret_eq; reflexivity].
  assert (Hf : List.filter
                 (fun mv => negb (is_tile_occupied_by_same_species (shift k e)
                                    mv (species a))) moves
               = List.filter
                   (fun mv => negb (is_tile_occupied_by_same_species e mv
                                      (species a))) moves).
  { apply List.filter_ext. intros mv. rewrite occupied_shift. reflexivity. }
  rewrite Hf. clear Hf.
  destruct (truthy _); [|apply lifts_ret_eq; reflexivity].
  rewrite choose_new_location_shift.
  apply lifts_bind_same. intros new. apply lifts_ret_eq.
  unfold both. simpl. rewrite tiles_after_move_shift. reflexivity.
Qed.

Lemma handle_movement_shift k e a :
  lifts (both (shift_animal k) (shift k))
    (handle_movement (shift k e) (shift_animal k a)) (handle_movement e a).
Proof.
  unfold handle_movement. simpl.
  destruct (negb (is_dead a)); [|apply lifts_ret_eq; reflexivity].
  change (_get_valid_moves (shift k e) (row a) (col a))
    with (_get_valid_moves e (row a) (col a)).
  apply lifts_bind_same. intros moves.
  rewrite get_nearby_animals_shift. apply Animal_move_shift.
Qed.

Lemma get_same_species_shift k e a :
  _get_same_species (shift k e) (shift_animal k a)
  = map (shift_animal k) (_get_same_species e a).
Proof.
  unfold _get_same_species. simpl.
  destruct (species a); simpl; apply filter_map_commute; intros b;
    rewrite same_animal_shift; reflexivity.
Qed.

Lemma handle_reproduction_shift k e a new :
  handle_reproduction (shift k e) (shift_animal k a) (map (shift_animal k) new)
  = both (shift_animal k) (map (shift_animal k)) (handle_reproduction e a new).
Proof.
  unfold handle_reproduction. rewrite get_same_species_shift.
  apply reproduction_loop_shift.
Qed.

Lemma herbivore_body_shift k st i :
  lifts (shift_herbivore_pass k)
    (herbivore_body (shift_herbivore_pass k st) i) (herbivore_body st i).
Proof.
  destruct st as [[e rem] new]. unfold shift_herbivore_pass, herbivore_body.
  cbn [fst snd].
  change (herbivores (shift k e)) with (map (shift_animal k) (herbivores e)).
  rewrite lookup_map.
  destruct (herbivores e !! i) as [h|]; cbn [option_map];
    [|apply lifts_ret_eq; reflexivity].
  rewrite handle_decay_shift.
  destruct (handle_decay h i rem) as [h1 rem1]. cbn [fst snd].
  rewrite handle_vital_stats_shift.
  change (is_dead (shift_animal k (handle_vital_stats h1)))
    with (is_dead (handle_vital_stats h1)).
  destruct (negb (is_dead (handle_vital_stats h1))).
  - eapply lifts_bind; [apply handle_feeding_shift|].
    intros [h2 e2]. unfold both at 1. cbn [fst snd].
    rewrite handle_drinking_shift.
    eapply lifts_bind; [apply handle_movement_shift|].
    intros [h3 e3]. unfold both at 1. cbn [fst snd].
    rewrite handle_reproduction_shift.
    destruct (handle_reproduction e3 h3 new) as [h4 new4].
    unfold both at 1. cbn [fst snd].
    rewrite defecate_shift. destruct (defecate e3 h4) as [h5 e5].
    unfold both at 1. cbn [fst snd].
    rewrite urinate_shift. destruct (urinate e5 h5) as [h6 e6].
    unfold both at 1. cbn [fst snd].
    apply lifts_ret_eq. cbn [fst snd]. f_equal. f_equal.
    unfold shift, set_herbivores. simpl. rewrite insert_map. reflexivity.
  - apply lifts_ret_eq. cbn [fst snd]. f_equal. f_equal.
    unfold shift, set_herbivores. simpl. rewrite insert_map. reflexivity.
Qed.

Lemma update_herbivores_shift k e :
  lifts (shift k) (update_herbivores (shift k e)) (update_herbivores e).
Proof.
  unfold update_herbivores.
  change (herbivores (shift k e)) with (map (shift_animal k) (herbivores e)).
  rewrite length_map.
  eapply lifts_bind.
  - apply (lifts_foldM (shift_herbivore_pass k) herbivore_body herbivore_body
             (seq 0 (length (herbivores e))) (herbivore_body_shift k)
             (e, [], [])).
  - intros [[e1 rem] new]. unfold shift_herbivore_pass. cbn [fst snd].
    apply lifts_ret_eq. unfold shift, set_herbivores. simpl.
    rewrite resolve_map, map_app. reflexivity.
Qed.

Lemma Predator_move_shift k moves p :
  lifts (shift_animal k) (Predator_move moves (shift_animal k p))
        (Predator_move moves p).
Proof.
  unfold Predator_move. simpl.
  destruct (truthy moves && (0 <? energy p) && negb (is_dead p));
    [|apply lifts_ret].
  apply lifts_bind_same. intros m. apply lifts_ret_eq. reflexivity.
Qed.

Lemma get_valid_moves_shift k e r c :
  _get_valid_moves (shift k e) r c = _get_valid_moves e r c.
Proof. reflexivity. Qed.

Lemma predator_body_shift k st i :
  lifts (shift_predator_pass k)
    (predator_body (shift_predator_pass k st) i) (predator_body st i).
Proof.
  destruct st as [e rem]. unfold shift_predator_pass, predator_body.
  cbn [fst snd].
  change (predators (shift k e)) with (map (shift_animal k) (predators e)).
  rewrite lookup_map.
  destruct (predators e !! i) as [p|]; cbn [option_map];
    [|apply lifts_ret_eq; reflexivity].
  rewrite handle_vital_stats_shift.
  generalize (handle_vital_stats p). clear p. intros p.
  change (is_dead (shift_animal k p)) with (is_dead p).
  change (row (shift_animal k p)) with (row p).
  change (col (shift_animal k p)) with (col p).
  rewrite get_valid_moves_shift.
  destruct (negb (is_dead p)).
  - apply lifts_bind_same. intros moves.
    eapply lifts_bind; [apply Predator_move_shift|].
    intros p1. rewrite handle_drinking_shift.
    eapply lifts_bind; [apply handle_feeding_shift|].
    intros [p2 e2]. unfold both at 1. cbn [fst snd].
    apply lifts_ret_eq. cbn [fst snd]. f_equal.
    unfold shift, set_predators. cbn [predators]. rewrite insert_map.
    reflexivity.
  - apply lifts_ret_eq. cbn [fst snd]. f_equal.
    unfold shift, set_predators. cbn [predators]. rewrite insert_map.
    reflexivity.
Qed.

Lemma update_predators_shift k e :
  lifts (shift k) (update_predators (shift k e)) (update_predators e).
Proof.
  unfold update_predators.
  change (predators (shift k e)) with (map (shift_animal k) (predators e)).
  rewrite length_map.
  eapply lifts_bind.
  - apply (lifts_foldM (shift_predator_pass k) predator_body predator_body
             (seq 0 (length (predators e))) (predator_body_shift k) (e, [])).
  - intros [e1 rem]. unfold shift_predator_pass. cbn [fst snd].
    apply lifts_ret_eq. unfold shift, set_predators. simpl.
    rewrite resolve_map. reflexivity.
Qed.

Lemma grow_plants_shift k e :
  lifts (shift k) (grow_plants (shift k e)) (grow_plants e).
Proof.
  unfold grow_plants.
  change (grid (shift k e)) with (grid e).
  change (plants (shift k e)) with (plants e).
  change (rows (shift k e)) with (rows e).
  change (cols (shift k e)) with (cols e).
  apply lifts_bind_same. intros [g pl]. apply lifts_ret_eq. reflexivity.
Qed.

Lemma update_plants_shift k e :
  update_plants (shift k e) = shift k (update_plants e).
Proof. reflexivity. Qed.

Lemma body_temperature_shift k e :
  _update_animal_body_temperature_and_plant_nutrition (shift k e)
  = shift k (_update_animal_body_temperature_and_plant_nutrition e).
Proof.
  unfold _update_animal_body_temperature_and_plant_nutrition, shift.
  simpl. rewrite !map_map. reflexivity.
Qed.

Lemma update_population_data_shift k e :
  update_population_data (shift k e) = shift k (update_population_data e).
Proof.
  unfold update_population_data, shift. simpl. rewrite !living_shift.
  reflexivity.
Qed.

Lemma update_shift k sin_deg e :
  lifts (shift k) (update sin_deg (shift k e)) (update sin_deg e).
Proof.
  unfold update.
  eapply lifts_bind; [apply update_environment_shift|]. intros e1.
  eapply lifts_bind; [apply update_herbivores_shift|]. intros e2.
  eapply lifts_bind; [apply update_predators_shift|]. intros e3.
  eapply lifts_bind; [apply grow_plants_shift|]. intros e4.
  cbv zeta. rewrite update_plants_shift, body_temperature_shift,
    update_population_data_shift.
  apply lifts_ret_eq. reflexivity.
Qed.

Lemma run_shift k sin_deg n e :
  lifts (shift k) (run sin_deg n (shift k e)) (run sin_deg n e).
Proof.
  revert e. induction n as [|n IH]; intros e; simpl.
  - apply lifts_ret.
  - eapply lifts_bind; [apply update_shift | apply IH].
Qed.

Lemma Animal_init_shift k n r c spd sx sp :
  lifts (shift_animal k) (Animal_init (n + k) r c spd sx sp)
        (Animal_init n r c spd sx sp).
Proof.
  unfold Animal_init.
  repeat (apply lifts_bind_same; intros ?).
  apply lifts_ret_eq. reflexivity.
Qed.

Lemma Herbivore_init_shift k n r c spd sx :
  lifts (shift_animal k) (Herbivore_init (n + k) r c spd sx)
        (Herbivore_init n r c spd sx).
Proof.
  unfold Herbivore_init.
  eapply lifts_bind; [apply Animal_init_shift|]. intros a.
  apply lifts_bind_same. intros count. apply lifts_ret_eq. reflexivity.
Qed.

Lemma Predator_init_shift k n r c spd sx :
  lifts (shift_animal k) (Predator_init (n + k) r c spd sx)
        (Predator_init n r c spd sx).
Proof.
  unfold Predator_init.
  eapply lifts_bind; [apply Animal_init_shift|]. intros a. cbv zeta.
  apply lifts_bind_same. intros immune. apply lifts_ret_eq. reflexivity.
Qed.

Lemma is_tile_occupied_shift k e r c :
  is_tile_occupied (shift k e) r c = is_tile_occupied e r c.
Proof.
  unfold is_tile_occupied. simpl. rewrite <- map_app.
  apply existsb_map_commute. reflexivity.
Qed.

Lemma generate_valid_location_shift k fuel e :
  lifts (fun x => x) (_generate_valid_location fuel (shift k e))
        (_generate_valid_location fuel e).
Proof.
  induction fuel as [|fuel IH]; cbn [_generate_valid_location].
  - apply lifts_same.
  - change (rows (shift k e)) with (rows e).
    change (cols (shift k e)) with (cols e).
    change (grid (shift k e)) with (grid e).
    apply lifts_bind_same. intros r. apply lifts_bind_same. intros c.
    rewrite is_tile_occupied_shift.
    destruct (negb (is_water (cell (grid e) r c))
              && negb (is_tile_occupied e r c)); [apply lifts_same | apply IH].
Qed.

Section SpawnShift.

Variable init : Z -> Z -> Z -> Q -> Sex -> Rand Animal.
Variable k : Z.
Hypothesis init_shift : forall n r c spd sx,
  lifts (shift_animal k) (init (n + k) r c spd sx) (init n r c spd sx).

Lemma spawn_shift fuel e n :
  lifts (option_map (shift_animal k)) (spawn init fuel (shift k e) (n + k))
        (spawn init fuel e n).
Proof.
  unfold spawn.
  eapply lifts_bind; [apply generate_valid_location_shift|].
  intros [[r c]|]; [|apply lifts_ret_eq; reflexivity].
  apply lifts_bind_same. intros spd. apply lifts_bind_same. intros sx.
  eapply lifts_bind; [apply init_shift|]. intros a.
  apply lifts_ret_eq. reflexivity.
Qed.

Lemma spawn_list_shift fuel e count n :
  lifts (option_map (map (shift_animal k)))
        (spawn_list init fuel (shift k e) count (n + k))
        (spawn_list init fuel e count n).
Proof.
  revert n. induction count as [|count IH]; intros n; cbn [spawn_list].
  - apply lifts_ret_eq. reflexivity.
  - eapply lifts_bind; [apply spawn_shift|].
    intros [a|]; cbn [option_map]; [|apply lifts_ret_eq; reflexivity].
    replace (n + k + 1) with (n + 1 + k) by lia.
    eapply lifts_bind; [apply IH|].
    intros [others|]; apply lifts_ret_eq; reflexivity.
Qed.

End SpawnShift.

Lemma initialize_animals_shift k fuel hc pc e :
  lifts (option_map (shift k)) (_initialize_animals fuel hc pc (shift k e))
        (_initialize_animals fuel hc pc e).
Proof.
  unfold _initialize_animals.
  change (animal_id_counter (shift k e)) with (animal_id_counter e + k).
  eapply lifts_bind;
    [apply (spawn_list_shift Herbivore_init k (Herbivore_init_shift k))|].
  intros [hs|]; cbn [option_map]; [|apply lifts_ret_eq; reflexivity].
  cbv zeta. rewrite length_map.
  replace (set_animal_id_counter
             (animal_id_counter e + k + Z.of_nat (length hs))
             (set_herbivores (map (shift_animal k) hs) (shift k e)))
    with (shift k (set_animal_id_counter
                     (animal_id_counter e + Z.of_nat (length hs))
                     (set_herbivores hs e))).
  2:{ unfold shift, set_animal_id_counter, set_herbivores. simpl.
      f_equal. lia. }
  set (e1 := set_animal_id_counter _ (set_herbivores hs e)).
  change (animal_id_counter (shift k e1)) with (animal_id_counter e1 + k).
  eapply lifts_bind;
    [apply (spawn_list_shift Predator_init k (Predator_init_shift k))|].
  intros [ps|]; cbn [option_map]; apply lifts_ret_eq; [|reflexivity].
  cbn [option_map]. f_equal.
  unfold shift, set_animal_id_counter, set_predators. simpl.
  rewrite length_map. f_equal. lia.
Qed.

Lemma Ecosystem_init_shift k fuel next_id nrows ncols hc pc :
  lifts (option_map (shift k))
        (Ecosystem_init fuel (next_id + k) nrows ncols hc pc)
        (Ecosystem_init fuel next_id nrows ncols hc pc).
Proof.
  unfold Ecosystem_init.
  apply lifts_bind_same. intros g0. apply lifts_bind_same. intros g.
  cbv zeta.
  replace (mkEcosystem nrows ncols g false [] [] [] 0 20 0 0%nat 0 50
             [] [] [] ∅ (next_id + k))
    with (shift k (mkEcosystem nrows ncols g false [] [] [] 0 20 0 0%nat 0 50
                     [] [] [] ∅ next_id)).
  - apply initialize_animals_shift.
  - unfold shift. simpl. rewrite fmap_empty. reflexivity.
Qed.

Lemma simulate_shift k sin_deg fuel next_id nrows ncols hc pc n :
  lifts (option_map (shift k))
        (simulate sin_deg fuel (next_id + k) nrows ncols hc pc n)
        (simulate sin_deg fuel next_id nrows ncols hc pc n).
Proof.
  unfold simulate.
  eapply lifts_bind; [apply Ecosystem_init_shift|].
  intros [e|]; cbn [option_map]; [|apply lifts_ret_eq; reflexivity].
  eapply lifts_bind; [apply run_shift|]. intros e'.
  apply lifts_ret_eq. reflexivity.
Qed.

(** C8.  Two runs from the same state of the generator agree.  The source
    has no seed of its own: all its draws come from the generator of the
    module [random], whose state [g] is what a seed fixes.  Beside that
    state a run reads one more global, the counter of identities, which a
    second run in the same process finds advanced.  From the same state [g],
    two runs of the constructor and [n] ticks that start with the counter at
    [id1] and at [id2] draw the same numbers, and end, if at all, with the
    same numbers of living herbivores and of living predators and the same
    terrain type in every cell. *)
Theorem seeded_runs_agree (sin_deg : Z -> Q) (fuel : nat)
    (id1 id2 : Z) (nrows ncols : Z) (hc pc n : nat) (g : Rng) :
  option_map outcome (fst (simulate sin_deg fuel id1 nrows ncols hc pc n g))
  = option_map outcome (fst (simulate sin_deg fuel id2 nrows ncols hc pc n g))
  /\ snd (simulate sin_deg fuel id1 nrows ncols hc pc n g)
     = snd (simulate sin_deg fuel id2 nrows ncols hc pc n g).
Proof.
  pose proof (simulate_shift (id1 - id2) sin_deg fuel id2 nrows ncols hc pc n g)
    as H.
  replace (id2 + (id1 - id2)) with id1 in H by lia.
  rewrite H. cbn [fst snd]. split; [|reflexivity].
  destruct (fst (simulate sin_deg fuel id2 nrows ncols hc pc n g)) as [e|];
    cbn [option_map]; [|reflexivity].
  rewrite outcome_shift. reflexivity.
Qed.

(** X1.  A run does not depend on the value that the global counter of
    identities has when it starts, except for the identities themselves.
    From the same generator, two runs of the constructor and [n] ticks that
    start with the counter at [id1] and at [id2] draw the same numbers, and
    the one ends, if at all, in the state in which the other ends with
    every identity moved by [id1 - id2]: the same grid, plants, seasons and
    statistics, and the same animals in the same order of the rosters,
    attribute for attribute; only the identities of the animals, those in
    the index of occupancy and the counter differ, all by [id1 - id2]. *)
Theorem run_independent_of_id_counter (sin_deg : Z -> Q) (fuel : nat)
    (id1 id2 : Z) (nrows ncols : Z) (hc pc n : nat) (g : Rng) :
  fst (simulate sin_deg fuel id1 nrows ncols hc pc n g)
  = option_map (shift (id1 - id2))
      (fst (simulate sin_deg fuel id2 nrows ncols hc pc n g))
  /\ snd (simulate sin_deg fuel id1 nrows ncols hc pc n g)
     = snd (simulate sin_deg fuel id2 nrows ncols hc pc n g).
Proof.
  pose proof (simulate_shift (id1 - id2) sin_deg fuel id2 nrows ncols hc pc n g)
    as H.
  replace (id2 + (id1 - id2)) with id1 in H by lia.
  rewrite H. cbn [fst snd]. split; reflexivity.
Qed.

(** ** The smoothing of the terrain *)

Lemma smooth_pass_keeps nrows ncols (g : Grid) :
  shaped nrows ncols g -> smooth_pass nrows ncols g = g.
Proof.
  intros [Hl Hrows]. unfold smooth_pass, range. apply list_eq. intros i.
  rewrite lookup_map.
  destruct (g !! i) as [row|] eqn:Hi.
  - pose proof (lookup_lt_Some _ _ _ Hi) as Hlt.
    rewrite lookup_seqZ_lt by lia. cbn [option_map]. f_equal.
    assert (Hrow : length row = Z.to_nat ncols).
    { rewrite Forall_forall in Hrows. apply Hrows.
      eapply list_elem_of_lookup_2. exact Hi. }
    apply list_eq. intros j. rewrite lookup_map.
    destruct (row !! j) as [t|] eqn:Hj.
    + pose proof (lookup_lt_Some _ _ _ Hj) as Hltj.
      rewrite lookup_seqZ_lt by lia. cbn [option_map]. f_equal.
      rewrite calculate_smoothed_terrain_keeps. unfold cell.
      rewrite !Z.add_0_l, !Nat2Z.id, Hi. cbn. rewrite Hj. reflexivity.
    + apply lookup_ge_None in Hj.
      rewrite lookup_seqZ_ge by lia. reflexivity.
  - apply lookup_ge_None in Hi.
    rewrite lookup_seqZ_ge by lia. reflexivity.
Qed.

(** X2.  The three smoothing passes of [_smooth_terrain] never change a
    cell: the branch that would turn a cell into water asks for more than 10
    water cells among at most 9 neighbours.  On a grid of [nrows] rows of
    [ncols] cells, [_smooth_terrain] is [refine_water_bodies_and_create_shorelines]. *)
Theorem smoothing_changes_nothing (nrows ncols : Z) (g : Grid) :
  shaped nrows ncols g ->
  smooth_pass nrows ncols g = g /\
  _smooth_terrain nrows ncols g
  = refine_water_bodies_and_create_shorelines nrows ncols g.
Proof.
  intros Hs. pose proof (smooth_pass_keeps nrows ncols g Hs) as H.
  split; [exact H|]. unfold _smooth_terrain.
  change (refine_water_bodies_and_create_shorelines nrows ncols
            (smooth_pass nrows ncols
               (smooth_pass nrows ncols (smooth_pass nrows ncols g)))
          = refine_water_bodies_and_create_shorelines nrows ncols g).
  rewrite !H. reflexivity.
Qed.

Lemma smoothing_changes_nothing_witness :
  smooth_pass 3 3 corner_pond = corner_pond /\
  _smooth_terrain 3 3 corner_pond
  = refine_water_bodies_and_create_shorelines 3 3 corner_pond.
Proof.
  apply (smoothing_changes_nothing 3 3 corner_pond).
  split; [reflexivity | repeat constructor].
Defined.

(** ** What the passes over the animals leave alone *)

Lemma handle_feeding_surroundings e a :
  post (handle_feeding e a) (fun r => surroundings (snd r) = surroundings e).
Proof.
  unfold handle_feeding. destruct (negb _); [|apply post_ret; reflexivity].
  destruct (species a).
  - apply post_ret. unfold _feed_herbivore.
    destruct (py_cell _ _ _) as [t|]; [|reflexivity].
    destruct (terrain_type t); reflexivity.
  - unfold _feed_predator. destruct (existsb _ _); [|apply post_ret; reflexivity].
    unfold Predator_feed. destruct (truthy _); [|apply post_ret; reflexivity].
    eapply post_bind; [apply post_any|]. intros prey _. unfold hunt.
    eapply post_bind; [apply post_any|]. intros u _.
    destruct (Qltb _ _); apply post_ret; reflexivity.
Qed.

Lemma handle_movement_surroundings e a :
  post (handle_movement e a) (fun r => surroundings (snd r) = surroundings e).
Proof.
  unfold handle_movement. destruct (negb _); [|apply post_ret; reflexivity].
  eapply post_bind; [apply post_any|]. intros moves _. unfold Animal_move.
  destruct (_ && _); [|apply post_ret; reflexivity].
  destruct (truthy _); [|apply post_ret; reflexivity].
  eapply post_bind; [apply post_any|]. intros new _. apply post_ret. reflexivity.
Qed.

Lemma defecate_surroundings e a :
  surroundings (snd (defecate e a)) = surroundings e.
Proof. unfold defecate. simpl. destruct (py_cell _ _ _); reflexivity. Qed.

Lemma urinate_surroundings e a :
  surroundings (snd (urinate e a)) = surroundings e.
Proof. unfold urinate. simpl. destruct (py_cell _ _ _); reflexivity. Qed.

Lemma herbivore_body_surroundings st i :
  post (herbivore_body st i)
    (fun st' => surroundings (fst (fst st')) = surroundings (fst (fst st))).
Proof.
  destruct st as [[e remaining] new]. cbn [fst]. unfold herbivore_body.
  destruct (herbivores e !! i) as [h0|]; [|apply post_ret; reflexivity].
  destruct (handle_decay h0 i remaining) as [h1 r1].
  destruct (negb _); [|apply post_ret; reflexivity].
  eapply post_bind; [apply handle_feeding_surroundings|].
  intros [h3 e3] He3. cbn [snd] in He3.
  eapply post_bind; [apply handle_movement_surroundings|].
  intros [h5 e5] He5. cbn [snd] in He5.
  destruct (handle_reproduction e5 h5 new) as [h6 new6].
  pose proof (defecate_surroundings e5 h6) as Hd.
  destruct (defecate e5 h6) as [h7 e7]. cbn [snd] in Hd.
  pose proof (urinate_surroundings e7 h7) as Hu.
  destruct (urinate e7 h7) as [h8 e8]. cbn [snd] in Hu.
  apply post_ret. cbn [fst].
  change (surroundings e8 = surroundings e). congruence.
Qed.

Lemma update_herbivores_surroundings e :
  post (update_herbivores e) (fun e' => surroundings e' = surroundings e).
Proof.
  unfold update_herbivores. eapply post_bind.
  - apply (post_foldM herbivore_body
             (fun st => surroundings (fst (fst st)) = surroundings e)).
    + intros st i H. eapply post_weaken; [apply herbivore_body_surroundings|].
      intros st' H'. cbv beta in H'. congruence.
    + reflexivity.
  - intros [[e1 r] n] H. cbn [fst] in H. apply post_ret. exact H.
Qed.

Lemma predator_body_surroundings st i :
  post (predator_body st i)
    (fun st' => surroundings (fst st') = surroundings (fst st)).
Proof.
  destruct st as [e remaining]. cbn [fst]. unfold predator_body.
  destruct (predators e !! i) as [p0|]; [|apply post_ret; reflexivity].
  destruct (negb _); [|apply post_ret; reflexivity].
  eapply post_bind; [apply post_any|]. intros moves _.
  eapply post_bind; [apply post_any|]. intros p1 _.
  eapply post_bind; [apply handle_feeding_surroundings|].
  intros [p2 e2] He2. cbn [snd] in He2. apply post_ret. exact He2.
Qed.

Lemma update_predators_surroundings e :
  post (update_predators e) (fun e' => surroundings e' = surroundings e).
Proof.
  unfold update_predators. eapply post_bind.
  - apply (post_foldM predator_body
             (fun st => surroundings (fst st) = surroundings e)).
    + intros st i H. eapply post_weaken; [apply predator_body_surroundings|].
      intros st' H'. cbv beta in H'. congruence.
    + reflexivity.
  - intros [e1 r] H. cbn [fst] in H. apply post_ret. exact H.
Qed.

(** ** The clock of the seasons *)

Lemma update_environment_clock sin_deg e :
  post (update_environment sin_deg e)
    (fun e' => season_duration e' = season_duration e /\
               clock e' = next_clock (season_duration e) (clock e)).
Proof.
  unfold update_environment. cbv zeta.
  eapply post_bind with
    (P := fun e2 => season_duration e2 = season_duration e /\
                    clock e2 = clock e /\
                    ambient_temperature e2
                    = ambient_temperature (_adjust_temperature sin_deg e)).
  - unfold _precipitate. eapply post_bind; [apply post_any|]. intros k _.
    unfold _adjust_temperature.
    destruct (k <? _); destruct (negb _); apply post_ret; repeat split.
  - intros e2 (Hd & Hc & _). apply post_ret.
    assert (H3 : season_duration (_handle_extreme_heat e2) = season_duration e /\
                 clock (_handle_extreme_heat e2) = clock e).
    { unfold _handle_extreme_heat. destruct (Qle_bool _ _); split; assumption. }
    destruct H3 as [Hd3 Hc3]. revert Hd3 Hc3.
    generalize (_handle_extreme_heat e2). intros e3 Hd3 Hc3.
    unfold _update_season_cycle, next_clock. cbv zeta.
    change (season_duration (set_season (current_season e3) (season_cycle e3 + 1) e3))
      with (season_duration e3).
    change (season_cycle (set_season (current_season e3) (season_cycle e3 + 1) e3))
      with (season_cycle e3 + 1).
    unfold clock in Hc3. injection Hc3 as Hs Hy. rewrite Hd3, Hy.
    cbn [fst snd clock].
    destruct (season_duration e <=? season_cycle e + 1).
    + unfold _change_season. cbv zeta.
      destruct (seasons !! _); split; try exact Hd3; unfold clock; cbn;
        rewrite Hs; reflexivity.
    + split; [exact Hd3|]. unfold clock. cbn. rewrite Hs. reflexivity.
Qed.

Lemma climate_surroundings e e' :
  surroundings e' = surroundings e -> climate e' = climate e.
Proof. unfold climate. intros ->. reflexivity. Qed.

Lemma grow_plants_climate e :
  post (grow_plants e) (fun e' => climate e' = climate e).
Proof.
  unfold grow_plants. eapply post_bind; [apply post_any|].
  intros [g pl] _. apply post_ret. reflexivity.
Qed.

(** A tick is [update_environment], the passes, then the statistics and the
    counter of ticks. *)
Lemma update_split sin_deg e (P Q : Ecosystem -> Prop) :
  post (update_environment sin_deg e) P ->
  (forall e1 e6, P e1 -> climate e6 = climate e1 ->
     Q (set_cycle (cycle (update_population_data e6) + 1)
          (update_population_data e6))) ->
  post (update sin_deg e) Q.
Proof.
  intros HP HQ. unfold update.
  eapply post_bind; [exact HP|]. intros e1 H1.
  eapply post_bind; [apply update_herbivores_surroundings|]. intros e2 H2.
  eapply post_bind; [apply update_predators_surroundings|]. intros e3 H3.
  eapply post_bind; [apply grow_plants_climate|]. intros e4 H4.
  apply post_ret. cbv zeta. apply (HQ e1); [exact H1|].
  change (climate e4 = climate e1).
  rewrite H4. apply climate_surroundings. congruence.
Qed.

Lemma update_clock sin_deg e :
  post (update sin_deg e)
    (fun e' => season_duration e' = season_duration e /\
               clock e' = next_clock (season_duration e) (clock e)).
Proof.
  eapply update_split; [apply update_environment_clock|].
  intros e1 e6 [Hd Hc] H6. cbv beta.
  change (season_duration (climate e6) = season_duration e /\
               clock (climate e6) = next_clock (season_duration e) (clock e)).
  rewrite H6. split; assumption.
Qed.

Lemma next_clock_iter (d : Z) (n s : nat) (c : Z) :
  0 < d -> 0 <= c < d -> (s < length seasons)%nat ->
  Nat.iter n (next_clock d) (s, c)
  = (((s + Z.to_nat ((c + Z.of_nat n) / d)) mod length seasons)%nat,
     (c + Z.of_nat n) mod d).
Proof.
  intros Hd Hc Hs. induction n as [|n IH].
  - change (Nat.iter 0 (next_clock d) (s, c)) with (s, c).
    rewrite Z.add_0_r, Z.div_small, Z.mod_small by lia.
    cbn [Z.to_nat]. rewrite Nat.add_0_r, Nat.mod_small by exact Hs.
    reflexivity.
  - rewrite Nat.iter_succ, IH. unfold next_clock. cbn [fst snd].
    pose proof (Z.div_mod (c + Z.of_nat n) d ltac:(lia)) as Hdm.
    pose proof (Z.mod_pos_bound (c + Z.of_nat n) d Hd) as Hr.
    pose proof (Z.div_pos (c + Z.of_nat n) d ltac:(lia) Hd) as Hq.
    set (q := (c + Z.of_nat n) / d) in *.
    set (r := (c + Z.of_nat n) mod d) in *.
    destruct (Z.leb_spec d (r + 1)) as [Hle|Hlt].
    + assert (Hq1 : (c + Z.of_nat (S n)) / d = q + 1).
      { symmetry. apply (Z.div_unique _ d (q + 1) 0); lia. }
      assert (Hr1 : (c + Z.of_nat (S n)) mod d = 0).
      { symmetry. apply (Z.mod_unique _ d (q + 1) 0); lia. }
      rewrite Hq1, Hr1. f_equal.
      rewrite Nat.Div0.add_mod_idemp_l. f_equal. lia.
    + assert (Hq1 : (c + Z.of_nat (S n)) / d = q).
      { symmetry. apply (Z.div_unique _ d q (r + 1)); lia. }
      assert (Hr1 : (c + Z.of_nat (S n)) mod d = r + 1).
      { symmetry. apply (Z.mod_unique _ d q (r + 1)); lia. }
      rewrite Hq1, Hr1. reflexivity.
Qed.

Lemma run_clock sin_deg n e :
  post (run sin_deg n e)
    (fun e' => season_duration e' = season_duration e /\
               clock e' = Nat.iter n (next_clock (season_duration e)) (clock e)).
Proof.
  revert e. induction n as [|n IH]; intros e; cbn [run].
  - apply post_ret. split; reflexivity.
  - eapply post_bind; [apply update_clock|]. intros e1 [Hd Hc].
    eapply post_weaken; [apply IH|]. intros e' [Hd' Hc']. cbv beta.
    rewrite Hd', Hc', Hd, Hc. split; [reflexivity|].
    symmetry. apply Nat.iter_succ_r.
Qed.

(** X3.  The seasons run on a clock that nothing else in a tick touches: a
    tick adds 1 to [season_cycle] and, when it reaches [season_duration],
    sets it back to 0 and moves to the next of the four seasons.  After [n]
    ticks the tick of the season is [(season_cycle + n) mod season_duration]
    and the season has advanced [(season_cycle + n) / season_duration]
    places, so with the duration of 50 that the constructor sets the season
    is back where it was after 200 ticks. *)
Theorem season_clock (sin_deg : Z -> Q) (n : nat) (e : Ecosystem) (g : Rng) :
  0 < season_duration e ->
  0 <= season_cycle e < season_duration e ->
  (current_season e < length seasons)%nat ->
  season_duration (fst (run sin_deg n e g)) = season_duration e /\
  season_cycle (fst (run sin_deg n e g))
  = (season_cycle e + Z.of_nat n) mod season_duration e /\
  current_season (fst (run sin_deg n e g))
  = ((current_season e
      + Z.to_nat ((season_cycle e + Z.of_nat n) / season_duration e))
     mod length seasons)%nat.
Proof.
  intros Hd Hc Hs. destruct (run_clock sin_deg n e g) as [Hd' Hc'].
  split; [exact Hd'|].
  unfold clock in Hc'. rewrite next_clock_iter in Hc' by assumption.
  injection Hc' as H1 H2. split; assumption.
Qed.

Lemma season_clock_witness :
  season_duration (fst (run sin_deg_0 200 pasture (scripted []))) = 50 /\
  season_cycle (fst (run sin_deg_0 200 pasture (scripted []))) = 0 /\
  current_season (fst (run sin_deg_0 200 pasture (scripted []))) = 0%nat.
Proof.
  apply (season_clock sin_deg_0 200 pasture (scripted []));
    cbn; lia.
Defined.

(** ** The statistics *)

Lemma update_environment_statistics sin_deg e :
  post (update_environment sin_deg e) (fun e' => statistics e' = statistics e).
Proof.
  unfold update_environment. cbv zeta.
  eapply post_bind with (P := fun e2 => statistics e2 = statistics e).
  - unfold _precipitate. eapply post_bind; [apply post_any|]. intros k _.
    unfold _adjust_temperature.
    destruct (k <? _); destruct (negb _); apply post_ret; reflexivity.
  - intros e2 H2. apply post_ret.
    unfold _update_season_cycle, _change_season, _handle_extreme_heat.
    cbv zeta.
    destruct (Qle_bool _ _); cbn [season_duration season_cycle set_season set_grid];
      destruct (_ <=? _); try destruct (seasons !! _); exact H2.
Qed.

Lemma update_statistics sin_deg e :
  post (update sin_deg e)
    (fun e' => statistics e' = record_census (census e') (statistics e)).
Proof.
  eapply update_split; [apply update_environment_statistics|].
  intros e1 e6 H1 H6. cbv beta. rewrite <- H1.
  change (statistics e1) with (statistics (climate e1)). rewrite <- H6.
  reflexivity.
Qed.

Lemma run_statistics sin_deg n e :
  post (run sin_deg n e)
    (fun e' =>
       exists hs ps pls,
         length hs = n /\ length ps = n /\ length pls = n /\
         statistics e'
         = (herbivore_population_data e ++ hs, predator_population_data e ++ ps,
            plant_population_data e ++ pls, cycle e + Z.of_nat n) /\
         ((n = 0%nat /\ e' = e) \/
          (last hs = Some (fst (fst (census e'))) /\
           last ps = Some (snd (fst (census e'))) /\
           last pls = Some (snd (census e'))))).
Proof.
  revert e. induction n as [|n IH]; intros e; cbn [run].
  - apply post_ret. exists [], [], []. repeat split; try reflexivity.
    + unfold statistics. rewrite !app_nil_r, Z.add_0_r. reflexivity.
    + left. split; reflexivity.
  - eapply post_bind; [apply update_statistics|]. intros e1 H1.
    eapply post_weaken; [apply IH|].
    intros e' (hs & ps & pls & Lh & Lp & Lpl & Hst & Hlast).
    unfold statistics, record_census in H1. cbn [fst snd] in H1.
    injection H1 as Eh Ep Epl Ec.
    exists (fst (fst (census e1)) :: hs), (snd (fst (census e1)) :: ps),
           (snd (census e1) :: pls).
    split; [cbn; lia|]. split; [cbn; lia|]. split; [cbn; lia|]. split.
    + rewrite Hst, Eh, Ep, Epl, Ec, <- !app_assoc. cbn [app].
      f_equal. lia.
    + right. destruct Hlast as [[-> ->]|(H2 & H3 & H4)].
      * destruct hs; [|discriminate]. destruct ps; [|discriminate].
        destruct pls; [|discriminate]. repeat split.
      * rewrite !last_cons, H2, H3, H4. repeat split.
Qed.

(** X4.  Each tick appends exactly one entry to each of the three population
    series and adds 1 to [cycle], and nothing else writes them: after
    [n + 1] ticks every series is the one before the run followed by [n + 1]
    entries, the last of which counts the living herbivores, the living
    predators and the plants of the state that the run ends in. *)
Theorem population_series (sin_deg : Z -> Q) (n : nat) (e : Ecosystem) (g : Rng) :
  exists hs ps pls,
    length hs = n /\ length ps = n /\ length pls = n /\
    statistics (fst (run sin_deg (S n) e g))
    = (herbivore_population_data e ++ hs
         ++ [living (herbivores (fst (run sin_deg (S n) e g)))],
       predator_population_data e ++ ps
         ++ [living (predators (fst (run sin_deg (S n) e g)))],
       plant_population_data e ++ pls
         ++ [Z.of_nat (length (plants (fst (run sin_deg (S n) e g))))],
       cycle e + Z.of_nat (S n)).
Proof.
  destruct (run_statistics sin_deg (S n) e g)
    as (hs & ps & pls & Lh & Lp & Lpl & Hst & Hlast).
  destruct Hlast as [[H0 _]|(H2 & H3 & H4)]; [discriminate|].
  apply last_Some in H2, H3, H4.
  destruct H2 as [hs' ->], H3 as [ps' ->], H4 as [pls' ->].
  rewrite length_app in Lh, Lp, Lpl. cbn [length] in Lh, Lp, Lpl.
  exists hs', ps', pls'.
  split; [lia|]. split; [lia|]. split; [lia|]. exact Hst.
Qed.

(** ** The plants *)

Lemma Forall_healthy_map (f : Plant -> Plant) (l : list Plant) :
  (forall p, p_is_dead (f p) = p_is_dead p) ->
  Forall healthy l -> Forall healthy (map f l).
Proof.
  intros Hf H. induction H as [|p l Hp _ IH]; simpl; constructor.
  - unfold healthy. rewrite Hf. exact Hp.
  - exact IH.
Qed.

Lemma update_environment_plants sin_deg e :
  Forall healthy (plants e) ->
  post (update_environment sin_deg e)
    (fun e' => length (plants e') = length (plants e) /\
               Forall healthy (plants e')).
Proof.
  intros He. unfold update_environment. cbv zeta.
  eapply post_bind with (P := fun e2 => plants e2 = plants e).
  - unfold _precipitate. eapply post_bind; [apply post_any|]. intros k _.
    unfold _adjust_temperature.
    destruct (k <? _); destruct (negb _); apply post_ret; reflexivity.
  - intros e2 H2. apply post_ret.
    unfold _update_season_cycle, _change_season, _handle_extreme_heat.
    cbv zeta.
    destruct (Qle_bool _ _); cbn [season_duration season_cycle set_season set_grid];
      destruct (_ <=? _); try destruct (seasons !! _);
      cbn [plants apply_seasonal_effects set_predators set_plants
           set_ambient_temperature set_season set_grid];
      rewrite ?length_map, H2;
      (split; [reflexivity|]);
      try (apply Forall_healthy_map; [reflexivity|]); exact He.
Qed.

Lemma grow_plants_plants e :
  Forall healthy (plants e) ->
  post (grow_plants e)
    (fun e' => (length (plants e) <= length (plants e'))%nat /\
               Forall healthy (plants e') /\
               ambient_temperature e' = ambient_temperature e).
Proof.
  intros He. unfold grow_plants. eapply post_bind.
  - apply (post_foldM grow_plants_body
             (fun st => (length (plants e) <= length (snd st))%nat /\
                        Forall healthy (snd st))).
    + intros [g pl] p [Hl Hh]. unfold grow_plants_body. cbn [snd] in *.
      destruct (terrain_type _); try (apply post_ret; split; assumption).
      eapply post_bind; [apply post_any|]. intros u _.
      destruct (Qltb _ _); apply post_ret; cbn [snd]; [|split; assumption].
      split; [rewrite length_app; lia|].
      apply Forall_app. split; [exact Hh|]. repeat constructor.
    + split; [cbn; lia | exact He].
  - intros [g pl] [Hl Hh]. apply post_ret. cbn [snd] in *.
    repeat split; assumption.
Qed.

Lemma update_plants_cases e :
  Forall healthy (plants e) ->
  Forall healthy (plants (update_plants e)) /\
  (Qle_bool 35 (ambient_temperature e) = true -> plants (update_plants e) = []) /\
  (Qle_bool 35 (ambient_temperature e) = false ->
   length (plants (update_plants e)) = length (plants e)).
Proof.
  intros He. unfold update_plants, Plant_handle_vital_stats.
  cbn [plants set_plants p_ambient_temperature].
  destruct (Qle_bool 35 (ambient_temperature e)).
  - replace (List.filter _ _) with (@nil Plant).
    + repeat split; try constructor. discriminate.
    + clear He. induction (plants e) as [|p l IH]; [reflexivity|]. exact IH.
  - replace (List.filter _ _)
      with (map (fun p => mkPlant (p_nutrition p) (p_is_dead p)
                            (ambient_temperature e)) (plants e)).
    + split; [apply Forall_healthy_map; [reflexivity | exact He]|].
      split; [discriminate|]. intros _. apply length_map.
    + induction He as [|p l Hp _ IH]; [reflexivity|].
      cbn [map List.filter p_is_dead]. unfold healthy in Hp. rewrite Hp.
      cbn [negb]. f_equal. exact IH.
Qed.

(** X5.  Plants leave the list of plants all together or not at all.  When
    no plant of the list is marked dead before a tick, none is after it, and
    the tick either empties the list (the ambient temperature that the tick
    ends with is 35 or more: every plant is given that temperature and marked)
    or keeps every plant and appends the ones that [grow_plants] made.  A
    herbivore that eats the vegetation of its cell removes no plant. *)
Theorem plants_leave_together (sin_deg : Z -> Q) (e : Ecosystem) (g : Rng) :
  Forall healthy (plants e) ->
  Forall healthy (plants (fst (update sin_deg e g))) /\
  (Qle_bool 35 (ambient_temperature (fst (update sin_deg e g))) = true ->
   plants (fst (update sin_deg e g)) = []) /\
  (Qle_bool 35 (ambient_temperature (fst (update sin_deg e g))) = false ->
   (length (plants e) <= length (plants (fst (update sin_deg e g))))%nat).
Proof.
  intros He. revert g.
  change (post (update sin_deg e)
            (fun e' => Forall healthy (plants e') /\
               (Qle_bool 35 (ambient_temperature e') = true -> plants e' = []) /\
               (Qle_bool 35 (ambient_temperature e') = false ->
                (length (plants e) <= length (plants e'))%nat))).
  unfold update.
  eapply post_bind; [apply update_environment_plants; exact He|].
  intros e1 [L1 H1].
  eapply post_bind; [apply update_herbivores_surroundings|]. intros e2 S2.
  eapply post_bind; [apply update_predators_surroundings|]. intros e3 S3.
  assert (P3 : plants e3 = plants e1).
  { change (plants (surroundings e3) = plants (surroundings e1)). congruence. }
  eapply post_bind; [apply grow_plants_plants; rewrite P3; exact H1|].
  intros e4 (L4 & H4 & A4). apply post_ret. cbv zeta.
  destruct (update_plants_cases e4 H4) as (H5 & Hhot & Hcool).
  cbn [plants ambient_temperature set_cycle update_population_data
       set_population_data _update_animal_body_temperature_and_plant_nutrition
       set_plants set_predators set_herbivores].
  change (ambient_temperature (update_plants e4)) with (ambient_temperature e4).
  split; [apply Forall_healthy_map; [reflexivity | exact H5]|].
  split.
  - intros Hot. rewrite (Hhot Hot). reflexivity.
  - intros Cool. rewrite length_map, (Hcool Cool). rewrite P3 in L4. lia.
Qed.

Lemma plants_leave_together_witness :
  Forall healthy (plants (fst (update sin_deg_0 planted_pasture (scripted [])))).
Proof.
  apply (plants_leave_together sin_deg_0 planted_pasture (scripted [])).
  repeat constructor.
Defined.

(** ** A rule for the passes over the rosters *)

Lemma post_ext {A} (c c' : Rand A) (P : A -> Prop) :
  (forall g, c g = c' g) -> post c' P -> post c P.
Proof. intros H Hc g. rewrite H. apply Hc. Qed.

Lemma post_and {A} (c : Rand A) (P Q : A -> Prop) :
  post c P -> post c Q -> post c (fun a => P a /\ Q a).
Proof. intros HP HQ g. split; [apply HP | apply HQ]. Qed.

Lemma resolve_Forall (P : Animal -> Prop) roster remaining :
  (forall i, i ∈ remaining -> exists a, roster !! i = Some a /\ P a) ->
  Forall P (resolve roster remaining).
Proof.
  intros H. unfold resolve. rewrite Forall_forall. intros a Ha.
  apply list_elem_of_omap in Ha. destruct Ha as (i & Hi & Hl).
  destruct (H i Hi) as (b & Hb & Hd). congruence.
Qed.

Lemma predator_body_unfold e remaining k g :
  predator_body (e, remaining) k g
  = match predators e !! k with
    | None => (e, remaining, g)
    | Some p =>
        if negb (is_dead (handle_vital_stats p))
        then bind (predator_turn e (handle_vital_stats p))
               (fun r => ret (set_predators (<[k := fst r]> (predators (snd r)))
                                (snd r), remaining ++ [k])) g
        else (set_predators (<[k := handle_vital_stats p]> (predators e)) e,
              remaining, g)
    end.
Proof.
  unfold predator_body. destruct (predators e !! k) as [p|]; [|reflexivity].
  destruct (negb _); [|reflexivity].
  unfold predator_turn, bind.
  destruct (_get_valid_moves e _ _ g) as [moves g1].
  destruct (Predator_move moves _ g1) as [p1 g2].
  destruct (handle_feeding e _ g2) as [[p2 e2] g3]. reflexivity.
Qed.

Lemma predator_turn_predators e p :
  post (predator_turn e p) (fun r => predators (snd r) = predators e).
Proof.
  unfold predator_turn.
  eapply post_bind; [apply post_any|]. intros moves _.
  eapply post_bind; [apply post_any|]. intros p1 _.
  eapply post_weaken; [apply handle_feeding_keeps|]. intros r [_ H]. exact H.
Qed.

Section PredatorPass.

Variable I : Ecosystem -> Prop.
Variables Q Q' : Animal -> Prop.
Hypothesis I_roster : forall e l, I e -> I (set_predators l e).
Hypothesis turn : forall e p,
  I e -> Q p -> is_dead (handle_vital_stats p) = false ->
  post (predator_turn e (handle_vital_stats p))
    (fun r => Q' (fst r) /\ I (snd r)).

Lemma predator_body_rule n k e remaining :
  I e -> length (predators e) = n ->
  (forall i, i ∈ remaining ->
     (i < k)%nat /\ exists a, predators e !! i = Some a /\ Q' a) ->
  (forall i a, (k <= i)%nat -> predators e !! i = Some a -> Q a) ->
  post (predator_body (e, remaining) k)
    (fun st =>
       I (fst st) /\ length (predators (fst st)) = n /\
       (forall i, i ∈ snd st ->
          (i < Datatypes.S k)%nat /\
          exists a, predators (fst st) !! i = Some a /\ Q' a) /\
       (forall i a, (Datatypes.S k <= i)%nat ->
          predators (fst st) !! i = Some a -> Q a)).
Proof.
  intros HI Hn Hrem Hnext.
  eapply post_ext; [apply predator_body_unfold|].
  assert (Hkeep : forall (l : list Animal) p i, i ∈ remaining ->
            l = predators e ->
            (i < Datatypes.S k)%nat /\
            exists a, <[k := p]> l !! i = Some a /\ Q' a).
  { intros l p i Hi ->. destruct (Hrem i Hi) as [Hik (a & Ha & Hd)].
    split; [lia|]. exists a. split; [|exact Hd].
    rewrite list_lookup_insert_ne by lia. exact Ha. }
  assert (Hlater : forall (l : list Animal) p i a, (Datatypes.S k <= i)%nat ->
            l = predators e -> <[k := p]> l !! i = Some a -> Q a).
  { intros l p i a Hi -> Ha. rewrite list_lookup_insert_ne in Ha by lia.
    apply (Hnext i a); [lia | exact Ha]. }
  destruct (predators e !! k) as [p0|] eqn:Hk.
  - destruct (is_dead (handle_vital_stats p0)) eqn:Hd; cbn [negb].
    + intros g. cbn [fst snd predators set_predators].
      rewrite length_insert.
      split; [apply I_roster; exact HI|]. split; [exact Hn|].
      split; [intros i Hi; apply Hkeep; auto|].
      intros i a Hi Ha. apply (Hlater _ _ i a Hi eq_refl Ha).
    + eapply post_bind.
      * apply post_and; [apply turn; [exact HI | | exact Hd]
                        | apply predator_turn_predators].
        apply (Hnext k p0); [lia | exact Hk].
      * intros [p4 e4] [[HQ' HI4] He4]. cbn [fst snd] in *.
        apply post_ret. cbn [fst snd predators set_predators].
        rewrite length_insert, He4.
        split; [apply I_roster; exact HI4|]. split; [exact Hn|].
        split.
        -- intros i Hi. apply elem_of_app in Hi. destruct Hi as [Hi|Hi].
           ++ apply Hkeep; auto.
           ++ apply list_elem_of_singleton in Hi. subst i. split; [lia|].
              exists p4. split; [|exact HQ'].
              apply list_lookup_insert_eq. apply lookup_lt_Some in Hk. lia.
        -- intros i a Hi Ha. apply (Hlater _ _ i a Hi eq_refl Ha).
  - intros g. cbn [fst snd]. split; [exact HI|]. split; [exact Hn|].
    split.
    + intros i Hi. destruct (Hrem i Hi) as [Hik Ha]. split; [lia | exact Ha].
    + intros i a Hi Ha. apply (Hnext i a); [lia | exact Ha].
Qed.

Lemma update_predators_rule e :
  I e -> Forall Q (predators e) ->
  post (update_predators e) (fun e' => I e' /\ Forall Q' (predators e')).
Proof.
  intros HI HQ. unfold update_predators. eapply post_bind.
  - apply (post_foldM_seq predator_body
             (fun k st =>
                I (fst st) /\ length (predators (fst st)) = length (predators e) /\
                (forall i, i ∈ snd st ->
                   (i < k)%nat /\
                   exists a, predators (fst st) !! i = Some a /\ Q' a) /\
                (forall i a, (k <= i)%nat ->
                   predators (fst st) !! i = Some a -> Q a))).
    + intros k [e1 r1] Hk (H1 & H2 & H3 & H4). cbn [fst snd] in *.
      apply predator_body_rule; assumption.
    + cbn [fst snd]. split; [exact HI|]. split; [reflexivity|]. split.
      * intros i Hi. apply elem_of_nil in Hi. destruct Hi.
      * intros i a _ Ha. rewrite Forall_forall in HQ. apply HQ.
        eapply list_elem_of_lookup_2. exact Ha.
  - intros [e1 r1] (H1 & H2 & H3 & H4). cbn [fst snd] in *. apply post_ret.
    cbn [predators set_predators]. split; [apply I_roster; exact H1|].
    apply resolve_Forall. intros i Hi. apply (H3 i Hi).
Qed.

End PredatorPass.

(** ** An animal that is alive after [handle_vital_stats] *)

Lemma die_is_dead c a : is_dead (die c a) = true.
Proof. unfold die. destruct (is_dead a) eqn:E; simpl; [exact E | reflexivity]. Qed.

Lemma check_death_passed a :
  is_dead (_check_death_conditions a) = false ->
  _check_death_conditions a = a /\ is_dead a = false /\
  age a < max_age a /\ hunger a < 100 /\ thirst a < 100 /\
  (body_temperature a < 42)%Q /\ 0 < energy a.
Proof.
  unfold _check_death_conditions.
  destruct (Z.leb_spec (max_age a) (age a)); [rewrite die_is_dead; discriminate|].
  destruct (Z.leb_spec 100 (hunger a)); [rewrite die_is_dead; discriminate|].
  destruct (Z.leb_spec 100 (thirst a)); [rewrite die_is_dead; discriminate|].
  destruct (Qle_bool 42 (body_temperature a)) eqn:Et;
    [rewrite die_is_dead; discriminate|].
  destruct (Z.leb_spec (energy a) 0); [rewrite die_is_dead; discriminate|].
  intros Hd. apply Qle_bool_false in Et. repeat split; assumption || lia.
Qed.

Lemma regenerate_energy_fields a :
  is_dead (_regenerate_energy a) = is_dead a /\
  hunger (_regenerate_energy a) = hunger a /\
  thirst (_regenerate_energy a) = thirst a /\
  species (_regenerate_energy a) = species a /\
  hunting_success_rate (_regenerate_energy a) = hunting_success_rate a /\
  row (_regenerate_energy a) = row a /\ col (_regenerate_energy a) = col a /\
  decay (_regenerate_energy a) = decay a /\
  body_temperature (_regenerate_energy a) = body_temperature a /\
  age (_regenerate_energy a) = age a /\ id (_regenerate_energy a) = id a.
Proof. unfold _regenerate_energy. destruct (_ <? _); repeat split. Qed.

Lemma needs_before_check a :
  let b := _increase_thirst (_increase_hunger (_age_animal a)) in
  is_dead b = is_dead a /\
  hunger b = Z.min (hunger a + 10) 100 /\
  thirst b = Z.min (thirst a + 10) 100 /\
  species b = species a /\
  hunting_success_rate b = hunting_success_rate a /\
  row b = row a /\ col b = col a /\ decay b = decay a /\
  body_temperature b = body_temperature a /\
  age b = age a + 1 /\ id b = id a /\ max_age b = max_age a.
Proof.
  unfold _increase_thirst, _increase_hunger, _age_animal. cbv zeta.
  destruct (_ && _); repeat split.
Qed.

Lemma handle_vital_stats_alive a :
  is_dead (handle_vital_stats a) = false ->
  is_dead a = false /\
  hunger (handle_vital_stats a) = hunger a + 10 /\ hunger a + 10 < 100 /\
  thirst (handle_vital_stats a) = thirst a + 10 /\ thirst a + 10 < 100 /\
  species (handle_vital_stats a) = species a /\
  hunting_success_rate (handle_vital_stats a) = hunting_success_rate a /\
  row (handle_vital_stats a) = row a /\ col (handle_vital_stats a) = col a /\
  decay (handle_vital_stats a) = decay a /\
  body_temperature (handle_vital_stats a) = body_temperature a /\
  (body_temperature a < 42)%Q /\
  age (handle_vital_stats a) = age a + 1 /\ age a + 1 < max_age a /\
  id (handle_vital_stats a) = id a.
Proof.
  unfold handle_vital_stats.
  pose proof (needs_before_check a) as Hb. cbv zeta in Hb.
  revert Hb. generalize (_increase_thirst (_increase_hunger (_age_animal a))).
  intros b (B1 & B2 & B3 & B4 & B5 & B6 & B7 & B8 & B9 & B10 & B11 & B12) Hd.
  destruct (regenerate_energy_fields (_check_death_conditions b))
    as (R1 & R2 & R3 & R4 & R5 & R6 & R7 & R8 & R9 & R10 & R11).
  rewrite R1 in Hd. destruct (check_death_passed b Hd)
    as (C0 & C1 & C2 & C3 & C4 & C5 & C6).
  rewrite R2, R3, R4, R5, R6, R7, R8, R9, R10, R11, C0.
  rewrite B2 in C3. rewrite B3 in C4. rewrite B9 in C5.
  repeat split; try congruence; try lia.
Qed.

(** ** Predators whose rate is negative *)

Lemma Predator_move_fields moves p :
  post (Predator_move moves p)
    (fun p' => species p' = species p /\
               hunting_success_rate p' = hunting_success_rate p /\
               hunger p' = hunger p /\ thirst p' = thirst p /\
               is_dead p' = is_dead p).
Proof.
  unfold Predator_move. destruct (_ && _); [|apply post_ret; repeat split].
  eapply post_bind; [apply post_any|]. intros m _. apply post_ret. repeat split.
Qed.

Lemma handle_drinking_fields e a :
  species (handle_drinking e a) = species a /\
  hunting_success_rate (handle_drinking e a) = hunting_success_rate a /\
  hunger (handle_drinking e a) = hunger a /\
  is_dead (handle_drinking e a) = is_dead a.
Proof. unfold handle_drinking. destruct (_ && _); repeat split. Qed.

Lemma hunt_fails e p prey :
  (hunting_success_rate p < 0)%Q ->
  post (hunt e p prey)
    (fun r => snd r = e /\ fst r = set_energy (energy p - 20) p).
Proof.
  intros Hr. unfold hunt. cbv zeta.
  eapply post_bind; [apply random_random_range|]. intros u [Hu _].
  change (hunting_success_rate (set_energy (energy p - 20) p))
    with (hunting_success_rate p).
  replace (Qltb u (hunting_success_rate p)) with false.
  - apply post_ret. split; reflexivity.
  - symmetry. apply Qltb_ge. lra.
Qed.

Lemma handle_feeding_harmless e p :
  harmless p ->
  post (handle_feeding e p)
    (fun r => snd r = e /\ species (fst r) = species p /\
              hunting_success_rate (fst r) = hunting_success_rate p /\
              hunger (fst r) = hunger p /\ thirst (fst r) = thirst p /\
              is_dead (fst r) = is_dead p).
Proof.
  intros [Hs Hr]. unfold handle_feeding.
  destruct (negb _); [|apply post_ret; repeat split].
  rewrite Hs. unfold _feed_predator.
  destruct (existsb _ _); [|apply post_ret; repeat split; exact Hs].
  unfold Predator_feed.
  destruct (truthy _); [|apply post_ret; repeat split; exact Hs].
  eapply post_bind; [apply post_any|]. intros prey _.
  eapply post_weaken; [apply hunt_fails; exact Hr|].
  intros [p' e'] [He Hp]. cbn [fst snd] in *. subst. repeat split. exact Hs.
Qed.

Lemma predator_turn_harmless e p :
  harmless p ->
  post (predator_turn e p)
    (fun r => snd r = e /\ harmless (fst r) /\ hunger (fst r) = hunger p /\
              is_dead (fst r) = is_dead p).
Proof.
  intros [Hs Hr]. unfold predator_turn.
  eapply post_bind; [apply post_any|]. intros moves _.
  eapply post_bind; [apply Predator_move_fields|].
  intros p1 (S1 & R1 & H1 & _ & D1). cbv zeta.
  destruct (handle_drinking_fields e p1) as (S2 & R2 & H2 & D2).
  eapply post_weaken.
  - apply handle_feeding_harmless. split; [congruence|].
    rewrite R2, R1. exact Hr.
  - intros [p3 e3] (E3 & S3 & R3 & H3 & _ & D3). cbn [fst snd] in *.
    split; [exact E3|]. split; [split; [congruence|]|split; congruence].
    rewrite R3, R2, R1. exact Hr.
Qed.

Lemma harmless_vital_stats p :
  harmless p -> is_dead (handle_vital_stats p) = false ->
  harmless (handle_vital_stats p).
Proof.
  intros [Hs Hr] Hd.
  destruct (handle_vital_stats_alive p Hd)
    as (_ & _ & _ & _ & _ & S & R & _).
  split; [congruence | rewrite R; exact Hr].
Qed.

(** The pass over harmless predators changes the predators only, and every
    predator that it keeps has gone 10 units further into hunger and is
    still short of 100. *)
Lemma update_predators_starving j e :
  Forall (starving j) (predators e) ->
  post (update_predators e)
    (fun e' => without_predators e' = without_predators e /\
               Forall (fun p => starving (j + 1) p /\ hunger p < 100 /\
                                is_dead p = false)
                      (predators e')).
Proof.
  apply (update_predators_rule
           (fun e' => without_predators e' = without_predators e)
           (starving j)
           (fun p => starving (j + 1) p /\ hunger p < 100 /\ is_dead p = false)).
  - intros e1 l H. exact H.
  - intros e1 p HI [Hh Hj] Hd.
    pose proof (harmless_vital_stats p Hh Hd) as Hh1.
    destruct (handle_vital_stats_alive p Hd) as (_ & H1 & H2 & _).
    eapply post_weaken; [apply predator_turn_harmless; exact Hh1|].
    intros [p' e'] (E & Hh' & Hg & Hdd). cbn [fst snd] in *. subst e'.
    split; [|exact HI]. split; [split; [exact Hh'|lia]|]. split; [lia|].
    congruence.
  - reflexivity.
Qed.

Lemma season_efficiency_positive s :
  s ∈ seasons -> (0 < predator_efficiency s)%Q.
Proof.
  unfold seasons. intros H.
  repeat (apply elem_of_cons in H; destruct H as [->|H]; [reflexivity|]).
  apply elem_of_nil in H. destruct H.
Qed.

Lemma starving_scaled j s p :
  s ∈ seasons -> starving j p ->
  starving j (set_hunting_success_rate
                (hunting_success_rate p * predator_efficiency s)%Q p).
Proof.
  intros Hs [[Hsp Hr] Hj]. pose proof (season_efficiency_positive s Hs) as He.
  split; [split; [exact Hsp|] | exact Hj].
  cbn [hunting_success_rate set_hunting_success_rate].
  pose proof (Qmult_lt_compat_r _ _ _ He Hr) as H. lra.
Qed.

Lemma update_environment_starving j sin_deg e :
  Forall (starving j) (predators e) ->
  post (update_environment sin_deg e)
    (fun e' => Forall (starving j) (predators e')).
Proof.
  intros He. unfold update_environment. cbv zeta.
  eapply post_bind with (P := fun e2 => predators e2 = predators e).
  - unfold _precipitate. eapply post_bind; [apply post_any|]. intros k _.
    unfold _adjust_temperature.
    destruct (k <? _); destruct (negb _); apply post_ret; reflexivity.
  - intros e2 H2. apply post_ret.
    assert (H3 : predators (_handle_extreme_heat e2) = predators e).
    { unfold _handle_extreme_heat. destruct (Qle_bool _ _); exact H2. }
    revert H3. generalize (_handle_extreme_heat e2). intros e3 H3.
    unfold _update_season_cycle. cbv zeta.
    destruct (_ <=? _); [|cbn [predators set_season]; rewrite H3; exact He].
    unfold _change_season. cbv zeta.
    destruct (seasons !! _) as [s|] eqn:Es;
      [|cbn [predators set_season]; rewrite H3; exact He].
    unfold apply_seasonal_effects.
    cbn [predators set_predators set_plants set_ambient_temperature set_season].
    rewrite H3. apply list_elem_of_lookup_2 in Es.
    clear H2 H3. induction He as [|p l Hp _ IH]; simpl; constructor.
    + apply starving_scaled; assumption.
    + exact IH.
Qed.

Lemma grow_plants_predators e :
  post (grow_plants e) (fun e' => predators e' = predators e).
Proof.
  unfold grow_plants. eapply post_bind; [apply post_any|].
  intros [g pl] _. apply post_ret. reflexivity.
Qed.

Lemma update_starving j sin_deg e :
  Forall (starving j) (predators e) ->
  post (update sin_deg e)
    (fun e' => Forall (fun p => starving (j + 1) p /\ hunger p < 100 /\
                                is_dead p = false)
                      (predators e')).
Proof.
  intros He. unfold update.
  eapply post_bind; [apply update_environment_starving; exact He|].
  intros e1 H1.
  eapply post_bind; [apply update_herbivores_predators|]. intros e2 H2.
  eapply post_bind; [apply update_predators_starving; rewrite H2; exact H1|].
  intros e3 [_ H3].
  eapply post_bind; [apply grow_plants_predators|]. intros e4 H4.
  apply post_ret. cbv zeta.
  cbn [predators set_cycle update_population_data set_population_data
       _update_animal_body_temperature_and_plant_nutrition update_plants
       set_plants set_predators set_herbivores].
  rewrite H4. clear H4.
  induction H3 as [|p l Hp _ IH]; simpl; constructor; [exact Hp | exact IH].
Qed.

Lemma starving_weaken j p :
  starving (j + 1) p -> starving j p.
Proof. intros [Hh Hj]. split; [exact Hh | lia]. Qed.

Lemma run_starving sin_deg n j e :
  Forall (starving j) (predators e) ->
  post (run sin_deg n e)
    (fun e' => Forall (starving (j + Z.of_nat n)) (predators e') /\
               (n <> 0%nat -> Forall (fun p => hunger p < 100) (predators e'))).
Proof.
  revert j e. induction n as [|n IH]; intros j e He; cbn [run].
  - apply post_ret. rewrite Z.add_0_r. split; [exact He|]. intros H. congruence.
  - eapply post_bind; [apply update_starving; exact He|]. intros e1 H1.
    assert (H1s : Forall (starving (j + 1)) (predators e1)).
    { eapply Forall_impl; [exact H1|]. intros p Hp. apply Hp. }
    destruct n as [|n].
    + cbn [run]. apply post_ret. split; [exact H1s|]. intros _.
      eapply Forall_impl; [exact H1|]. intros p Hp. apply Hp.
    + eapply post_weaken; [apply (IH (j + 1) e1 H1s)|].
      intros e' [Hs Hh]. cbv beta. split.
      * replace (j + Z.of_nat (S (S n))) with (j + 1 + Z.of_nat (S n)) by lia.
        exact Hs.
      * intros _. apply Hh. discriminate.
Qed.

Lemma run_starved sin_deg n e :
  Forall (starving 0) (predators e) ->
  post (run sin_deg (10 + n) e) (fun e' => predators e' = []).
Proof.
  intros He. eapply post_weaken; [apply (run_starving sin_deg (10 + n) 0 e He)|].
  intros e' [Hs Hh]. cbv beta. specialize (Hh ltac:(discriminate)).
  destruct (predators e') as [|p l]; [reflexivity|]. exfalso.
  apply Forall_cons in Hs, Hh. destruct Hs as [[_ Hs] _], Hh as [Hh _].
  lia.
Qed.

Lemma slow_predator_rate (spd : Q) :
  (spd <= 15 # 10)%Q -> (_calculate_hunting_success_rate spd < 0)%Q.
Proof.
  intros H. apply hunting_rate_negative. lra.
Qed.

Lemma Predator_init_starving next_id r c spd sx :
  (spd <= 15 # 10)%Q ->
  post (Predator_init next_id r c spd sx) (starving 0).
Proof.
  intros Hspd. unfold Predator_init.
  eapply post_bind; [apply Animal_init_fresh|]. intros a Ha. cbv zeta.
  eapply post_bind; [apply post_any|]. intros immune _. apply post_ret.
  destruct Ha as (Hs & Hh & _). unfold starving, harmless.
  cbn [species hunting_success_rate hunger].
  split; [split; [exact Hs | apply slow_predator_rate; exact Hspd]|]. lia.
Qed.

Section SpawnSpeed.
Variable init : Z -> Z -> Z -> Q -> Sex -> Rand Animal.
Variable P : Animal -> Prop.
Hypothesis init_P : forall i r c spd sx,
  (5 # 10 <= spd <= 15 # 10)%Q -> post (init i r c spd sx) P.

Lemma spawn_speed fuel e next_id :
  post (spawn init fuel e next_id) (when_some P).
Proof.
  unfold spawn. eapply post_bind; [apply post_any|]. intros [[r c]|] _.
  - eapply post_bind; [apply (random_uniform_range (5 # 10) (15 # 10)); lra|].
    intros spd Hspd.
    eapply post_bind; [apply post_any|]. intros sx _.
    eapply post_bind; [apply init_P; exact Hspd|]. intros a Ha. apply post_ret.
    intros a' [= <-]. exact Ha.
  - apply post_ret. intros a' [=].
Qed.

Lemma spawn_list_speed fuel e count next_id :
  post (spawn_list init fuel e count next_id) (when_some (Forall P)).
Proof.
  revert next_id. induction count as [|n IH]; intros next_id; simpl.
  - apply post_ret. intros l [= <-]. constructor.
  - eapply post_bind; [apply spawn_speed|]. intros [a|] Ha.
    + eapply post_bind; [apply IH|]. intros [l|] Hl; apply post_ret.
      * intros l' [= <-]. constructor; [apply Ha | apply Hl]; reflexivity.
      * intros l' [=].
    + apply post_ret. intros l' [=].
Qed.

Lemma spawn_append_speed (add : Animal -> Ecosystem -> Ecosystem)
    (J : Ecosystem -> Prop) fuel count e :
  (forall a e v, P a -> J e -> J (set_animal_id_counter v (add a e))) ->
  J e -> post (spawn_append init add fuel count e) (when_some J).
Proof.
  intros Hadd. revert e. induction count as [|n IH]; intros e He; simpl.
  - apply post_ret. intros e' [= <-]. exact He.
  - eapply post_bind; [apply spawn_speed|]. intros [a|] Ha.
    + apply IH. apply Hadd; [apply Ha; reflexivity | exact He].
    + apply post_ret. intros e' [=].
Qed.
End SpawnSpeed.

Lemma Ecosystem_init_starving fuel next_id nrows ncols hc pc :
  post (Ecosystem_init fuel next_id nrows ncols hc pc)
    (when_some (fun e => Forall (starving 0) (predators e))).
Proof.
  unfold Ecosystem_init.
  eapply post_bind; [apply post_any|]. intros g1 _.
  eapply post_bind; [apply post_any|]. intros g2 _.
  unfold _initialize_animals.
  eapply post_bind; [apply post_any|].
  intros [hs|] _; [|apply post_ret; intros e' [=]].
  eapply post_bind.
  - apply (spawn_list_speed Predator_init (starving 0)).
    intros i r c spd sx [_ H]. apply Predator_init_starving. exact H.
  - intros [ps|] Hps; apply post_ret; [|intros e' [=]].
    intros e' [= <-]. cbn [predators set_animal_id_counter set_predators].
    apply Hps. reflexivity.
Qed.

Lemma initialize_ecosystem_starving fuel e :
  Forall (starving 0) (predators e) ->
  post (initialize_ecosystem fuel e)
    (when_some (fun e' => Forall (starving 0) (predators e'))).
Proof.
  intros He. unfold initialize_ecosystem.
  eapply post_bind.
  - apply (spawn_append_speed Herbivore_init (fun _ => True)
             (fun _ _ _ _ _ _ => post_any _) _
             (fun e' => Forall (starving 0) (predators e'))); [|exact He].
    intros a e0 v _ H. exact H.
  - intros [e1|] H1; [|apply post_ret; intros e' [=]].
    eapply post_bind.
    + apply (spawn_append_speed Predator_init (starving 0)
               (fun i r c spd sx H => Predator_init_starving i r c spd sx (proj2 H))
               _ (fun e' => Forall (starving 0) (predators e')));
        [|apply H1; reflexivity].
      intros a e0 v Ha H. cbn [predators set_animal_id_counter set_predators].
      apply Forall_app. split; [exact H|]. constructor; [exact Ha | constructor].
    + intros [e2|] H2; [|apply post_ret; intros e' [=]].
      apply (plant_append_post (fun e' => Forall (starving 0) (predators e')));
        [|apply H2; reflexivity].
      intros e0 r c H. exact H.
Qed.

Lemma reachable_starving sin_deg e :
  reachable sin_deg e -> Forall (starving 0) (predators e).
Proof.
  intros Hr. induction Hr as
    [fuel next_id nrows ncols hc pc g e Hi
    |fuel e g e' Hr IH Hi | e level Hr IH | e g Hr IH].
  - apply (Ecosystem_init_starving fuel next_id nrows ncols hc pc g). exact Hi.
  - apply (initialize_ecosystem_starving fuel e IH g). exact Hi.
  - exact IH.
  - pose proof (update_starving 0 sin_deg e IH g) as H.
    eapply Forall_impl; [exact H|]. intros p [Hp _].
    apply starving_weaken. exact Hp.
Qed.

Lemma update_predators_harmless e :
  Forall harmless (predators e) ->
  post (update_predators e)
    (fun e' => without_predators e' = without_predators e /\
               Forall harmless (predators e')).
Proof.
  intros He.
  eapply post_weaken.
  - apply (update_predators_rule
             (fun e' => without_predators e' = without_predators e)
             harmless harmless).
    + intros e1 l H. exact H.
    + intros e1 p HI Hh Hd.
      pose proof (harmless_vital_stats p Hh Hd) as Hh1.
      eapply post_weaken; [apply predator_turn_harmless; exact Hh1|].
      intros [p' e'] (E & Hh' & _). cbn [fst snd] in *. subst e'.
      split; [exact Hh' | exact HI].
    + reflexivity.
    + exact He.
  - intros e' H. exact H.
Qed.

Lemma lone_predator_built :
  fst (Ecosystem_init 1 0 1 1 0 1 (scripted [0; 4503599627370496]%N))
  = Some lone_predator_world.
Proof. vm_compute. reflexivity. Qed.

Lemma lone_predator_reachable : reachable sin_deg_0 lone_predator_world.
Proof.
  apply (reach_init sin_deg_0 1 0 1 1 0 1 (scripted [0; 4503599627370496]%N)).
  exact lone_predator_built.
Qed.

(** X6.  No hunt ever succeeds.  The constructor draws the speed of a
    predator from [0.5, 1.5], so that its rate [min(0.2 + (speed - 3.5), 1)]
    is negative, the seasons multiply it by a positive factor, and
    [random()] is never below a negative number: in every state that a run
    reaches every predator has a negative rate, and the pass over the
    predators changes the predators only, so that it removes no herbivore. *)
Theorem hunts_never_succeed (sin_deg : Z -> Q) (e : Ecosystem) (g : Rng) :
  reachable sin_deg e ->
  Forall harmless (predators e) /\
  without_predators (fst (update_predators e g)) = without_predators e /\
  herbivores (fst (update_predators e g)) = herbivores e.
Proof.
  intros Hr.
  assert (Hh : Forall harmless (predators e)).
  { eapply Forall_impl; [apply (reachable_starving sin_deg e Hr)|].
    intros p [Hp _]. exact Hp. }
  split; [exact Hh|].
  destruct (update_predators_harmless e Hh g) as [H _].
  split; [exact H|].
  change (herbivores (without_predators (fst (update_predators e g)))
          = herbivores (without_predators e)).
  rewrite H. reflexivity.
Qed.

Lemma hunts_never_succeed_witness :
  Forall harmless (predators lone_predator_world).
Proof.
  apply (hunts_never_succeed sin_deg_0 lone_predator_world (scripted [])).
  exact lone_predator_reachable.
Defined.

(** X7.  Predators die out within ten ticks.  A predator's hunger rises by
    10 in every tick and only a successful hunt lowers it; as no hunt
    succeeds, a predator that is alive after the tenth tick would have a
    hunger of 100, at which [_check_death_conditions] has it die.  From
    every state that a run reaches, the roster of predators is empty after
    ten ticks and stays empty. *)
Theorem predators_die_out (sin_deg : Z -> Q) (e : Ecosystem) (n : nat) (g : Rng) :
  reachable sin_deg e ->
  predators (fst (run sin_deg (10 + n) e g)) = [].
Proof.
  intros Hr. apply (run_starved sin_deg n e (reachable_starving sin_deg e Hr) g).
Qed.

Lemma predators_die_out_witness :
  predators (fst (run sin_deg_0 (10 + 0) lone_predator_world (scripted []))) = [].
Proof.
  apply (predators_die_out sin_deg_0 lone_predator_world 0 (scripted [])).
  exact lone_predator_reachable.
Defined.

(** ** The rule for the pass over the herbivores *)

Lemma herbivore_body_unfold e remaining new k g :
  herbivore_body (e, remaining, new) k g
  = match herbivores e !! k with
    | None => (e, remaining, new, g)
    | Some h =>
        let hr := handle_decay h k remaining in
        let h2 := handle_vital_stats (fst hr) in
        if negb (is_dead h2)
        then bind (herbivore_turn e h2 new)
               (fun r => ret (set_herbivores
                                (<[k := fst (fst r)]> (herbivores (snd (fst r))))
                                (snd (fst r)),
                              snd hr ++ [k], snd r)) g
        else (set_herbivores (<[k := h2]> (herbivores e)) e, snd hr, new, g)
    end.
Proof.
  unfold herbivore_body. destruct (herbivores e !! k) as [h|]; [|reflexivity].
  cbv zeta. destruct (handle_decay h k remaining) as [h1 r1]. cbn [fst snd].
  destruct (negb _); [|reflexivity].
  unfold herbivore_turn, bind.
  destruct (handle_feeding e _ g) as [[h3 e3] g1].
  destruct (handle_movement e3 _ g1) as [[h5 e5] g2].
  destruct (handle_reproduction e5 h5 new) as [h6 new6].
  destruct (defecate e5 h6) as [h7 e7].
  destruct (urinate e7 h7) as [h8 e8]. reflexivity.
Qed.

Lemma reproduction_loop_new others a new :
  snd (reproduction_loop others a new) = new.
Proof.
  revert a. induction others as [|o others IH]; intros a; simpl; [reflexivity|].
  destruct (_can_reproduce_together a o); [|apply IH].
  pose proof (reproduce_no_child a o) as Hn.
  destruct (reproduce a o) as [a' child]. simpl in Hn. subst child. apply IH.
Qed.

Lemma handle_feeding_herbivore e h :
  species h = Herbivore ->
  post (handle_feeding e h)
    (fun r => herbivores (snd r) = herbivores e /\
              predators (snd r) = predators e).
Proof.
  intros Hs. unfold handle_feeding.
  destruct (negb _); [|apply post_ret; split; reflexivity].
  rewrite Hs. apply post_ret. unfold _feed_herbivore.
  destruct (py_cell _ _ _) as [t|]; [|split; reflexivity].
  destruct (terrain_type t); split; reflexivity.
Qed.

Lemma handle_movement_rosters e a :
  post (handle_movement e a)
    (fun r => herbivores (snd r) = herbivores e /\
              predators (snd r) = predators e).
Proof.
  unfold handle_movement. destruct (negb _); [|apply post_ret; split; reflexivity].
  eapply post_bind; [apply post_any|]. intros moves _. unfold Animal_move.
  destruct (_ && _); [|apply post_ret; split; reflexivity].
  destruct (truthy _); [|apply post_ret; split; reflexivity].
  eapply post_bind; [apply post_any|]. intros new _. apply post_ret.
  split; reflexivity.
Qed.

Lemma herbivore_turn_rosters e h new :
  species h = Herbivore ->
  post (herbivore_turn e h new)
    (fun r => herbivores (snd (fst r)) = herbivores e /\
              predators (snd (fst r)) = predators e /\ snd r = new).
Proof.
  intros Hs. unfold herbivore_turn.
  eapply post_bind; [apply handle_feeding_herbivore; exact Hs|].
  intros [h3 e3] [H3 P3]. cbn [snd] in H3, P3.
  eapply post_bind; [apply handle_movement_rosters|].
  intros [h5 e5] [H5 P5]. cbn [snd] in H5, P5.
  pose proof (reproduction_loop_new (_get_same_species e5 h5) h5 new) as Hn.
  change (reproduction_loop (_get_same_species e5 h5) h5 new)
    with (handle_reproduction e5 h5 new) in Hn.
  destruct (handle_reproduction e5 h5 new) as [h6 new6]. cbn [snd] in Hn.
  assert (H7 : herbivores (snd (defecate e5 h6)) = herbivores e5 /\
               predators (snd (defecate e5 h6)) = predators e5).
  { unfold defecate. cbn [snd]. destruct (py_cell _ _ _); split; reflexivity. }
  destruct (defecate e5 h6) as [h7 e7]. cbn [snd] in H7.
  assert (H8 : herbivores (snd (urinate e7 h7)) = herbivores e7 /\
               predators (snd (urinate e7 h7)) = predators e7).
  { unfold urinate. cbn [snd]. destruct (py_cell _ _ _); split; reflexivity. }
  destruct (urinate e7 h7) as [h8 e8]. cbn [snd] in H8.
  apply post_ret. cbn [fst snd]. destruct H7, H8.
  repeat split; congruence.
Qed.

Section HerbivorePass.

Variable I : Ecosystem -> Prop.
Variables Q Q' : Animal -> Prop.
Hypothesis I_roster : forall e l, I e -> I (set_herbivores l e).
Hypothesis Q_alive : forall h, Q h -> is_dead h = false /\ species h = Herbivore.
Hypothesis turn : forall e h,
  I e -> Q h -> is_dead (handle_vital_stats h) = false ->
  post (herbivore_turn e (handle_vital_stats h) [])
    (fun r => Q' (fst (fst r)) /\ I (snd (fst r))).

Lemma herbivore_body_rule n k e remaining :
  I e -> length (herbivores e) = n -> (length remaining <= k)%nat ->
  (forall i, i ∈ remaining ->
     (i < k)%nat /\ exists a, herbivores e !! i = Some a /\ Q' a) ->
  (forall i a, (k <= i)%nat -> herbivores e !! i = Some a -> Q a) ->
  post (herbivore_body (e, remaining, []) k)
    (fun st =>
       I (fst (fst st)) /\ length (herbivores (fst (fst st))) = n /\
       snd st = [] /\ (length (snd (fst st)) <= Datatypes.S k)%nat /\
       (forall i, i ∈ snd (fst st) ->
          (i < Datatypes.S k)%nat /\
          exists a, herbivores (fst (fst st)) !! i = Some a /\ Q' a) /\
       (forall i a, (Datatypes.S k <= i)%nat ->
          herbivores (fst (fst st)) !! i = Some a -> Q a)).
Proof.
  intros HI Hn Hlen Hrem Hnext.
  eapply post_ext; [apply herbivore_body_unfold|].
  assert (Hkeep : forall (l : list Animal) p i, i ∈ remaining ->
            l = herbivores e ->
            (i < Datatypes.S k)%nat /\
            exists a, <[k := p]> l !! i = Some a /\ Q' a).
  { intros l p i Hi ->. destruct (Hrem i Hi) as [Hik (a & Ha & Hd)].
    split; [lia|]. exists a. split; [|exact Hd].
    rewrite list_lookup_insert_ne by lia. exact Ha. }
  assert (Hlater : forall (l : list Animal) p i a, (Datatypes.S k <= i)%nat ->
            l = herbivores e -> <[k := p]> l !! i = Some a -> Q a).
  { intros l p i a Hi -> Ha. rewrite list_lookup_insert_ne in Ha by lia.
    apply (Hnext i a); [lia | exact Ha]. }
  destruct (herbivores e !! k) as [h0|] eqn:Hk.
  - pose proof (Hnext k h0 ltac:(lia) Hk) as HQ.
    destruct (Q_alive h0 HQ) as [Hd0 Hs0].
    unfold handle_decay. rewrite Hd0. cbv zeta. cbn [fst snd].
    destruct (is_dead (handle_vital_stats h0)) eqn:Hd; cbn [negb].
    + intros g. cbn [fst snd herbivores set_herbivores].
      rewrite length_insert.
      split; [apply I_roster; exact HI|]. split; [exact Hn|].
      split; [reflexivity|]. split; [lia|].
      split; [intros i Hi; apply Hkeep; auto|].
      intros i a Hi Ha. apply (Hlater _ _ i a Hi eq_refl Ha).
    + destruct (handle_vital_stats_alive h0 Hd)
        as (_ & _ & _ & _ & _ & Hs1 & _).
      eapply post_bind.
      * apply post_and; [apply turn; [exact HI | exact HQ | exact Hd]
                        | apply herbivore_turn_rosters; congruence].
      * intros [[h8 e8] new8] [[HQ' HI8] (He8 & _ & Hnew)].
        cbn [fst snd] in *. apply post_ret.
        cbn [fst snd herbivores set_herbivores].
        rewrite length_insert, He8.
        split; [apply I_roster; exact HI8|]. split; [exact Hn|].
        split; [exact Hnew|]. split; [rewrite length_app; cbn; lia|].
        split.
        -- intros i Hi. apply elem_of_app in Hi. destruct Hi as [Hi|Hi].
           ++ apply Hkeep; auto.
           ++ apply list_elem_of_singleton in Hi. subst i. split; [lia|].
              exists h8. split; [|exact HQ'].
              apply list_lookup_insert_eq. apply lookup_lt_Some in Hk. lia.
        -- intros i a Hi Ha. apply (Hlater _ _ i a Hi eq_refl Ha).
  - intros g. cbn [fst snd]. split; [exact HI|]. split; [exact Hn|].
    split; [reflexivity|]. split; [lia|]. split.
    + intros i Hi. destruct (Hrem i Hi) as [Hik Ha]. split; [lia | exact Ha].
    + intros i a Hi Ha. apply (Hnext i a); [lia | exact Ha].
Qed.

Lemma update_herbivores_rule e :
  I e -> Forall Q (herbivores e) ->
  post (update_herbivores e)
    (fun e' => I e' /\ Forall Q' (herbivores e') /\
               (length (herbivores e') <= length (herbivores e))%nat).
Proof.
  intros HI HQ. unfold update_herbivores. eapply post_bind.
  - apply (post_foldM_seq herbivore_body
             (fun k st =>
                I (fst (fst st)) /\
                length (herbivores (fst (fst st))) = length (herbivores e) /\
                snd st = [] /\ (length (snd (fst st)) <= k)%nat /\
                (forall i, i ∈ snd (fst st) ->
                   (i < k)%nat /\
                   exists a, herbivores (fst (fst st)) !! i = Some a /\ Q' a) /\
                (forall i a, (k <= i)%nat ->
                   herbivores (fst (fst st)) !! i = Some a -> Q a))).
    + intros k [[e1 r1] new1] Hk (H1 & H2 & H3 & H4 & H5 & H6).
      cbn [fst snd] in *. subst new1.
      apply herbivore_body_rule; assumption.
    + cbn [fst snd]. split; [exact HI|]. split; [reflexivity|].
      split; [reflexivity|]. split; [cbn; lia|]. split.
      * intros i Hi. apply elem_of_nil in Hi. destruct Hi.
      * intros i a _ Ha. rewrite Forall_forall in HQ. apply HQ.
        eapply list_elem_of_lookup_2. exact Ha.
  - intros [[e1 r1] new1] (H1 & H2 & H3 & H4 & H5 & H6).
    cbn [fst snd] in *. subst new1. apply post_ret.
    cbn [herbivores set_herbivores]. rewrite app_nil_r.
    split; [apply I_roster; exact H1|]. split.
    + apply resolve_Forall. intros i Hi. apply (H5 i Hi).
    + pose proof (resolve_length (herbivores e1) r1). lia.
Qed.

End HerbivorePass.

(** ** What the turn of an animal leaves alone *)

Lemma handle_feeding_core e a :
  post (handle_feeding e a) (fun r => core (fst r) = core a).
Proof.
  unfold handle_feeding. destruct (negb _); [|apply post_ret; reflexivity].
  destruct (species a) eqn:Es.
  - apply post_ret. unfold _feed_herbivore.
    destruct (py_cell _ _ _) as [t|]; [|reflexivity].
    destruct (terrain_type t); reflexivity.
  - unfold _feed_predator. destruct (existsb _ _); [|apply post_ret; reflexivity].
    unfold Predator_feed. destruct (truthy _); [|apply post_ret; reflexivity].
    eapply post_bind; [apply post_any|]. intros prey _. unfold hunt.
    eapply post_bind; [apply post_any|]. intros u _.
    destruct (Qltb _ _); apply post_ret; reflexivity.
Qed.

Lemma handle_drinking_core e a : core (handle_drinking e a) = core a.
Proof. unfold handle_drinking. destruct (_ && _); reflexivity. Qed.

Lemma handle_movement_core e a :
  post (handle_movement e a) (fun r => core (fst r) = core a).
Proof.
  unfold handle_movement. destruct (negb _); [|apply post_ret; reflexivity].
  eapply post_bind; [apply post_any|]. intros moves _. unfold Animal_move.
  destruct (_ && _); [|apply post_ret; reflexivity].
  destruct (truthy _); [|apply post_ret; reflexivity].
  eapply post_bind; [apply post_any|]. intros new _. apply post_ret. reflexivity.
Qed.

Lemma reproduce_core a other : core (fst (reproduce a other)) = core a.
Proof.
  unfold reproduce, Herbivore_reproduce, Animal_reproduce.
  destruct (species a) eqn:Es;
    match goal with |- context [if ?b then _ else _] => destruct b end;
    reflexivity.
Qed.

Lemma reproduction_loop_core others a new :
  core (fst (reproduction_loop others a new)) = core a.
Proof.
  revert a. induction others as [|o others IH]; intros a; simpl; [reflexivity|].
  destruct (_can_reproduce_together a o); [|apply IH].
  pose proof (reproduce_no_child a o) as Hn.
  pose proof (reproduce_core a o) as Hc.
  destruct (reproduce a o) as [a' child]. simpl in Hn, Hc. subst child.
  rewrite IH. exact Hc.
Qed.

Lemma herbivore_turn_core e h new :
  post (herbivore_turn e h new) (fun r => core (fst (fst r)) = core h).
Proof.
  unfold herbivore_turn.
  eapply post_bind; [apply handle_feeding_core|].
  intros [h3 e3] H3. cbn [fst] in H3.
  eapply post_bind; [apply handle_movement_core|].
  intros [h5 e5] H5. cbn [fst] in H5. rewrite handle_drinking_core in H5.
  pose proof (reproduction_loop_core (_get_same_species e5 h5) h5 new) as H6.
  change (reproduction_loop (_get_same_species e5 h5) h5 new)
    with (handle_reproduction e5 h5 new) in H6.
  destruct (handle_reproduction e5 h5 new) as [h6 new6]. cbn [fst] in H6.
  apply post_ret. unfold defecate, urinate. cbn [fst snd].
  change (core h6 = core h). congruence.
Qed.

Lemma Predator_move_core moves p :
  post (Predator_move moves p) (fun p' => core p' = core p).
Proof.
  unfold Predator_move. destruct (_ && _); [|apply post_ret; reflexivity].
  eapply post_bind; [apply post_any|]. intros m _. apply post_ret. reflexivity.
Qed.

Lemma predator_turn_core e p :
  post (predator_turn e p) (fun r => core (fst r) = core p).
Proof.
  unfold predator_turn.
  eapply post_bind; [apply post_any|]. intros moves _.
  eapply post_bind; [apply Predator_move_core|]. intros p1 H1. cbv zeta.
  eapply post_weaken; [apply handle_feeding_core|].
  intros r Hr. cbv beta in Hr. rewrite Hr, handle_drinking_core. exact H1.
Qed.

Lemma sound_core sp a a' : core a' = core a -> sound sp a -> sound sp a'.
Proof.
  unfold core, sound. intros [= _ Hs _ Hd Hy _ _ _ _] (H1 & H2 & H3).
  repeat split; congruence.
Qed.

Lemma sound_vital_stats sp a :
  sound sp a -> is_dead (handle_vital_stats a) = false ->
  sound sp (handle_vital_stats a).
Proof.
  intros (H1 & H2 & H3) Hd.
  destruct (handle_vital_stats_alive a Hd)
    as (_ & _ & _ & _ & _ & Hs & _ & _ & _ & Hy & _).
  repeat split; congruence.
Qed.

(** ** The rosters hold the living *)

Lemma remove_first_length {A} (p : A -> bool) (l : list A) :
  (length (remove_first p l) <= length l)%nat.
Proof.
  induction l as [|x l IH]; simpl; [lia|]. destruct (p x); simpl; lia.
Qed.

Lemma handle_feeding_prey (P : Animal -> Prop) (n : nat) e a :
  Forall P (herbivores e) -> (length (herbivores e) <= n)%nat ->
  post (handle_feeding e a)
    (fun r => Forall P (herbivores (snd r)) /\
              (length (herbivores (snd r)) <= n)%nat).
Proof.
  intros HP Hn. unfold handle_feeding.
  destruct (negb _); [|apply post_ret; split; assumption].
  destruct (species a).
  - apply post_ret. unfold _feed_herbivore.
    destruct (py_cell _ _ _) as [t|]; [|split; assumption].
    destruct (terrain_type t); split; assumption.
  - unfold _feed_predator.
    destruct (existsb _ _); [|apply post_ret; split; assumption].
    unfold Predator_feed. destruct (truthy _); [|apply post_ret; split; assumption].
    eapply post_bind; [apply post_any|]. intros prey _. unfold hunt.
    eapply post_bind; [apply post_any|]. intros u _.
    destruct (Qltb _ _); apply post_ret; cbn [snd herbivores set_herbivores];
      [|split; assumption].
    split; [apply rosters_remove; exact HP|].
    pose proof (remove_first_length (same_animal prey) (herbivores e)). lia.
Qed.

Lemma predator_turn_prey (P : Animal -> Prop) (n : nat) e p :
  Forall P (herbivores e) -> (length (herbivores e) <= n)%nat ->
  post (predator_turn e p)
    (fun r => Forall P (herbivores (snd r)) /\
              (length (herbivores (snd r)) <= n)%nat).
Proof.
  intros HP Hn. unfold predator_turn.
  eapply post_bind; [apply post_any|]. intros moves _.
  eapply post_bind; [apply post_any|]. intros p1 _. cbv zeta.
  apply handle_feeding_prey; assumption.
Qed.

Lemma update_environment_rosters_kept (P : Animal -> Prop) sin_deg e :
  (forall p q, P p -> P (set_hunting_success_rate q p)) ->
  Forall P (predators e) ->
  post (update_environment sin_deg e)
    (fun e' => Forall P (predators e') /\ herbivores e' = herbivores e).
Proof.
  intros HP He. unfold update_environment. cbv zeta.
  eapply post_bind with
    (P := fun e2 => predators e2 = predators e /\ herbivores e2 = herbivores e).
  - unfold _precipitate. eapply post_bind; [apply post_any|]. intros k _.
    unfold _adjust_temperature.
    destruct (k <? _); destruct (negb _); apply post_ret; split; reflexivity.
  - intros e2 H2. apply post_ret.
    assert (H3 : predators (_handle_extreme_heat e2) = predators e /\
                 herbivores (_handle_extreme_heat e2) = herbivores e).
    { unfold _handle_extreme_heat. destruct (Qle_bool _ _); exact H2. }
    revert H3. generalize (_handle_extreme_heat e2). intros e3 [H3 H3'].
    unfold _update_season_cycle. cbv zeta.
    destruct (_ <=? _);
      [|cbn [predators herbivores set_season]; rewrite H3; split; assumption].
    unfold _change_season. cbv zeta.
    destruct (seasons !! _) as [s|] eqn:Es;
      [|cbn [predators herbivores set_season]; rewrite H3; split; assumption].
    unfold apply_seasonal_effects.
    cbn [predators herbivores set_predators set_plants set_ambient_temperature
         set_season].
    rewrite H3. split; [|exact H3'].
    clear H2 H3. induction He as [|p l Hp _ IH]; simpl; constructor.
    + apply HP. exact Hp.
    + exact IH.
Qed.

Lemma grow_plants_rosters_kept e :
  post (grow_plants e)
    (fun e' => herbivores e' = herbivores e /\ predators e' = predators e).
Proof.
  unfold grow_plants. eapply post_bind; [apply post_any|].
  intros [g pl] _. apply post_ret. split; reflexivity.
Qed.

Lemma update_herbivores_sound e :
  Forall (sound Herbivore) (herbivores e) ->
  post (update_herbivores e)
    (fun e' => predators e' = predators e /\
               Forall (sound Herbivore) (herbivores e') /\
               (length (herbivores e') <= length (herbivores e))%nat).
Proof.
  apply (update_herbivores_rule
           (fun e' => predators e' = predators e)
           (sound Herbivore) (sound Herbivore)).
  - intros e1 l H. exact H.
  - intros h (H1 & H2 & _). split; assumption.
  - intros e1 h HI Hh Hd.
    pose proof (sound_vital_stats Herbivore h Hh Hd) as Hh1.
    eapply post_weaken.
    + apply post_and; [apply herbivore_turn_core|].
      apply herbivore_turn_rosters. apply Hh1.
    + intros [[h' e'] new'] [Hc (_ & Hp & _)]. cbn [fst snd] in *.
      split; [eapply sound_core; eassumption | congruence].
  - reflexivity.
Qed.

Lemma update_predators_sound n e :
  Forall (sound Herbivore) (herbivores e) -> (length (herbivores e) <= n)%nat ->
  Forall (sound Predator) (predators e) ->
  post (update_predators e)
    (fun e' => (Forall (sound Herbivore) (herbivores e') /\
                (length (herbivores e') <= n)%nat) /\
               Forall (sound Predator) (predators e')).
Proof.
  intros Hh Hn.
  apply (update_predators_rule
           (fun e' => Forall (sound Herbivore) (herbivores e') /\
                      (length (herbivores e') <= n)%nat)
           (sound Predator) (sound Predator)).
  - intros e1 l H. exact H.
  - intros e1 p [HI Hl] Hp Hd.
    pose proof (sound_vital_stats Predator p Hp Hd) as Hp1.
    eapply post_weaken.
    + apply post_and; [apply predator_turn_core|].
      apply (predator_turn_prey (sound Herbivore) n); assumption.
    + intros [p' e'] [Hc HI']. cbn [fst snd] in *.
      split; [eapply sound_core; eassumption | exact HI'].
  - split; assumption.
Qed.

Lemma sound_warm sp q a : sound sp a -> sound sp (set_body_temperature q a).
Proof. intros H. exact H. Qed.

Lemma update_sound sin_deg e :
  Forall (sound Herbivore) (herbivores e) ->
  Forall (sound Predator) (predators e) ->
  post (update sin_deg e)
    (fun e' => Forall (sound Herbivore) (herbivores e') /\
               Forall (sound Predator) (predators e') /\
               (length (herbivores e') <= length (herbivores e))%nat).
Proof.
  intros Hh Hp. unfold update.
  eapply post_bind.
  { apply (update_environment_rosters_kept (sound Predator)); [|exact Hp].
    intros p q H. exact H. }
  intros e1 [P1 H1].
  eapply post_bind; [apply update_herbivores_sound; rewrite H1; exact Hh|].
  intros e2 (P2 & H2 & L2).
  eapply post_bind.
  { apply (update_predators_sound (length (herbivores e)));
      [exact H2 | rewrite H1 in L2; exact L2 | rewrite P2; exact P1]. }
  intros e3 [[H3 L3] P3].
  eapply post_bind; [apply grow_plants_rosters_kept|]. intros e4 [H4 P4].
  apply post_ret. cbv zeta.
  cbn [herbivores predators set_cycle update_population_data set_population_data
       _update_animal_body_temperature_and_plant_nutrition update_plants
       set_plants set_predators set_herbivores].
  rewrite H4, P4, length_map.
  split; [|split; [|exact L3]].
  - clear -H3. induction H3 as [|a l Ha _ IH]; simpl; constructor; assumption.
  - clear -P3. induction P3 as [|a l Ha _ IH]; simpl; constructor; assumption.
Qed.

Lemma fresh_sound sp a : fresh sp a -> sound sp a.
Proof. intros (H1 & _ & _ & _ & H5 & H6 & _). repeat split; assumption. Qed.

Lemma reachable_sound sin_deg e :
  reachable sin_deg e -> rosters (sound Herbivore) (sound Predator) e.
Proof.
  intros Hr. induction Hr as
    [fuel next_id nrows ncols hc pc g e Hi
    |fuel e g e' Hr IH Hi | e level Hr IH | e g Hr IH].
  - apply (Ecosystem_init_rosters (sound Herbivore) (sound Predator)
             fuel next_id nrows ncols hc pc
             (fresh_sound Herbivore) (fresh_sound Predator) g).
    exact Hi.
  - apply (initialize_ecosystem_rosters (sound Herbivore) (sound Predator)
             fuel e (fresh_sound Herbivore) (fresh_sound Predator) IH g).
    exact Hi.
  - exact IH.
  - destruct IH as [Hh Hp].
    destruct (update_sound sin_deg e Hh Hp g) as (H1 & H2 & _).
    split; assumption.
Qed.

Lemma tiny_world_reachable : reachable sin_deg_0 tiny_world.
Proof.
  apply (reach_init sin_deg_0 1 0 1 1 1 0 (scripted [0; 4503599627370496]%N)).
  exact tiny_world_built.
Qed.

Lemma pond_world_built :
  fst (Ecosystem_init 5 0 2 5 1 1
         (scripted [0; 0; 0; 0; 0; 4503599627370496; 0; 4503599627370496;
                      0; 4503599627370496;
                      0; 0; 0; 0; 0; 4503599627370496; 0; 4503599627370496;
                      0; 4503599627370496;
                      0; 3; 0; 0; 0; 0; 0; 0; 0; 0; 0; 0; 0; 0; 0; 0; 0; 0; 0;
                      0; 1; 4]%N))
  = Some pond_world.
Proof. vm_compute. reflexivity. Qed.

Lemma pond_world_reachable : reachable sin_deg_0 pond_world.
Proof.
  apply (reach_init sin_deg_0 5 0 2 5 1 1
           (scripted [0; 0; 0; 0; 0; 4503599627370496; 0; 4503599627370496;
                      0; 4503599627370496;
                      0; 0; 0; 0; 0; 4503599627370496; 0; 4503599627370496;
                      0; 4503599627370496;
                      0; 3; 0; 0; 0; 0; 0; 0; 0; 0; 0; 0; 0; 0; 0; 0; 0; 0; 0;
                      0; 1; 4]%N)).
  exact pond_world_built.
Qed.

(** X8.  The rosters hold the living only, and the roster of herbivores
    never grows.  In every state that a run reaches every animal of a roster
    is alive, is of the class of its roster and has a decay of 100: an
    animal that dies is dropped in the pass in which it dies, so that
    [handle_decay] never finds a dead animal, and since [reproduce] returns
    no child a tick leaves at most as many herbivores as it found. *)
Theorem rosters_hold_the_living (sin_deg : Z -> Q) (e : Ecosystem) (g : Rng) :
  reachable sin_deg e ->
  Forall (sound Herbivore) (herbivores e) /\
  Forall (sound Predator) (predators e) /\
  (length (herbivores (fst (update sin_deg e g))) <= length (herbivores e))%nat.
Proof.
  intros Hr. destruct (reachable_sound sin_deg e Hr) as [Hh Hp].
  split; [exact Hh|]. split; [exact Hp|].
  apply (update_sound sin_deg e Hh Hp g).
Qed.

Lemma rosters_hold_the_living_witness :
  Forall (sound Herbivore) (herbivores tiny_world).
Proof.
  apply (rosters_hold_the_living sin_deg_0 tiny_world (scripted [])).
  exact tiny_world_reachable.
Defined.

(** ** Where the animals stand *)

Lemma herbivore_turn_surroundings e h new :
  post (herbivore_turn e h new)
    (fun r => surroundings (snd (fst r)) = surroundings e).
Proof.
  unfold herbivore_turn.
  eapply post_bind; [apply handle_feeding_surroundings|].
  intros [h3 e3] He3. cbn [snd] in He3.
  eapply post_bind; [apply handle_movement_surroundings|].
  intros [h5 e5] He5. cbn [snd] in He5.
  destruct (handle_reproduction e5 h5 new) as [h6 new6].
  pose proof (defecate_surroundings e5 h6) as Hd.
  destruct (defecate e5 h6) as [h7 e7]. cbn [snd] in Hd.
  pose proof (urinate_surroundings e7 h7) as Hu.
  destruct (urinate e7 h7) as [h8 e8]. cbn [snd] in Hu.
  apply post_ret. cbn [fst snd]. congruence.
Qed.

Lemma predator_turn_surroundings e p :
  post (predator_turn e p) (fun r => surroundings (snd r) = surroundings e).
Proof.
  unfold predator_turn.
  eapply post_bind; [apply post_any|]. intros moves _.
  eapply post_bind; [apply post_any|]. intros p1 _. cbv zeta.
  apply handle_feeding_surroundings.
Qed.

Lemma surroundings_size e e' :
  surroundings e' = surroundings e -> rows e' = rows e /\ cols e' = cols e.
Proof.
  intros H. split.
  - change (rows (surroundings e') = rows (surroundings e)). rewrite H. reflexivity.
  - change (cols (surroundings e') = cols (surroundings e)). rewrite H. reflexivity.
Qed.

Lemma handle_feeding_position e a :
  post (handle_feeding e a) (fun r => position (fst r) = position a).
Proof.
  unfold handle_feeding. destruct (negb _); [|apply post_ret; reflexivity].
  destruct (species a) eqn:Es.
  - apply post_ret. unfold _feed_herbivore.
    destruct (py_cell _ _ _) as [t|]; [|reflexivity].
    destruct (terrain_type t); reflexivity.
  - unfold _feed_predator. destruct (existsb _ _); [|apply post_ret; reflexivity].
    unfold Predator_feed. destruct (truthy _); [|apply post_ret; reflexivity].
    eapply post_bind; [apply post_any|]. intros prey _. unfold hunt.
    eapply post_bind; [apply post_any|]. intros u _.
    destruct (Qltb _ _); apply post_ret; reflexivity.
Qed.

Lemma handle_drinking_position e a : position (handle_drinking e a) = position a.
Proof. unfold handle_drinking. destruct (_ && _); reflexivity. Qed.

Lemma get_valid_moves_candidates e r c :
  post (_get_valid_moves e r c) (fun moves => forall p, In p moves -> In p (candidates e r c)).
Proof. unfold _get_valid_moves, random_shuffle. apply shuffle_from_In. Qed.

Lemma candidates_spec e r c p :
  In p (candidates e r c) ->
  in_bounds (rows e) (cols e) p = true /\ passable (grid e) p = true /\
  In p (block3 r c).
Proof.
  unfold candidates. intros H. apply List.filter_In in H. destruct H as [H Hp].
  apply List.filter_In in H. destruct H as [H Hb]. repeat split; assumption.
Qed.

Lemma handle_movement_on_grid e a :
  on_grid (rows e) (cols e) a ->
  post (handle_movement e a) (fun r => on_grid (rows e) (cols e) (fst r)).
Proof.
  intros Ha. unfold handle_movement.
  destruct (negb _); [|apply post_ret; exact Ha].
  eapply post_bind; [apply get_valid_moves_candidates|]. intros moves Hm.
  eapply post_weaken; [apply Animal_move_position|].
  intros r [Hr|[Hr _]]; unfold on_grid.
  - rewrite Hr. exact Ha.
  - apply Hm, candidates_spec in Hr. apply Hr.
Qed.

Lemma reproduce_position a other : position (fst (reproduce a other)) = position a.
Proof.
  unfold reproduce, Herbivore_reproduce, Animal_reproduce.
  destruct (species a) eqn:Es;
    match goal with |- context [if ?b then _ else _] => destruct b end;
    reflexivity.
Qed.

Lemma reproduction_loop_position others a new :
  position (fst (reproduction_loop others a new)) = position a.
Proof.
  revert a. induction others as [|o others IH]; intros a; simpl; [reflexivity|].
  destruct (_can_reproduce_together a o); [|apply IH].
  pose proof (reproduce_no_child a o) as Hn.
  pose proof (reproduce_position a o) as Hc.
  destruct (reproduce a o) as [a' child]. simpl in Hn, Hc. subst child.
  rewrite IH. exact Hc.
Qed.

Lemma herbivore_turn_on_grid e h new :
  on_grid (rows e) (cols e) h ->
  post (herbivore_turn e h new)
    (fun r => on_grid (rows e) (cols e) (fst (fst r))).
Proof.
  intros Hh. unfold herbivore_turn.
  eapply post_bind.
  { apply post_and; [apply handle_feeding_position
                    | apply handle_feeding_surroundings]. }
  intros [h3 e3] [H3 S3]. cbn [fst snd] in H3, S3.
  apply surroundings_size in S3. destruct S3 as [R3 C3].
  eapply post_bind.
  { apply (handle_movement_on_grid e3 (handle_drinking e3 h3)).
    unfold on_grid. rewrite handle_drinking_position, H3, R3, C3. exact Hh. }
  intros [h5 e5] H5. cbn [fst] in H5. rewrite R3, C3 in H5.
  pose proof (reproduction_loop_position (_get_same_species e5 h5) h5 new) as H6.
  change (reproduction_loop (_get_same_species e5 h5) h5 new)
    with (handle_reproduction e5 h5 new) in H6.
  destruct (handle_reproduction e5 h5 new) as [h6 new6]. cbn [fst] in H6.
  apply post_ret. unfold defecate, urinate. cbn [fst snd].
  unfold on_grid in *.
  change (in_bounds (rows e) (cols e) (position h6) = true).
  rewrite H6. exact H5.
Qed.

Lemma Predator_move_on_grid nrows ncols moves p :
  (forall m, In m moves -> in_bounds nrows ncols m = true) ->
  on_grid nrows ncols p ->
  post (Predator_move moves p) (on_grid nrows ncols).
Proof.
  intros Hm Hp. unfold Predator_move.
  destruct (truthy moves) eqn:Ht; cbn [andb]; [|apply post_ret; exact Hp].
  destruct (_ && _); [|apply post_ret; exact Hp].
  eapply post_bind; [apply random_choice_In; exact Ht|]. intros m Hin.
  apply post_ret. unfold on_grid, position. cbn [row col set_energy set_position].
  destruct m as [r c]. apply Hm. exact Hin.
Qed.

Lemma predator_turn_on_grid e p :
  on_grid (rows e) (cols e) p ->
  post (predator_turn e p) (fun r => on_grid (rows e) (cols e) (fst r)).
Proof.
  intros Hp. unfold predator_turn.
  eapply post_bind; [apply get_valid_moves_candidates|]. intros moves Hm.
  eapply post_bind.
  { apply (Predator_move_on_grid (rows e) (cols e)); [|exact Hp].
    intros m Hin. apply Hm, candidates_spec in Hin. apply Hin. }
  intros p1 H1. cbv zeta.
  eapply post_weaken; [apply handle_feeding_position|].
  intros r Hr. cbv beta in Hr. unfold on_grid in *.
  rewrite Hr, handle_drinking_position. exact H1.
Qed.

Lemma on_grid_vital_stats nrows ncols a :
  on_grid nrows ncols a -> is_dead (handle_vital_stats a) = false ->
  on_grid nrows ncols (handle_vital_stats a).
Proof.
  intros Ha Hd.
  destruct (handle_vital_stats_alive a Hd)
    as (_ & _ & _ & _ & _ & _ & _ & Hr & Hc & _).
  unfold on_grid, position in *. rewrite Hr, Hc. exact Ha.
Qed.

Lemma settled_vital_stats nrows ncols sp a :
  settled nrows ncols sp a -> is_dead (handle_vital_stats a) = false ->
  settled nrows ncols sp (handle_vital_stats a).
Proof.
  intros [Hs Hg] Hd.
  split; [apply sound_vital_stats | apply on_grid_vital_stats]; assumption.
Qed.

Lemma update_herbivores_settled e :
  Forall (settled (rows e) (cols e) Herbivore) (herbivores e) ->
  post (update_herbivores e)
    (fun e' => (surroundings e' = surroundings e /\
                predators e' = predators e) /\
               Forall (settled (rows e) (cols e) Herbivore) (herbivores e')).
Proof.
  intros He.
  eapply post_weaken.
  - apply (update_herbivores_rule
             (fun e' => surroundings e' = surroundings e /\
                        predators e' = predators e)
             (settled (rows e) (cols e) Herbivore)
             (settled (rows e) (cols e) Herbivore)).
    + intros e1 l H. exact H.
    + intros h [(H1 & H2 & _) _]. split; assumption.
    + intros e1 h [HS HP] Hh Hd.
      pose proof (settled_vital_stats _ _ _ h Hh Hd) as [Hs1 Hg1].
      destruct (surroundings_size _ _ HS) as [HR HC].
      eapply post_weaken.
      * apply post_and; [apply herbivore_turn_core|].
        apply post_and; [apply herbivore_turn_rosters; apply Hs1|].
        apply post_and; [apply herbivore_turn_surroundings|].
        apply (herbivore_turn_on_grid e1). rewrite HR, HC. exact Hg1.
      * intros [[h' e'] new'] (Hc & (_ & Hp & _) & Hsur & Hg).
        cbn [fst snd] in *. rewrite HR, HC in Hg.
        split; [split; [eapply sound_core; eassumption | exact Hg]|].
        split; congruence.
    + split; reflexivity.
    + exact He.
  - intros e' (HI & HQ & _). split; assumption.
Qed.

Lemma update_predators_settled e :
  Forall (settled (rows e) (cols e) Herbivore) (herbivores e) ->
  Forall (settled (rows e) (cols e) Predator) (predators e) ->
  post (update_predators e)
    (fun e' => (surroundings e' = surroundings e /\
                Forall (settled (rows e) (cols e) Herbivore) (herbivores e')) /\
               Forall (settled (rows e) (cols e) Predator) (predators e')).
Proof.
  intros Hh Hp.
  apply (update_predators_rule
           (fun e' => surroundings e' = surroundings e /\
                      Forall (settled (rows e) (cols e) Herbivore) (herbivores e'))
           (settled (rows e) (cols e) Predator)
           (settled (rows e) (cols e) Predator)).
  - intros e1 l H. exact H.
  - intros e1 p [HS HH] Hq Hd.
    pose proof (settled_vital_stats _ _ _ p Hq Hd) as [Hs1 Hg1].
    destruct (surroundings_size _ _ HS) as [HR HC].
    eapply post_weaken.
    + apply post_and; [apply predator_turn_core|].
      apply post_and; [apply predator_turn_surroundings|].
      apply post_and.
      * apply (predator_turn_prey (settled (rows e) (cols e) Herbivore)
                 (length (herbivores e1))); [exact HH | lia].
      * apply (predator_turn_on_grid e1). rewrite HR, HC. exact Hg1.
    + intros [p' e'] (Hc & Hsur & [HH' _] & Hg). cbn [fst snd] in *.
      rewrite HR, HC in Hg.
      split; [split; [eapply sound_core; eassumption | exact Hg]|].
      split; [congruence | exact HH'].
  - split; [reflexivity | exact Hh].
  - exact Hp.
Qed.

Lemma update_environment_size sin_deg e :
  post (update_environment sin_deg e)
    (fun e' => rows e' = rows e /\ cols e' = cols e).
Proof.
  unfold update_environment. cbv zeta.
  eapply post_bind with
    (P := fun e2 => rows e2 = rows e /\ cols e2 = cols e).
  - unfold _precipitate. eapply post_bind; [apply post_any|]. intros k _.
    unfold _adjust_temperature.
    destruct (k <? _); destruct (negb _); apply post_ret; split; reflexivity.
  - intros e2 H2. apply post_ret.
    unfold _update_season_cycle, _change_season, _handle_extreme_heat.
    cbv zeta.
    destruct (Qle_bool _ _); cbn [season_duration season_cycle set_season set_grid];
      destruct (_ <=? _); try destruct (seasons !! _); exact H2.
Qed.

Lemma update_settled sin_deg e :
  Forall (settled (rows e) (cols e) Herbivore) (herbivores e) ->
  Forall (settled (rows e) (cols e) Predator) (predators e) ->
  post (update sin_deg e)
    (fun e' => rows e' = rows e /\ cols e' = cols e /\
               Forall (settled (rows e) (cols e) Herbivore) (herbivores e') /\
               Forall (settled (rows e) (cols e) Predator) (predators e')).
Proof.
  intros Hh Hp. unfold update.
  eapply post_bind.
  { apply post_and; [apply update_environment_size|].
    apply (update_environment_rosters_kept
             (settled (rows e) (cols e) Predator)); [|exact Hp].
    intros p q H. exact H. }
  intros e1 [[R1 C1] [P1 H1]].
  eapply post_bind.
  { apply update_herbivores_settled. rewrite R1, C1, H1. exact Hh. }
  rewrite R1, C1. intros e2 [[S2 P2] H2].
  destruct (surroundings_size _ _ S2) as [R2 C2].
  eapply post_bind.
  { apply update_predators_settled; rewrite R2, C2, R1, C1;
      [exact H2 | rewrite P2; exact P1]. }
  rewrite R2, C2, R1, C1. intros e3 [[S3 H3] P3].
  destruct (surroundings_size _ _ S3) as [R3 C3].
  eapply post_bind.
  { apply post_and; [apply grow_plants_rosters_kept | apply grow_plants_climate]. }
  intros e4 [[H4 P4] K4]. apply post_ret. cbv zeta.
  cbn [rows cols herbivores predators set_cycle update_population_data
       set_population_data _update_animal_body_temperature_and_plant_nutrition
       update_plants set_plants set_predators set_herbivores].
  assert (R4 : rows e4 = rows e3 /\ cols e4 = cols e3).
  { split.
    - change (rows (climate e4) = rows (climate e3)). rewrite K4. reflexivity.
    - change (cols (climate e4) = cols (climate e3)). rewrite K4. reflexivity. }
  destruct R4 as [R4 C4]. rewrite H4, P4.
  split; [congruence|]. split; [congruence|]. split.
  - clear -H3. induction H3 as [|a l Ha _ IH]; simpl; constructor; assumption.
  - clear -P3. induction P3 as [|a l Ha _ IH]; simpl; constructor; assumption.
Qed.

(** ** Where the constructor puts the animals *)

Lemma random_randint_range (a b : Z) :
  a <= b -> post (random_randint a b) (fun k => a <= k <= b).
Proof.
  intros Hab g. unfold random_randint, bind, ret.
  pose proof (randbelow_range (b - a + 1) g ltac:(lia)) as Hr.
  destruct (randbelow (b - a + 1) g) as [k g']. cbn [fst] in *. lia.
Qed.

Lemma generate_valid_location_vacant fuel e :
  0 < rows e -> 0 < cols e ->
  post (_generate_valid_location fuel e) (when_some (vacant e)).
Proof.
  intros Hr Hc. induction fuel as [|fuel IH]; cbn [_generate_valid_location].
  - apply post_ret. intros p [=].
  - eapply post_bind; [apply (random_randint_range 0 (rows e - 1)); lia|].
    intros r Hr'.
    eapply post_bind; [apply (random_randint_range 0 (cols e - 1)); lia|].
    intros c Hc'.
    destruct (negb (is_water (cell (grid e) r c))) eqn:Hw; cbn [andb];
      [|exact IH].
    destruct (negb (is_tile_occupied e r c)) eqn:Ho; [|exact IH].
    apply post_ret. intros p [= <-]. unfold vacant, in_bounds, is_water_at.
    cbn [fst snd]. apply negb_true_iff in Hw, Ho.
    split; [|split; assumption].
    cbv beta in Hr', Hc'. rewrite !andb_true_iff, !Z.leb_le, !Z.ltb_lt. lia.
Qed.

Lemma Animal_init_position next_id r c spd sx sp :
  post (Animal_init next_id r c spd sx sp) (fun a => position a = (r, c)).
Proof.
  unfold Animal_init.
  repeat (eapply post_bind; [apply post_any | intros ? _]).
  apply post_ret. reflexivity.
Qed.

Lemma Herbivore_init_position next_id r c spd sx :
  post (Herbivore_init next_id r c spd sx) (fun a => position a = (r, c)).
Proof.
  unfold Herbivore_init.
  eapply post_bind; [apply Animal_init_position|]. intros a Ha.
  eapply post_bind; [apply post_any|]. intros n _. apply post_ret. exact Ha.
Qed.

Lemma Predator_init_position next_id r c spd sx :
  post (Predator_init next_id r c spd sx) (fun a => position a = (r, c)).
Proof.
  unfold Predator_init.
  eapply post_bind; [apply Animal_init_position|]. intros a Ha. cbv zeta.
  eapply post_bind; [apply post_any|]. intros n _. apply post_ret. exact Ha.
Qed.

Section SpawnPlace.
Variable init : Z -> Z -> Z -> Q -> Sex -> Rand Animal.
Variable P : Animal -> Prop.
Hypothesis init_P : forall i r c spd sx, post (init i r c spd sx) P.
Hypothesis init_position : forall i r c spd sx,
  post (init i r c spd sx) (fun a => position a = (r, c)).

Lemma spawn_place fuel e next_id :
  0 < rows e -> 0 < cols e ->
  post (spawn init fuel e next_id)
    (when_some (fun a => P a /\ vacant e (position a))).
Proof.
  intros Hr Hc. unfold spawn.
  eapply post_bind; [apply generate_valid_location_vacant; assumption|].
  intros [[r c]|] Hloc.
  - eapply post_bind; [apply post_any|]. intros spd _.
    eapply post_bind; [apply post_any|]. intros sx _.
    eapply post_bind; [apply post_and; [apply init_P | apply init_position]|].
    intros a [Ha Hp]. apply post_ret.
    intros a' [= <-]. split; [exact Ha|]. rewrite Hp. apply Hloc. reflexivity.
  - apply post_ret. intros a' [=].
Qed.

Lemma spawn_list_place fuel e count next_id :
  0 < rows e -> 0 < cols e ->
  post (spawn_list init fuel e count next_id)
    (when_some (Forall (fun a => P a /\ vacant e (position a)))).
Proof.
  intros Hr Hc. revert next_id.
  induction count as [|n IH]; intros next_id; simpl.
  - apply post_ret. intros l [= <-]. constructor.
  - eapply post_bind; [apply spawn_place; assumption|]. intros [a|] Ha.
    + eapply post_bind; [apply IH|]. intros [l|] Hl; apply post_ret.
      * intros l' [= <-]. constructor; [apply Ha | apply Hl]; reflexivity.
      * intros l' [=].
    + apply post_ret. intros l' [=].
Qed.

Lemma spawn_append_place (add : Animal -> Ecosystem -> Ecosystem)
    (J : Ecosystem -> Prop) fuel count e :
  (forall e, J e -> 0 < rows e /\ 0 < cols e) ->
  (forall a e v, P a -> vacant e (position a) -> J e ->
     J (set_animal_id_counter v (add a e))) ->
  J e -> post (spawn_append init add fuel count e) (when_some J).
Proof.
  intros Hsize Hadd. revert e. induction count as [|n IH]; intros e He; simpl.
  - apply post_ret. intros e' [= <-]. exact He.
  - destruct (Hsize e He) as [Hr Hc].
    eapply post_bind; [apply spawn_place; assumption|]. intros [a|] Ha.
    + apply IH. destruct (Ha a eq_refl) as [H1 H2]. apply Hadd; assumption.
    + apply post_ret. intros e' [=].
Qed.
End SpawnPlace.

Lemma unoccupied_spec e r c :
  is_tile_occupied e r c = false ->
  Forall (fun a => position a <> (r, c)) (herbivores e ++ predators e).
Proof.
  unfold is_tile_occupied. intros H. rewrite Forall_forall. intros a Ha Hp.
  apply list_elem_of_In in Ha.
  assert (Ht : existsb (fun a => (row a =? r) && (col a =? c))
                 (herbivores e ++ predators e) = true).
  { apply existsb_exists. exists a. split; [exact Ha|].
    unfold position in Hp. injection Hp as -> ->.
    rewrite !Z.eqb_refl. reflexivity. }
  congruence.
Qed.

Lemma Ecosystem_init_placed fuel next_id nrows ncols hc pc :
  0 < nrows -> 0 < ncols ->
  post (Ecosystem_init fuel next_id nrows ncols hc pc)
    (when_some (fun e => rows e = nrows /\ cols e = ncols /\ placed e)).
Proof.
  intros Hr Hc. unfold Ecosystem_init.
  eapply post_bind; [apply post_any|]. intros g1 _.
  eapply post_bind; [apply post_any|]. intros g2 _. cbv zeta.
  set (e0 := mkEcosystem nrows ncols g2 false [] [] [] 0 20 0 0%nat 0 50
               [] [] [] ∅ next_id).
  unfold _initialize_animals.
  eapply post_bind.
  { apply (spawn_list_place Herbivore_init (sound Herbivore)).
    - intros i r c spd sx. eapply post_weaken; [apply Herbivore_init_fresh|].
      apply fresh_sound.
    - apply Herbivore_init_position.
    - exact Hr.
    - exact Hc. }
  intros [hs|] Hhs; [|apply post_ret; intros e' [=]]. cbv zeta.
  specialize (Hhs hs eq_refl).
  eapply post_bind.
  { apply (spawn_list_place Predator_init (sound Predator)).
    - intros i r c spd sx. eapply post_weaken; [apply Predator_init_fresh|].
      apply fresh_sound.
    - apply Predator_init_position.
    - exact Hr.
    - exact Hc. }
  intros [ps|] Hps; apply post_ret; [|intros e' [=]].
  specialize (Hps ps eq_refl).
  intros e' [= <-].
  split; [reflexivity|]. split; [reflexivity|]. unfold placed.
  cbn [rows cols grid herbivores predators set_animal_id_counter set_predators
       set_herbivores e0].
  split.
  - eapply Forall_impl; [exact Hhs|]. intros a [Ha (Hb & Hw & _)].
    split; [split; [exact Ha | exact Hb] | exact Hw].
  - eapply Forall_impl; [exact Hps|]. intros p [Hp (Hb & Hw & Ho)].
    split; [split; [exact Hp | exact Hb]|]. split; [exact Hw|].
    apply unoccupied_spec in Ho.
    cbn [herbivores predators set_animal_id_counter set_herbivores e0] in Ho.
    rewrite app_nil_r in Ho.
    eapply Forall_impl; [exact Ho|]. intros h Hh. cbv beta in Hh.
    destruct (position p) as [r c]. exact Hh.
Qed.

Lemma Ecosystem_init_size fuel next_id nrows ncols hc pc :
  post (Ecosystem_init fuel next_id nrows ncols hc pc)
    (when_some (fun e => rows e = nrows /\ cols e = ncols)).
Proof.
  unfold Ecosystem_init.
  eapply post_bind; [apply post_any|]. intros g1 _.
  eapply post_bind; [apply post_any|]. intros g2 _. cbv zeta.
  unfold _initialize_animals.
  eapply post_bind; [apply post_any|].
  intros [hs|] _; [|apply post_ret; intros e' [=]].
  eapply post_bind; [apply post_any|].
  intros [ps|] _; apply post_ret; [|intros e' [=]].
  intros e' [= <-]. split; reflexivity.
Qed.

Lemma initialize_ecosystem_size fuel e :
  post (initialize_ecosystem fuel e)
    (when_some (fun e' => rows e' = rows e /\ cols e' = cols e)).
Proof.
  unfold initialize_ecosystem.
  eapply post_bind.
  - apply (spawn_append_post Herbivore_init (fun _ => True)
             (fun _ _ _ _ _ => post_any _) _
             (fun e' => rows e' = rows e /\ cols e' = cols e));
      [|split; reflexivity].
    intros a e0 v _ H0. exact H0.
  - intros [e1|] H1; [|apply post_ret; intros e' [=]].
    eapply post_bind.
    + apply (spawn_append_post Predator_init (fun _ => True)
               (fun _ _ _ _ _ => post_any _) _
               (fun e' => rows e' = rows e /\ cols e' = cols e));
        [|apply H1; reflexivity].
      intros a e0 v _ H0. exact H0.
    + intros [e2|] H2; [|apply post_ret; intros e' [=]].
      apply (plant_append_post (fun e' => rows e' = rows e /\ cols e' = cols e));
        [|apply H2; reflexivity].
      intros e0 r c H0. exact H0.
Qed.

Lemma initialize_ecosystem_settled fuel e :
  0 < rows e -> 0 < cols e ->
  rosters (settled (rows e) (cols e) Herbivore)
          (settled (rows e) (cols e) Predator) e ->
  post (initialize_ecosystem fuel e)
    (when_some (rosters (settled (rows e) (cols e) Herbivore)
                        (settled (rows e) (cols e) Predator))).
Proof.
  intros Hr Hc He. unfold initialize_ecosystem.
  set (J := fun e' : Ecosystem =>
              (rows e' = rows e /\ cols e' = cols e) /\
              rosters (settled (rows e) (cols e) Herbivore)
                      (settled (rows e) (cols e) Predator) e').
  assert (HJ : forall e', J e' -> 0 < rows e' /\ 0 < cols e').
  { intros e' [[-> ->] _]. split; assumption. }
  eapply post_bind.
  - apply (spawn_append_place Herbivore_init (sound Herbivore)
             (fun i r c spd sx =>
                post_weaken _ _ _ (Herbivore_init_fresh i r c spd sx)
                  (fresh_sound Herbivore))
             Herbivore_init_position _ J); [exact HJ | |].
    + intros a e0 v Ha [Hb _] [[R0 C0] [Hh Hp]].
      split; [split; assumption|]. split; [|exact Hp].
      cbn [herbivores set_animal_id_counter set_herbivores].
      apply Forall_app. split; [exact Hh|].
      constructor; [|constructor]. split; [exact Ha|].
      unfold on_grid. rewrite <- R0, <- C0. exact Hb.
    + split; [split; reflexivity | exact He].
  - intros [e1|] H1; [|apply post_ret; intros e' [=]].
    eapply post_bind.
    + apply (spawn_append_place Predator_init (sound Predator)
               (fun i r c spd sx =>
                  post_weaken _ _ _ (Predator_init_fresh i r c spd sx)
                    (fresh_sound Predator))
               Predator_init_position _ J); [exact HJ | | apply H1; reflexivity].
      intros a e0 v Ha [Hb _] [[R0 C0] [Hh Hp]].
      split; [split; assumption|]. split; [exact Hh|].
      cbn [predators set_animal_id_counter set_predators].
      apply Forall_app. split; [exact Hp|].
      constructor; [|constructor]. split; [exact Ha|].
      unfold on_grid. rewrite <- R0, <- C0. exact Hb.
    + intros [e2|] H2; [|apply post_ret; intros e' [=]].
      eapply post_weaken.
      * apply (plant_append_post J); [|apply H2; reflexivity].
        intros e0 r c H0. exact H0.
      * intros o Ho e' He'. apply (Ho e' He').
Qed.

Lemma update_size sin_deg e :
  post (update sin_deg e) (fun e' => rows e' = rows e /\ cols e' = cols e).
Proof.
  eapply update_split; [apply update_environment_size|].
  intros e1 e6 [R1 C1] H6. cbv beta.
  change (rows (climate e6) = rows e /\ cols (climate e6) = cols e).
  rewrite H6. split; assumption.
Qed.

Lemma reachable_settled sin_deg e :
  reachable sin_deg e -> 0 < rows e -> 0 < cols e ->
  rosters (settled (rows e) (cols e) Herbivore)
          (settled (rows e) (cols e) Predator) e.
Proof.
  intros Hr. induction Hr as
    [fuel next_id nrows ncols hc pc g e Hi
    |fuel e g e' Hr IH Hi | e level Hr IH | e g Hr IH]; intros HR HC.
  - destruct (Ecosystem_init_size fuel next_id nrows ncols hc pc g e Hi)
      as [R C].
    rewrite R in HR. rewrite C in HC.
    destruct (Ecosystem_init_placed fuel next_id nrows ncols hc pc HR HC g e Hi)
      as (_ & _ & [Hh Hp]).
    split.
    + eapply Forall_impl; [exact Hh|]. intros a [Ha _]. exact Ha.
    + eapply Forall_impl; [exact Hp|]. intros a [Ha _]. exact Ha.
  - destruct (initialize_ecosystem_size fuel e g e' Hi) as [R C].
    rewrite R in HR. rewrite C in HC. rewrite R, C.
    apply (initialize_ecosystem_settled fuel e HR HC (IH HR HC) g e' Hi).
  - exact (IH HR HC).
  - destruct (update_size sin_deg e g) as [R C].
    rewrite R in HR. rewrite C in HC. rewrite R, C.
    destruct (IH HR HC) as [Hh Hp].
    destruct (update_settled sin_deg e Hh Hp g) as (_ & _ & H1 & H2).
    split; assumption.
Qed.

Lemma py_cell_on_grid nrows ncols (g : Grid) (r c : Z) :
  shaped nrows ncols g -> in_bounds nrows ncols (r, c) = true ->
  py_cell g r c = Some (cell g r c).
Proof.
  intros Hs Hb.
  destruct (lookup2_in_bounds nrows ncols g (r, c) Hs Hb) as [t Ht].
  cbn [fst snd] in Ht. rewrite (cell_lookup2 g r c t Ht).
  unfold in_bounds in Hb. cbn [fst snd] in Hb.
  rewrite !andb_true_iff, !Z.leb_le, !Z.ltb_lt in Hb.
  destruct Hb as [[[H1 H2] H3] H4].
  unfold py_cell, py_index.
  destruct (Z.leb_spec 0 r); [|lia]. destruct (Z.leb_spec 0 c); [|lia].
  unfold lookup2 in Ht.
  destruct (g !! Z.to_nat r) as [row|]; [|discriminate]. exact Ht.
Qed.

(** X9.  The constructor puts every animal on a cell of the grid that is
    not water, and no predator on the cell of a herbivore: on a grid with at
    least one row and one column, every animal of the ecosystem that
    [Ecosystem.__init__] returns is alive, of the class of its roster and
    within the bounds, its cell is not water, and the cell of a predator is
    the cell of no herbivore.  (Two herbivores, or two predators, may share
    a cell: the roster that [is_tile_occupied] reads is assigned when the
    list comprehension has ended.) *)
Theorem constructor_places_animals (fuel : nat) (next_id nrows ncols : Z)
    (hc pc : nat) (g : Rng) (e : Ecosystem) :
  0 < nrows -> 0 < ncols ->
  fst (Ecosystem_init fuel next_id nrows ncols hc pc g) = Some e ->
  rows e = nrows /\ cols e = ncols /\ placed e.
Proof.
  intros Hr Hc Hi.
  apply (Ecosystem_init_placed fuel next_id nrows ncols hc pc Hr Hc g e Hi).
Qed.

Lemma constructor_places_animals_witness :
  rows lone_predator_world = 1 /\ cols lone_predator_world = 1 /\
  placed lone_predator_world.
Proof.
  apply (constructor_places_animals 1 0 1 1 0 1
           (scripted [0; 4503599627370496]%N) lone_predator_world);
    [lia | lia | exact lone_predator_built].
Defined.

(** X10.  Animals never leave the grid, so the indexing [grid[row][col]] of
    feeding, [defecate] and [urinate] never fails.  In every state that a
    run reaches on a grid with at least one row and one column, every
    animal of the rosters stands within the bounds of the grid, and
    [grid[row][col]] at its position is a cell of the grid. *)
Theorem animals_stay_on_grid (sin_deg : Z -> Q) (e : Ecosystem) :
  reachable sin_deg e -> 0 < rows e -> 0 < cols e ->
  Forall (fun a => on_grid (rows e) (cols e) a /\
                   py_cell (grid e) (row a) (col a)
                   = Some (cell (grid e) (row a) (col a)))
         (herbivores e ++ predators e).
Proof.
  intros Hr HR HC.
  destruct (reachable_settled sin_deg e Hr HR HC) as [Hh Hp].
  destruct (reachable_hydro sin_deg e Hr) as [Hs _].
  apply Forall_app. split.
  - eapply Forall_impl; [exact Hh|]. intros a [_ Ha].
    split; [exact Ha|]. apply (py_cell_on_grid (rows e) (cols e)); assumption.
  - eapply Forall_impl; [exact Hp|]. intros a [_ Ha].
    split; [exact Ha|]. apply (py_cell_on_grid (rows e) (cols e)); assumption.
Qed.

Lemma animals_stay_on_grid_witness :
  Forall (fun a => on_grid (rows tiny_world) (cols tiny_world) a /\
                   py_cell (grid tiny_world) (row a) (col a)
                   = Some (cell (grid tiny_world) (row a) (col a)))
         (herbivores tiny_world ++ predators tiny_world).
Proof.
  apply (animals_stay_on_grid sin_deg_0 tiny_world);
    [exact tiny_world_reachable | reflexivity | reflexivity].
Defined.

(** ** The shore *)

Lemma generate_shorelines_fold nrows ncols g :
  _generate_shorelines nrows ncols g
  = fold_left (shoreline_step nrows ncols) (scan nrows ncols) g.
Proof. reflexivity. Qed.

Lemma shoreline_step_cell nrows ncols g p r c :
  cell (shoreline_step nrows ncols g p) r c = cell g r c \/
  (passable g (r, c) = true /\
   terrain_type (cell (shoreline_step nrows ncols g p) r c) = sand).
Proof.
  unfold shoreline_step.
  destruct (passable g p) eqn:Hp; cbn [andb]; [|left; reflexivity].
  destruct (is_adjacent_to_water _ _ _ _ _); [|left; reflexivity].
  destruct (cell_set_cell_cases g (fst p) (snd p) r c
              (Terrain_new2 sand (elevation (cell g (fst p) (snd p)))))
    as [[H1 H2]|H]; [right | left; exact H].
  split; [|rewrite H1; reflexivity].
  unfold passable in *. cbn [fst snd]. rewrite H2. exact Hp.
Qed.

Lemma passable_not_water g p : passable g p = true -> is_water_at g p = false.
Proof.
  unfold passable, is_water_at, is_water.
  destruct (terrain_type _); try discriminate; reflexivity.
Qed.

Lemma shoreline_step_water nrows ncols g p q :
  is_water_at (shoreline_step nrows ncols g p) q = is_water_at g q.
Proof.
  destruct q as [r c].
  destruct (shoreline_step_cell nrows ncols g p r c) as [H|[Hp Hs]].
  - unfold is_water_at. cbn [fst snd]. rewrite H. reflexivity.
  - rewrite (passable_not_water g (r, c) Hp).
    unfold is_water_at, is_water. cbn [fst snd]. rewrite Hs. reflexivity.
Qed.

Lemma shoreline_step_passable nrows ncols g p q :
  passable (shoreline_step nrows ncols g p) q = true -> passable g q = true.
Proof.
  destruct q as [r c].
  destruct (shoreline_step_cell nrows ncols g p r c) as [H|[Hp Hs]].
  - unfold passable. cbn [fst snd]. rewrite H. auto.
  - intros _. exact Hp.
Qed.

Lemma adjacent_water_ext nrows ncols g1 g2 r c :
  (forall q, is_water_at g1 q = is_water_at g2 q) ->
  is_adjacent_to_water nrows ncols g1 r c
  = is_adjacent_to_water nrows ncols g2 r c.
Proof.
  intros H. unfold is_adjacent_to_water.
  induction (List.filter (in_bounds nrows ncols) (ring8 r c)) as [|q l IH];
    simpl; [reflexivity|].
  rewrite H, IH. reflexivity.
Qed.

Lemma shoreline_step_inland nrows ncols g p q :
  inland nrows ncols g q -> inland nrows ncols (shoreline_step nrows ncols g p) q.
Proof.
  intros Hq Hp. apply shoreline_step_passable in Hp.
  rewrite (adjacent_water_ext nrows ncols _ g).
  - apply Hq. exact Hp.
  - apply shoreline_step_water.
Qed.

Lemma cell_set_cell_same nrows ncols (g : Grid) (p : Z * Z) (t : Terrain) :
  shaped nrows ncols g -> in_bounds nrows ncols p = true ->
  cell (set_cell g (fst p) (snd p) t) (fst p) (snd p) = t.
Proof.
  intros Hs Hb. destruct (lookup2_in_bounds nrows ncols g p Hs Hb) as [t0 Ht0].
  apply cell_lookup2. rewrite lookup2_set_cell.
  rewrite decide_True by (split; reflexivity). rewrite Ht0. reflexivity.
Qed.

Lemma shoreline_step_self nrows ncols g p :
  shaped nrows ncols g -> in_bounds nrows ncols p = true ->
  inland nrows ncols (shoreline_step nrows ncols g p) p.
Proof.
  intros Hs Hb. unfold inland, shoreline_step.
  destruct (passable g p) eqn:Hp; cbn [andb].
  - destruct (is_adjacent_to_water nrows ncols g (fst p) (snd p)) eqn:Ha.
    + unfold passable at 1.
      rewrite (cell_set_cell_same nrows ncols g p _ Hs Hb). discriminate.
    + intros _. exact Ha.
  - rewrite Hp. discriminate.
Qed.

Lemma shoreline_step_shaped nrows ncols g p :
  shaped nrows ncols g -> shaped nrows ncols (shoreline_step nrows ncols g p).
Proof.
  intros Hs. unfold shoreline_step. destruct (_ && _); [|exact Hs].
  apply shaped_set_cell. exact Hs.
Qed.

Lemma shoreline_fold nrows ncols (todo : list (Z * Z)) :
  forall (g : Grid) (D : Z * Z -> Prop),
    shaped nrows ncols g ->
    (forall p, D p -> in_bounds nrows ncols p = true -> inland nrows ncols g p) ->
    forall p, D p \/ In p todo -> in_bounds nrows ncols p = true ->
      inland nrows ncols (fold_left (shoreline_step nrows ncols) todo g) p.
Proof.
  induction todo as [|q todo IH]; intros g D Hs HD p Hp Hb; cbn [fold_left].
  - destruct Hp as [Hp|[]]. apply HD; assumption.
  - apply (IH (shoreline_step nrows ncols g q) (fun p => D p \/ p = q)).
    + apply shoreline_step_shaped. exact Hs.
    + intros p' [Hp'| ->] Hb'.
      * apply shoreline_step_inland. apply HD; assumption.
      * apply shoreline_step_self; assumption.
    + destruct Hp as [Hp|[Hp|Hp]]; [left; left; exact Hp
                                    | left; right; symmetry; exact Hp
                                    | right; exact Hp].
    + exact Hb.
Qed.

Lemma scan_complete nrows ncols (p : Z * Z) :
  in_bounds nrows ncols p = true -> In p (scan nrows ncols).
Proof.
  unfold in_bounds. rewrite !andb_true_iff, !Z.leb_le, !Z.ltb_lt.
  intros [[[H1 H2] H3] H4]. unfold scan, range. apply in_flat_map.
  exists (fst p). split.
  - apply list_elem_of_In, elem_of_seqZ. lia.
  - apply in_map_iff. exists (snd p). split; [destruct p; reflexivity|].
    apply list_elem_of_In, elem_of_seqZ. lia.
Qed.

Lemma generate_shorelines_shore nrows ncols g :
  shaped nrows ncols g -> shore_ok nrows ncols (_generate_shorelines nrows ncols g).
Proof.
  intros Hs p Hb. rewrite generate_shorelines_fold.
  apply (shoreline_fold nrows ncols (scan nrows ncols) g (fun _ => False)).
  - exact Hs.
  - intros q [].
  - right. apply scan_complete. exact Hb.
  - exact Hb.
Qed.

Lemma existsb_filter {A} (f h : A -> bool) (l : list A) :
  existsb f (List.filter h l) = existsb (fun x => h x && f x) l.
Proof.
  induction l as [|x l IH]; simpl; [reflexivity|].
  destruct (h x); simpl; rewrite IH; reflexivity.
Qed.

(** The four neighbours that [handle_drinking] reads are among the eight
    that [_generate_shorelines] reads. *)
Lemma orthogonal_among_eight nrows ncols g r c :
  is_adjacent_to_water nrows ncols g r c = false ->
  _is_adjacent_to_water nrows ncols g r c = false.
Proof.
  unfold is_adjacent_to_water, _is_adjacent_to_water.
  rewrite existsb_filter. unfold ring8, cross4. cbn [flat_map map app existsb
    Z.eqb andb fst snd].
  rewrite !orb_false_iff. intros H. decompose [and] H. clear H.
  repeat split; assumption.
Qed.

Lemma refine_shore nrows ncols g :
  wet nrows ncols g ->
  post (refine_water_bodies_and_create_shorelines nrows ncols g)
    (fun g' => wet nrows ncols g' /\ shore_ok nrows ncols g').
Proof.
  intros H. unfold refine_water_bodies_and_create_shorelines.
  eapply post_bind.
  - apply (post_foldM _ (wet nrows ncols)); [|exact H].
    intros g' p Hg'. destruct (_ && _); [|apply post_ret; exact Hg'].
    eapply post_bind; [apply post_any|]. intros u _. apply post_ret.
    apply wet_set_cell; [exact Hg'|].
    destruct (Qltb _ _); apply cell_ok_dry; discriminate.
  - intros g1 H1. apply post_ret.
    split; [apply generate_shorelines_wet; exact H1|].
    apply generate_shorelines_shore. apply H1.
Qed.

Lemma smooth_terrain_shore nrows ncols g :
  wet nrows ncols g ->
  post (_smooth_terrain nrows ncols g)
    (fun g' => wet nrows ncols g' /\ shore_ok nrows ncols g').
Proof.
  intros H. unfold _smooth_terrain. apply refine_shore.
  repeat apply smooth_wet. exact H.
Qed.

Lemma Ecosystem_init_shore fuel next_id nrows ncols hc pc :
  post (Ecosystem_init fuel next_id nrows ncols hc pc)
    (when_some (fun e => shore_ok (rows e) (cols e) (grid e))).
Proof.
  unfold Ecosystem_init.
  eapply post_bind; [apply generate_terrain_wet|]. intros g1 H1.
  eapply post_bind; [apply smooth_terrain_shore; exact H1|]. intros g2 [_ H2].
  unfold _initialize_animals.
  eapply post_bind; [apply post_any|].
  intros [hs|] _; [|apply post_ret; intros e' [=]].
  eapply post_bind; [apply post_any|].
  intros [ps|] _; apply post_ret; [|intros e' [=]].
  intros e' [= <-]. exact H2.
Qed.

(** X11.  The terrain that the constructor builds has no land and no
    vegetation beside water: [_generate_shorelines], the last step of
    [_smooth_terrain], turns every such cell into sand, so that in the
    ecosystem that [Ecosystem.__init__] returns no cell of land or
    vegetation has water among its eight neighbours, and an animal on such a
    cell does not drink: [handle_drinking] leaves it as it is. *)
Theorem no_land_beside_water (fuel : nat) (next_id nrows ncols : Z)
    (hc pc : nat) (g : Rng) (e : Ecosystem) :
  fst (Ecosystem_init fuel next_id nrows ncols hc pc g) = Some e ->
  shore_ok (rows e) (cols e) (grid e) /\
  forall a, on_grid (rows e) (cols e) a -> passable (grid e) (position a) = true ->
    handle_drinking e a = a.
Proof.
  intros Hi.
  pose proof (Ecosystem_init_shore fuel next_id nrows ncols hc pc g e Hi) as Hs.
  split; [exact Hs|]. intros a Ha Hp. unfold handle_drinking.
  pose proof (orthogonal_among_eight _ _ _ _ _ (Hs (position a) Ha Hp)) as H.
  unfold position in H. cbn [fst snd] in H.
  rewrite H, andb_false_r. reflexivity.
Qed.

Lemma no_land_beside_water_witness :
  shore_ok (rows pond_world) (cols pond_world) (grid pond_world).
Proof.
  apply (no_land_beside_water 5 0 2 5 1 1
           (scripted [0; 0; 0; 0; 0; 4503599627370496; 0; 4503599627370496;
                      0; 4503599627370496;
                      0; 0; 0; 0; 0; 4503599627370496; 0; 4503599627370496;
                      0; 4503599627370496;
                      0; 3; 0; 0; 0; 0; 0; 0; 0; 0; 0; 0; 0; 0; 0; 0; 0; 0; 0;
                      0; 1; 4]%N) pond_world).
  exact pond_world_built.
Defined.

(** ** Temperature *)

Lemma season_modifier_range s :
  s ∈ seasons -> (-5 <= temperature_modifier s <= 10)%Q.
Proof.
  unfold seasons. intros H.
  repeat (apply elem_of_cons in H; destruct H as [->|H];
          [cbn; split; discriminate|]).
  apply elem_of_nil in H. destruct H.
Qed.

(** After [_adjust_temperature] the temperature is at most 30, so that
    [_handle_extreme_heat], which asks for 100, does nothing. *)
Lemma update_environment_mild sin_deg e :
  bounded_sine sin_deg -> manual_temperature_control e = false ->
  post (update_environment sin_deg e)
    (fun e' => mild e' /\
               (precipitation_level e <= 0 -> grid e' = grid e)).
Proof.
  intros Hsin Hm. unfold update_environment. cbv zeta.
  pose proof (Hsin (cycle e)) as [Hlo Hhi].
  eapply post_bind with
    (P := fun e2 => manual_temperature_control e2 = false /\
                    (ambient_temperature e2 == 10 * sin_deg (cycle e) + 20)%Q /\
                    (precipitation_level e <= 0 -> grid e2 = grid e)).
  - unfold _precipitate, _adjust_temperature. rewrite Hm. cbn [negb].
    eapply post_bind; [apply (random_randint_range 0 100); lia|].
    intros k Hk. cbv beta in Hk.
    cbn [precipitation_level set_ambient_temperature].
    destruct (Z.ltb_spec k (precipitation_level e)); apply post_ret;
      (split; [exact Hm|]); (split; [reflexivity|]); intros Hp;
      [lia | reflexivity].
  - intros e2 (M2 & A2 & G2). apply post_ret.
    assert (H3 : _handle_extreme_heat e2 = e2).
    { unfold _handle_extreme_heat.
      replace (Qle_bool 100 (ambient_temperature e2)) with false; [reflexivity|].
      symmetry. apply Qle_bool_false. rewrite A2. lra. }
    rewrite H3. unfold _update_season_cycle. cbv zeta.
    destruct (_ <=? _).
    + unfold _change_season. cbv zeta.
      destruct (seasons !! _) as [s|] eqn:Es.
      * apply list_elem_of_lookup_2, season_modifier_range in Es.
        unfold mild, apply_seasonal_effects.
        cbn [manual_temperature_control ambient_temperature grid set_predators
             set_plants set_ambient_temperature set_season].
        split; [split; [exact M2|rewrite A2; lra] | exact G2].
      * unfold mild. cbn [manual_temperature_control ambient_temperature grid
                          set_season].
        split; [split; [exact M2|rewrite A2; lra] | exact G2].
    + unfold mild. cbn [manual_temperature_control ambient_temperature grid
                        set_season].
      split; [split; [exact M2|rewrite A2; lra] | exact G2].
Qed.

(** ** Predicates on the attributes that a turn leaves alone *)

Section CorePasses.

Variables PH PP : Animal -> Prop.
Hypothesis PH_sound : forall a, PH a -> sound Herbivore a.
Hypothesis PH_core : forall a a', core a' = core a -> PH a -> PH a'.
Hypothesis PP_core : forall a a', core a' = core a -> PP a -> PP a'.
Hypothesis PH_vital : forall a,
  PH a -> is_dead (handle_vital_stats a) = false -> PH (handle_vital_stats a).
Hypothesis PP_vital : forall a,
  PP a -> is_dead (handle_vital_stats a) = false -> PP (handle_vital_stats a).

Lemma update_herbivores_core e :
  Forall PH (herbivores e) ->
  post (update_herbivores e)
    (fun e' => (surroundings e' = surroundings e /\
                predators e' = predators e) /\
               Forall PH (herbivores e')).
Proof.
  intros He.
  eapply post_weaken.
  - apply (update_herbivores_rule
             (fun e' => surroundings e' = surroundings e /\
                        predators e' = predators e) PH PH).
    + intros e1 l H. exact H.
    + intros h Hh. destruct (PH_sound h Hh) as (H1 & H2 & _). split; assumption.
    + intros e1 h [HS HP] Hh Hd.
      pose proof (PH_vital h Hh Hd) as Hh1.
      eapply post_weaken.
      * apply post_and; [apply herbivore_turn_core|].
        apply post_and; [apply herbivore_turn_rosters; apply (PH_sound _ Hh1)|].
        apply herbivore_turn_surroundings.
      * intros [[h' e'] new'] (Hc & (_ & Hp & _) & Hsur). cbn [fst snd] in *.
        split; [eapply PH_core; eassumption|]. split; congruence.
    + split; reflexivity.
    + exact He.
  - intros e' (HI & HQ & _). split; assumption.
Qed.

Lemma update_predators_core e :
  Forall PH (herbivores e) -> Forall PP (predators e) ->
  post (update_predators e)
    (fun e' => (surroundings e' = surroundings e /\
                Forall PH (herbivores e')) /\
               Forall PP (predators e')).
Proof.
  intros Hh Hp.
  apply (update_predators_rule
           (fun e' => surroundings e' = surroundings e /\
                      Forall PH (herbivores e')) PP PP).
  - intros e1 l H. exact H.
  - intros e1 p [HS HH] Hq Hd.
    pose proof (PP_vital p Hq Hd) as Hq1.
    eapply post_weaken.
    + apply post_and; [apply predator_turn_core|].
      apply post_and; [apply predator_turn_surroundings|].
      apply (predator_turn_prey PH (length (herbivores e1))); [exact HH | lia].
    + intros [p' e'] (Hc & Hsur & [HH' _]). cbn [fst snd] in *.
      split; [eapply PP_core; eassumption|].
      split; [congruence | exact HH'].
  - split; [reflexivity | exact Hh].
  - exact Hp.
Qed.

End CorePasses.

Lemma cool_core a a' : core a' = core a -> cool a -> cool a'.
Proof. unfold core, cool. intros [= _ _ _ _ _ Hb _ _ _] H. rewrite Hb. exact H. Qed.

Lemma cool_vital_stats a :
  cool a -> is_dead (handle_vital_stats a) = false -> cool (handle_vital_stats a).
Proof.
  intros Ha Hd.
  destruct (handle_vital_stats_alive a Hd)
    as (_ & _ & _ & _ & _ & _ & _ & _ & _ & _ & Hb & _).
  unfold cool. rewrite Hb. exact Ha.
Qed.

Lemma cool_warm (amb : Q) a :
  (amb <= 40)%Q -> cool a ->
  cool (set_body_temperature
          (body_temperature a + (amb - body_temperature a) * (1 # 100))%Q a).
Proof.
  unfold cool. cbn [body_temperature set_body_temperature]. intros Hamb Ha. lra.
Qed.

Lemma update_cool sin_deg e :
  bounded_sine sin_deg -> manual_temperature_control e = false ->
  Forall (fun a => sound Herbivore a /\ cool a) (herbivores e) ->
  Forall (fun a => sound Predator a /\ cool a) (predators e) ->
  post (update sin_deg e)
    (fun e' => mild e' /\
               Forall (fun a => sound Herbivore a /\ cool a) (herbivores e') /\
               Forall (fun a => sound Predator a /\ cool a) (predators e')).
Proof.
  intros Hsin Hm Hh Hp. unfold update.
  assert (SH : forall sp a, (sound sp a /\ cool a) -> sound sp a)
    by (intros sp a H; apply H).
  assert (CH : forall sp a a', core a' = core a ->
                 (sound sp a /\ cool a) -> (sound sp a' /\ cool a')).
  { intros sp a a' Hc [H1 H2].
    split; [eapply sound_core | eapply cool_core]; eassumption. }
  assert (VH : forall sp a, (sound sp a /\ cool a) ->
                 is_dead (handle_vital_stats a) = false ->
                 (sound sp (handle_vital_stats a) /\ cool (handle_vital_stats a))).
  { intros sp a [H1 H2] Hd.
    split; [apply sound_vital_stats | apply cool_vital_stats]; assumption. }
  eapply post_bind.
  { apply post_and; [apply update_environment_mild; assumption|].
    apply (update_environment_rosters_kept
             (fun a => sound Predator a /\ cool a)); [|exact Hp].
    intros p q H. exact H. }
  intros e1 [[M1 _] [P1 H1]].
  eapply post_bind.
  { apply (update_herbivores_core (fun a => sound Herbivore a /\ cool a)
             (SH Herbivore) (CH Herbivore) (VH Herbivore)).
    rewrite H1. exact Hh. }
  intros e2 [[S2 P2] H2].
  eapply post_bind.
  { apply (update_predators_core (fun a => sound Herbivore a /\ cool a)
             (fun a => sound Predator a /\ cool a) (CH Predator) (VH Predator));
      [exact H2 | rewrite P2; exact P1]. }
  intros e3 [[S3 H3] P3].
  eapply post_bind.
  { apply post_and; [apply grow_plants_rosters_kept | apply grow_plants_climate]. }
  intros e4 [[H4 P4] K4]. apply post_ret. cbv zeta.
  assert (M4 : mild e4).
  { unfold mild in *.
    change (manual_temperature_control (climate e4) = false /\
            (5 <= ambient_temperature (climate e4) <= 40)%Q).
    rewrite K4. apply climate_surroundings in S3. rewrite S3.
    apply climate_surroundings in S2. rewrite S2. exact M1. }
  split; [exact M4|].
  cbn [herbivores predators set_cycle update_population_data set_population_data
       _update_animal_body_temperature_and_plant_nutrition update_plants
       set_plants set_predators set_herbivores ambient_temperature].
  rewrite H4, P4. destruct M4 as [_ [_ A4]].
  split.
  - clear -H3 A4. induction H3 as [|a l [Ha Hb] _ IH]; simpl; constructor.
    + split; [exact Ha | apply cool_warm; assumption].
    + exact IH.
  - clear -P3 A4. induction P3 as [|a l [Ha Hb] _ IH]; simpl; constructor.
    + split; [exact Ha | apply cool_warm; assumption].
    + exact IH.
Qed.

Section InitRosters.
Variables Ph Pp : Animal -> Prop.
Hypothesis init_Ph : forall i r c spd sx, post (Herbivore_init i r c spd sx) Ph.
Hypothesis init_Pp : forall i r c spd sx, post (Predator_init i r c spd sx) Pp.

Lemma Ecosystem_init_rosters_of fuel next_id nrows ncols hc pc :
  post (Ecosystem_init fuel next_id nrows ncols hc pc)
    (when_some (fun e => rosters Ph Pp e /\ manual_temperature_control e = false /\
                         ambient_temperature e = 20%Q /\
                         precipitation_level e = 0)).
Proof.
  unfold Ecosystem_init.
  eapply post_bind; [apply post_any|]. intros g1 _.
  eapply post_bind; [apply post_any|]. intros g2 _.
  unfold _initialize_animals.
  eapply post_bind; [apply (spawn_list_post Herbivore_init Ph init_Ph)|].
  intros [hs|] Hhs; [|apply post_ret; intros e' [=]].
  eapply post_bind; [apply (spawn_list_post Predator_init Pp init_Pp)|].
  intros [ps|] Hps; apply post_ret; [|intros e' [=]].
  intros e' [= <-]. split; [|repeat split].
  split; [apply Hhs | apply Hps]; reflexivity.
Qed.

Lemma initialize_ecosystem_rosters_of fuel e :
  rosters Ph Pp e ->
  post (initialize_ecosystem fuel e)
    (when_some (fun e' => rosters Ph Pp e' /\ weather e' = weather e)).
Proof.
  intros He. unfold initialize_ecosystem.
  set (J := fun e' : Ecosystem => rosters Ph Pp e' /\ weather e' = weather e).
  eapply post_bind.
  - apply (spawn_append_post Herbivore_init Ph init_Ph _ J);
      [|split; [exact He | reflexivity]].
    intros a e0 v Ha [[Hh Hp] Hc]. split; [|exact Hc].
    split; [|exact Hp]. cbn [herbivores set_animal_id_counter set_herbivores].
    apply Forall_app. split; [exact Hh|]. constructor; [exact Ha | constructor].
  - intros [e1|] H1; [|apply post_ret; intros e' [=]].
    eapply post_bind.
    + apply (spawn_append_post Predator_init Pp init_Pp _ J);
        [|apply H1; reflexivity].
      intros a e0 v Ha [[Hh Hp] Hc]. split; [|exact Hc].
      split; [exact Hh|]. cbn [predators set_animal_id_counter set_predators].
      apply Forall_app. split; [exact Hp|]. constructor; [exact Ha | constructor].
    + intros [e2|] H2; [|apply post_ret; intros e' [=]].
      apply (plant_append_post J); [|apply H2; reflexivity].
      intros e0 r c H0. exact H0.
Qed.
End InitRosters.

Lemma Animal_init_temperature next_id r c spd sx sp :
  post (Animal_init next_id r c spd sx sp) (fun a => body_temperature a = 37%Q).
Proof.
  unfold Animal_init.
  repeat (eapply post_bind; [apply post_any | intros ? _]).
  apply post_ret. reflexivity.
Qed.

Lemma Herbivore_init_cool next_id r c spd sx :
  post (Herbivore_init next_id r c spd sx)
    (fun a => sound Herbivore a /\ cool a).
Proof.
  apply post_and.
  - eapply post_weaken; [apply Herbivore_init_fresh | apply fresh_sound].
  - unfold Herbivore_init.
    eapply post_bind; [apply Animal_init_temperature|]. intros a Ha.
    eapply post_bind; [apply post_any|]. intros n _. apply post_ret.
    unfold cool. cbn [body_temperature]. rewrite Ha. discriminate.
Qed.

Lemma Predator_init_cool next_id r c spd sx :
  post (Predator_init next_id r c spd sx)
    (fun a => sound Predator a /\ cool a).
Proof.
  apply post_and.
  - eapply post_weaken; [apply Predator_init_fresh | apply fresh_sound].
  - unfold Predator_init.
    eapply post_bind; [apply Animal_init_temperature|]. intros a Ha. cbv zeta.
    eapply post_bind; [apply post_any|]. intros n _. apply post_ret.
    unfold cool. cbn [body_temperature]. rewrite Ha. discriminate.
Qed.

Lemma reachable_cool sin_deg e :
  bounded_sine sin_deg -> reachable sin_deg e ->
  mild e /\
  rosters (fun a => sound Herbivore a /\ cool a)
          (fun a => sound Predator a /\ cool a) e.
Proof.
  intros Hsin Hr. induction Hr as
    [fuel next_id nrows ncols hc pc g e Hi
    |fuel e g e' Hr IH Hi | e level Hr IH | e g Hr IH].
  - destruct (Ecosystem_init_rosters_of _ _ Herbivore_init_cool Predator_init_cool
                fuel next_id nrows ncols hc pc g e Hi) as (H1 & H2 & H3 & _).
    split; [|exact H1]. split; [exact H2|]. rewrite H3. split; discriminate.
  - destruct IH as [[M A] R].
    destruct (initialize_ecosystem_rosters_of _ _ Herbivore_init_cool
                Predator_init_cool fuel e R g e' Hi) as [H1 H2].
    split; [|exact H1]. unfold weather in H2. injection H2 as E1 E2 _.
    unfold mild. rewrite E1, E2. split; assumption.
  - exact IH.
  - destruct IH as [[M A] [Hh Hp]].
    destruct (update_cool sin_deg e Hsin M Hh Hp g) as (H1 & H2 & H3).
    split; [exact H1 | split; assumption].
Qed.

(** X12.  Without manual control the temperature stays mild, and nothing
    follows from heat.  For a sine within [-1, 1], in every state that a run
    reaches manual control is off and the ambient temperature is between 5
    and 40; [_adjust_temperature] leaves at most 30, so that
    [_handle_extreme_heat], which asks for 100, never turns water into land;
    and the body temperature of every animal of the rosters is at most 40,
    below the 42 at which an animal dies of hyperthermia. *)
Theorem temperature_stays_mild (sin_deg : Z -> Q) (e : Ecosystem) :
  bounded_sine sin_deg -> reachable sin_deg e ->
  mild e /\
  _handle_extreme_heat (_adjust_temperature sin_deg e)
  = _adjust_temperature sin_deg e /\
  Forall cool (herbivores e ++ predators e).
Proof.
  intros Hsin Hr. destruct (reachable_cool sin_deg e Hsin Hr) as [M [Hh Hp]].
  split; [exact M|]. split.
  - destruct M as [M _]. unfold _adjust_temperature, _handle_extreme_heat.
    rewrite M. cbn [negb ambient_temperature set_ambient_temperature].
    pose proof (Hsin (cycle e)) as [Hlo Hhi].
    replace (Qle_bool 100 (10 * sin_deg (cycle e) + 20)) with false;
      [reflexivity|].
    symmetry. apply Qle_bool_false. lra.
  - apply Forall_app. split.
    + eapply Forall_impl; [exact Hh|]. intros a [_ Ha]. exact Ha.
    + eapply Forall_impl; [exact Hp|]. intros a [_ Ha]. exact Ha.
Qed.

Lemma bounded_sine_0 : bounded_sine sin_deg_0.
Proof. intros c. unfold sin_deg_0. split; discriminate. Qed.

Lemma temperature_stays_mild_witness : mild tiny_world.
Proof.
  apply (temperature_stays_mild sin_deg_0 tiny_world);
    [exact bounded_sine_0 | exact tiny_world_reachable].
Defined.

(** ** Terrain that stays of its kind *)

Lemma passable_ground g p :
  passable g p = TerrainType_eqb (ground (cell g (fst p) (snd p))) land.
Proof. unfold passable, ground. destruct (terrain_type _); reflexivity. Qed.

Lemma is_water_ground g p :
  is_water_at g p = TerrainType_eqb (ground (cell g (fst p) (snd p))) water.
Proof.
  unfold is_water_at, is_water, ground. destruct (terrain_type _); reflexivity.
Qed.

Lemma same_terrain_refl g : same_terrain g g.
Proof. intros r c. reflexivity. Qed.

Lemma same_terrain_trans g1 g2 g3 :
  same_terrain g1 g2 -> same_terrain g2 g3 -> same_terrain g1 g3.
Proof. intros H12 H23 r c. rewrite H23. apply H12. Qed.

Lemma same_terrain_passable g g' p :
  same_terrain g g' -> passable g' p = passable g p.
Proof. intros H. rewrite !passable_ground, H. reflexivity. Qed.

Lemma same_terrain_water g g' p :
  same_terrain g g' -> is_water_at g' p = is_water_at g p.
Proof. intros H. rewrite !is_water_ground, H. reflexivity. Qed.

Lemma same_terrain_shore nrows ncols g g' :
  same_terrain g g' -> shore_ok nrows ncols g -> shore_ok nrows ncols g'.
Proof.
  intros H Hs p Hb Hp. rewrite (same_terrain_passable g g' p H) in Hp.
  rewrite (adjacent_water_ext nrows ncols g' g).
  - apply Hs; assumption.
  - intros q. apply same_terrain_water. exact H.
Qed.

Lemma same_terrain_privation g g' a :
  same_terrain g g' -> privation g' a = privation g a.
Proof.
  intros H. unfold privation. rewrite (same_terrain_passable g g' _ H).
  reflexivity.
Qed.

Lemma set_cell_same_terrain g r c t :
  ground t = ground (cell g r c) -> same_terrain g (set_cell g r c t).
Proof.
  intros Ht r' c'.
  destruct (cell_set_cell_cases g r c r' c' t) as [[H1 H2]|H].
  - rewrite H1, H2. exact Ht.
  - rewrite H. reflexivity.
Qed.

Lemma cell_py_set_cell_cases (g : Grid) (r c r' c' : Z) (t t0 : Terrain) :
  py_cell g r c = Some t0 ->
  (cell (py_set_cell g r c t) r' c' = t /\ cell g r' c' = t0) \/
  cell (py_set_cell g r c t) r' c' = cell g r' c'.
Proof.
  unfold py_cell, py_set_cell.
  destruct (py_index g r) as [row|] eqn:Hr; [|discriminate]. cbn.
  intros Hc.
  apply py_index_lookup in Hr. destruct Hr as (k & Hk & Hset).
  apply py_index_lookup in Hc. destruct Hc as (k' & Hk' & Hset').
  rewrite Hset, Hset'. unfold cell.
  destruct (decide (Z.to_nat r' = k)) as [->|Hne].
  - rewrite list_lookup_insert_eq by (eapply lookup_lt_Some; exact Hk).
    rewrite Hk. cbn.
    destruct (decide (Z.to_nat c' = k')) as [->|Hne'].
    + left. rewrite list_lookup_insert_eq by (eapply lookup_lt_Some; exact Hk').
      rewrite Hk'. split; reflexivity.
    + right. rewrite list_lookup_insert_ne by congruence. reflexivity.
  - right. rewrite list_lookup_insert_ne by congruence. reflexivity.
Qed.

Lemma py_set_cell_same_terrain g r c t t0 :
  py_cell g r c = Some t0 -> ground t = ground t0 ->
  same_terrain g (py_set_cell g r c t).
Proof.
  intros Hc Ht r' c'.
  destruct (cell_py_set_cell_cases g r c r' c' t t0 Hc) as [[H1 H2]|H].
  - rewrite H1, H2. exact Ht.
  - rewrite H. reflexivity.
Qed.

(** ** The turn of a herbivore, cell by cell *)

Lemma herbivore_turn_hydro e h new :
  hydro_ok e -> post (herbivore_turn e h new) (fun r => hydro_ok (snd (fst r))).
Proof.
  intros He. unfold herbivore_turn.
  eapply post_bind; [apply handle_feeding_hydro; exact He|].
  intros [h3 e3] H3. cbn [snd] in H3.
  eapply post_bind; [apply handle_movement_hydro; exact H3|].
  intros [h5 e5] H5. cbn [snd] in H5.
  destruct (handle_reproduction e5 h5 new) as [h6 new6].
  pose proof (defecate_hydro e5 h6 H5) as H7.
  destruct (defecate e5 h6) as [h7 e7]. cbn [snd] in H7.
  pose proof (urinate_hydro e7 h7 H7) as H8.
  destruct (urinate e7 h7) as [h8 e8]. cbn [snd] in H8.
  apply post_ret. exact H8.
Qed.

(** Eating: on a cell that is not land or vegetation nothing happens; on
    vegetation hunger falls, the cell turns into land. *)
Lemma feed_herbivore_spec e h :
  0 <= hunger h ->
  same_terrain (grid e) (grid (snd (_feed_herbivore e h))) /\
  position (fst (_feed_herbivore e h)) = position h /\
  thirst (fst (_feed_herbivore e h)) = thirst h /\
  0 <= hunger (fst (_feed_herbivore e h)) <= hunger h /\
  (py_cell (grid e) (row h) (col h) = Some (cell (grid e) (row h) (col h)) ->
   passable (grid e) (position h) = false ->
   hunger (fst (_feed_herbivore e h)) = hunger h).
Proof.
  intros Hh. unfold _feed_herbivore.
  destruct (py_cell (grid e) (row h) (col h)) as [t|] eqn:Hc.
  - destruct (terrain_type t) eqn:Ht; cbn [fst snd grid set_grid];
      try (repeat split; try apply same_terrain_refl; try lia; fail).
    split; [|split; [reflexivity|split; [reflexivity|split]]].
    + apply (py_set_cell_same_terrain _ _ _ _ t Hc).
      unfold ground. rewrite Ht. reflexivity.
    + unfold Herbivore_feed, Animal_feed, _increase_colon_fill,
        Plant_initial_nutrition. cbn. lia.
    + intros [= E] Hp. unfold passable, position in Hp. cbn [fst snd] in Hp.
      rewrite <- E, Ht in Hp. discriminate.
  - cbn [fst snd]. repeat split; try apply same_terrain_refl; lia.
Qed.

Lemma handle_drinking_needs e a :
  0 <= thirst a ->
  hunger (handle_drinking e a) = hunger a /\
  0 <= thirst (handle_drinking e a) <= thirst a.
Proof.
  intros Ht. unfold handle_drinking. destruct (_ && _); cbn; lia.
Qed.

Lemma handle_drinking_inland e a :
  shore_ok (rows e) (cols e) (grid e) -> on_grid (rows e) (cols e) a ->
  passable (grid e) (position a) = true -> handle_drinking e a = a.
Proof.
  intros Hs Ha Hp. unfold handle_drinking.
  pose proof (orthogonal_among_eight _ _ _ _ _ (Hs (position a) Ha Hp)) as H.
  unfold position in H. cbn [fst snd] in H.
  rewrite H, andb_false_r. reflexivity.
Qed.

Lemma Animal_move_needs e moves nearby a :
  post (Animal_move e moves nearby a)
    (fun r => hunger (fst r) = hunger a /\ thirst (fst r) = thirst a /\
              grid (snd r) = grid e).
Proof.
  unfold Animal_move. destruct (_ && _); [|apply post_ret; repeat split].
  destruct (truthy _); [|apply post_ret; repeat split].
  eapply post_bind; [apply post_any|]. intros new _. apply post_ret. repeat split.
Qed.

Lemma handle_movement_spec e a :
  post (handle_movement e a)
    (fun r => (hunger (fst r) = hunger a /\ thirst (fst r) = thirst a /\
               grid (snd r) = grid e) /\
              (position (fst r) = position a \/
               passable (grid e) (position (fst r)) = true)).
Proof.
  unfold handle_movement.
  destruct (negb _); [|apply post_ret; repeat split; left; reflexivity].
  eapply post_bind; [apply get_valid_moves_candidates|]. intros moves Hm.
  apply post_and; [apply Animal_move_needs|].
  eapply post_weaken; [apply Animal_move_position|].
  intros r [Hr|[Hr _]]; [left; exact Hr | right].
  apply Hm, candidates_spec in Hr. apply Hr.
Qed.

Lemma reproduce_needs a other :
  hunger (fst (reproduce a other)) = hunger a /\
  thirst (fst (reproduce a other)) = thirst a.
Proof.
  unfold reproduce, Herbivore_reproduce, Animal_reproduce.
  destruct (species a) eqn:Es;
    match goal with |- context [if ?b then _ else _] => destruct b end;
    split; reflexivity.
Qed.

Lemma reproduction_loop_needs others a new :
  hunger (fst (reproduction_loop others a new)) = hunger a /\
  thirst (fst (reproduction_loop others a new)) = thirst a.
Proof.
  revert a. induction others as [|o others IH]; intros a; simpl;
    [split; reflexivity|].
  destruct (_can_reproduce_together a o); [|apply IH].
  pose proof (reproduce_no_child a o) as Hn.
  pose proof (reproduce_needs a o) as [H1 H2].
  destruct (reproduce a o) as [a' child]. simpl in Hn, H1, H2. subst child.
  destruct (IH a') as [H3 H4]. split; congruence.
Qed.

Lemma defecate_same_terrain e a :
  same_terrain (grid e) (grid (snd (defecate e a))).
Proof.
  unfold defecate. cbn [snd].
  destruct (py_cell _ _ _) as [t|] eqn:E; [|apply same_terrain_refl].
  cbn [grid set_grid]. apply (py_set_cell_same_terrain _ _ _ _ t E). reflexivity.
Qed.

Lemma urinate_same_terrain e a :
  same_terrain (grid e) (grid (snd (urinate e a))).
Proof.
  unfold urinate. cbn [snd].
  destruct (py_cell _ _ _) as [t|] eqn:E; [|apply same_terrain_refl].
  cbn [grid set_grid]. apply (py_set_cell_same_terrain _ _ _ _ t E). reflexivity.
Qed.

Lemma feed_herbivore_frame e h :
  hydro_ok e ->
  surroundings (snd (_feed_herbivore e h)) = surroundings e /\
  hydro_ok (snd (_feed_herbivore e h)).
Proof.
  intros He. unfold _feed_herbivore.
  destruct (py_cell _ _ _) as [t|]; [|split; [reflexivity | exact He]].
  destruct (terrain_type t); cbn [snd]; try (split; [reflexivity | exact He]).
  split; [reflexivity|].
  apply hydro_py_set_cell; [exact He | apply cell_ok_dry; discriminate].
Qed.

Lemma privation_unfold g a :
  privation g a = if passable g (position a) then 100 + thirst a else hunger a.
Proof. reflexivity. Qed.

Lemma post_bind_ret {A B} (x : A) (k : A -> Rand B) (P : B -> Prop) :
  post (k x) P -> post (bind (ret x) k) P.
Proof. intros H g. exact (H g). Qed.

(** A turn does not lower the privation of a herbivore: on land or
    vegetation it cannot drink and moves to land or vegetation, on any other
    cell it cannot eat. *)
Lemma herbivore_turn_privation e h new :
  hydro_ok e -> shore_ok (rows e) (cols e) (grid e) ->
  on_grid (rows e) (cols e) h -> species h = Herbivore -> is_dead h = false ->
  in_need h ->
  post (herbivore_turn e h new)
    (fun r => same_terrain (grid e) (grid (snd (fst r))) /\
              in_need (fst (fst r)) /\
              privation (grid e) h <= privation (grid e) (fst (fst r))).
Proof.
  intros He Hshore Hon Hsp Hd [[Hh0 Hh1] [Ht0 Ht1]].
  unfold herbivore_turn, handle_feeding. rewrite Hd, Hsp. cbn [negb].
  destruct (feed_herbivore_spec e h Hh0) as (F1 & F2 & F3 & F4 & F5).
  destruct (feed_herbivore_frame e h He) as [F6 F7].
  destruct (surroundings_size _ _ F6) as [R3 C3].
  assert (Hcell : py_cell (grid e) (row h) (col h)
                  = Some (cell (grid e) (row h) (col h))).
  { apply (py_cell_on_grid (rows e) (cols e)); [apply He | exact Hon]. }
  specialize (F5 Hcell).
  apply post_bind_ret.
  destruct (_feed_herbivore e h) as [h3 e3]. cbn [fst snd] in *.
  assert (Hshore3 : shore_ok (rows e3) (cols e3) (grid e3)).
  { rewrite R3, C3. apply (same_terrain_shore _ _ (grid e)); assumption. }
  assert (Hon3 : on_grid (rows e3) (cols e3) h3).
  { unfold on_grid. rewrite F2, R3, C3. exact Hon. }
  assert (Ht3 : 0 <= thirst h3) by lia.
  destruct (handle_drinking_needs e3 h3 Ht3) as [D1 D2].
  pose proof (handle_drinking_position e3 h3) as D3.
  assert (D4 : passable (grid e) (position h) = true ->
               thirst (handle_drinking e3 h3) = thirst h).
  { intros Hp. rewrite handle_drinking_inland; [exact F3 | exact Hshore3
      | exact Hon3|].
    rewrite (same_terrain_passable _ _ _ F1), F2. exact Hp. }
  revert D1 D2 D3 D4. generalize (handle_drinking e3 h3). intros h4 D1 D2 D3 D4.
  eapply post_bind; [apply handle_movement_spec|].
  intros [h5 e5] [(M1 & M2 & M3) M4]. cbn [fst snd] in *.
  pose proof (reproduction_loop_needs (_get_same_species e5 h5) h5 new)
    as [P1 P2].
  pose proof (reproduction_loop_position (_get_same_species e5 h5) h5 new) as P3.
  change (reproduction_loop (_get_same_species e5 h5) h5 new)
    with (handle_reproduction e5 h5 new) in P1, P2, P3.
  destruct (handle_reproduction e5 h5 new) as [h6 new6]. cbn [fst] in P1, P2, P3.
  pose proof (defecate_same_terrain e5 h6) as T7.
  assert (A7 : fst (defecate e5 h6) = set_colon 0 h6) by reflexivity.
  destruct (defecate e5 h6) as [h7 e7]. cbn [fst snd] in T7, A7. subst h7.
  pose proof (urinate_same_terrain e7 (set_colon 0 h6)) as T8.
  assert (A8 : fst (urinate e7 (set_colon 0 h6)) = set_bladder 0 (set_colon 0 h6))
    by reflexivity.
  destruct (urinate e7 (set_colon 0 h6)) as [h8 e8]. cbn [fst snd] in T8, A8.
  subst h8. apply post_ret. cbn [fst snd].
  assert (E1 : hunger (set_bladder 0 (set_colon 0 h6)) = hunger h3)
    by (cbn; congruence).
  assert (E2 : thirst (set_bladder 0 (set_colon 0 h6)) = thirst h4)
    by (cbn; congruence).
  assert (E3 : position (set_bladder 0 (set_colon 0 h6)) = position h5)
    by (unfold position in *; cbn; exact P3).
  split; [|split].
  - eapply same_terrain_trans; [exact F1|]. rewrite <- M3.
    eapply same_terrain_trans; [exact T7 | exact T8].
  - unfold in_need. rewrite E1, E2. lia.
  - rewrite !privation_unfold, E1, E2, E3.
    assert (M5 : position h5 = position h \/
                 passable (grid e) (position h5) = true).
    { destruct M4 as [M4|M4]; [left; congruence | right].
      rewrite <- (same_terrain_passable _ _ _ F1). exact M4. }
    destruct (passable (grid e) (position h)) eqn:Hp.
    + specialize (D4 eq_refl).
      destruct M5 as [M5|M5]; [rewrite M5, Hp | rewrite M5]; lia.
    + specialize (F5 eq_refl).
      destruct M5 as [M5|M5]; [rewrite M5, Hp | rewrite M5]; lia.
Qed.

Lemma privation_vital_stats g a :
  is_dead (handle_vital_stats a) = false ->
  privation g (handle_vital_stats a) = privation g a + 10 /\
  (in_need a -> in_need (handle_vital_stats a)).
Proof.
  intros Hd.
  destruct (handle_vital_stats_alive a Hd)
    as (_ & H1 & H2 & H3 & H4 & _ & _ & Hr & Hc & _).
  split.
  - unfold privation, position. rewrite Hr, Hc, H1, H3.
    destruct (passable g (row a, col a)); lia.
  - intros [Hh Ht]. unfold in_need. rewrite H1, H3. lia.
Qed.

Lemma update_herbivores_deprived j e :
  hydro_ok e -> shore_ok (rows e) (cols e) (grid e) ->
  Forall (deprived (rows e) (cols e) (grid e) j) (herbivores e) ->
  post (update_herbivores e)
    (fun e' => (surroundings e' = surroundings e /\
                predators e' = predators e /\ hydro_ok e' /\
                same_terrain (grid e) (grid e')) /\
               Forall (deprived (rows e) (cols e) (grid e) (j + 1))
                      (herbivores e')).
Proof.
  intros He Hshore Hh.
  eapply post_weaken.
  - apply (update_herbivores_rule
             (fun e' => surroundings e' = surroundings e /\
                        predators e' = predators e /\ hydro_ok e' /\
                        same_terrain (grid e) (grid e'))
             (deprived (rows e) (cols e) (grid e) j)
             (deprived (rows e) (cols e) (grid e) (j + 1))).
    + intros e1 l H. exact H.
    + intros h [[(H1 & H2 & _) _] _]. split; assumption.
    + intros e1 h (HS & HP & HH & HT) (Hset & Hneed & Hpriv) Hd.
      pose proof (settled_vital_stats _ _ _ h Hset Hd) as [Hs1 Hg1].
      destruct (privation_vital_stats (grid e) h Hd) as [Hpv Hnv].
      specialize (Hnv Hneed).
      destruct (surroundings_size _ _ HS) as [HR HC].
      assert (Hshore1 : shore_ok (rows e1) (cols e1) (grid e1)).
      { rewrite HR, HC. apply (same_terrain_shore _ _ (grid e)); assumption. }
      assert (Hon1 : on_grid (rows e1) (cols e1) (handle_vital_stats h)).
      { rewrite HR, HC. exact Hg1. }
      eapply post_weaken.
      * apply post_and; [apply herbivore_turn_core|].
        apply post_and; [apply herbivore_turn_rosters; apply Hs1|].
        apply post_and; [apply herbivore_turn_surroundings|].
        apply post_and; [apply (herbivore_turn_on_grid e1); exact Hon1|].
        apply post_and; [apply herbivore_turn_hydro; exact HH|].
        apply (herbivore_turn_privation e1 (handle_vital_stats h));
          [exact HH | exact Hshore1 | exact Hon1 | apply Hs1 | exact Hd
          | exact Hnv].
      * intros [[h' e'] new']
          (Hc & (_ & Hp & _) & Hsur & Hg & Hhy & (Ht & Hn & Hle)).
        cbn [fst snd] in *. rewrite HR, HC in Hg.
        split.
        -- split; [split; [eapply sound_core; eassumption | exact Hg]|].
           split; [exact Hn|].
           rewrite !(same_terrain_privation (grid e) (grid e1)) in Hle
             by exact HT.
           lia.
        -- split; [congruence|]. split; [congruence|]. split; [exact Hhy|].
           eapply same_terrain_trans; eassumption.
    + split; [reflexivity|]. split; [reflexivity|].
      split; [exact He | apply same_terrain_refl].
    + exact Hh.
  - intros e' (HI & HQ & _). split; assumption.
Qed.

(** ** A tick of an ecosystem without rain *)

Lemma climate_setting e e' : climate e' = climate e -> setting e' = setting e.
Proof.
  intros H. change (setting (climate e') = setting (climate e)).
  rewrite H. reflexivity.
Qed.

Lemma surroundings_setting e e' :
  surroundings e' = surroundings e -> setting e' = setting e.
Proof. intros H. apply climate_setting, climate_surroundings, H. Qed.

Lemma without_predators_frame e e' :
  without_predators e' = without_predators e ->
  setting e' = setting e /\ grid e' = grid e /\ herbivores e' = herbivores e.
Proof.
  intros H. repeat split.
  - change (setting (without_predators e') = setting (without_predators e)).
    rewrite H. reflexivity.
  - change (grid (without_predators e') = grid (without_predators e)).
    rewrite H. reflexivity.
  - change (herbivores (without_predators e') = herbivores (without_predators e)).
    rewrite H. reflexivity.
Qed.

Lemma update_environment_setting sin_deg e :
  post (update_environment sin_deg e) (fun e' => setting e' = setting e).
Proof.
  unfold update_environment. cbv zeta.
  eapply post_bind with (P := fun e2 => setting e2 = setting e).
  - unfold _precipitate. eapply post_bind; [apply post_any|]. intros k _.
    unfold _adjust_temperature.
    destruct (k <? _); destruct (negb _); apply post_ret; reflexivity.
  - intros e2 H2. apply post_ret.
    unfold _update_season_cycle, _change_season, _handle_extreme_heat.
    cbv zeta.
    destruct (Qle_bool _ _); cbn [season_duration season_cycle set_season set_grid];
      destruct (_ <=? _); try destruct (seasons !! _); exact H2.
Qed.

Lemma grow_plants_same_terrain e :
  post (grow_plants e) (fun e' => same_terrain (grid e) (grid e')).
Proof.
  unfold grow_plants. eapply post_bind.
  - apply (post_foldM grow_plants_body
             (fun st => same_terrain (grid e) (fst st)));
      [|apply same_terrain_refl].
    intros [g pl] p Hg. cbn [fst] in Hg. unfold grow_plants_body.
    destruct (terrain_type (cell g (fst p) (snd p))) eqn:Ht;
      try (apply post_ret; exact Hg).
    eapply post_bind; [apply post_any|]. intros u _.
    destruct (Qltb _ _); apply post_ret; [|exact Hg]. cbn [fst].
    eapply same_terrain_trans; [exact Hg|].
    apply set_cell_same_terrain. unfold ground. rewrite Ht. reflexivity.
  - intros [g pl] Hg. apply post_ret. exact Hg.
Qed.

Lemma famished_starving j p : famished j p -> starving j p.
Proof. intros [H _]. exact H. Qed.

Lemma deprived_same_terrain nrows ncols g g' j a :
  same_terrain g g' -> deprived nrows ncols g j a -> deprived nrows ncols g' j a.
Proof.
  intros H (H1 & H2 & H3). split; [exact H1|]. split; [exact H2|].
  rewrite (same_terrain_privation g g' a H). exact H3.
Qed.

Lemma update_doomed sin_deg j e :
  bounded_sine sin_deg -> doomed j e ->
  post (update sin_deg e) (doomed (j + 1)).
Proof.
  intros Hsin (Hm & Hrain & HR & HC & Hhy & Hshore & Hh & Hp). unfold update.
  eapply post_bind.
  { apply post_and; [apply update_environment_mild; assumption|].
    apply post_and; [apply update_environment_setting|].
    apply post_and; [apply update_environment_hydro; exact Hhy|].
    apply post_and.
    - apply (update_environment_starving j).
      eapply Forall_impl; [exact Hp|]. apply famished_starving.
    - apply (update_environment_rosters_kept (fun p => hunger p < 100)).
      + intros p q H. exact H.
      + eapply Forall_impl; [exact Hp|]. intros p [_ H]. exact H. }
  intros e1 ([_ G1] & S1 & Y1 & P1 & [P1' H1]). specialize (G1 Hrain).
  assert (R1 : rows e1 = rows e /\ cols e1 = cols e).
  { unfold setting in S1. injection S1 as _ _ Hr Hc. split; assumption. }
  destruct R1 as [R1 C1].
  eapply post_bind.
  { apply (update_herbivores_deprived j e1); [exact Y1| |].
    - rewrite R1, C1, G1. exact Hshore.
    - rewrite R1, C1, G1, H1. exact Hh. }
  rewrite R1, C1, G1. intros e2 [(S2 & P2 & Y2 & T2) H2].
  eapply post_bind.
  { apply post_and.
    - apply (update_predators_starving j e2). rewrite P2. exact P1.
    - apply update_predators_hydro. exact Y2. }
  intros e3 [[W3 P3] Y3].
  destruct (without_predators_frame _ _ W3) as (S3 & G3 & H3).
  eapply post_bind.
  { apply post_and; [apply grow_plants_rosters_kept|].
    apply post_and; [apply grow_plants_climate|].
    apply post_and; [apply grow_plants_hydro; exact Y3|].
    apply grow_plants_same_terrain. }
  intros e4 ([H4 P4] & K4 & Y4 & T4). apply post_ret. cbv zeta.
  assert (S4 : setting e4 = setting e).
  { rewrite (climate_setting _ _ K4), S3, (surroundings_setting _ _ S2). exact S1. }
  unfold setting in S4. injection S4 as E1 E2 E3 E4.
  assert (T : same_terrain (grid e) (grid e4)).
  { eapply same_terrain_trans; [exact T2|]. rewrite <- G3. exact T4. }
  unfold doomed.
  cbn [manual_temperature_control precipitation_level rows cols grid herbivores
       predators set_cycle update_population_data set_population_data
       _update_animal_body_temperature_and_plant_nutrition update_plants
       set_plants set_predators set_herbivores].
  rewrite E1, E2, E3, E4, H4, P4, H3.
  split; [exact Hm|]. split; [exact Hrain|]. split; [exact HR|].
  split; [exact HC|]. split.
  { exact Y4. }
  split; [apply (same_terrain_shore _ _ (grid e)); assumption|].
  split.
  - clear -H2 T. induction H2 as [|a l Ha _ IH]; simpl; constructor.
    + apply (deprived_same_terrain _ _ (grid e)); [exact T|]. exact Ha.
    + exact IH.
  - clear -P3. induction P3 as [|a l Ha _ IH]; simpl; constructor.
    + destruct Ha as (Hs & Hl & _). split; assumption.
    + exact IH.
Qed.

Lemma run_doomed sin_deg n j e :
  bounded_sine sin_deg -> doomed j e ->
  post (run sin_deg n e) (doomed (j + Z.of_nat n)).
Proof.
  intros Hsin. revert j e. induction n as [|n IH]; intros j e He; cbn [run].
  - apply post_ret. rewrite Z.add_0_r. exact He.
  - eapply post_bind; [apply update_doomed; eassumption|]. intros e1 H1.
    replace (j + Z.of_nat (S n)) with (j + 1 + Z.of_nat n) by lia.
    apply IH. exact H1.
Qed.

Lemma privation_bound g a : in_need a -> privation g a < 200.
Proof.
  intros [Hh Ht]. unfold privation. destruct (passable g (position a)); lia.
Qed.

Lemma doomed_empty j e :
  20 <= j -> doomed j e -> herbivores e = [] /\ predators e = [].
Proof.
  intros Hj (_ & _ & _ & _ & _ & _ & Hh & Hp). split.
  - destruct (herbivores e) as [|a l]; [reflexivity|]. exfalso.
    apply Forall_cons in Hh. destruct Hh as [(_ & Hn & Hv) _].
    pose proof (privation_bound (grid e) a Hn). lia.
  - destruct (predators e) as [|a l]; [reflexivity|]. exfalso.
    apply Forall_cons in Hp. destruct Hp as [[[_ Hs] Hl] _]. lia.
Qed.

Lemma Ecosystem_init_doomed fuel next_id nrows ncols hc pc g e :
  0 < nrows -> 0 < ncols ->
  fst (Ecosystem_init fuel next_id nrows ncols hc pc g) = Some e ->
  doomed 0 e.
Proof.
  intros HR HC Hi.
  destruct (Ecosystem_init_placed fuel next_id nrows ncols hc pc HR HC g e Hi)
    as (R & C & [Hh Hp]).
  pose proof (Ecosystem_init_hydro fuel next_id nrows ncols hc pc g e Hi) as Hy.
  pose proof (Ecosystem_init_shore fuel next_id nrows ncols hc pc g e Hi) as Hs.
  pose proof (Ecosystem_init_starving fuel next_id nrows ncols hc pc g e Hi)
    as Hst.
  destruct (Ecosystem_init_rosters_of (fresh Herbivore) (fresh Predator)
              Herbivore_init_fresh Predator_init_fresh
              fuel next_id nrows ncols hc pc g e Hi)
    as ([Fh Fp] & M & _ & L).
  cbv beta in Hs, Hst. unfold doomed. rewrite R, C in *.
  split; [exact M|]. split; [lia|]. split; [exact HR|]. split; [exact HC|].
  split; [exact Hy|]. split; [exact Hs|]. split.
  - apply Forall_forall. intros a Ha.
    rewrite Forall_forall in Hh, Fh.
    destruct (Hh a Ha) as [Hset _].
    destruct (Fh a Ha) as (_ & H0 & T0 & _).
    split; [exact Hset|]. split; [unfold in_need; lia|].
    unfold privation. destruct (passable _ _); lia.
  - apply Forall_forall. intros p Hin.
    rewrite Forall_forall in Hst, Fp.
    split; [apply Hst; exact Hin|].
    destruct (Fp p Hin) as (_ & H0 & _). lia.
Qed.

(** X13.  A run of the constructor followed by ticks alone ends with no
    animal left.  This is the run [simulate]: [Ecosystem.__init__] and then
    [update], without the call of [initialize_ecosystem] that [main] makes
    in between, whose planting puts vegetation beside water; runs with that
    call are not covered.  The constructor turns every cell of land or
    vegetation beside water into sand and leaves [precipitation_level] at 0,
    so that a herbivore on land or vegetation never drinks; on any other
    cell it never eats; a move leads to land or vegetation only; and no
    predator ever feeds.  For a sine within [-1, 1], on a grid with at least
    one row and one column, both rosters are empty after 20 ticks. *)
Theorem constructor_run_ends_empty (sin_deg : Z -> Q) (fuel : nat)
    (next_id nrows ncols : Z) (hc pc n : nat) (g : Rng) (e : Ecosystem) :
  bounded_sine sin_deg -> 0 < nrows -> 0 < ncols ->
  fst (simulate sin_deg fuel next_id nrows ncols hc pc (20 + n) g) = Some e ->
  herbivores e = [] /\ predators e = [].
Proof.
  intros Hsin HR HC Hi. unfold simulate, bind in Hi.
  pose proof (Ecosystem_init_doomed fuel next_id nrows ncols hc pc g) as H0.
  destruct (Ecosystem_init fuel next_id nrows ncols hc pc g) as [[e0|] g1];
    [|discriminate].
  specialize (H0 e0 HR HC eq_refl).
  pose proof (run_doomed sin_deg (20 + n) 0 e0 Hsin H0 g1) as Hrun.
  destruct (run sin_deg (20 + n) e0 g1) as [e' g2]. cbn in Hi, Hrun.
  injection Hi as <-.
  apply (doomed_empty (0 + Z.of_nat (20 + n))); [lia | exact Hrun].
Qed.

Lemma tiny_world_ends :
  fst (simulate sin_deg_0 1 0 1 1 1 0 (20 + 0)
         (scripted [0; 4503599627370496]%N))
  = Some tiny_world_end.
Proof. vm_compute. reflexivity. Qed.

Lemma constructor_run_ends_empty_witness :
  herbivores tiny_world_end = [] /\ predators tiny_world_end = [].
Proof.
  apply (constructor_run_ends_empty sin_deg_0 1 0 1 1 1 0 0
           (scripted [0; 4503599627370496]%N) tiny_world_end);
    [exact bounded_sine_0 | lia | lia | exact tiny_world_ends].
Defined.

(** ** Elevation *)

Lemma same_elevation_refl g : same_elevation g g.
Proof. intros r c. reflexivity. Qed.

Lemma same_elevation_trans g1 g2 g3 :
  same_elevation g1 g2 -> same_elevation g2 g3 -> same_elevation g1 g3.
Proof. intros H12 H23 r c. rewrite H23. apply H12. Qed.

Lemma set_cell_same_elevation g r c t :
  elevation t = elevation (cell g r c) -> same_elevation g (set_cell g r c t).
Proof.
  intros Ht r' c'.
  destruct (cell_set_cell_cases g r c r' c' t) as [[H1 H2]|H].
  - rewrite H1, H2. exact Ht.
  - rewrite H. reflexivity.
Qed.

Lemma py_set_cell_same_elevation g r c t t0 :
  py_cell g r c = Some t0 -> elevation t = elevation t0 ->
  same_elevation g (py_set_cell g r c t).
Proof.
  intros Hc Ht r' c'.
  destruct (cell_py_set_cell_cases g r c r' c' t t0 Hc) as [[H1 H2]|H].
  - rewrite H1, H2. exact Ht.
  - rewrite H. reflexivity.
Qed.

Lemma fold_left_same_elevation {B} (f : Grid -> B -> Grid) (l : list B) g :
  (forall g b, same_elevation g (f g b)) -> same_elevation g (fold_left f l g).
Proof.
  intros Hf. revert g. induction l as [|b l IH]; intros g; cbn [fold_left].
  - apply same_elevation_refl.
  - eapply same_elevation_trans; [apply Hf | apply IH].
Qed.

Lemma upd_cell_same_elevation g r c dv :
  same_elevation g (upd_cell g r c (add_water dv)).
Proof. unfold upd_cell. apply set_cell_same_elevation. reflexivity. Qed.

Lemma flood_visit_same_elevation nrows ncols g stack p :
  same_elevation g (fst (flood_visit nrows ncols (g, stack) p)).
Proof.
  unfold flood_visit. destruct (in_bounds _ _ _); [|apply same_elevation_refl].
  destruct (_ && _); cbn [fst]; [|apply same_elevation_refl].
  apply set_cell_same_elevation. reflexivity.
Qed.

Lemma flood_visits_same_elevation nrows ncols (l : list (Z * Z)) g stack :
  same_elevation g (fst (fold_left (flood_visit nrows ncols) l (g, stack))).
Proof.
  revert g stack. induction l as [|p l IH]; intros g stack; cbn [fold_left].
  - apply same_elevation_refl.
  - pose proof (flood_visit_same_elevation nrows ncols g stack p) as H.
    destruct (flood_visit nrows ncols (g, stack) p) as [g1 stack1].
    cbn [fst] in H. eapply same_elevation_trans; [exact H | apply IH].
Qed.

Lemma flood_loop_same_elevation fuel nrows ncols amount g stack :
  same_elevation g (fst (flood_loop fuel nrows ncols amount g stack)).
Proof.
  revert g stack. induction fuel as [|fuel IH]; intros g stack;
    cbn [flood_loop]; [apply same_elevation_refl|].
  destruct stack as [|p rest]; [apply same_elevation_refl|]. cbv zeta.
  pose proof (flood_visits_same_elevation nrows ncols (cross4 (fst p) (snd p))
                (upd_cell g (fst p) (snd p) (add_water (amount / 4))) rest) as H.
  destruct (fold_left _ _ _) as [g2 stack2]. cbn [fst] in H.
  eapply same_elevation_trans; [apply upd_cell_same_elevation|].
  eapply same_elevation_trans; [exact H | apply IH].
Qed.

Lemma adjust_flow_same_elevation row col g n :
  same_elevation g (adjust_flow row col g n).
Proof.
  unfold adjust_flow. destruct n as [r c].
  destruct (Qltb _ _); [|apply same_elevation_refl]. cbv zeta.
  eapply same_elevation_trans; [apply upd_cell_same_elevation|].
  eapply same_elevation_trans; [apply upd_cell_same_elevation|].
  match goal with
  | |- same_elevation ?g2 (if ?b then set_cell ?g3 _ _ _ else ?g3') =>
      assert (H3 : same_elevation g2 g3)
  end.
  { destruct (Qltb _ 10); [|apply same_elevation_refl].
    apply set_cell_same_elevation. reflexivity. }
  eapply same_elevation_trans; [exact H3|].
  destruct (_ && _); [|apply same_elevation_refl].
  apply set_cell_same_elevation. reflexivity.
Qed.

Lemma precipitate_same_elevation e :
  post (_precipitate e) (fun e' => same_elevation (grid e) (grid e')).
Proof.
  unfold _precipitate. eapply post_bind; [apply post_any|]. intros k _.
  destruct (k <? _); apply post_ret; [|apply same_elevation_refl].
  cbn [grid set_grid].
  eapply same_elevation_trans; cycle 1.
  - unfold adjust_water_volume. apply fold_left_same_elevation. intros g p.
    destruct (is_water _); [|apply same_elevation_refl].
    apply fold_left_same_elevation. intros g' n.
    apply adjust_flow_same_elevation.
  - apply fold_left_same_elevation. intros g p.
    destruct (is_water _); [|apply same_elevation_refl].
    unfold _flood_fill. apply flood_loop_same_elevation.
Qed.

Lemma update_environment_same_elevation sin_deg e :
  post (update_environment sin_deg e)
    (fun e' => same_elevation (grid e) (grid e')).
Proof.
  unfold update_environment. cbv zeta.
  eapply post_bind.
  - apply (precipitate_same_elevation (_adjust_temperature sin_deg e)).
  - intros e2 H2. apply post_ret.
    assert (H0 : grid (_adjust_temperature sin_deg e) = grid e).
    { unfold _adjust_temperature. destruct (negb _); reflexivity. }
    rewrite H0 in H2.
    assert (H3 : same_elevation (grid e2) (grid (_handle_extreme_heat e2))).
    { unfold _handle_extreme_heat.
      destruct (Qle_bool _ _); [|apply same_elevation_refl].
      cbn [grid set_grid]. apply fold_left_same_elevation. intros g p.
      destruct (is_water _); [|apply same_elevation_refl].
      apply set_cell_same_elevation. reflexivity. }
    assert (H4 : grid (_update_season_cycle (_handle_extreme_heat e2))
                 = grid (_handle_extreme_heat e2)).
    { unfold _update_season_cycle, _change_season. cbv zeta.
      destruct (_ <=? _); [|reflexivity].
      destruct (seasons !! _); reflexivity. }
    rewrite H4. eapply same_elevation_trans; eassumption.
Qed.

Lemma herbivore_turn_same_elevation e h new :
  post (herbivore_turn e h new)
    (fun r => same_elevation (grid e) (grid (snd (fst r)))).
Proof.
  unfold herbivore_turn.
  eapply post_bind with
    (P := fun r => same_elevation (grid e) (grid (snd r))).
  { unfold handle_feeding.
    destruct (negb _); [|apply post_ret; apply same_elevation_refl].
    destruct (species h).
    - apply post_ret. unfold _feed_herbivore.
      destruct (py_cell _ _ _) as [t|] eqn:Hc; [|apply same_elevation_refl].
      destruct (terrain_type t); try apply same_elevation_refl.
      cbn [snd grid set_grid].
      apply (py_set_cell_same_elevation _ _ _ _ t Hc). reflexivity.
    - unfold _feed_predator.
      destruct (existsb _ _); [|apply post_ret; apply same_elevation_refl].
      unfold Predator_feed.
      destruct (truthy _); [|apply post_ret; apply same_elevation_refl].
      eapply post_bind; [apply post_any|]. intros prey _. unfold hunt.
      eapply post_bind; [apply post_any|]. intros u _.
      destruct (Qltb _ _); apply post_ret; apply same_elevation_refl. }
  intros [h3 e3] H3. cbn [snd] in H3.
  eapply post_bind; [apply handle_movement_spec|].
  intros [h5 e5] [(_ & _ & M3) _]. cbn [snd] in M3.
  destruct (handle_reproduction e5 h5 new) as [h6 new6].
  assert (T7 : same_elevation (grid e5) (grid (snd (defecate e5 h6)))).
  { unfold defecate. cbn [snd].
    destruct (py_cell _ _ _) as [t|] eqn:E; [|apply same_elevation_refl].
    cbn [grid set_grid].
    apply (py_set_cell_same_elevation _ _ _ _ t E). reflexivity. }
  destruct (defecate e5 h6) as [h7 e7]. cbn [snd] in T7.
  assert (T8 : same_elevation (grid e7) (grid (snd (urinate e7 h7)))).
  { unfold urinate. cbn [snd].
    destruct (py_cell _ _ _) as [t|] eqn:E; [|apply same_elevation_refl].
    cbn [grid set_grid].
    apply (py_set_cell_same_elevation _ _ _ _ t E). reflexivity. }
  destruct (urinate e7 h7) as [h8 e8]. cbn [snd] in T8.
  apply post_ret. cbn [fst snd].
  eapply same_elevation_trans; [exact H3|]. rewrite <- M3.
  eapply same_elevation_trans; eassumption.
Qed.

Lemma herbivore_body_same_elevation st i :
  post (herbivore_body st i)
    (fun st' => same_elevation (grid (fst (fst st))) (grid (fst (fst st')))).
Proof.
  destruct st as [[e remaining] new]. cbn [fst].
  eapply post_ext; [apply herbivore_body_unfold|].
  destruct (herbivores e !! i) as [h0|];
    [|intros g; apply same_elevation_refl].
  cbv zeta. destruct (negb _); [|intros g; apply same_elevation_refl].
  eapply post_bind; [apply herbivore_turn_same_elevation|].
  intros [[h8 e8] new8] H. apply post_ret. exact H.
Qed.

Lemma update_herbivores_same_elevation e :
  post (update_herbivores e) (fun e' => same_elevation (grid e) (grid e')).
Proof.
  unfold update_herbivores. eapply post_bind.
  - apply (post_foldM herbivore_body
             (fun st => same_elevation (grid e) (grid (fst (fst st))))).
    + intros st i H. eapply post_weaken; [apply herbivore_body_same_elevation|].
      intros st' H'. cbv beta in H'. eapply same_elevation_trans; eassumption.
    + apply same_elevation_refl.
  - intros [[e1 r] n] H. apply post_ret. exact H.
Qed.

Lemma handle_feeding_same_elevation e a :
  post (handle_feeding e a) (fun r => same_elevation (grid e) (grid (snd r))).
Proof.
  unfold handle_feeding.
  destruct (negb _); [|apply post_ret; apply same_elevation_refl].
  destruct (species a).
  - apply post_ret. unfold _feed_herbivore.
    destruct (py_cell _ _ _) as [t|] eqn:Hc; [|apply same_elevation_refl].
    destruct (terrain_type t); try apply same_elevation_refl.
    cbn [snd grid set_grid].
    apply (py_set_cell_same_elevation _ _ _ _ t Hc). reflexivity.
  - unfold _feed_predator.
    destruct (existsb _ _); [|apply post_ret; apply same_elevation_refl].
    unfold Predator_feed.
    destruct (truthy _); [|apply post_ret; apply same_elevation_refl].
    eapply post_bind; [apply post_any|]. intros prey _. unfold hunt.
    eapply post_bind; [apply post_any|]. intros u _.
    destruct (Qltb _ _); apply post_ret; apply same_elevation_refl.
Qed.

Lemma predator_body_same_elevation st i :
  post (predator_body st i)
    (fun st' => same_elevation (grid (fst st)) (grid (fst st'))).
Proof.
  destruct st as [e remaining]. cbn [fst].
  eapply post_ext; [apply predator_body_unfold|].
  destruct (predators e !! i) as [p0|]; [|intros g; apply same_elevation_refl].
  destruct (negb _); [|intros g; apply same_elevation_refl].
  eapply post_bind.
  - unfold predator_turn.
    eapply post_bind; [apply post_any|]. intros moves _.
    eapply post_bind; [apply post_any|]. intros p1 _. cbv zeta.
    apply handle_feeding_same_elevation.
  - intros [p2 e2] H. apply post_ret. exact H.
Qed.

Lemma update_predators_same_elevation e :
  post (update_predators e) (fun e' => same_elevation (grid e) (grid e')).
Proof.
  unfold update_predators. eapply post_bind.
  - apply (post_foldM predator_body
             (fun st => same_elevation (grid e) (grid (fst st)))).
    + intros st i H. eapply post_weaken; [apply predator_body_same_elevation|].
      intros st' H'. cbv beta in H'. eapply same_elevation_trans; eassumption.
    + apply same_elevation_refl.
  - intros [e1 r] H. apply post_ret. exact H.
Qed.

Lemma grow_plants_same_elevation e :
  post (grow_plants e) (fun e' => same_elevation (grid e) (grid e')).
Proof.
  unfold grow_plants. eapply post_bind.
  - apply (post_foldM grow_plants_body
             (fun st => same_elevation (grid e) (fst st)));
      [|apply same_elevation_refl].
    intros [g pl] p Hg. cbn [fst] in Hg. unfold grow_plants_body.
    destruct (terrain_type (cell g (fst p) (snd p)));
      try (apply post_ret; exact Hg).
    eapply post_bind; [apply post_any|]. intros u _.
    destruct (Qltb _ _); apply post_ret; [|exact Hg]. cbn [fst].
    eapply same_elevation_trans; [exact Hg|].
    apply set_cell_same_elevation. reflexivity.
  - intros [g pl] Hg. apply post_ret. exact Hg.
Qed.

Lemma update_same_elevation sin_deg e :
  post (update sin_deg e) (fun e' => same_elevation (grid e) (grid e')).
Proof.
  unfold update.
  eapply post_bind; [apply update_environment_same_elevation|]. intros e1 H1.
  eapply post_bind; [apply update_herbivores_same_elevation|]. intros e2 H2.
  eapply post_bind; [apply update_predators_same_elevation|]. intros e3 H3.
  eapply post_bind; [apply grow_plants_same_elevation|]. intros e4 H4.
  apply post_ret. cbv zeta.
  change (same_elevation (grid e) (grid e4)).
  eapply same_elevation_trans; [exact H1|].
  eapply same_elevation_trans; [exact H2|].
  eapply same_elevation_trans; [exact H3 | exact H4].
Qed.

(** X14.  The elevation of a cell never changes.  Rain, the flood fill, the
    flow of water, heat, eating, droppings and growing plants replace or
    update cells, and every one of them hands the elevation of the cell on:
    after any number of ticks every cell has the elevation that it had
    before. *)
Theorem elevation_never_changes (sin_deg : Z -> Q) (n : nat) (e : Ecosystem)
    (g : Rng) (r c : Z) :
  elevation (cell (grid (fst (run sin_deg n e g))) r c)
  = elevation (cell (grid e) r c).
Proof.
  assert (H : post (run sin_deg n e)
                (fun e' => same_elevation (grid e) (grid e'))).
  { revert e. induction n as [|n IH]; intros e; cbn [run].
    - apply post_ret. apply same_elevation_refl.
    - eapply post_bind; [apply update_same_elevation|]. intros e1 H1.
      eapply post_weaken; [apply IH|]. intros e' H'.
      eapply same_elevation_trans; [exact H1 | exact H']. }
  apply (H g).
Qed.

(** ** Identities *)

Lemma Animal_init_id next_id r c spd sx sp :
  post (Animal_init next_id r c spd sx sp) (fun a => id a = next_id).
Proof.
  unfold Animal_init.
  repeat (eapply post_bind; [apply post_any | intros ? _]).
  apply post_ret. reflexivity.
Qed.

Lemma Herbivore_init_id next_id r c spd sx :
  post (Herbivore_init next_id r c spd sx) (fun a => id a = next_id).
Proof.
  unfold Herbivore_init.
  eapply post_bind; [apply Animal_init_id|]. intros a Ha.
  eapply post_bind; [apply post_any|]. intros n _. apply post_ret. exact Ha.
Qed.

Lemma Predator_init_id next_id r c spd sx :
  post (Predator_init next_id r c spd sx) (fun a => id a = next_id).
Proof.
  unfold Predator_init.
  eapply post_bind; [apply Animal_init_id|]. intros a Ha. cbv zeta.
  eapply post_bind; [apply post_any|]. intros n _. apply post_ret. exact Ha.
Qed.

Lemma distinct_fresh (e : Ecosystem) (l : list Z) (i : Z) :
  Permutation l (animal_id_counter e :: identities e) ->
  i = animal_id_counter e + 1 ->
  distinct e -> NoDup l /\ Forall (fun j => j < i) l.
Proof.
  intros Hl -> [Hn Hb]. split.
  - rewrite Hl. apply NoDup_cons. split; [|exact Hn].
    intros Hin. rewrite Forall_forall in Hb. specialize (Hb _ Hin). lia.
  - rewrite Hl. constructor; [lia|].
    eapply Forall_impl; [exact Hb|]. intros j Hj. cbv beta in Hj. lia.
Qed.

Section SpawnIds.
Variable init : Z -> Z -> Z -> Q -> Sex -> Rand Animal.
Hypothesis init_id : forall i r c spd sx,
  post (init i r c spd sx) (fun a => id a = i).

Lemma spawn_id fuel e next_id :
  post (spawn init fuel e next_id) (when_some (fun a => id a = next_id)).
Proof.
  unfold spawn. eapply post_bind; [apply post_any|]. intros [[r c]|] _.
  - eapply post_bind; [apply post_any|]. intros spd _.
    eapply post_bind; [apply post_any|]. intros sx _.
    eapply post_bind; [apply init_id|]. intros a Ha. apply post_ret.
    intros a' [= <-]. exact Ha.
  - apply post_ret. intros a' [=].
Qed.

Lemma spawn_list_ids fuel e count next_id :
  post (spawn_list init fuel e count next_id)
    (when_some (fun l => map id l = seqZ next_id (Z.of_nat count))).
Proof.
  revert next_id. induction count as [|n IH]; intros next_id;
    cbn [spawn_list].
  - apply post_ret. intros l [= <-]. reflexivity.
  - eapply post_bind; [apply spawn_id|]. intros [a|] Ha.
    + eapply post_bind; [apply IH|]. intros [l|] Hl; apply post_ret.
      * intros l' [= <-]. cbn [map].
        rewrite (Ha a eq_refl), (Hl l eq_refl).
        rewrite (seqZ_cons next_id (Z.of_nat (Datatypes.S n))) by lia.
        f_equal. f_equal; lia.
      * intros l' [=].
    + apply post_ret. intros l' [=].
Qed.

Lemma spawn_append_distinct (add : Animal -> Ecosystem -> Ecosystem)
    fuel count e :
  (forall a e, Permutation (identities (add a e)) (id a :: identities e) /\
               animal_id_counter (add a e) = animal_id_counter e) ->
  distinct e -> post (spawn_append init add fuel count e) (when_some distinct).
Proof.
  intros Hadd. revert e. induction count as [|n IH]; intros e He;
    cbn [spawn_append].
  - apply post_ret. intros e' [= <-]. exact He.
  - eapply post_bind; [apply spawn_id|]. intros [a|] Ha.
    + apply IH. destruct (Hadd a e) as [Hp Hc].
      specialize (Ha a eq_refl). cbv beta in Ha.
      apply (distinct_fresh e); [|reflexivity | exact He].
      rewrite <- Ha. exact Hp.
    + apply post_ret. intros e' [=].
Qed.
End SpawnIds.

Lemma Ecosystem_init_identities fuel next_id nrows ncols hc pc :
  post (Ecosystem_init fuel next_id nrows ncols hc pc)
    (when_some (fun e =>
       map id (herbivores e) = seqZ next_id (Z.of_nat hc) /\
       map id (predators e) = seqZ (next_id + Z.of_nat hc) (Z.of_nat pc) /\
       animal_id_counter e = next_id + Z.of_nat hc + Z.of_nat pc)).
Proof.
  unfold Ecosystem_init.
  eapply post_bind; [apply post_any|]. intros g1 _.
  eapply post_bind; [apply post_any|]. intros g2 _. cbv zeta.
  unfold _initialize_animals.
  eapply post_bind; [apply (spawn_list_ids Herbivore_init Herbivore_init_id)|].
  intros [hs|] Hhs; [|apply post_ret; intros e' [=]]. cbv zeta.
  specialize (Hhs hs eq_refl). cbv beta in Hhs.
  eapply post_bind; [apply (spawn_list_ids Predator_init Predator_init_id)|].
  intros [ps|] Hps; apply post_ret; [|intros e' [=]].
  specialize (Hps ps eq_refl). cbv beta in Hps.
  intros e' [= <-].
  cbn [herbivores predators animal_id_counter set_animal_id_counter
       set_predators set_herbivores] in *.
  assert (Lh : length hs = hc).
  { rewrite <- (length_map id hs), Hhs, length_seqZ. lia. }
  assert (Lp : length ps = pc).
  { rewrite <- (length_map id ps), Hps, length_seqZ. lia. }
  rewrite Lh in *. rewrite Lp.
  split; [exact Hhs|]. split; [exact Hps | reflexivity].
Qed.

(** X15.  The constructor numbers the animals in the order of the rosters.
    The ecosystem that [Ecosystem.__init__] returns, started when the
    counter of identities stands at [next_id], has as many herbivores and
    predators as were asked for; their identities are [next_id],
    [next_id + 1], ... in the order of the rosters, herbivores first, and
    the counter stands behind the last of them. *)
Theorem constructor_numbers_animals (fuel : nat) (next_id nrows ncols : Z)
    (hc pc : nat) (g : Rng) (e : Ecosystem) :
  fst (Ecosystem_init fuel next_id nrows ncols hc pc g) = Some e ->
  length (herbivores e) = hc /\ length (predators e) = pc /\
  identities e = seqZ next_id (Z.of_nat hc + Z.of_nat pc) /\
  animal_id_counter e = next_id + Z.of_nat hc + Z.of_nat pc.
Proof.
  intros He.
  destruct (Ecosystem_init_identities fuel next_id nrows ncols hc pc g e He)
    as (Hh & Hp & Hc).
  split; [rewrite <- (length_map id), Hh, length_seqZ; lia|].
  split; [rewrite <- (length_map id), Hp, length_seqZ; lia|].
  split; [|exact Hc].
  unfold identities. rewrite Hh, Hp, seqZ_app by lia. reflexivity.
Qed.

Lemma constructor_numbers_animals_witness :
  identities tiny_world = seqZ 0 (Z.of_nat 1 + Z.of_nat 0).
Proof.
  apply (constructor_numbers_animals 1 0 1 1 1 0
           (scripted [0; 4503599627370496]%N) tiny_world).
  exact tiny_world_built.
Defined.

Lemma handle_vital_stats_id a : id (handle_vital_stats a) = id a.
Proof.
  assert (Hc : forall b, id (_check_death_conditions b) = id b).
  { intros b. unfold _check_death_conditions, die.
    repeat match goal with
           | |- context [if ?c then _ else _] => destruct c
           end; reflexivity. }
  unfold handle_vital_stats.
  destruct (regenerate_energy_fields
              (_check_death_conditions
                 (_increase_thirst (_increase_hunger (_age_animal a)))))
    as (_ & _ & _ & _ & _ & _ & _ & _ & _ & _ & R).
  rewrite R, Hc.
  pose proof (needs_before_check a) as B. cbv zeta in B.
  destruct B as (_ & _ & _ & _ & _ & _ & _ & _ & _ & _ & B & _). exact B.
Qed.

Lemma map_id_insert (l : list Animal) (k : nat) (a b : Animal) :
  l !! k = Some a -> id b = id a -> map id (<[k := b]> l) = map id l.
Proof.
  intros Hk Hb. rewrite <- insert_map, Hb. apply list_insert_id.
  rewrite lookup_map, Hk. reflexivity.
Qed.

Lemma resolve_ids (roster : list Animal) (remaining : list nat) :
  map id (resolve roster remaining)
  = omap (fun i => map id roster !! i) remaining.
Proof.
  unfold resolve. induction remaining as [|i rem IH]; [reflexivity|].
  cbn [omap list_omap]. rewrite lookup_map.
  destruct (roster !! i) as [a|]; cbn [option_map map]; rewrite IH;
    reflexivity.
Qed.

Lemma kept_snoc (ids : list Z) (remaining : list nat) (k : nat) (x : Z) :
  ids !! k = Some x ->
  sublist (omap (fun i => ids !! i) remaining) (take k ids) ->
  sublist (omap (fun i => ids !! i) (remaining ++ [k]))
          (take (Datatypes.S k) ids).
Proof.
  intros Hk Hs. rewrite omap_app, (take_S_r _ _ _ Hk).
  apply sublist_app; [exact Hs|]. cbn. rewrite Hk. reflexivity.
Qed.

Lemma kept_skip (ids : list Z) (remaining : list nat) (k : nat) :
  sublist (omap (fun i => ids !! i) remaining) (take k ids) ->
  sublist (omap (fun i => ids !! i) remaining) (take (Datatypes.S k) ids).
Proof.
  intros Hs. etransitivity; [exact Hs|].
  destruct (ids !! k) as [x|] eqn:E.
  - rewrite (take_S_r _ _ _ E). apply sublist_inserts_r. reflexivity.
  - apply lookup_ge_None in E. rewrite !take_ge by lia. reflexivity.
Qed.

Lemma sublist_map {A B} (f : A -> B) (l1 l2 : list A) :
  sublist l1 l2 -> sublist (map f l1) (map f l2).
Proof.
  induction 1; simpl; [constructor | apply sublist_skip | apply sublist_cons];
    assumption.
Qed.

Lemma remove_first_sublist {A} (p : A -> bool) (l : list A) :
  sublist (remove_first p l) l.
Proof.
  induction l as [|x l IH]; simpl; [constructor|].
  destruct (p x); [apply sublist_cons; reflexivity | apply sublist_skip; exact IH].
Qed.

Lemma core_id a a' : core a' = core a -> id a' = id a.
Proof. unfold core. intros [= H _ _ _ _ _ _ _ _]. exact H. Qed.

Lemma predator_body_ids (ids : list Z) k e remaining :
  map id (predators e) = ids ->
  sublist (omap (fun i => ids !! i) remaining) (take k ids) ->
  post (predator_body (e, remaining) k)
    (fun st =>
       map id (predators (fst st)) = ids /\
       sublist (omap (fun i => ids !! i) (snd st))
               (take (Datatypes.S k) ids)).
Proof.
  intros Hids Hs.
  eapply post_ext; [apply predator_body_unfold|].
  destruct (predators e !! k) as [p0|] eqn:Hk.
  - assert (Hx : ids !! k = Some (id p0)).
    { rewrite <- Hids, lookup_map, Hk. reflexivity. }
    destruct (is_dead (handle_vital_stats p0)) eqn:Hd; cbn [negb].
    + intros g. cbn [fst snd predators set_predators].
      split; [|apply kept_skip; exact Hs].
      rewrite (map_id_insert _ _ p0);
        [exact Hids | exact Hk | apply handle_vital_stats_id].
    + eapply post_bind.
      * apply post_and;
          [apply predator_turn_core | apply predator_turn_predators].
      * intros [p4 e4] [Hc He4]. cbn [fst snd] in *.
        apply post_ret. cbn [fst snd predators set_predators].
        rewrite He4. split; [|apply (kept_snoc _ _ _ _ Hx Hs)].
        rewrite (map_id_insert _ _ p0); [exact Hids | exact Hk|].
        rewrite (core_id _ _ Hc). apply handle_vital_stats_id.
  - intros g. cbn [fst snd]. split; [exact Hids | apply kept_skip; exact Hs].
Qed.

Lemma update_predators_ids e :
  post (update_predators e)
    (fun e' => sublist (map id (predators e')) (map id (predators e))).
Proof.
  unfold update_predators. eapply post_bind.
  - apply (post_foldM_seq predator_body
             (fun k st =>
                map id (predators (fst st)) = map id (predators e) /\
                sublist (omap (fun i => map id (predators e) !! i) (snd st))
                        (take k (map id (predators e))))).
    + intros k [e1 r1] Hk [H1 H2]. cbn [fst snd] in *.
      apply predator_body_ids; assumption.
    + cbn [fst snd]. split; [reflexivity | apply sublist_nil_l].
  - intros [e1 r1] [H1 H2]. cbn [fst snd] in *. apply post_ret.
    cbn [predators set_predators].
    rewrite resolve_ids, H1. etransitivity; [exact H2|]. apply sublist_take.
Qed.

Lemma herbivore_body_ids (ids : list Z) k e remaining :
  map id (herbivores e) = ids ->
  sublist (omap (fun i => ids !! i) remaining) (take k ids) ->
  (forall i a, (k <= i)%nat -> herbivores e !! i = Some a ->
     sound Herbivore a) ->
  post (herbivore_body (e, remaining, []) k)
    (fun st =>
       map id (herbivores (fst (fst st))) = ids /\
       sublist (omap (fun i => ids !! i) (snd (fst st)))
               (take (Datatypes.S k) ids) /\
       snd st = [] /\
       (forall i a, (Datatypes.S k <= i)%nat ->
          herbivores (fst (fst st)) !! i = Some a -> sound Herbivore a)).
Proof.
  intros Hids Hs Hnext.
  eapply post_ext; [apply herbivore_body_unfold|].
  assert (Hlater : forall (l : list Animal) p i a, (Datatypes.S k <= i)%nat ->
            l = herbivores e -> <[k := p]> l !! i = Some a ->
            sound Herbivore a).
  { intros l p i a Hi -> Ha. rewrite list_lookup_insert_ne in Ha by lia.
    apply (Hnext i a); [lia | exact Ha]. }
  destruct (herbivores e !! k) as [h0|] eqn:Hk.
  - assert (Hx : ids !! k = Some (id h0)).
    { rewrite <- Hids, lookup_map, Hk. reflexivity. }
    destruct (Hnext k h0 ltac:(lia) Hk) as (Hd0 & Hs0 & _).
    unfold handle_decay. rewrite Hd0. cbv zeta. cbn [fst snd].
    destruct (is_dead (handle_vital_stats h0)) eqn:Hd; cbn [negb].
    + intros g. cbn [fst snd herbivores set_herbivores].
      split; [|split; [apply kept_skip; exact Hs|]].
      * rewrite (map_id_insert _ _ h0);
          [exact Hids | exact Hk | apply handle_vital_stats_id].
      * split; [reflexivity|].
        intros i a Hi Ha. apply (Hlater _ _ i a Hi eq_refl Ha).
    + destruct (handle_vital_stats_alive h0 Hd)
        as (_ & _ & _ & _ & _ & Hs1 & _).
      eapply post_bind.
      * apply post_and;
          [apply herbivore_turn_core
          | apply herbivore_turn_rosters; congruence].
      * intros [[h8 e8] new8] [Hc (He8 & _ & Hnew)].
        cbn [fst snd] in *. apply post_ret.
        cbn [fst snd herbivores set_herbivores].
        rewrite He8. split; [|split; [apply (kept_snoc _ _ _ _ Hx Hs)|]].
        -- rewrite (map_id_insert _ _ h0); [exact Hids | exact Hk|].
           rewrite (core_id _ _ Hc). apply handle_vital_stats_id.
        -- split; [exact Hnew|].
           intros i a Hi Ha. apply (Hlater _ _ i a Hi eq_refl Ha).
  - intros g. cbn [fst snd]. split; [exact Hids|].
    split; [apply kept_skip; exact Hs|]. split; [reflexivity|].
    intros i a Hi Ha. apply (Hnext i a); [lia | exact Ha].
Qed.

Lemma update_herbivores_ids e :
  Forall (sound Herbivore) (herbivores e) ->
  post (update_herbivores e)
    (fun e' => sublist (map id (herbivores e')) (map id (herbivores e))).
Proof.
  intros HQ. unfold update_herbivores. eapply post_bind.
  - apply (post_foldM_seq herbivore_body
             (fun k st =>
                map id (herbivores (fst (fst st))) = map id (herbivores e) /\
                sublist (omap (fun i => map id (herbivores e) !! i)
                           (snd (fst st)))
                        (take k (map id (herbivores e))) /\
                snd st = [] /\
                (forall i a, (k <= i)%nat ->
                   herbivores (fst (fst st)) !! i = Some a ->
                   sound Herbivore a))).
    + intros k [[e1 r1] new1] Hk (H1 & H2 & H3 & H4).
      cbn [fst snd] in *. subst new1.
      apply herbivore_body_ids; assumption.
    + cbn [fst snd]. split; [reflexivity|]. split; [apply sublist_nil_l|].
      split; [reflexivity|].
      intros i a _ Ha. rewrite Forall_forall in HQ. apply HQ.
      eapply list_elem_of_lookup_2. exact Ha.
  - intros [[e1 r1] new1] (H1 & H2 & H3 & H4).
    cbn [fst snd] in *. subst new1. apply post_ret.
    cbn [herbivores set_herbivores]. rewrite app_nil_r.
    rewrite resolve_ids, H1. etransitivity; [exact H2|]. apply sublist_take.
Qed.

Lemma handle_feeding_thins e a :
  post (handle_feeding e a)
    (fun r => sublist (herbivores (snd r)) (herbivores e)).
Proof.
  unfold handle_feeding.
  destruct (negb _); [|apply post_ret; reflexivity].
  destruct (species a).
  - apply post_ret. unfold _feed_herbivore.
    destruct (py_cell _ _ _) as [t|]; [|reflexivity].
    destruct (terrain_type t); reflexivity.
  - unfold _feed_predator.
    destruct (existsb _ _); [|apply post_ret; reflexivity].
    unfold Predator_feed. destruct (truthy _); [|apply post_ret; reflexivity].
    eapply post_bind; [apply post_any|]. intros prey _. unfold hunt.
    eapply post_bind; [apply post_any|]. intros u _.
    destruct (Qltb _ _); apply post_ret; cbn [snd herbivores set_herbivores];
      [|reflexivity].
    apply remove_first_sublist.
Qed.

Lemma update_predators_thins e :
  post (update_predators e)
    (fun e' => sublist (herbivores e') (herbivores e)).
Proof.
  eapply post_weaken.
  - apply (update_predators_rule
             (fun e' => sublist (herbivores e') (herbivores e))
             (fun _ => True) (fun _ => True)).
    + intros e1 l H. exact H.
    + intros e1 p H1 _ _. unfold predator_turn.
      eapply post_bind; [apply post_any|]. intros moves _.
      eapply post_bind; [apply post_any|]. intros p1 _. cbv zeta.
      eapply post_weaken; [apply handle_feeding_thins|].
      intros r Hr. cbv beta in Hr. split; [exact Logic.I|].
      etransitivity; [exact Hr | exact H1].
    + reflexivity.
    + apply Forall_true. intros _. exact Logic.I.
  - intros e' [H _]. exact H.
Qed.

Lemma update_environment_ids sin_deg e :
  post (update_environment sin_deg e)
    (fun e' => map id (predators e') = map id (predators e) /\
               herbivores e' = herbivores e /\
               animal_id_counter e' = animal_id_counter e).
Proof.
  unfold update_environment. cbv zeta.
  eapply post_bind with
    (P := fun e2 => predators e2 = predators e /\
                    herbivores e2 = herbivores e /\
                    animal_id_counter e2 = animal_id_counter e).
  - unfold _precipitate. eapply post_bind; [apply post_any|]. intros k _.
    unfold _adjust_temperature.
    destruct (k <? _); destruct (negb _); apply post_ret; repeat split.
  - intros e2 H2. apply post_ret.
    assert (H3 : predators (_handle_extreme_heat e2) = predators e /\
                 herbivores (_handle_extreme_heat e2) = herbivores e /\
                 animal_id_counter (_handle_extreme_heat e2)
                 = animal_id_counter e).
    { unfold _handle_extreme_heat. destruct (Qle_bool _ _); exact H2. }
    revert H3. generalize (_handle_extreme_heat e2). intros e3 (H3 & H3' & C3).
    unfold _update_season_cycle. cbv zeta.
    destruct (_ <=? _);
      [|cbn [predators herbivores animal_id_counter set_season];
        rewrite H3; repeat split; assumption].
    unfold _change_season. cbv zeta.
    destruct (seasons !! _) as [s|] eqn:Es;
      [|cbn [predators herbivores animal_id_counter set_season];
        rewrite H3; repeat split; assumption].
    unfold apply_seasonal_effects.
    cbn [predators herbivores animal_id_counter set_predators set_plants
         set_ambient_temperature set_season].
    rewrite H3. split; [|split; assumption].
    rewrite map_map. reflexivity.
Qed.

Lemma update_counter sin_deg e :
  post (update sin_deg e)
    (fun e' => animal_id_counter e' = animal_id_counter e).
Proof.
  eapply update_split.
  - eapply post_weaken; [apply update_environment_ids|].
    intros e1 (_ & _ & C1). exact C1.
  - intros e1 e6 C1 H6. cbv beta in *.
    change (animal_id_counter (climate e6) = animal_id_counter e).
    rewrite H6. exact C1.
Qed.

Lemma update_rosters_thin sin_deg e :
  Forall (sound Herbivore) (herbivores e) ->
  post (update sin_deg e)
    (fun e' => sublist (map id (herbivores e')) (map id (herbivores e)) /\
               sublist (map id (predators e')) (map id (predators e))).
Proof.
  intros Hh. unfold update.
  eapply post_bind; [apply update_environment_ids|].
  intros e1 (P1 & H1 & _).
  eapply post_bind.
  { apply post_and;
      [apply update_herbivores_ids | apply update_herbivores_sound];
      rewrite H1; exact Hh. }
  intros e2 [H2 (P2 & _ & _)].
  eapply post_bind.
  { apply post_and; [apply update_predators_ids | apply update_predators_thins]. }
  intros e3 [P3 H3].
  eapply post_bind; [apply grow_plants_rosters_kept|]. intros e4 [H4 P4].
  apply post_ret. cbv zeta.
  cbn [herbivores predators set_cycle update_population_data set_population_data
       _update_animal_body_temperature_and_plant_nutrition update_plants
       set_plants set_predators set_herbivores].
  rewrite H4, P4, !map_map.
  split.
  - etransitivity; [apply sublist_map; exact H3|].
    rewrite <- H1. exact H2.
  - etransitivity; [exact P3|]. rewrite P2, P1. reflexivity.
Qed.

Lemma update_identities sin_deg e :
  Forall (sound Herbivore) (herbivores e) ->
  post (update sin_deg e)
    (fun e' => sublist (identities e') (identities e)).
Proof.
  intros Hh. eapply post_weaken; [apply update_rosters_thin; exact Hh|].
  intros e' [H P]. apply sublist_app; assumption.
Qed.

Lemma sublist_distinct (l l' : list Z) (c c' : Z) :
  sublist l' l -> c' = c ->
  NoDup l /\ Forall (fun i => i < c) l ->
  NoDup l' /\ Forall (fun i => i < c') l'.
Proof.
  intros Hs -> [Hn Hb]. split; [eapply sublist_NoDup; eassumption|].
  rewrite Forall_forall in *. intros i Hi. apply Hb.
  eapply elem_of_sublist; eassumption.
Qed.

Lemma initialize_ecosystem_distinct fuel e :
  distinct e -> post (initialize_ecosystem fuel e) (when_some distinct).
Proof.
  intros He. unfold initialize_ecosystem.
  eapply post_bind.
  - apply (spawn_append_distinct Herbivore_init Herbivore_init_id);
      [|exact He].
    intros a e0. split; [|reflexivity]. unfold identities.
    cbn [herbivores predators set_herbivores]. rewrite map_app. cbn [map].
    rewrite <- app_assoc. cbn [app]. symmetry. apply Permutation_middle.
  - intros [e1|] H1; [|apply post_ret; intros e' [=]].
    eapply post_bind.
    + apply (spawn_append_distinct Predator_init Predator_init_id);
        [|apply H1; reflexivity].
      intros a e0. split; [|reflexivity]. unfold identities.
      cbn [herbivores predators set_predators]. rewrite map_app. cbn [map].
      rewrite app_assoc. symmetry. apply Permutation_cons_append.
    + intros [e2|] H2; [|apply post_ret; intros e' [=]].
      apply (plant_append_post distinct); [|apply H2; reflexivity].
      intros e0 r c H0. exact H0.
Qed.

Lemma reachable_distinct sin_deg e : reachable sin_deg e -> distinct e.
Proof.
  intros Hr. induction Hr as
    [fuel next_id nrows ncols hc pc g e Hi
    |fuel e g e' Hr IH Hi | e level Hr IH | e g Hr IH].
  - destruct (Ecosystem_init_identities fuel next_id nrows ncols hc pc g e Hi)
      as (Hh & Hp & Hc).
    unfold distinct, identities. rewrite Hh, Hp, Hc, <- seqZ_app by lia.
    split; [apply NoDup_seqZ|]. apply Forall_seqZ. intros i Hi'. lia.
  - apply (initialize_ecosystem_distinct fuel e IH g). exact Hi.
  - exact IH.
  - destruct (reachable_sound sin_deg e Hr) as [Hh _].
    apply (sublist_distinct (identities e) _ (animal_id_counter e));
      [apply (update_identities sin_deg e Hh g)
      | apply (update_counter sin_deg e g) | exact IH].
Qed.

(** X16.  No two animals share an identity.  In every state that a run
    reaches the identities of the animals of the two rosters are pairwise
    different and lie below the counter of identities, and a tick leaves the
    counter alone and leaves of the identities a sublist: it drops
    animals, it never adds one, never lists one twice and never changes the
    order of those that stay. *)
Theorem identities_stay_unique (sin_deg : Z -> Q) (e : Ecosystem) (g : Rng) :
  reachable sin_deg e ->
  NoDup (identities e) /\
  Forall (fun i => i < animal_id_counter e) (identities e) /\
  sublist (identities (fst (update sin_deg e g))) (identities e) /\
  animal_id_counter (fst (update sin_deg e g)) = animal_id_counter e.
Proof.
  intros Hr. destruct (reachable_distinct sin_deg e Hr) as [Hn Hb].
  split; [exact Hn|]. split; [exact Hb|]. split.
  - apply update_identities. apply (reachable_sound sin_deg e Hr).
  - apply update_counter.
Qed.

Lemma identities_stay_unique_witness : NoDup (identities pond_world).
Proof.
  apply (identities_stay_unique sin_deg_0 pond_world (scripted [])).
  exact pond_world_reachable.
Defined.

(** ** The index of occupancy *)

Lemma tile_animals_insert (m : gmap (Z * Z) (list (Z * Species)))
    (t t' : Z * Z) (l : list (Z * Species)) :
  tile_animals (<[t := l]> m) t'
  = if decide (t = t') then l else tile_animals m t'.
Proof.
  unfold tile_animals. destruct (decide (t = t')) as [->|Hne].
  - rewrite lookup_insert_eq. reflexivity.
  - rewrite lookup_insert_ne by exact Hne. reflexivity.
Qed.

Lemma tidy_vacant m tile :
  tidy m ->
  existsb (fun x => Species_eqb (snd x) Herbivore) (tile_animals m tile) = false ->
  tile_animals m tile = [].
Proof.
  intros Hm He. destruct (Hm tile) as [_ Hf].
  destruct (tile_animals m tile) as [|x l]; [reflexivity|].
  inversion Hf as [|? ? Hx _]; subst. cbn in He. rewrite Hx in He.
  cbn in He. discriminate.
Qed.

Lemma tidy_insert m t l :
  tidy m -> (length l <= 1)%nat -> Forall (fun x => snd x = Herbivore) l ->
  tidy (<[t := l]> m).
Proof.
  intros Hm Hl Hf t'. rewrite tile_animals_insert.
  destruct (decide _); [split; assumption | apply Hm].
Qed.

Lemma Animal_move_tidy e moves nearby a :
  species a = Herbivore -> tidy (animals_on_tile e) ->
  post (Animal_move e moves nearby a)
    (fun r => tidy (animals_on_tile (snd r))).
Proof.
  intros Hs Hm. unfold Animal_move.
  destruct (_ && _); [|apply post_ret; exact Hm].
  destruct (truthy (List.filter _ moves)) eqn:Ht; [|apply post_ret; exact Hm].
  eapply post_bind; [apply choose_new_location_In; exact Ht|].
  intros new Hnew. apply post_ret. cbv zeta.
  cbn [snd animals_on_tile set_animals_on_tile].
  apply List.filter_In in Hnew. destruct Hnew as [_ Hocc].
  apply negb_true_iff in Hocc.
  unfold is_tile_occupied_by_same_species in Hocc. rewrite Hs in Hocc.
  apply (tidy_vacant _ _ Hm) in Hocc.
  assert (Hone : Forall (fun x : Z * Species => snd x = Herbivore)
                   [(id a, species a)]).
  { constructor; [exact Hs | constructor]. }
  destruct (existsb _ (tile_animals (animals_on_tile e) (row a, col a)))
    eqn:Eo.
  - assert (Hne : (row a, col a) <> new).
    { intros <-. rewrite Hocc in Eo. discriminate. }
    destruct (Hm (row a, col a)) as [Hl Hf].
    pose proof (remove_first_sublist (fun x : Z * Species => fst x =? id a)
                  (tile_animals (animals_on_tile e) (row a, col a))) as Hsub.
    rewrite tile_animals_insert. destruct (decide _) as [E|_]; [contradiction|].
    rewrite Hocc. apply tidy_insert; [|cbn; lia | exact Hone].
    apply tidy_insert; [exact Hm | |].
    + apply sublist_length in Hsub. lia.
    + rewrite Forall_forall in *. intros x Hx. apply Hf.
      eapply elem_of_sublist; eassumption.
  - rewrite Hocc. apply tidy_insert; [exact Hm | cbn; lia | exact Hone].
Qed.

Lemma handle_movement_tidy e a :
  species a = Herbivore -> tidy (animals_on_tile e) ->
  post (handle_movement e a) (fun r => tidy (animals_on_tile (snd r))).
Proof.
  intros Hs Hm. unfold handle_movement.
  destruct (negb _); [|apply post_ret; exact Hm].
  eapply post_bind; [apply post_any|]. intros moves _.
  apply Animal_move_tidy; assumption.
Qed.

Lemma handle_feeding_index e a :
  post (handle_feeding e a)
    (fun r => animals_on_tile (snd r) = animals_on_tile e).
Proof.
  unfold handle_feeding.
  destruct (negb _); [|apply post_ret; reflexivity].
  destruct (species a).
  - apply post_ret. unfold _feed_herbivore.
    destruct (py_cell _ _ _) as [t|]; [|reflexivity].
    destruct (terrain_type t); reflexivity.
  - unfold _feed_predator.
    destruct (existsb _ _); [|apply post_ret; reflexivity].
    unfold Predator_feed. destruct (truthy _); [|apply post_ret; reflexivity].
    eapply post_bind; [apply post_any|]. intros prey _. unfold hunt.
    eapply post_bind; [apply post_any|]. intros u _.
    destruct (Qltb _ _); apply post_ret; reflexivity.
Qed.

Lemma core_species a a' : core a' = core a -> species a' = species a.
Proof. unfold core. intros [= _ H _ _ _ _ _ _ _]. exact H. Qed.

Lemma waste_index e a :
  animals_on_tile (snd (urinate (snd (defecate e a)) (fst (defecate e a))))
  = animals_on_tile e.
Proof.
  unfold urinate, defecate.
  repeat match goal with
         | |- context [match ?c with Some _ => _ | None => _ end] => destruct c
         end; reflexivity.
Qed.

Section TurnIndex.
Variable J : gmap (Z * Z) (list (Z * Species)) -> Prop.
Variable ok : Animal -> Prop.
Hypothesis ok_core : forall a a', core a' = core a -> ok a -> ok a'.
Hypothesis move_J : forall e moves nearby a,
  ok a -> J (animals_on_tile e) ->
  post (Animal_move e moves nearby a) (fun r => J (animals_on_tile (snd r))).

Lemma herbivore_turn_index e h new :
  ok h -> J (animals_on_tile e) ->
  post (herbivore_turn e h new)
    (fun r => J (animals_on_tile (snd (fst r)))).
Proof.
  intros Hs Hm. unfold herbivore_turn.
  eapply post_bind;
    [apply post_and; [apply handle_feeding_core | apply handle_feeding_index]|].
  intros [h3 e3] [C3 M3]. cbn [fst snd] in C3, M3.
  eapply post_bind with (P := fun r => J (animals_on_tile (snd r))).
  { unfold handle_movement.
    destruct (negb _); [|apply post_ret; cbn [snd]; rewrite M3; exact Hm].
    eapply post_bind; [apply post_any|]. intros moves _.
    apply move_J; [|rewrite M3; exact Hm].
    apply (ok_core h); [|exact Hs].
    rewrite handle_drinking_core. exact C3. }
  intros [h5 e5] M5. cbn [snd] in M5.
  destruct (handle_reproduction e5 h5 new) as [h6 new6].
  pose proof (waste_index e5 h6) as W.
  destruct (defecate e5 h6) as [h7 e7]. cbn [fst snd] in W.
  destruct (urinate e7 h7) as [h8 e8]. cbn [fst snd] in W.
  apply post_ret. cbn [fst snd]. rewrite W. exact M5.
Qed.

Lemma update_herbivores_index e :
  Forall (fun a => sound Herbivore a /\ ok a) (herbivores e) ->
  (forall a, ok a -> is_dead (handle_vital_stats a) = false ->
     ok (handle_vital_stats a)) ->
  J (animals_on_tile e) ->
  post (update_herbivores e) (fun e' => J (animals_on_tile e')).
Proof.
  intros Hh Hv Hm. eapply post_weaken.
  - apply (update_herbivores_rule
             (fun e' => J (animals_on_tile e'))
             (fun a => sound Herbivore a /\ ok a) (fun _ => True)).
    + intros e1 l H. exact H.
    + intros h [(H1 & H2 & _) _]. split; assumption.
    + intros e1 h H1 [Hs Ho] Hd.
      eapply post_weaken; [apply herbivore_turn_index|].
      * apply Hv; assumption.
      * exact H1.
      * intros r Hr. split; [exact Logic.I | exact Hr].
    + exact Hm.
    + exact Hh.
  - intros e' [H _]. exact H.
Qed.
End TurnIndex.

Lemma update_predators_index e :
  post (update_predators e)
    (fun e' => animals_on_tile e' = animals_on_tile e).
Proof.
  eapply post_weaken.
  - apply (update_predators_rule
             (fun e' => animals_on_tile e' = animals_on_tile e)
             (fun _ => True) (fun _ => True)).
    + intros e1 l H. exact H.
    + intros e1 p H1 _ _. unfold predator_turn.
      eapply post_bind; [apply post_any|]. intros moves _.
      eapply post_bind; [apply post_any|]. intros p1 _. cbv zeta.
      eapply post_weaken; [apply handle_feeding_index|].
      intros r Hr. cbv beta in Hr. split; [exact Logic.I|]. congruence.
    + reflexivity.
    + apply Forall_true. intros _. exact Logic.I.
  - intros e' [H _]. exact H.
Qed.

Lemma update_environment_index sin_deg e :
  post (update_environment sin_deg e)
    (fun e' => animals_on_tile e' = animals_on_tile e).
Proof.
  unfold update_environment. cbv zeta.
  eapply post_bind with
    (P := fun e2 => animals_on_tile e2 = animals_on_tile e).
  - unfold _precipitate. eapply post_bind; [apply post_any|]. intros k _.
    unfold _adjust_temperature.
    destruct (k <? _); destruct (negb _); apply post_ret; reflexivity.
  - intros e2 H2. apply post_ret.
    assert (H3 : animals_on_tile (_handle_extreme_heat e2) = animals_on_tile e).
    { unfold _handle_extreme_heat. destruct (Qle_bool _ _); exact H2. }
    revert H3. generalize (_handle_extreme_heat e2). intros e3 H3.
    unfold _update_season_cycle. cbv zeta.
    destruct (_ <=? _); [|exact H3].
    unfold _change_season. cbv zeta.
    destruct (seasons !! _) as [s|] eqn:Es; exact H3.
Qed.

Lemma update_index (J : gmap (Z * Z) (list (Z * Species)) -> Prop)
    (ok : Animal -> Prop) sin_deg e :
  (forall a a', core a' = core a -> ok a -> ok a') ->
  (forall e moves nearby a,
     ok a -> J (animals_on_tile e) ->
     post (Animal_move e moves nearby a)
       (fun r => J (animals_on_tile (snd r)))) ->
  (forall a, ok a -> is_dead (handle_vital_stats a) = false ->
     ok (handle_vital_stats a)) ->
  Forall (fun a => sound Herbivore a /\ ok a) (herbivores e) ->
  J (animals_on_tile e) ->
  post (update sin_deg e) (fun e' => J (animals_on_tile e')).
Proof.
  intros Hcore Hmove Hvital Hh Hm. unfold update.
  eapply post_bind.
  { apply post_and;
      [apply update_environment_index | apply update_environment_ids]. }
  intros e1 [M1 (_ & H1 & _)].
  eapply post_bind.
  { apply (update_herbivores_index J ok Hcore Hmove).
    - rewrite H1. exact Hh.
    - exact Hvital.
    - rewrite M1. exact Hm. }
  intros e2 M2.
  eapply post_bind; [apply update_predators_index|]. intros e3 M3.
  eapply post_bind with
    (P := fun e4 => animals_on_tile e4 = animals_on_tile e3).
  { unfold grow_plants. eapply post_bind; [apply post_any|].
    intros [g pl] _. apply post_ret. reflexivity. }
  intros e4 M4. apply post_ret. cbv zeta.
  cbn [animals_on_tile set_cycle update_population_data set_population_data
       _update_animal_body_temperature_and_plant_nutrition update_plants
       set_plants set_predators set_herbivores].
  rewrite M4, M3. exact M2.
Qed.

Lemma Ecosystem_init_index fuel next_id nrows ncols hc pc :
  post (Ecosystem_init fuel next_id nrows ncols hc pc)
    (when_some (fun e => animals_on_tile e = ∅)).
Proof.
  unfold Ecosystem_init.
  eapply post_bind; [apply post_any|]. intros g1 _.
  eapply post_bind; [apply post_any|]. intros g2 _. cbv zeta.
  unfold _initialize_animals.
  eapply post_bind; [apply post_any|].
  intros [hs|] _; [|apply post_ret; intros e' [=]].
  eapply post_bind; [apply post_any|].
  intros [ps|] _; apply post_ret; [|intros e' [=]].
  intros e' [= <-]. reflexivity.
Qed.

Lemma initialize_ecosystem_index fuel e :
  post (initialize_ecosystem fuel e)
    (when_some (fun e' => animals_on_tile e' = animals_on_tile e)).
Proof.
  unfold initialize_ecosystem.
  eapply post_bind.
  - apply (spawn_append_post Herbivore_init (fun _ => True)
             (fun _ _ _ _ _ => post_any _) _
             (fun e' => animals_on_tile e' = animals_on_tile e));
      [|reflexivity].
    intros a e0 v _ H0. exact H0.
  - intros [e1|] H1; [|apply post_ret; intros e' [=]].
    eapply post_bind.
    + apply (spawn_append_post Predator_init (fun _ => True)
               (fun _ _ _ _ _ => post_any _) _
               (fun e' => animals_on_tile e' = animals_on_tile e));
        [|apply H1; reflexivity].
      intros a e0 v _ H0. exact H0.
    + intros [e2|] H2; [|apply post_ret; intros e' [=]].
      apply (plant_append_post
               (fun e' => animals_on_tile e' = animals_on_tile e));
        [|apply H2; reflexivity].
      intros e0 r c H0. exact H0.
Qed.

Lemma tidy_empty : tidy ∅.
Proof.
  intros tile. unfold tile_animals. rewrite lookup_empty. cbn.
  split; [lia | constructor].
Qed.

Lemma update_tidy sin_deg e :
  Forall (sound Herbivore) (herbivores e) -> tidy (animals_on_tile e) ->
  post (update sin_deg e) (fun e' => tidy (animals_on_tile e')).
Proof.
  intros Hh Hm.
  apply (update_index tidy (fun a => species a = Herbivore)).
  - intros a a' Hc Ha. rewrite (core_species _ _ Hc). exact Ha.
  - intros e0 moves nearby a Ha H0. apply Animal_move_tidy; assumption.
  - intros a Ha Hd.
    destruct (handle_vital_stats_alive a Hd) as (_ & _ & _ & _ & _ & Hs & _).
    congruence.
  - eapply Forall_impl; [exact Hh|]. intros a Ha. split; [exact Ha | apply Ha].
  - exact Hm.
Qed.

Lemma reachable_tidy sin_deg e :
  reachable sin_deg e -> tidy (animals_on_tile e).
Proof.
  intros Hr. induction Hr as
    [fuel next_id nrows ncols hc pc g e Hi
    |fuel e g e' Hr IH Hi | e level Hr IH | e g Hr IH].
  - rewrite (Ecosystem_init_index fuel next_id nrows ncols hc pc g e Hi).
    apply tidy_empty.
  - rewrite (initialize_ecosystem_index fuel e g e' Hi). exact IH.
  - exact IH.
  - apply update_tidy; [|exact IH]. apply (reachable_sound sin_deg e Hr).
Qed.

(** X17.  The index of occupancy lists at most one animal per tile, and
    never a predator.  In every state that a run reaches
    [animals_on_tile] holds for every tile at most one entry, and that is a
    herbivore: [Animal.move] only takes a herbivore to a tile for which the
    index lists no herbivore, and [Predator.move] does not write the
    index. *)
Theorem one_herbivore_per_tile (sin_deg : Z -> Q) (e : Ecosystem)
    (tile : Z * Z) :
  reachable sin_deg e ->
  (length (tile_animals (animals_on_tile e) tile) <= 1)%nat /\
  Forall (fun x => snd x = Herbivore) (tile_animals (animals_on_tile e) tile).
Proof. intros Hr. apply (reachable_tidy sin_deg e Hr). Qed.

Lemma run_reachable sin_deg n e g :
  reachable sin_deg e -> reachable sin_deg (fst (run sin_deg n e g)).
Proof.
  revert e g. induction n as [|n IH]; intros e g Hr; cbn [run].
  - exact Hr.
  - unfold bind. pose proof (reach_update sin_deg e g Hr) as H1.
    destruct (update sin_deg e g) as [e1 g1]. cbn [fst] in H1.
    apply IH. exact H1.
Qed.

Lemma simulate_reachable sin_deg fuel next_id nrows ncols hc pc n g e :
  fst (simulate sin_deg fuel next_id nrows ncols hc pc n g) = Some e ->
  reachable sin_deg e.
Proof.
  unfold simulate, bind. intros Hi.
  pose proof (reach_init sin_deg fuel next_id nrows ncols hc pc g) as H0.
  destruct (Ecosystem_init fuel next_id nrows ncols hc pc g) as [[e0|] g1];
    [|discriminate].
  specialize (H0 e0 eq_refl).
  pose proof (run_reachable sin_deg n e0 g1 H0) as H1.
  destruct (run sin_deg n e0 g1) as [e' g2]. cbn in Hi, H1.
  injection Hi as <-. exact H1.
Qed.

Lemma tiny_world_end_reachable : reachable sin_deg_0 tiny_world_end.
Proof.
  apply (simulate_reachable sin_deg_0 1 0 1 1 1 0 (20 + 0)
           (scripted [0; 4503599627370496]%N)).
  exact tiny_world_ends.
Qed.

Lemma one_herbivore_per_tile_witness :
  (length (tile_animals (animals_on_tile tiny_world_end) (0%Z, 0%Z)) <= 1)%nat /\
  Forall (fun x => snd x = Herbivore)
    (tile_animals (animals_on_tile tiny_world_end) (0, 0)).
Proof.
  apply (one_herbivore_per_tile sin_deg_0 tiny_world_end (0, 0)).
  exact tiny_world_end_reachable.
Defined.

Lemma remove_first_keeps {A} (p : A -> bool) (l : list A) (x : A) :
  p x = false -> x ∈ l -> x ∈ remove_first p l.
Proof.
  intros Hp. induction l as [|y l IH]; intros Hx; simpl; [exact Hx|].
  apply elem_of_cons in Hx. destruct (p y) eqn:Ey.
  - destruct Hx as [->|Hx]; [congruence | exact Hx].
  - apply elem_of_cons. destruct Hx as [->|Hx]; [left; reflexivity|].
    right. apply IH. exact Hx.
Qed.

Lemma Animal_move_keeps (x : Z * Species) (tile : Z * Z) e moves nearby a :
  id a <> fst x -> x ∈ tile_animals (animals_on_tile e) tile ->
  post (Animal_move e moves nearby a)
    (fun r => x ∈ tile_animals (animals_on_tile (snd r)) tile).
Proof.
  intros Hne Hx. unfold Animal_move.
  destruct (_ && _); [|apply post_ret; exact Hx].
  destruct (truthy _); [|apply post_ret; exact Hx].
  eapply post_bind; [apply post_any|]. intros new _. apply post_ret.
  cbv zeta. cbn [snd animals_on_tile set_animals_on_tile].
  match goal with
  | |- context [<[new := tile_animals ?m1 new ++ _]> _] =>
      assert (H1 : x ∈ tile_animals m1 tile)
  end.
  { destruct (existsb _ _); [|exact Hx].
    rewrite tile_animals_insert. destruct (decide _) as [<-|_]; [|exact Hx].
    apply remove_first_keeps; [|exact Hx].
    apply Z.eqb_neq. intros E. apply Hne. symmetry. exact E. }
  rewrite tile_animals_insert. destruct (decide _) as [<-|_]; [|exact H1].
  apply elem_of_app. left. exact H1.
Qed.

Lemma update_keeps_stale (x : Z * Species) (tile : Z * Z) sin_deg e :
  Forall (sound Herbivore) (herbivores e) ->
  fst x ∉ map id (herbivores e) ->
  x ∈ tile_animals (animals_on_tile e) tile ->
  post (update sin_deg e)
    (fun e' => x ∈ tile_animals (animals_on_tile e') tile).
Proof.
  intros Hh Hi Hx.
  apply (update_index (fun m => x ∈ tile_animals m tile)
           (fun a => id a <> fst x)).
  - intros a a' Hc Ha. rewrite (core_id _ _ Hc). exact Ha.
  - intros e0 moves nearby a Ha H0. apply Animal_move_keeps; assumption.
  - intros a Ha _. rewrite handle_vital_stats_id. exact Ha.
  - rewrite Forall_forall in *. intros a Ha. split; [apply Hh; exact Ha|].
    intros E. apply Hi. rewrite <- E.
    apply list_elem_of_In, in_map, list_elem_of_In. exact Ha.
  - exact Hx.
Qed.

Lemma run_keeps_stale (x : Z * Species) (tile : Z * Z) sin_deg n e g :
  reachable sin_deg e ->
  fst x ∉ map id (herbivores e) ->
  x ∈ tile_animals (animals_on_tile e) tile ->
  x ∈ tile_animals (animals_on_tile (fst (run sin_deg n e g))) tile.
Proof.
  revert e g. induction n as [|n IH]; intros e g Hr Hi Hx; cbn [run].
  - exact Hx.
  - unfold bind.
    destruct (reachable_sound sin_deg e Hr) as [Hh _].
    pose proof (reach_update sin_deg e g Hr) as R1.
    pose proof (update_rosters_thin sin_deg e Hh g) as [S1 _].
    pose proof (update_keeps_stale x tile sin_deg e Hh Hi Hx g) as X1.
    destruct (update sin_deg e g) as [e1 g1]. cbn [fst] in R1, S1, X1.
    apply IH; [exact R1 | | exact X1].
    intros Hin. apply Hi. eapply elem_of_sublist; eassumption.
Qed.

(** X18.  The index of occupancy keeps the animals that have left the roster.
    An entry of [animals_on_tile] goes only when the animal that it names
    moves away.  So in a state that a run reaches, the entry of an animal
    that is no longer in the roster of herbivores stays on its tile over
    any number of ticks, and [is_tile_occupied_by_same_species] answers for
    that tile that a herbivore is there: [Animal.move] takes no herbivore
    to it again. *)
Theorem stale_entries_stay (sin_deg : Z -> Q) (n : nat) (e : Ecosystem)
    (g : Rng) (i : Z) (sp : Species) (tile : Z * Z) :
  reachable sin_deg e ->
  i ∉ map id (herbivores e) ->
  (i, sp) ∈ tile_animals (animals_on_tile e) tile ->
  (i, sp) ∈ tile_animals (animals_on_tile (fst (run sin_deg n e g))) tile /\
  is_tile_occupied_by_same_species (fst (run sin_deg n e g)) tile Herbivore
  = true.
Proof.
  intros Hr Hi Hx.
  pose proof (run_keeps_stale (i, sp) tile sin_deg n e g Hr Hi Hx) as H.
  split; [exact H|].
  destruct (reachable_tidy sin_deg e Hr tile) as [_ Hf].
  rewrite Forall_forall in Hf. specialize (Hf _ Hx). cbn [snd] in Hf. subst sp.
  unfold is_tile_occupied_by_same_species. apply existsb_exists.
  exists (i, Herbivore). split; [apply list_elem_of_In; exact H | reflexivity].
Qed.

Lemma stale_entries_stay_witness :
  is_tile_occupied_by_same_species
    (fst (run sin_deg_0 3 tiny_world_end (scripted []))) (0, 0) Herbivore
  = true.
Proof.
  apply (stale_entries_stay sin_deg_0 3 tiny_world_end (scripted [])
           0 Herbivore (0, 0)).
  - exact tiny_world_end_reachable.
  - vm_compute. intros H. inversion H.
  - vm_compute. constructor.
Defined.

(** ** The map without rain *)

Lemma handle_feeding_same_terrain e a :
  post (handle_feeding e a) (fun r => same_terrain (grid e) (grid (snd r))).
Proof.
  unfold handle_feeding.
  destruct (negb _); [|apply post_ret; apply same_terrain_refl].
  destruct (species a).
  - apply post_ret. unfold _feed_herbivore.
    destruct (py_cell _ _ _) as [t|] eqn:Hc; [|apply same_terrain_refl].
    destruct (terrain_type t) eqn:Ht; try apply same_terrain_refl.
    cbn [snd grid set_grid].
    apply (py_set_cell_same_terrain _ _ _ _ t Hc).
    unfold ground. rewrite Ht. reflexivity.
  - unfold _feed_predator.
    destruct (existsb _ _); [|apply post_ret; apply same_terrain_refl].
    unfold Predator_feed.
    destruct (truthy _); [|apply post_ret; apply same_terrain_refl].
    eapply post_bind; [apply post_any|]. intros prey _. unfold hunt.
    eapply post_bind; [apply post_any|]. intros u _.
    destruct (Qltb _ _); apply post_ret; apply same_terrain_refl.
Qed.

Lemma herbivore_turn_same_terrain e h new :
  post (herbivore_turn e h new)
    (fun r => same_terrain (grid e) (grid (snd (fst r)))).
Proof.
  unfold herbivore_turn.
  eapply post_bind; [apply handle_feeding_same_terrain|].
  intros [h3 e3] H3. cbn [snd] in H3.
  eapply post_bind; [apply handle_movement_spec|].
  intros [h5 e5] [(_ & _ & M3) _]. cbn [snd] in M3.
  destruct (handle_reproduction e5 h5 new) as [h6 new6].
  pose proof (defecate_same_terrain e5 h6) as T7.
  destruct (defecate e5 h6) as [h7 e7]. cbn [snd] in T7.
  pose proof (urinate_same_terrain e7 h7) as T8.
  destruct (urinate e7 h7) as [h8 e8]. cbn [snd] in T8.
  apply post_ret. cbn [fst snd].
  eapply same_terrain_trans; [exact H3|]. rewrite <- M3.
  eapply same_terrain_trans; eassumption.
Qed.

Lemma update_herbivores_same_terrain e :
  post (update_herbivores e) (fun e' => same_terrain (grid e) (grid e')).
Proof.
  unfold update_herbivores. eapply post_bind.
  - apply (post_foldM herbivore_body
             (fun st => same_terrain (grid e) (grid (fst (fst st)))));
      [|apply same_terrain_refl].
    intros [[e1 remaining] new] i H. cbn [fst] in H.
    eapply post_ext; [apply herbivore_body_unfold|].
    destruct (herbivores e1 !! i) as [h0|]; [|intros g; exact H].
    cbv zeta. destruct (negb _); [|intros g; exact H].
    eapply post_bind; [apply herbivore_turn_same_terrain|].
    intros [[h8 e8] new8] H'. apply post_ret. cbn [fst snd] in *.
    eapply same_terrain_trans; [exact H | exact H'].
  - intros [[e1 r] n] H. apply post_ret. exact H.
Qed.

Lemma update_predators_same_terrain e :
  post (update_predators e) (fun e' => same_terrain (grid e) (grid e')).
Proof.
  unfold update_predators. eapply post_bind.
  - apply (post_foldM predator_body
             (fun st => same_terrain (grid e) (grid (fst st))));
      [|apply same_terrain_refl].
    intros [e1 remaining] i H. cbn [fst] in H.
    eapply post_ext; [apply predator_body_unfold|].
    destruct (predators e1 !! i) as [p0|]; [|intros g; exact H].
    destruct (negb _); [|intros g; exact H].
    eapply post_bind.
    + unfold predator_turn.
      eapply post_bind; [apply post_any|]. intros moves _.
      eapply post_bind; [apply post_any|]. intros p1 _. cbv zeta.
      apply handle_feeding_same_terrain.
    + intros [p2 e2] H'. apply post_ret. cbn [fst snd] in *.
      eapply same_terrain_trans; [exact H | exact H'].
  - intros [e1 r] H. apply post_ret. exact H.
Qed.

Lemma update_setting sin_deg e :
  post (update sin_deg e) (fun e' => setting e' = setting e).
Proof.
  eapply update_split; [apply update_environment_setting|].
  intros e1 e6 S1 H6. cbv beta in *.
  change (setting (climate e6) = setting e).
  rewrite H6. exact S1.
Qed.

Lemma update_dry sin_deg e :
  bounded_sine sin_deg -> manual_temperature_control e = false ->
  precipitation_level e <= 0 ->
  post (update sin_deg e) (fun e' => same_terrain (grid e) (grid e')).
Proof.
  intros Hsin Hm Hp. unfold update.
  eapply post_bind; [apply update_environment_mild; assumption|].
  intros e1 [_ G1]. specialize (G1 Hp).
  eapply post_bind; [apply update_herbivores_same_terrain|]. intros e2 H2.
  eapply post_bind; [apply update_predators_same_terrain|]. intros e3 H3.
  eapply post_bind; [apply grow_plants_same_terrain|]. intros e4 H4.
  apply post_ret. cbv zeta.
  change (same_terrain (grid e) (grid e4)).
  rewrite <- G1.
  eapply same_terrain_trans; [exact H2|].
  eapply same_terrain_trans; [exact H3 | exact H4].
Qed.

Lemma run_dry sin_deg n e :
  bounded_sine sin_deg -> manual_temperature_control e = false ->
  precipitation_level e <= 0 ->
  post (run sin_deg n e)
    (fun e' => same_terrain (grid e) (grid e') /\ setting e' = setting e).
Proof.
  intros Hsin. revert e. induction n as [|n IH]; intros e Hm Hp; cbn [run].
  - apply post_ret. split; [apply same_terrain_refl | reflexivity].
  - eapply post_bind.
    + apply post_and; [apply update_dry; assumption | apply update_setting].
    + intros e1 [T1 S1].
      assert (Hm1 : manual_temperature_control e1 = false).
      { unfold setting in S1. injection S1 as E1 _ _ _. congruence. }
      assert (Hp1 : precipitation_level e1 <= 0).
      { unfold setting in S1. injection S1 as _ E2 _ _. lia. }
      eapply post_weaken; [apply (IH e1 Hm1 Hp1)|].
      intros e' [T S]. split; [|congruence].
      eapply same_terrain_trans; eassumption.
Qed.

(** X19.  Without rain the map stays as it is.  When manual temperature
    control is off, [precipitation_level] is not positive, as the
    constructor leaves it, and the sine stays within [-1, 1], no number of
    ticks changes what a cell is, apart from land that becomes vegetation
    and vegetation that becomes land: water stays water, sand stays sand,
    and [precipitation_level] itself is not written. *)
Theorem dry_run_keeps_the_map (sin_deg : Z -> Q) (n : nat) (e : Ecosystem)
    (g : Rng) (r c : Z) :
  bounded_sine sin_deg -> manual_temperature_control e = false ->
  precipitation_level e <= 0 ->
  ground (cell (grid (fst (run sin_deg n e g))) r c) = ground (cell (grid e) r c) /\
  precipitation_level (fst (run sin_deg n e g)) = precipitation_level e.
Proof.
  intros Hsin Hm Hp.
  destruct (run_dry sin_deg n e Hsin Hm Hp g) as [T S].
  split; [apply T|].
  unfold setting in S. injection S as _ E _ _. exact E.
Qed.

Lemma dry_run_keeps_the_map_witness :
  ground (cell (grid (fst (run sin_deg_0 3 tiny_world (scripted [])))) 0 0)
  = ground (cell (grid tiny_world) 0 0).
Proof.
  apply (dry_run_keeps_the_map sin_deg_0 3 tiny_world (scripted []) 0 0).
  - exact bounded_sine_0.
  - reflexivity.
  - vm_compute. discriminate.
Defined.

(** ** Animals and water *)

Lemma Predator_move_stand (safe : Z * Z -> Prop) moves p :
  (forall m, In m moves -> safe m) -> safe (position p) ->
  post (Predator_move moves p) (fun p' => safe (position p')).
Proof.
  intros Hm Hp. unfold Predator_move.
  destruct (truthy moves) eqn:Ht; cbn [andb]; [|apply post_ret; exact Hp].
  destruct (_ && _); [|apply post_ret; exact Hp].
  eapply post_bind; [apply random_choice_In; exact Ht|]. intros m Hin.
  apply post_ret. unfold position. cbn [row col set_energy set_position].
  destruct m as [r c]. apply Hm. exact Hin.
Qed.

Lemma predator_turn_stand (safe : Z * Z -> Prop) e p :
  (forall q, passable (grid e) q = true -> safe q) -> safe (position p) ->
  post (predator_turn e p) (fun r => safe (position (fst r))).
Proof.
  intros Hs Hp. unfold predator_turn.
  eapply post_bind; [apply get_valid_moves_candidates|]. intros moves Hm.
  eapply post_bind.
  { apply (Predator_move_stand safe); [|exact Hp].
    intros m Hin. apply Hs. apply Hm, candidates_spec in Hin. apply Hin. }
  intros p1 H1. cbv zeta.
  eapply post_weaken; [apply handle_feeding_position|].
  intros r Hr. cbv beta in Hr.
  rewrite Hr, handle_drinking_position. exact H1.
Qed.

Lemma predator_turn_same_terrain e p :
  post (predator_turn e p) (fun r => same_terrain (grid e) (grid (snd r))).
Proof.
  unfold predator_turn.
  eapply post_bind; [apply post_any|]. intros moves _.
  eapply post_bind; [apply post_any|]. intros p1 _. cbv zeta.
  apply handle_feeding_same_terrain.
Qed.

Lemma herbivore_turn_stand (safe : Z * Z -> Prop) e h new :
  (forall q, passable (grid e) q = true -> safe q) -> safe (position h) ->
  post (herbivore_turn e h new) (fun r => safe (position (fst (fst r)))).
Proof.
  intros Hs Hh. unfold herbivore_turn.
  eapply post_bind.
  { apply post_and; [apply handle_feeding_position
                    | apply handle_feeding_same_terrain]. }
  intros [h3 e3] [H3 T3]. cbn [fst snd] in H3, T3.
  eapply post_bind; [apply handle_movement_spec|].
  intros [h5 e5] [_ H5]. cbn [fst] in H5.
  rewrite handle_drinking_position, H3 in H5.
  rewrite (same_terrain_passable _ _ _ T3) in H5.
  pose proof (reproduction_loop_position (_get_same_species e5 h5) h5 new) as H6.
  change (reproduction_loop (_get_same_species e5 h5) h5 new)
    with (handle_reproduction e5 h5 new) in H6.
  destruct (handle_reproduction e5 h5 new) as [h6 new6]. cbn [fst] in H6.
  apply post_ret. unfold defecate, urinate. cbn [fst snd].
  change (safe (position h6)). rewrite H6.
  destruct H5 as [-> | H5]; [exact Hh | apply Hs; exact H5].
Qed.

Lemma ground_water (g0 g : Grid) :
  same_terrain g0 g ->
  forall q, passable g q = true -> is_water_at g0 q = false.
Proof.
  intros T q Hq. rewrite (same_terrain_passable _ _ _ T) in Hq.
  apply passable_not_water. exact Hq.
Qed.

Lemma update_herbivores_ashore g0 e :
  same_terrain g0 (grid e) ->
  Forall (fun a => sound Herbivore a /\ ashore g0 a) (herbivores e) ->
  post (update_herbivores e)
    (fun e' => same_terrain g0 (grid e') /\ Forall (ashore g0) (herbivores e')).
Proof.
  intros T Hh. eapply post_weaken.
  - apply (update_herbivores_rule
             (fun e' => same_terrain g0 (grid e'))
             (fun a => sound Herbivore a /\ ashore g0 a) (ashore g0)).
    + intros e1 l H. exact H.
    + intros h [(H1 & H2 & _) _]. split; assumption.
    + intros e1 h T1 [Hs Ha] Hd.
      destruct (handle_vital_stats_alive h Hd)
        as (_ & _ & _ & _ & _ & _ & _ & Hr & Hc & _).
      eapply post_weaken.
      * apply post_and;
          [apply (herbivore_turn_stand (fun q => is_water_at g0 q = false))
          | apply herbivore_turn_same_terrain].
        -- apply (ground_water g0 (grid e1) T1).
        -- unfold ashore, position in *. rewrite Hr, Hc. exact Ha.
      * intros r [H1 H2]. cbv beta in H1, H2. split; [exact H1|].
        eapply same_terrain_trans; eassumption.
    + exact T.
    + exact Hh.
  - intros e' (H1 & H2 & _). split; assumption.
Qed.

Lemma update_predators_ashore g0 e :
  same_terrain g0 (grid e) ->
  Forall (ashore g0) (herbivores e) -> Forall (ashore g0) (predators e) ->
  post (update_predators e)
    (fun e' => (same_terrain g0 (grid e') /\
                Forall (ashore g0) (herbivores e')) /\
               Forall (ashore g0) (predators e')).
Proof.
  intros T Hh Hp.
  apply (update_predators_rule
           (fun e' => same_terrain g0 (grid e') /\
                      Forall (ashore g0) (herbivores e'))
           (ashore g0) (ashore g0)).
  - intros e1 l H. exact H.
  - intros e1 p [T1 H1] Ha Hd.
    destruct (handle_vital_stats_alive p Hd)
      as (_ & _ & _ & _ & _ & _ & _ & Hr & Hc & _).
    eapply post_weaken.
    + apply post_and;
        [apply (predator_turn_stand (fun q => is_water_at g0 q = false))|].
      * apply (ground_water g0 (grid e1) T1).
      * unfold ashore, position in *. rewrite Hr, Hc. exact Ha.
      * apply post_and; [apply predator_turn_same_terrain|].
        apply (predator_turn_prey (ashore g0) (length (herbivores e1)));
          [exact H1 | lia].
    + intros r (Hs & Ht & Hq & _). cbv beta in Hs, Ht, Hq.
      split; [exact Hs|]. split; [|exact Hq].
      eapply same_terrain_trans; eassumption.
  - split; assumption.
  - exact Hp.
Qed.

Lemma ashore_same_terrain g g' a :
  same_terrain g g' -> ashore g a -> ashore g' a.
Proof.
  unfold ashore. intros T H. rewrite (same_terrain_water _ _ _ T). exact H.
Qed.

Lemma update_ashore sin_deg e :
  bounded_sine sin_deg -> manual_temperature_control e = false ->
  precipitation_level e <= 0 ->
  Forall (sound Herbivore) (herbivores e) ->
  Forall (ashore (grid e)) (herbivores e) ->
  Forall (ashore (grid e)) (predators e) ->
  post (update sin_deg e)
    (fun e' => Forall (ashore (grid e')) (herbivores e') /\
               Forall (ashore (grid e')) (predators e')).
Proof.
  intros Hsin Hm Hp Hs Hh Hq. unfold update.
  eapply post_bind.
  { apply post_and; [apply update_environment_mild; assumption|].
    apply (update_environment_rosters_kept (ashore (grid e))); [|exact Hq].
    intros p q H. exact H. }
  intros e1 [[_ G1] [P1 H1]]. specialize (G1 Hp).
  eapply post_bind.
  { apply post_and.
    - apply (update_herbivores_ashore (grid e)).
      + rewrite G1. apply same_terrain_refl.
      + rewrite H1, Forall_forall in *. intros a Ha.
        split; [apply Hs | apply Hh]; exact Ha.
    - apply update_herbivores_sound. rewrite H1. exact Hs. }
  intros e2 [[T2 H2] (P2 & _ & _)].
  eapply post_bind.
  { apply (update_predators_ashore (grid e)); [exact T2 | exact H2|].
    rewrite P2. exact P1. }
  intros e3 [[T3 H3] P3].
  eapply post_bind.
  { apply post_and;
      [apply grow_plants_same_terrain | apply grow_plants_rosters_kept]. }
  intros e4 [T4 [H4 P4]].
  apply post_ret. cbv zeta.
  cbn [grid herbivores predators set_cycle update_population_data
       set_population_data _update_animal_body_temperature_and_plant_nutrition
       update_plants set_plants set_predators set_herbivores].
  rewrite H4, P4.
  assert (T : same_terrain (grid e) (grid e4)).
  { eapply same_terrain_trans; eassumption. }
  split.
  - clear -H3 T. induction H3 as [|a l Ha _ IH]; simpl; constructor;
      [|exact IH].
    apply (ashore_same_terrain (grid e)); [exact T | exact Ha].
  - clear -P3 T. induction P3 as [|a l Ha _ IH]; simpl; constructor;
      [|exact IH].
    apply (ashore_same_terrain (grid e)); [exact T | exact Ha].
Qed.

Lemma run_ashore sin_deg n e :
  bounded_sine sin_deg -> manual_temperature_control e = false ->
  precipitation_level e <= 0 ->
  Forall (sound Herbivore) (herbivores e) ->
  Forall (sound Predator) (predators e) ->
  Forall (ashore (grid e)) (herbivores e) ->
  Forall (ashore (grid e)) (predators e) ->
  post (run sin_deg n e)
    (fun e' => Forall (ashore (grid e')) (herbivores e') /\
               Forall (ashore (grid e')) (predators e')).
Proof.
  intros Hsin. revert e.
  induction n as [|n IH]; intros e Hm Hp Hs Hs' Hh Hq; cbn [run].
  - apply post_ret. split; assumption.
  - eapply post_bind.
    + apply post_and; [apply update_ashore; assumption|].
      apply post_and; [apply update_setting | apply update_sound; assumption].
    + intros e1 [[A1 B1] [S1 (X1 & Y1 & _)]].
      unfold setting in S1. injection S1 as E1 E2 _ _.
      apply IH; try assumption; [congruence | lia].
Qed.

(** X20.  Without rain no animal stands in water.  In a state that a run
    reaches with a sine within [-1, 1] and a [precipitation_level] that is
    not positive, as the constructor leaves it, if no animal of the rosters
    stands on a cell of water then none does after any number of ticks: a
    move leads to land or vegetation, and without rain no cell turns into
    water. *)
Theorem animals_stay_out_of_water (sin_deg : Z -> Q) (n : nat)
    (e : Ecosystem) (g : Rng) :
  bounded_sine sin_deg -> reachable sin_deg e ->
  precipitation_level e <= 0 ->
  Forall (ashore (grid e)) (herbivores e ++ predators e) ->
  Forall (ashore (grid (fst (run sin_deg n e g))))
    (herbivores (fst (run sin_deg n e g)) ++
     predators (fst (run sin_deg n e g))).
Proof.
  intros Hsin Hr Hp Ha. apply Forall_app in Ha. destruct Ha as [Hh Hq].
  destruct (reachable_cool sin_deg e Hsin Hr) as [[Hm _] _].
  destruct (reachable_sound sin_deg e Hr) as [Hs Hs'].
  apply Forall_app.
  apply (run_ashore sin_deg n e Hsin Hm Hp Hs Hs' Hh Hq g).
Qed.

Lemma pond_world_map :
  map (map terrain_type) (grid pond_world)
  = [[water; water; sand; land; land]; [water; water; sand; land; land]] /\
  map position (herbivores pond_world) = [(0, 3)] /\
  map position (predators pond_world) = [(1, 4)] /\
  map position
    (herbivores (fst (run sin_deg_0 3 pond_world
                        (scripted [0; 1; 2; 3; 1; 2; 3; 1; 2; 3]%N))))
  = [(1, 3)] /\
  map position
    (predators (fst (run sin_deg_0 3 pond_world
                       (scripted [0; 1; 2; 3; 1; 2; 3; 1; 2; 3]%N))))
  = [(0, 4)].
Proof. vm_compute. repeat split; reflexivity. Qed.

Lemma animals_stay_out_of_water_witness :
  Forall (ashore (grid (fst (run sin_deg_0 3 pond_world
                               (scripted [0; 1; 2; 3; 1; 2; 3; 1; 2; 3]%N)))))
    (herbivores (fst (run sin_deg_0 3 pond_world
                        (scripted [0; 1; 2; 3; 1; 2; 3; 1; 2; 3]%N))) ++
     predators (fst (run sin_deg_0 3 pond_world
                       (scripted [0; 1; 2; 3; 1; 2; 3; 1; 2; 3]%N)))).
Proof.
  apply (animals_stay_out_of_water sin_deg_0 3 pond_world
           (scripted [0; 1; 2; 3; 1; 2; 3; 1; 2; 3]%N)).
  - exact bounded_sine_0.
  - exact pond_world_reachable.
  - vm_compute. discriminate.
  - vm_compute. repeat (constructor; [reflexivity|]). constructor.
Defined.
